(** * Go's runtime map (runtime/map.go): a shallow embedding and its properties

    The development models the hash table of [runtime/map.go]: the header
    [hmap], the buckets [bmap] with their overflow chains, lookup
    ([mapaccess1], [mapaccess2], [mapaccessK]), assignment ([mapassign]),
    deletion ([mapdelete]), clearing ([mapclear]), iteration ([mapiterinit],
    [mapiternext]), growth ([hashGrow], [growWork], [evacuate],
    [advanceEvacuationMark]) and creation ([makemap64], [makemap],
    [makeBucketArray]).

    Modelling conventions.
    - Unsigned machine integers are [Z] with the wrap-around written out
      ([wrap], [wrap8], [wrap16], [wrap32]); [int] values use [int_of].
    - Bucket memory is a finite map from addresses to buckets; the nil
      pointer is address [0].  A bucket array is a run of buckets
      [bucketsize] bytes apart.
    - A key or element slot is modelled by its content; for indirect keys and
      elements the slot is identified with the object it points to.
    - Every function runs in a state-and-error monad over [world]; [runtime.throw]
      is [Throw], a Go panic is [Panic], a panic raised by the key's hash
      function is [Trap]. *)

From Stdlib Require Import ZArith Lia String.
From stdpp Require Import base numbers option list gmap.

Local Open Scope Z_scope.

(** ** Constants of map.go *)

Definition bucketCntBits : Z := 3.
Definition bucketCnt : Z := Z.shiftl 1 bucketCntBits.
Definition loadFactorNum : Z := 13.
Definition loadFactorDen : Z := 2.
Definition maxKeySize : Z := 128.
Definition maxElemSize : Z := 128.

(** [dataOffset] is the offset of [v] in [struct { b bmap; v int64 }]: the
    eight tophash bytes, already aligned. *)
Definition dataOffset : Z := 8.

Definition emptyRest : Z := 0.
Definition emptyOne : Z := 1.
Definition evacuatedX : Z := 2.
Definition evacuatedY : Z := 3.
Definition evacuatedEmpty : Z := 4.
Definition minTopHash : Z := 5.

Definition iterator : Z := 1.
Definition oldIterator : Z := 2.
Definition hashWriting : Z := 4.
Definition sameSizeGrow : Z := 8.



(** The cell indexes [0 .. bucketCnt-1] in the order the loops visit them. *)
Definition cellIndexes : list nat := seq 0 (Z.to_nat bucketCnt).

Arguments cellIndexes : simpl never.

(** ** Fixed-width arithmetic *)

Definition wrap8 (x : Z) : Z := x mod 2 ^ 8.
Definition wrap16 (x : Z) : Z := x mod 2 ^ 16.
Definition wrap32 (x : Z) : Z := x mod 2 ^ 32.

(** [isEmpty] reports whether the given tophash array entry represents an
    empty bucket entry. *)
Definition isEmpty (x : Z) : bool := x <=? emptyOne.

(** ** Data model *)

(** The type descriptor [maptype], with the fields of [_type] the map code
    reads for the key, element and bucket types.  [hasher k seed r] is the
    hash of [k] under [seed]; [r] is the randomness the hash function may draw
    (the hash of a NaN), and [None] is a panic of the hash function.
    [zero_key] and [zero_elem] are what zeroed memory reads as. *)
Record maptype (K V : Type) : Type := Maptype {
  key_size : Z;
  key_ptrdata : Z;
  key_equal : K -> K -> bool;
  elem_size : Z;
  elem_ptrdata : Z;
  bucket_size : Z;
  bucket_ptrdata : Z;
  hasher : K -> Z -> Z -> option Z;
  keysize : Z;
  elemsize : Z;
  bucketsize : Z;
  indirectkey : bool;
  indirectelem : bool;
  reflexivekey : bool;
  needkeyupdate : bool;
  hashMightPanic : bool;
  zero_key : K;
  zero_elem : V
}.

Arguments Maptype {K V}.
Arguments key_size {K V}.
Arguments key_ptrdata {K V}.
Arguments key_equal {K V}.
Arguments elem_size {K V}.
Arguments elem_ptrdata {K V}.
Arguments bucket_size {K V}.
Arguments bucket_ptrdata {K V}.
Arguments hasher {K V}.
Arguments keysize {K V}.
Arguments elemsize {K V}.
Arguments bucketsize {K V}.
Arguments indirectkey {K V}.
Arguments indirectelem {K V}.
Arguments reflexivekey {K V}.
Arguments needkeyupdate {K V}.
Arguments hashMightPanic {K V}.
Arguments zero_key {K V}.
Arguments zero_elem {K V}.

(** A bucket: [bucketCnt] tophash bytes, then the keys, then the elements,
    then the overflow pointer. *)
Record bmap (K V : Type) : Type := Bmap {
  b_tophash : nat -> Z;
  b_keys : nat -> K;
  b_elems : nat -> V;
  b_overflow : Z
}.

Arguments Bmap {K V}.
Arguments b_tophash {K V}.
Arguments b_keys {K V}.
Arguments b_elems {K V}.
Arguments b_overflow {K V}.

(** [mapextra]: the overflow registries (a nil or non-nil pointer to a slice
    of bucket pointers) and the cursor of the preallocated overflow pool. *)
Record mapextra : Type := Mapextra {
  overflow : option (list Z);
  oldoverflow : option (list Z);
  nextOverflow : Z
}.

(** The header [hmap]. *)
Record hmap : Type := Hmap {
  count : Z;
  flags : Z;
  B : Z;
  noverflow : Z;
  hash0 : Z;
  buckets : Z;
  oldbuckets : Z;
  nevacuate : Z;
  extra : option mapextra
}.

(** The pointers the operations return.  [Slot b i] is the pointer the code
    has for cell [i] of bucket [b]: the address of the key or element slot
    or, when the type stores its keys or elements indirectly
    ([t.indirectkey()], [t.indirectelem()]), the pointer stored in that
    slot, whose value the buckets of this model do not record.  [ZeroVal]
    is [&zeroVal[0]] and [NilSlot] is nil. *)
Inductive slotptr : Type :=
| ZeroVal
| NilSlot
| Slot (b : Z) (i : nat).

(** The iterator [hiter].  [it_h] records whether [it.h] is set; the header
    it points to is the one of the world. *)
Record hiter : Type := Hiter {
  it_key : slotptr;
  it_elem : slotptr;
  it_h : bool;
  it_buckets : Z;
  it_bptr : Z;
  it_overflow : option (list Z);
  it_oldoverflow : option (list Z);
  it_startBucket : Z;
  it_offset : Z;
  it_wrapped : bool;
  it_B : Z;
  it_i : Z;
  it_bucket : Z;
  it_checkBucket : Z
}.

(** An evacuation destination [evacDst]: the bucket and the next free cell
    in it ([k] and [e] are the addresses of that cell's key and element). *)
Record evacDst : Type := EvacDst {
  dst_b : Z;
  dst_i : Z
}.

(** The state the map code runs in: the map variable [h] ([None] is the nil
    map), bucket memory, the allocation frontier, the random source behind
    [fastrand] and the hash functions, and the log of hash-function calls
    (latest first). *)
Record world (K V : Type) : Type := World {
  hdr : option hmap;
  heap : gmap Z (bmap K V);
  brk : Z;
  rand : nat -> Z;
  hcalls : list (K * Z)
}.

Arguments World {K V}.
Arguments hdr {K V}.
Arguments heap {K V}.
Arguments brk {K V}.
Arguments rand {K V}.
Arguments hcalls {K V}.

Inductive error : Type :=
| Throw (msg : string)
| Panic (msg : string)
| Trap
| Fault
| OutOfMemory
| Diverge.

Inductive res (W A : Type) : Type :=
| Ok (a : A) (w : W)
| Err (e : error) (w : W).

Arguments Ok {W A}.
Arguments Err {W A}.

(** ** Record updates *)

Definition set_count (v : Z) (h : hmap) : hmap :=
  Hmap v (flags h) (B h) (noverflow h) (hash0 h) (buckets h) (oldbuckets h)
       (nevacuate h) (extra h).
Definition set_flags (v : Z) (h : hmap) : hmap :=
  Hmap (count h) v (B h) (noverflow h) (hash0 h) (buckets h) (oldbuckets h)
       (nevacuate h) (extra h).
Definition set_B (v : Z) (h : hmap) : hmap :=
  Hmap (count h) (flags h) v (noverflow h) (hash0 h) (buckets h) (oldbuckets h)
       (nevacuate h) (extra h).
Definition set_noverflow (v : Z) (h : hmap) : hmap :=
  Hmap (count h) (flags h) (B h) v (hash0 h) (buckets h) (oldbuckets h)
       (nevacuate h) (extra h).
Definition set_hash0 (v : Z) (h : hmap) : hmap :=
  Hmap (count h) (flags h) (B h) (noverflow h) v (buckets h) (oldbuckets h)
       (nevacuate h) (extra h).
Definition set_buckets (v : Z) (h : hmap) : hmap :=
  Hmap (count h) (flags h) (B h) (noverflow h) (hash0 h) v (oldbuckets h)
       (nevacuate h) (extra h).
Definition set_oldbuckets (v : Z) (h : hmap) : hmap :=
  Hmap (count h) (flags h) (B h) (noverflow h) (hash0 h) (buckets h) v
       (nevacuate h) (extra h).
Definition set_nevacuate (v : Z) (h : hmap) : hmap :=
  Hmap (count h) (flags h) (B h) (noverflow h) (hash0 h) (buckets h)
       (oldbuckets h) v (extra h).
Definition set_extra (v : option mapextra) (h : hmap) : hmap :=
  Hmap (count h) (flags h) (B h) (noverflow h) (hash0 h) (buckets h)
       (oldbuckets h) (nevacuate h) v.

Definition set_overflow (v : option (list Z)) (e : mapextra) : mapextra :=
  Mapextra v (oldoverflow e) (nextOverflow e).
Definition set_oldoverflow (v : option (list Z)) (e : mapextra) : mapextra :=
  Mapextra (overflow e) v (nextOverflow e).
Definition set_nextOverflow (v : Z) (e : mapextra) : mapextra :=
  Mapextra (overflow e) (oldoverflow e) v.

(** [new(hmap)] and [new(mapextra)]: zeroed objects. *)
Definition new_hmap : hmap := Hmap 0 0 0 0 0 0 0 0 None.
Definition new_mapextra : mapextra := Mapextra None None 0.


Definition upd {A : Type} (f : nat -> A) (i : nat) (x : A) : nat -> A :=
  fun j => if Nat.eqb j i then x else f j.

Section BucketUpdates.
Context {K V : Type}.

Definition set_tophash (i : nat) (x : Z) (bm : bmap K V) : bmap K V :=
  Bmap (upd (b_tophash bm) i x) (b_keys bm) (b_elems bm) (b_overflow bm).
Definition set_key (i : nat) (k : K) (bm : bmap K V) : bmap K V :=
  Bmap (b_tophash bm) (upd (b_keys bm) i k) (b_elems bm) (b_overflow bm).
Definition set_elem (i : nat) (v : V) (bm : bmap K V) : bmap K V :=
  Bmap (b_tophash bm) (b_keys bm) (upd (b_elems bm) i v) (b_overflow bm).
Definition set_b_overflow (o : Z) (bm : bmap K V) : bmap K V :=
  Bmap (b_tophash bm) (b_keys bm) (b_elems bm) o.

Definition set_hdr (v : option hmap) (w : world K V) : world K V :=
  World v (heap w) (brk w) (rand w) (hcalls w).
Definition set_heap (v : gmap Z (bmap K V)) (w : world K V) : world K V :=
  World (hdr w) v (brk w) (rand w) (hcalls w).
Definition set_brk (v : Z) (w : world K V) : world K V :=
  World (hdr w) (heap w) v (rand w) (hcalls w).
Definition set_rand (v : nat -> Z) (w : world K V) : world K V :=
  World (hdr w) (heap w) (brk w) v (hcalls w).
Definition set_hcalls (v : list (K * Z)) (w : world K V) : world K V :=
  World (hdr w) (heap w) (brk w) (rand w) v.
End BucketUpdates.

(** ** Operations on a map of a given platform and type *)

(** [growing] reports whether h is growing. *)
Definition growing (h : hmap) : bool := negb (oldbuckets h =? 0).

(** [sameSizeGrow] reports whether the current growth is to a map of the
    same size. *)
Definition is_sameSizeGrow (h : hmap) : bool :=
  negb (Z.land (flags h) sameSizeGrow =? 0).

(** [evacuated]: the bucket's [tophash[0]] is an evacuation mark. *)
Definition evacuated {K V : Type} (b : bmap K V) : bool :=
  let h := b_tophash b O in (emptyOne <? h) && (h <? minTopHash).

(** [createOverflow] *)
Definition createOverflow (h : hmap) : hmap :=
  let h1 := match extra h with
            | None => set_extra (Some new_mapextra) h
            | Some _ => h
            end in
  match extra h1 with
  | Some e =>
      match overflow e with
      | None => set_extra (Some (set_overflow (Some []) e)) h1
      | Some _ => h1
      end
  | None => h1
  end.

(** [tooManyOverflowBuckets] reports whether noverflow buckets is too many
    for a map with [1<<B] buckets. *)
Definition tooManyOverflowBuckets (noverflow : Z) (B : Z) : bool :=
  let B := if 15 <? B then 15 else B in
  wrap16 (Z.shiftl 1 (Z.land B 15)) <=? noverflow.

(** ** A sample instantiation

    A 64-bit platform and the type [map[K]int64] for a key type of eight
    bytes whose values are the integers: a key [k >= 0] behaves like an
    ordinary number, a key [k < 0] behaves like a NaN (it does not equal
    itself and its hash is whatever the hash function draws), and hashing
    key [666] panics, as hashing an interface that holds a slice does.  The
    bucket is [8 + 8*8 + 8*8 + 8 = 144] bytes. *)

Definition demo_equal (a b : Z) : bool := (a =? b) && (0 <=? a).

Definition demo_hasher (k seed r : Z) : option Z :=
  if k =? 666 then None
  else if 0 <=? k then Some (k * 11400714819323198485 + seed)
  else Some r.

Definition demoT : maptype Z Z :=
  Maptype 8 0 demo_equal 8 0 144 0 demo_hasher 8 8 144
          false false false false true 0 0.

(** The same type with [t.bucket.ptrdata != 0], as for [map[K]*T]. *)
Definition demoPtrT : maptype Z Z :=
  Maptype 8 0 demo_equal 8 8 144 144 demo_hasher 8 8 144
          false false false false true 0 0.

Definition demo_rand (n : nat) : Z := Z.of_nat n * 7919 + 13.

(** The allocator's rounding of a large object: up to a multiple of the
    8192-byte page. *)
Definition roundup_page (sz : Z) : Z :=
  if 2 ^ 64 <=? sz + 8192 then sz else (sz + 8191) / 8192 * 8192.

Definition demo_maxAlloc : Z := 2 ^ 48.


(** A bucket holding key [1] with element [100] in cell 0, for a hash seed
    of [13]. *)
Definition demo_bucket : bmap Z Z :=
  Bmap (fun i => if Nat.eqb i 0 then 158 else 0)
       (fun i => if Nat.eqb i 0 then 1 else 0)
       (fun i => if Nat.eqb i 0 then 100 else 0) 0.

(** A one-bucket map that holds key [1], seen at a moment when a writer has
    set [hashWriting]. *)
Definition demo_world_writing : world Z Z :=
  World (Some (Hmap 1 hashWriting 0 0 13 4096 0 0 None))
        {[ 4096 := demo_bucket ]} 4240 demo_rand [].

(** A one-bucket map whose bucket is full: keys [0 .. 7], key [i] with
    element [100 * i], hash seed [13]. *)
Definition demo_bucket_full : bmap Z Z :=
  Bmap (fun i => nth i [5; 158; 60; 218; 120; 23; 181; 83] 0)
       (fun i => nth i [0; 1; 2; 3; 4; 5; 6; 7] 0)
       (fun i => nth i [0; 100; 200; 300; 400; 500; 600; 700] 0) 0.

Definition demo_world_full : world Z Z :=
  World (Some (Hmap 8 0 0 0 13 4096 0 0 None))
        {[ 4096 := demo_bucket_full ]} 4240 demo_rand [].

(** The hash of key [8] under seed [13]. *)
Definition demo_hash8 : Z := 17418742259747381429.

(** The same map with no writer at work. *)
Definition demo_world_idle : world Z Z :=
  World (Some (Hmap 1 0 0 0 13 4096 0 0 None))
        {[ 4096 := demo_bucket ]} 4240 demo_rand [].

(** The hash of key [7] under seed [13]. *)
Definition demo_hash7 : Z := (7 * 11400714819323198485 + 13) mod 2 ^ 64.

(** The map of [demo_world_idle] with one overflow bucket counted in
    [noverflow]. *)
Definition demo_world_crowded : world Z Z :=
  World (Some (Hmap 1 0 0 1 13 4096 0 0 None))
        {[ 4096 := demo_bucket ]} 4240 demo_rand [].




(** A 32-bit platform, with the type [map[K]int64] of the sample: the
    bucket is [8 + 8*8 + 8*8 + 4 = 140] bytes. *)
Definition demo_maxAlloc32 : Z := 2 ^ 32 - 1.

Definition roundup_page32 (sz : Z) : Z :=
  if 2 ^ 32 <=? sz + 8192 then sz else (sz + 8191) / 8192 * 8192.

Definition demoT32 : maptype Z Z :=
  Maptype 8 0 demo_equal 8 0 140 0 demo_hasher 8 8 140
          false false false false true 0 0.

Section Runtime.
Context {K V : Type}.

(** The platform: [sys.PtrSize], the allocator's [maxAlloc] and
    [roundupsize], and the address of [zeroVal].  They are declared outside
    map.go and are parameters here. *)
Variable PtrSize : Z.
Variable maxAlloc : Z.
Variable roundupsize : Z -> Z.
Variable zeroValAddr : Z.

(** The type descriptor [t *maptype] every operation receives. *)
Variable t : maptype K V.

Definition M (A : Type) : Type := world K V -> res (world K V) A.

Definition ret {A : Type} (a : A) : M A := fun w => Ok a w.

Definition bind {A B' : Type} (m : M A) (f : A -> M B') : M B' :=
  fun w => match m w with
           | Ok a w' => f a w'
           | Err e w' => Err e w'
           end.

Definition fail {A : Type} (e : error) : M A := fun w => Err e w.

(** [throw]: a fatal error of the runtime. *)
Definition throw {A : Type} (msg : string) : M A := fail (Throw msg).

Notation "'do' x <- m ; k" := (bind m (fun x => k))
  (at level 10, x name, m at level 100, k at level 200).
Notation "'do' ' p <- m ; k" := (bind m (fun x => let 'p := x in k))
  (at level 10, p pattern, m at level 100, k at level 200).
Notation "m ;; k" := (bind m (fun _ => k))
  (at level 100, k at level 200, right associativity).

(** *** Machine words *)

Definition wordBits : Z := PtrSize * 8.

(** Truncation to [uintptr]. *)
Definition wrap (x : Z) : Z := x mod 2 ^ wordBits.

(** Truncation to [int]. *)
Definition int_of (x : Z) : Z :=
  (x + 2 ^ (wordBits - 1)) mod 2 ^ wordBits - 2 ^ (wordBits - 1).

(** Truncation to [int64]. *)
Definition int64_of (x : Z) : Z := (x + 2 ^ 63) mod 2 ^ 64 - 2 ^ 63.

(** [noCheck]: sentinel bucket ID for iterator checks. *)
Definition noCheck : Z := Z.shiftl 1 (8 * PtrSize) - 1.

(** [add(p, x)]: pointer arithmetic. *)
Definition add (p x : Z) : Z := wrap (p + x).

(** [bucketShift] returns [1<<b]. *)
Definition bucketShift (b : Z) : Z :=
  wrap (Z.shiftl 1 (Z.land b (PtrSize * 8 - 1))).

(** [bucketMask] returns [1<<b - 1]. *)
Definition bucketMask (b : Z) : Z := wrap (bucketShift b - 1).

(** [tophash] calculates the tophash value for hash. *)
Definition tophash (hash : Z) : Z :=
  let top := wrap8 (Z.shiftr hash (PtrSize * 8 - 8)) in
  if top <? minTopHash then wrap8 (top + minTopHash) else top.

(** [overLoadFactor] reports whether count items placed in [1<<B] buckets
    is over loadFactor. *)
Definition overLoadFactor (count : Z) (B : Z) : bool :=
  (bucketCnt <? count) &&
  (wrap (loadFactorNum * (bucketShift B / loadFactorDen)) <? wrap count).

(** [noldbuckets] calculates the number of buckets prior to the current
    map growth. *)
Definition noldbuckets (h : hmap) : Z :=
  let oldB := if is_sameSizeGrow h then B h else wrap8 (B h - 1) in
  bucketShift oldB.

(** [oldbucketmask] provides a mask that can be applied to calculate
    [n % noldbuckets()]. *)
Definition oldbucketmask (h : hmap) : Z := wrap (noldbuckets h - 1).

(** The address of bucket [i] of the array at [base]:
    [add(base, i*uintptr(t.bucketsize))]. *)
Definition bucketAt (base i : Z) : Z := add base (wrap (i * bucketsize t)).


(** The address of a pointer to a key, in the same way. *)
Definition key_addr (p : slotptr) : option Z :=
  match p with
  | ZeroVal => Some zeroValAddr
  | NilSlot => Some 0
  | Slot b i =>
      if indirectkey t then None
      else Some (add b (dataOffset + Z.of_nat i * keysize t))
  end.

(** *** Access to the world *)

Definition get_world : M (world K V) := fun w => Ok w w.

(** The header behind the pointer [h]; dereferencing the nil map faults. *)
Definition geth : M hmap :=
  fun w => match hdr w with
           | Some h => Ok h w
           | None => Err Fault w
           end.

Definition seth (h : hmap) : M unit := fun w => Ok tt (set_hdr (Some h) w).

Definition updh (f : hmap -> hmap) : M unit := do h <- geth; seth (f h).

(** Reading and writing the bucket at an address; an address that holds
    no bucket faults. *)
Definition load (b : Z) : M (bmap K V) :=
  fun w => match heap w !! b with
           | Some bm => Ok bm w
           | None => Err Fault w
           end.

Definition store (b : Z) (bm : bmap K V) : M unit :=
  fun w => match heap w !! b with
           | Some _ => Ok tt (set_heap (<[b := bm]> (heap w)) w)
           | None => Err Fault w
           end.

Definition updb (b : Z) (f : bmap K V -> bmap K V) : M unit :=
  do bm <- load b; store b (f bm).

(** [b.overflow(t)] and [b.setoverflow(t, ovf)]. *)
Definition bmap_overflow (b : Z) : M Z := do bm <- load b; ret (b_overflow bm).
Definition setoverflow (b ovf : Z) : M unit := updb b (set_b_overflow ovf).

(** [fastrand()]: the next [uint32] of the random source. *)
Definition fastrand : M Z :=
  fun w => Ok (wrap32 (rand w O)) (set_rand (fun n => rand w (S n)) w).

(** [t.hasher(key, seed)]: the call is logged, draws from the random
    source, and either yields a [uintptr] or panics. *)
Definition call_hasher (key : K) (seed : Z) : M Z :=
  fun w =>
    let w' := set_hcalls ((key, seed) :: hcalls w)
                (set_rand (fun n => rand w (S n)) w) in
    match hasher t key seed (rand w O) with
    | Some x => Ok (wrap x) w'
    | None => Err Trap w'
    end.

(** Modelled from the spec: the allocator ([newobject], [newarray],
    [memclrHasPointers], [memclrNoHeapPointers]) is not under src/.  Buckets
    are handed out zeroed at increasing addresses, [n] buckets
    [t.bucketsize] apart for an array; a request that does not fit below
    [maxAlloc] is refused. *)
Definition zero_bmap : bmap K V :=
  Bmap (fun _ => 0) (fun _ => zero_key t) (fun _ => zero_elem t) 0.

Fixpoint fill_buckets (H : gmap Z (bmap K V)) (base : Z) (n : nat)
  : gmap Z (bmap K V) :=
  match n with
  | O => H
  | S n' => <[base + Z.of_nat n' * bucketsize t := zero_bmap]>
              (fill_buckets H base n')
  end.

Definition newarray (n : Z) : M Z :=
  fun w =>
    if (n <? 1) || (maxAlloc <? brk w + n * bucket_size t)
    then Err OutOfMemory w
    else Ok (brk w)
            (set_brk (brk w + n * bucket_size t)
               (set_heap (fill_buckets (heap w) (brk w) (Z.to_nat n)) w)).

Definition newobject : M Z := newarray 1.

(** Clearing the [n] buckets of the array at [base]. *)
Definition memclr_buckets (base n : Z) : M unit :=
  fun w => Ok tt (set_heap (fill_buckets (heap w) base (Z.to_nat n)) w).

(** Modelled from the spec: [math.MulUintptr] is not under src/; it returns
    the product and whether it overflowed a [uintptr]. *)
Definition MulUintptr (a b : Z) : Z * bool :=
  (wrap (a * b), 2 ^ wordBits <=? a * b).

(** Loops whose number of rounds has no bound in the text run [2^n]
    rounds at most; [None] asks for another round. *)
Fixpoint retry {A : Type} (n : nat) (body : M (option A)) : M (option A) :=
  match n with
  | O => body
  | S n' =>
      do r <- retry n' body;
      match r with
      | Some a => ret (Some a)
      | None => retry n' body
      end
  end.

(** The fuel of a walk along an overflow chain: buckets lie at distinct
    addresses below the allocation frontier, so a longer walk is a cycle. *)
Definition walk_fuel (w : world K V) : nat := Z.to_nat (brk w).

(** *** Overflow buckets *)

(** [incrnoverflow] increments [h.noverflow]: exactly while [B < 16], and
    with probability [1/(1<<(h.B-15))] above. *)
Definition incrnoverflow : M unit :=
  do h <- geth;
  if B h <? 16 then
    seth (set_noverflow (wrap16 (noverflow h + 1)) h)
  else
    let mask := wrap32 (wrap32 (Z.shiftl 1 (B h - 15)) - 1) in
    do r <- fastrand;
    if Z.land r mask =? 0 then
      updh (fun h => set_noverflow (wrap16 (noverflow h + 1)) h)
    else ret tt.

(** [newoverflow]: the next bucket of the preallocated pool if there is
    one, a freshly allocated bucket otherwise; it is linked behind [b]. *)
Definition newoverflow (b : Z) : M Z :=
  do h <- geth;
  do ovf <-
    match extra h with
    | Some e =>
        if negb (nextOverflow e =? 0) then
          let ovf := nextOverflow e in
          do o <- bmap_overflow ovf;
          if o =? 0 then
            seth (set_extra
                    (Some (set_nextOverflow (add ovf (bucketsize t)) e)) h);;
            ret ovf
          else
            setoverflow ovf 0;;
            seth (set_extra (Some (set_nextOverflow 0 e)) h);;
            ret ovf
        else newobject
    | None => newobject
    end;
  incrnoverflow;;
  (if bucket_ptrdata t =? 0 then
     updh createOverflow;;
     updh (fun h =>
             match extra h with
             | Some e =>
                 set_extra
                   (Some (set_overflow
                            (Some (default [] (overflow e) ++ [ovf])) e)) h
             | None => h
             end)
   else ret tt);;
  setoverflow b ovf;;
  ret ovf.

(** *** Creation *)

(** [makeBucketArray] initializes a backing array for map buckets;
    [dirtyalloc = 0] asks for a new array, another value is cleared and
    reused.  It returns the array and the first preallocated overflow
    bucket, or nil.  [nbucketsFor b] is the value of its variable [nbuckets]:
    [1<<b] buckets, and for [b >= 4] the overflow buckets added to them,
    adjusted to the size the allocator rounds the request to. *)
Definition nbucketsFor (b : Z) : Z :=
  let base := bucketShift b in
  if 4 <=? b then
    let nbuckets := wrap (base + bucketShift (wrap8 (b - 4))) in
    let sz := wrap (bucket_size t * nbuckets) in
    let up := roundupsize sz in
    if negb (up =? sz) then up / bucket_size t else nbuckets
  else base.

Definition makeBucketArray (b : Z) (dirtyalloc : Z) : M (Z * Z) :=
  let base := bucketShift b in
  let nbuckets := nbucketsFor b in
  do bkts <-
    (if dirtyalloc =? 0 then newarray (int_of nbuckets)
     else memclr_buckets dirtyalloc nbuckets;; ret dirtyalloc);
  if negb (base =? nbuckets) then
    let nextOverflow := add bkts (wrap (base * bucketsize t)) in
    let last := add bkts (wrap (wrap (nbuckets - 1) * bucketsize t)) in
    setoverflow last bkts;;
    ret (bkts, nextOverflow)
  else ret (bkts, 0).

(** The loop [for overLoadFactor(hint, B) { B++ }] of [makemap]; [B] is a
    [uint8], so after 256 rounds it has run through every value. *)
Fixpoint findB (fuel : nat) (hint : Z) (b : Z) : option Z :=
  match fuel with
  | O => None
  | S fuel' =>
      if overLoadFactor hint b then findB fuel' hint (wrap8 (b + 1))
      else Some b
  end.

(** [makemap] implements Go map creation for [make(map[k]v, hint)]; the
    header [h] it is given is the map variable of the world. *)
Definition makemap (hint : Z) : M unit :=
  let '(mem, overflow) := MulUintptr (wrap hint) (bucket_size t) in
  let hint := if overflow || (maxAlloc <? mem) then 0 else hint in
  do w <- get_world;
  let h := match hdr w with None => new_hmap | Some h => h end in
  seth h;;
  do r <- fastrand;
  updh (set_hash0 r);;
  match findB 256 hint 0 with
  | None => fail Diverge
  | Some b =>
      updh (set_B b);;
      if negb (b =? 0) then
        do '(bkts, nextOverflow) <- makeBucketArray b 0;
        updh (set_buckets bkts);;
        if negb (nextOverflow =? 0) then
          updh (set_extra (Some (set_nextOverflow nextOverflow new_mapextra)))
        else ret tt
      else ret tt
  end.

(** [makemap64]: a hint that does not fit an [int] becomes 0. *)
Definition makemap64 (hint : Z) : M unit :=
  let hint := if negb (int64_of (int_of hint) =? hint) then 0 else hint in
  makemap (int_of hint).

(** [makemap_small] *)
Definition makemap_small : M unit :=
  seth new_hmap;;
  do r <- fastrand;
  updh (set_hash0 r).

(** *** Lookup *)

(** The outcome of scanning the cells of one bucket for a key. *)
Inductive probe : Type :=
| Hit (i : nat)
| Stop
| Next.

(** The inner loop of [mapaccess1], [mapaccess2], [mapaccessK] and of the
    search of [mapdelete]. *)
Fixpoint probe_cells (bm : bmap K V) (key : K) (top : Z) (cells : list nat)
  : probe :=
  match cells with
  | [] => Next
  | i :: cells' =>
      if negb (b_tophash bm i =? top) then
        if b_tophash bm i =? emptyRest then Stop
        else probe_cells bm key top cells'
      else if key_equal t key (b_keys bm i) then Hit i
      else probe_cells bm key top cells'
  end.

(** [bucketloop]: the walk along the bucket and its overflow chain. *)
Fixpoint bucketloop (fuel : nat) (b : Z) (key : K) (top : Z)
  : M (option (Z * nat)) :=
  match fuel with
  | O => fail Diverge
  | S fuel' =>
      if b =? 0 then ret None
      else
        do bm <- load b;
        match probe_cells bm key top cellIndexes with
        | Hit i => ret (Some (b, i))
        | Stop => ret None
        | Next => bucketloop fuel' (b_overflow bm) key top
        end
  end.

(** The part the three lookups share, from the hash to the end of the
    walk: the bucket of the current array, or the one of the old array while
    it is not evacuated. *)
Definition lookup (h : hmap) (key : K) : M (option (Z * nat)) :=
  do hash <- call_hasher key (hash0 h);
  let m := bucketMask (B h) in
  let b := bucketAt (buckets h) (Z.land hash m) in
  do b <-
    (let c := oldbuckets h in
     if negb (c =? 0) then
       let m := if negb (is_sameSizeGrow h) then Z.shiftr m 1 else m in
       let oldb := bucketAt c (Z.land hash m) in
       do obm <- load oldb;
       if negb (evacuated obm) then ret oldb else ret b
     else ret b);
  let top := tophash hash in
  do w <- get_world;
  bucketloop (walk_fuel w) b key top.

(** The early return of the lookups on a nil or empty map. *)
Definition lookup_empty (key : K) : M unit :=
  if hashMightPanic t then call_hasher key 0;; ret tt else ret tt.

(** [mapaccess1] returns a pointer to [h[key]]. *)
Definition mapaccess1 (key : K) : M slotptr :=
  do w <- get_world;
  match hdr w with
  | None => lookup_empty key;; ret ZeroVal
  | Some h =>
      if count h =? 0 then lookup_empty key;; ret ZeroVal
      else if negb (Z.land (flags h) hashWriting =? 0) then
        throw "concurrent map read and map write"
      else
        do r <- lookup h key;
        match r with
        | Some (b, i) => ret (Slot b i)
        | None => ret ZeroVal
        end
  end.

Definition mapaccess2 (key : K) : M (slotptr * bool) :=
  do w <- get_world;
  match hdr w with
  | None => lookup_empty key;; ret (ZeroVal, false)
  | Some h =>
      if count h =? 0 then lookup_empty key;; ret (ZeroVal, false)
      else if negb (Z.land (flags h) hashWriting =? 0) then
        throw "concurrent map read and map write"
      else
        do r <- lookup h key;
        match r with
        | Some (b, i) => ret (Slot b i, true)
        | None => ret (ZeroVal, false)
        end
  end.

(** [mapaccessK] returns both key and elem.  Used by map iterator. *)
Definition mapaccessK (key : K) : M (slotptr * slotptr) :=
  do w <- get_world;
  match hdr w with
  | None => ret (NilSlot, NilSlot)
  | Some h =>
      if count h =? 0 then ret (NilSlot, NilSlot)
      else
        do r <- lookup h key;
        match r with
        | Some (b, i) => ret (Slot b i, Slot b i)
        | None => ret (NilSlot, NilSlot)
        end
  end.

Definition mapaccess1_fat (key : K) (zero : slotptr) : M slotptr :=
  do e <- mapaccess1 key;
  match e with
  | ZeroVal => ret zero
  | _ => ret e
  end.

Definition mapaccess2_fat (key : K) (zero : slotptr) : M (slotptr * bool) :=
  do e <- mapaccess1 key;
  match e with
  | ZeroVal => ret (zero, false)
  | _ => ret (e, true)
  end.

(** *** Growth *)

(** [hashGrow]: if we've hit the load factor, get bigger; otherwise there
    are too many overflow buckets, so keep the same number of buckets and
    "grow" laterally.  No entry is moved here. *)
Definition hashGrow : M unit :=
  do h <- geth;
  let bigger :=
    if negb (overLoadFactor (int_of (count h + 1)) (B h)) then 0 else 1 in
  (if negb (overLoadFactor (int_of (count h + 1)) (B h)) then
     updh (fun h => set_flags (Z.lor (flags h) sameSizeGrow) h)
   else ret tt);;
  do h <- geth;
  let oldbuckets := buckets h in
  do '(newbuckets, nextOverflow) <- makeBucketArray (wrap8 (B h + bigger)) 0;
  do h <- geth;
  let flags0 := Z.ldiff (flags h) (Z.lor iterator oldIterator) in
  let flags1 := if negb (Z.land (flags h) iterator =? 0)
                then Z.lor flags0 oldIterator else flags0 in
  seth (set_noverflow 0
          (set_nevacuate 0
             (set_buckets newbuckets
                (set_oldbuckets oldbuckets
                   (set_flags flags1
                      (set_B (wrap8 (B h + bigger)) h))))));;
  do h <- geth;
  (match extra h with
   | Some e =>
       match overflow e with
       | Some ov =>
           match oldoverflow e with
           | Some _ => throw "oldoverflow is not nil"
           | None =>
               seth (set_extra
                       (Some (set_overflow None
                                (set_oldoverflow (Some ov) e))) h)
           end
       | None => ret tt
       end
   | None => ret tt
   end);;
  if negb (nextOverflow =? 0) then
    updh (fun h =>
            let e := match extra h with
                     | None => new_mapextra
                     | Some e => e
                     end in
            set_extra (Some (set_nextOverflow nextOverflow e)) h)
  else ret tt.

(** [bucketEvacuated]: whether bucket [bucket] of the old array has been
    evacuated. *)
Definition bucketEvacuated (bucket : Z) : M bool :=
  do h <- geth;
  do bm <- load (bucketAt (oldbuckets h) bucket);
  ret (evacuated bm).

(** The loop of [advanceEvacuationMark]; the mark is [n] increments away
    from [stop]. *)
Fixpoint advance_loop (n : nat) (stop : Z) : M unit :=
  match n with
  | O => ret tt
  | S n' =>
      do h <- geth;
      if negb (nevacuate h =? stop) then
        do ev <- bucketEvacuated (nevacuate h);
        if ev then
          seth (set_nevacuate (wrap (nevacuate h + 1)) h);;
          advance_loop n' stop
        else ret tt
      else ret tt
  end.

(** [advanceEvacuationMark]; [newbit] is the number of old buckets. *)
Definition advanceEvacuationMark (newbit : Z) : M unit :=
  updh (fun h => set_nevacuate (wrap (nevacuate h + 1)) h);;
  do h <- geth;
  let stop := wrap (nevacuate h + 1024) in
  let stop := if newbit <? stop then newbit else stop in
  advance_loop (Z.to_nat (wrap (stop - nevacuate h))) stop;;
  do h <- geth;
  if nevacuate h =? newbit then
    seth (set_oldbuckets 0 h);;
    updh (fun h =>
            match extra h with
            | Some e => set_extra (Some (set_oldoverflow None e)) h
            | None => h
            end);;
    updh (fun h => set_flags (Z.ldiff (flags h) sameSizeGrow) h)
  else ret tt.

(** The evacuation decision for one occupied cell of a doubling grow, from
    the cell's tophash, its key and the key's hash just computed: the
    half ([0] is x, [1] is y) and the tophash the entry takes along. *)
Definition evacuate_decide (h : hmap) (newbit : Z) (top : Z) (k2 : K)
           (hash : Z) : Z * Z :=
  if negb (Z.land (flags h) iterator =? 0) && negb (reflexivekey t)
     && negb (key_equal t k2 k2)
  then (Z.land top 1, tophash hash)
  else if negb (Z.land hash newbit =? 0) then (1, top)
  else (0, top).

(** One round of the inner loop of [evacuate]: cell [i] of the old bucket
    [b], with the two destinations. *)
Definition evacuate_cell (newbit : Z) (b : Z) (xy : evacDst * evacDst)
           (i : nat) : M (evacDst * evacDst) :=
  do bm <- load b;
  let top := b_tophash bm i in
  if isEmpty top then
    store b (set_tophash i evacuatedEmpty bm);;
    ret xy
  else if top <? minTopHash then throw "bad map state"
  else
    let k2 := b_keys bm i in
    do h <- geth;
    do '(useY, top) <-
      (if negb (is_sameSizeGrow h) then
         do hash <- call_hasher k2 (hash0 h);
         ret (evacuate_decide h newbit top k2 hash)
       else ret (0, top));
    if negb (evacuatedX + 1 =? evacuatedY)
       || negb (Z.lxor evacuatedX 1 =? evacuatedY)
    then throw "bad evacuatedN"
    else
      updb b (set_tophash i (evacuatedX + useY));;
      let dst := if useY =? 0 then fst xy else snd xy in
      do dst <-
        (if dst_i dst =? bucketCnt then
           do nb <- newoverflow (dst_b dst);
           ret (EvacDst nb 0)
         else ret dst);
      let j := Z.to_nat (Z.land (dst_i dst) (bucketCnt - 1)) in
      updb (dst_b dst)
           (fun d => set_elem j (b_elems bm i)
                       (set_key j k2 (set_tophash j top d)));;
      let dst := EvacDst (dst_b dst) (dst_i dst + 1) in
      ret (if useY =? 0 then (dst, snd xy) else (fst xy, dst)).

(** The inner loop of [evacuate] over the cells of the old bucket [b]. *)
Fixpoint evacuate_cells (newbit : Z) (b : Z) (xy : evacDst * evacDst)
         (cells : list nat) : M (evacDst * evacDst) :=
  match cells with
  | [] => ret xy
  | i :: cells' =>
      do xy <- evacuate_cell newbit b xy i;
      evacuate_cells newbit b xy cells'
  end.

(** The outer loop of [evacuate] along the old bucket's chain. *)
Fixpoint evacuate_chain (fuel : nat) (newbit : Z) (b : Z)
         (xy : evacDst * evacDst) : M unit :=
  match fuel with
  | O => fail Diverge
  | S fuel' =>
      if b =? 0 then ret tt
      else
        do xy <- evacuate_cells newbit b xy cellIndexes;
        do o <- bmap_overflow b;
        evacuate_chain fuel' newbit o xy
  end.

(** [evacuate] moves the entries of old bucket [oldbucket] to the new
    array. *)
Definition evacuate (oldbucket : Z) : M unit :=
  do h <- geth;
  let b := bucketAt (oldbuckets h) oldbucket in
  let newbit := noldbuckets h in
  do bm <- load b;
  (if negb (evacuated bm) then
     let x := EvacDst (bucketAt (buckets h) oldbucket) 0 in
     let y := if negb (is_sameSizeGrow h)
              then EvacDst (bucketAt (buckets h) (wrap (oldbucket + newbit))) 0
              else EvacDst 0 0 in
     do w <- get_world;
     evacuate_chain (walk_fuel w) newbit b (x, y);;
     do h <- geth;
     if (Z.land (flags h) oldIterator =? 0) && negb (bucket_ptrdata t =? 0)
     then
       updb (bucketAt (oldbuckets h) oldbucket)
            (fun bm => Bmap (b_tophash bm) (fun _ => zero_key t)
                            (fun _ => zero_elem t) 0)
     else ret tt
   else ret tt);;
  do h <- geth;
  if oldbucket =? nevacuate h then advanceEvacuationMark newbit
  else ret tt.

(** [growWork] evacuates the old bucket of the bucket about to be used, and
    one more to make progress on growing. *)
Definition growWork (bucket : Z) : M unit :=
  do h <- geth;
  evacuate (Z.land bucket (oldbucketmask h));;
  do h <- geth;
  if growing h then evacuate (nevacuate h) else ret tt.

(** *** Assignment *)

(** The outcome of scanning one bucket in [mapassign]: the cell that holds
    the key, or the first empty cell seen so far ([inserti]) together with
    whether the walk ends here. *)
Inductive assign_probe : Type :=
| AHit (i : nat)
| AStop (inserti : option (Z * nat))
| ANext (inserti : option (Z * nat)).

(** The inner loop of [mapassign]. *)
Fixpoint assign_cells (b : Z) (bm : bmap K V) (key : K) (top : Z)
         (inserti : option (Z * nat)) (cells : list nat) : assign_probe :=
  match cells with
  | [] => ANext inserti
  | i :: cells' =>
      if negb (b_tophash bm i =? top) then
        let inserti :=
          if isEmpty (b_tophash bm i)
             && match inserti with None => true | Some _ => false end
          then Some (b, i) else inserti in
        if b_tophash bm i =? emptyRest then AStop inserti
        else assign_cells b bm key top inserti cells'
      else if negb (key_equal t key (b_keys bm i)) then
        assign_cells b bm key top inserti cells'
      else AHit i
  end.

(** The outer loop of [mapassign]: the cell of the key if there is one,
    otherwise [inserti] and the bucket the walk ended in. *)
Fixpoint assign_chain (fuel : nat) (b : Z) (key : K) (top : Z)
         (inserti : option (Z * nat))
  : M (option (Z * nat) * option (Z * nat) * Z) :=
  match fuel with
  | O => fail Diverge
  | S fuel' =>
      do bm <- load b;
      match assign_cells b bm key top inserti cellIndexes with
      | AHit i => ret (Some (b, i), inserti, b)
      | AStop inserti => ret (None, inserti, b)
      | ANext inserti =>
          let ovf := b_overflow bm in
          if ovf =? 0 then ret (None, inserti, b)
          else assign_chain fuel' ovf key top inserti
      end
  end.

(** One pass of [mapassign] from the label [again]; [None] is
    [goto again]. *)
Definition mapassign_again (key : K) (hash : Z) : M (option (Z * nat)) :=
  do h <- geth;
  let bucket := Z.land hash (bucketMask (B h)) in
  (if growing h then growWork bucket else ret tt);;
  do h <- geth;
  let b := bucketAt (buckets h) bucket in
  let top := tophash hash in
  do w <- get_world;
  do '(found, inserti, b) <- assign_chain (walk_fuel w) b key top None;
  match found with
  | Some (b, i) =>
      (if needkeyupdate t then updb b (set_key i key) else ret tt);;
      ret (Some (b, i))
  | None =>
      do h <- geth;
      if negb (growing h)
         && (overLoadFactor (int_of (count h + 1)) (B h)
             || tooManyOverflowBuckets (noverflow h) (B h))
      then hashGrow;; ret None
      else
        do '(ib, ii) <-
          match inserti with
          | None => do newb <- newoverflow b; ret (newb, O)
          | Some s => ret s
          end;
        updb ib (fun bm =>
                   let bm := if indirectelem t
                             then set_elem ii (zero_elem t) bm else bm in
                   set_tophash ii top (set_key ii key bm));;
        updh (fun h => set_count (count h + 1) h);;
        ret (Some (ib, ii))
  end.

(** [mapassign]: like [mapaccess], but allocates a slot for the key if it
    is not present in the map. *)
Definition mapassign (key : K) : M slotptr :=
  do w <- get_world;
  match hdr w with
  | None => fail (Panic "assignment to entry in nil map")
  | Some h =>
      if negb (Z.land (flags h) hashWriting =? 0) then
        throw "concurrent map writes"
      else
        do hash <- call_hasher key (hash0 h);
        updh (fun h => set_flags (Z.lxor (flags h) hashWriting) h);;
        do h <- geth;
        (if buckets h =? 0 then
           do nb <- newobject; updh (set_buckets nb)
         else ret tt);;
        do r <- retry (Z.to_nat wordBits) (mapassign_again key hash);
        match r with
        | None => fail Diverge
        | Some (b, i) =>
            do h <- geth;
            if Z.land (flags h) hashWriting =? 0 then
              throw "concurrent map writes"
            else
              seth (set_flags (Z.ldiff (flags h) hashWriting) h);;
              ret (Slot b i)
        end
  end.

(** *** Deletion *)

(** [find_prev]: the bucket of the chain from [b] whose overflow pointer is
    [c] ([for b = bOrig; b.overflow(t) != c; b = b.overflow(t) {}]). *)
Fixpoint find_prev (fuel : nat) (b c : Z) : M Z :=
  match fuel with
  | O => fail Diverge
  | S fuel' =>
      do o <- bmap_overflow b;
      if negb (o =? c) then find_prev fuel' o c else ret b
  end.

(** The loop of [mapdelete] that turns the [emptyOne] cells the chain now
    ends in into [emptyRest], from cell [i] of [b] backwards. *)
Fixpoint mark_emptyRest (fuel : nat) (bOrig b : Z) (i : nat) : M unit :=
  match fuel with
  | O => fail Diverge
  | S fuel' =>
      updb b (set_tophash i emptyRest);;
      do w <- get_world;
      do nxt <-
        (if Nat.eqb i 0 then
           if b =? bOrig then ret None
           else
             do c <- find_prev (walk_fuel w) bOrig b;
             ret (Some (c, Z.to_nat (bucketCnt - 1)))
         else ret (Some (b, Nat.pred i)));
      match nxt with
      | None => ret tt
      | Some (b, i) =>
          do bm <- load b;
          if negb (b_tophash bm i =? emptyOne) then ret tt
          else mark_emptyRest fuel' bOrig b i
      end
  end.

(** What [mapdelete] does once the search has found the key in cell [i]
    of [b]. *)
Definition delete_cell (bOrig b : Z) (i : nat) : M unit :=
  updb b (fun bm =>
            let bm := if indirectkey t || negb (key_ptrdata t =? 0)
                      then set_key i (zero_key t) bm else bm in
            set_tophash i emptyOne (set_elem i (zero_elem t) bm));;
  do bm <- load b;
  do notLast <-
    (if Z.of_nat i =? bucketCnt - 1 then
       if negb (b_overflow bm =? 0) then
         do obm <- load (b_overflow bm);
         ret (negb (b_tophash obm O =? emptyRest))
       else ret false
     else ret (negb (b_tophash bm (S i) =? emptyRest)));
  (if notLast then ret tt
   else
     do w <- get_world;
     mark_emptyRest (Z.to_nat bucketCnt * walk_fuel w) bOrig b i);;
  updh (fun h => set_count (count h - 1) h).

Definition mapdelete (key : K) : M unit :=
  do w <- get_world;
  match hdr w with
  | None => lookup_empty key
  | Some h =>
      if count h =? 0 then lookup_empty key
      else if negb (Z.land (flags h) hashWriting =? 0) then
        throw "concurrent map writes"
      else
        do hash <- call_hasher key (hash0 h);
        updh (fun h => set_flags (Z.lxor (flags h) hashWriting) h);;
        do h <- geth;
        let bucket := Z.land hash (bucketMask (B h)) in
        (if growing h then growWork bucket else ret tt);;
        do h <- geth;
        let b := bucketAt (buckets h) bucket in
        let bOrig := b in
        let top := tophash hash in
        do w <- get_world;
        do r <- bucketloop (walk_fuel w) b key top;
        (match r with
         | Some (b, i) => delete_cell bOrig b i
         | None => ret tt
         end);;
        do h <- geth;
        if Z.land (flags h) hashWriting =? 0 then
          throw "concurrent map writes"
        else seth (set_flags (Z.ldiff (flags h) hashWriting) h)
  end.

(** *** Iteration *)

Definition set_it_result (k e : slotptr) (it : hiter) : hiter :=
  Hiter k e (it_h it) (it_buckets it) (it_bptr it) (it_overflow it)
        (it_oldoverflow it) (it_startBucket it) (it_offset it)
        (it_wrapped it) (it_B it) (it_i it) (it_bucket it)
        (it_checkBucket it).

Definition set_it_wrapped (v : bool) (it : hiter) : hiter :=
  Hiter (it_key it) (it_elem it) (it_h it) (it_buckets it) (it_bptr it)
        (it_overflow it) (it_oldoverflow it) (it_startBucket it)
        (it_offset it) v (it_B it) (it_i it) (it_bucket it)
        (it_checkBucket it).

Definition set_it_position (bucket bptr i checkBucket : Z) (it : hiter)
  : hiter :=
  Hiter (it_key it) (it_elem it) (it_h it) (it_buckets it) bptr
        (it_overflow it) (it_oldoverflow it) (it_startBucket it)
        (it_offset it) (it_wrapped it) (it_B it) i bucket checkBucket.

(** Whether the iterator, walking the not yet evacuated old bucket on
    behalf of new bucket [checkBucket] during a doubling grow, keeps a
    cell with tophash [top] whose key does not equal itself. *)
Definition iter_keeps_NaN (it : hiter) (checkBucket : Z) (top : Z) : bool :=
  Z.shiftr checkBucket (wrap8 (it_B it - 1)) =? Z.land top 1.

(** The outcome of one cell of the loop of [mapiternext]. *)
Inductive iter_cell_result : Type :=
| Yield (k e : slotptr)
| Skip.

(** Cell [i] of the loop [for ; i < bucketCnt; i++] of [mapiternext], in
    bucket [b]. *)
Definition iter_cell (it : hiter) (b : Z) (checkBucket : Z) (i : Z)
  : M iter_cell_result :=
  do h <- geth;
  let offi := Z.to_nat (Z.land (wrap8 (i + it_offset it)) (bucketCnt - 1)) in
  do bm <- load b;
  let top := b_tophash bm offi in
  if isEmpty top || (top =? evacuatedEmpty) then ret Skip
  else
    let k := b_keys bm offi in
    do keep <-
      (if negb (checkBucket =? noCheck) && negb (is_sameSizeGrow h) then
         if reflexivekey t || key_equal t k k then
           do hash <- call_hasher k (hash0 h);
           ret (Z.land hash (bucketMask (it_B it)) =? checkBucket)
         else ret (iter_keeps_NaN it checkBucket top)
       else ret true);
    if negb keep then ret Skip
    else if (negb (top =? evacuatedX) && negb (top =? evacuatedY))
            || negb (reflexivekey t || key_equal t k k)
    then ret (Yield (Slot b offi) (Slot b offi))
    else
      do '(rk, re) <- mapaccessK k;
      match rk with
      | NilSlot => ret Skip
      | _ => ret (Yield rk re)
      end.

(** The loop over the cells [i .. bucketCnt-1] of bucket [b]: the first
    entry to return and the index after it, if any. *)
Fixpoint iter_cells (it : hiter) (b : Z) (checkBucket : Z) (cells : list Z)
  : M (option (slotptr * slotptr * Z)) :=
  match cells with
  | [] => ret None
  | i :: cells' =>
      do r <- iter_cell it b checkBucket i;
      match r with
      | Yield k e => ret (Some (k, e, wrap8 (i + 1)))
      | Skip => iter_cells it b checkBucket cells'
      end
  end.

(** The local variables of [mapiternext] at the label [next]. *)
Record iter_state : Type := IterState {
  is_it : hiter;
  is_bucket : Z;
  is_b : Z;
  is_i : Z;
  is_checkBucket : Z
}.

(** One pass of [mapiternext] from the label [next]: the iterator to
    return ([inl]), or the locals for [goto next] ([inr]). *)
Definition mapiternext_pass (s : iter_state) : M (hiter + iter_state) :=
  do h <- geth;
  let it := is_it s in
  if (is_b s =? 0) && (is_bucket s =? it_startBucket it) && it_wrapped it
  then ret (inl (set_it_result NilSlot NilSlot it))
  else
    do s <-
      (if is_b s =? 0 then
         do '(b, checkBucket) <-
           (if growing h && (it_B it =? B h) then
              let oldbucket := Z.land (is_bucket s) (oldbucketmask h) in
              let b := bucketAt (oldbuckets h) oldbucket in
              do bm <- load b;
              if negb (evacuated bm) then ret (b, is_bucket s)
              else ret (bucketAt (it_buckets it) (is_bucket s), noCheck)
            else ret (bucketAt (it_buckets it) (is_bucket s), noCheck));
         let bucket := wrap (is_bucket s + 1) in
         if bucket =? bucketShift (it_B it) then
           ret (IterState (set_it_wrapped true it) 0 b 0 checkBucket)
         else ret (IterState it bucket b 0 checkBucket)
       else ret s);
    let it := is_it s in
    do r <- iter_cells it (is_b s) (is_checkBucket s)
              (map Z.of_nat
                 (seq (Z.to_nat (is_i s))
                      (Z.to_nat (bucketCnt - is_i s))));
    match r with
    | Some (k, e, i) =>
        ret (inl (set_it_position (is_bucket s) (is_b s) i
                    (is_checkBucket s) (set_it_result k e it)))
    | None =>
        do o <- bmap_overflow (is_b s);
        ret (inr (IterState it (is_bucket s) o 0 (is_checkBucket s)))
    end.

(** The rounds of [goto next], [2^n] at most. *)
Fixpoint mapiternext_loop (n : nat) (s : iter_state)
  : M (hiter + iter_state) :=
  match n with
  | O => mapiternext_pass s
  | S n' =>
      do r <- mapiternext_loop n' s;
      match r with
      | inl it => ret (inl it)
      | inr s' => mapiternext_loop n' s'
      end
  end.

Definition mapiternext (it : hiter) : M hiter :=
  if negb (it_h it) then fail Fault
  else
    do h <- geth;
    if negb (Z.land (flags h) hashWriting =? 0) then
      throw "concurrent map iteration and map write"
    else
      do r <- mapiternext_loop (Z.to_nat (2 * wordBits))
                (IterState it (it_bucket it) (it_bptr it) (it_i it)
                           (it_checkBucket it));
      match r with
      | inl it => ret it
      | inr _ => fail Diverge
      end.


(** *** Clearing *)

(** [mapclear] deletes all keys from a map. *)
Definition mapclear : M unit :=
  do w <- get_world;
  match hdr w with
  | None => ret tt
  | Some h =>
      if count h =? 0 then ret tt
      else if negb (Z.land (flags h) hashWriting =? 0) then
        throw "concurrent map writes"
      else
        updh (fun h => set_flags (Z.lxor (flags h) hashWriting) h);;
        updh (fun h => set_flags (Z.ldiff (flags h) sameSizeGrow) h);;
        updh (set_oldbuckets 0);;
        updh (set_nevacuate 0);;
        updh (set_noverflow 0);;
        updh (set_count 0);;
        updh (fun h =>
                match extra h with
                | Some _ => set_extra (Some new_mapextra) h
                | None => h
                end);;
        do h <- geth;
        do '(_, nextOverflow) <- makeBucketArray (B h) (buckets h);
        (if negb (nextOverflow =? 0) then
           do h <- geth;
           match extra h with
           | Some e => seth (set_extra (Some (set_nextOverflow nextOverflow e)) h)
           | None => fail Fault
           end
         else ret tt);;
        do h <- geth;
        if Z.land (flags h) hashWriting =? 0 then
          throw "concurrent map writes"
        else seth (set_flags (Z.ldiff (flags h) hashWriting) h)
  end.

(** [reflect_maplen] *)
Definition maplen (w : world K V) : Z :=
  match hdr w with
  | None => 0
  | Some h => count h
  end.

(** *** The statements of a program on its map *)

(** Reading and writing through an element pointer.  [&zeroVal[0]] reads
    as the zero value and is never written through. *)
Definition load_elem (p : slotptr) : M V :=
  match p with
  | ZeroVal => ret (zero_elem t)
  | NilSlot => fail Fault
  | Slot b i => do bm <- load b; ret (b_elems bm i)
  end.

Definition store_elem (p : slotptr) (v : V) : M unit :=
  match p with
  | Slot b i => updb b (set_elem i v)
  | _ => fail Fault
  end.

Definition load_key (p : slotptr) : M K :=
  match p with
  | Slot b i => do bm <- load b; ret (b_keys bm i)
  | _ => fail Fault
  end.

(** The statements: [m = make(map[K]V, hint)], [m[k] = v], [_ = m[k]],
    [_, _ = m[k]], [delete(m, k)], clearing, starting a [range] loop and
    advancing the [n]-th loop started. *)
Inductive op : Type :=
| OpMake (hint : Z)
| OpPut (k : K) (v : V)
| OpGet (k : K)
| OpGet2 (k : K)
| OpDelete (k : K)
| OpClear
| OpIterInit
| OpIterNext (n : nat).


(** [m[k] = v]: [mapassign], then the store through the pointer. *)
Definition put (k : K) (v : V) : M unit :=
  do p <- mapassign k; store_elem p v.



(** A panic is recovered from and the program goes on; a fatal error, a
    fault, an exhausted memory or a loop without end stop it.  [run] is the
    state after the statements, if the program gets that far. *)
Definition recoverable (e : error) : bool :=
  match e with
  | Panic _ | Trap => true
  | _ => false
  end.


(** The world a program starts in: the nil map, no bucket, memory from
    address [brk0] on. *)
Definition init_world (brk0 : Z) (rnd : nat -> Z) : world K V :=
  World None ∅ brk0 rnd [].

(** ** Assumptions on the platform and on the type descriptor *)

(** The platform has 32-bit or 64-bit pointers, the memory below [maxAlloc]
    is at most a quarter of the address space, and [roundupsize] rounds up
    and returns a [uintptr]. *)
Record ArchOK : Prop := {
  arch_PtrSize : PtrSize = 4 \/ PtrSize = 8;
  arch_maxAlloc : 0 < maxAlloc /\ 4 * maxAlloc <= 2 ^ wordBits;
  arch_roundupsize : forall sz,
      0 <= sz < 2 ^ wordBits -> sz <= roundupsize sz < 2 ^ wordBits
}.

(** The descriptor is the one the compiler builds: the two records of the
    bucket size agree; equality is symmetric and transitive (it need not be
    reflexive: NaN); keys that are equal have the same hash, whatever the
    hash function draws; and whether the hash function panics on a key
    depends on the key only. *)
Record TypeOK : Prop := {
  type_bucket_size : bucket_size t = bucketsize t;
  type_bucketsize : dataOffset + PtrSize <= bucketsize t < 2 ^ 16;
  type_equal_sym : forall a b,
      key_equal t a b = true -> key_equal t b a = true;
  type_equal_trans : forall a b c,
      key_equal t a b = true -> key_equal t b c = true ->
      key_equal t a c = true;
  type_hash_equal : forall a b s r r',
      key_equal t a b = true -> hasher t a s r = hasher t b s r';
  type_hash_panic : forall k s r s' r',
      hasher t k s r = None -> hasher t k s' r' = None;
  type_hashMightPanic : hashMightPanic t = false ->
      forall k s r, hasher t k s r <> None
}.

(** ** The shape of a well-formed table *)

(** [chain H b l]: following the overflow pointers from [b] visits the
    buckets [l], in this order, and ends at nil. *)
Inductive chain (H : gmap Z (bmap K V)) : Z -> list Z -> Prop :=
| chain_nil : chain H 0 []
| chain_cons b bm l :
    b <> 0 -> H !! b = Some bm -> chain H (b_overflow bm) l ->
    chain H b (b :: l).

(** A cell is occupied when its tophash is that of a key. *)
Definition occupied (x : Z) : bool := minTopHash <=? x.

(** The cells of a bucket and of the buckets [l], in the order a lookup
    walks them: the tophash and the key of each cell, with the place of the
    cell and its element. *)
Definition bucket_cells (b : Z) (bm : bmap K V)
  : list (Z * K * (Z * nat * V)) :=
  map (fun c => (b_tophash bm c, b_keys bm c, (b, c, b_elems bm c)))
      cellIndexes.

Definition cells_of (H : gmap Z (bmap K V)) (l : list Z)
  : list (Z * K * (Z * nat * V)) :=
  flat_map (fun b => match H !! b with
                     | Some bm => bucket_cells b bm
                     | None => []
                     end) l.

(** The tophash bytes of the buckets [l], cell after cell. *)
Definition tops_of (H : gmap Z (bmap K V)) (l : list Z) : list Z :=
  map (fun c => fst (fst c)) (cells_of H l).

(** What the loops of the lookups compute on a sequence of cells: the
    first cell with the tophash [top] and a key equal to [key], unless an
    [emptyRest] comes first. *)
Fixpoint first_match {A : Type} (key : K) (top : Z) (cs : list (Z * K * A))
  : option A :=
  match cs with
  | [] => None
  | (x, k, a) :: cs' =>
      if negb (x =? top) then
        if x =? emptyRest then None else first_match key top cs'
      else if key_equal t key k then Some a
      else first_match key top cs'
  end.

(** The short-circuit invariant on a sequence of tophash bytes: no occupied
    cell after an [emptyRest]. *)
Fixpoint shortcut (tops : list Z) : Prop :=
  match tops with
  | [] => True
  | x :: tops' =>
      (x = emptyRest -> Forall (fun y => occupied y = false) tops')
      /\ shortcut tops'
  end.

(** No trailing [emptyOne]: an occupied cell follows every [emptyOne]. *)
Fixpoint trailing (tops : list Z) : Prop :=
  match tops with
  | [] => True
  | x :: tops' =>
      (x = emptyOne -> Exists (fun y => occupied y = true) tops')
      /\ trailing tops'
  end.

(** The tophash bytes of a chain in use. *)
Definition tidy (tops : list Z) : Prop := shortcut tops /\ trailing tops.

(** The number of occupied cells of a bucket, and of the buckets a ghost
    registry [G] lists. *)
Definition occ_bmap (bm : bmap K V) : Z :=
  Z.of_nat (length (filter (fun c => occupied (b_tophash bm c) = true)
                           cellIndexes)).

Definition occ_at (H : gmap Z (bmap K V)) (b : Z) : Z :=
  match H !! b with
  | Some bm => occ_bmap bm
  | None => 0
  end.

Definition total_occ (H : gmap Z (bmap K V)) (G : gmap Z Z) : Z :=
  map_fold (fun b (_ : Z) acc => acc + occ_at H b) 0 G.

(** A key the hash function does not panic on. *)
Definition hashable (k : K) : Prop := forall s r, hasher t k s r <> None.

(** A cell of a chain in use bears no evacuation mark, and its key, if it
    has one, is a key that was hashed. *)
Definition cell_ok (c : Z * K * (Z * nat * V)) : Prop :=
  (fst (fst c) <= emptyOne \/ minTopHash <= fst (fst c)) /\
  (minTopHash <= fst (fst c) -> hashable (snd (fst c))).

(** Every bucket of [l] is registered in [G] under the head [a]. *)
Definition owned (G : gmap Z Z) (a : Z) (l : list Z) : Prop :=
  forall b, b ∈ l -> G !! b = Some a.

(** The chain [l] of the bucket [a] of a table in use. *)
Definition chain_ok (H : gmap Z (bmap K V)) (G : gmap Z Z) (a : Z)
           (l : list Z) : Prop :=
  chain H a l /\ owned G a l /\ tidy (tops_of H l) /\
  Forall cell_ok (cells_of H l).

(** A bucket no entry has been put in yet. *)
Definition fresh_bucket (H : gmap Z (bmap K V)) (b : Z) : Prop :=
  exists bm, H !! b = Some bm /\ b_overflow bm = 0 /\
             forall c, b_tophash bm c = emptyRest.

(** The preallocated overflow buckets from the cursor [p] on: [n] zeroed
    buckets [bucketsize] apart, the last of which has a non-nil overflow
    pointer; none is registered in [G]. *)
Fixpoint pool_at (H : gmap Z (bmap K V)) (G : gmap Z Z) (p : Z) (n : nat)
  : Prop :=
  match n with
  | O => p = 0
  | S n' =>
      p <> 0 /\ G !! p = None /\
      exists o, H !! p = Some (set_b_overflow o zero_bmap) /\
                match n' with
                | O => o <> 0
                | S _ => o = 0 /\ pool_at H G (p + bucketsize t) n'
                end
  end.

(** The cursor of the pool: [h.extra.nextOverflow], nil without [extra]. *)
Definition pool_cursor (h : hmap) : Z :=
  match extra h with
  | Some e => nextOverflow e
  | None => 0
  end.

(** Bucket [i] of the current array and bucket [j] of the old one. *)
Definition newb (h : hmap) (i : Z) : Z := buckets h + i * bucketsize t.
Definition oldb (h : hmap) (j : Z) : Z := oldbuckets h + j * bucketsize t.

(** New bucket [i] is pending while the old bucket it is filled from has
    not been evacuated. *)
Definition pending (H : gmap Z (bmap K V)) (h : hmap) (i : Z) : Prop :=
  growing h = true /\
  exists bm, H !! oldb h (i mod noldbuckets h) = Some bm /\
             evacuated bm = false.

(** The invariant of a table between two operations and inside a write:
    [G] registers the buckets of the table with the head of their chain. *)
Record Inv (w : world K V) (h : hmap) (G : gmap Z Z) : Prop := {
  inv_hdr : hdr w = Some h;
  inv_brk : 0 < brk w <= maxAlloc;
  inv_heap : forall a bm, heap w !! a = Some bm ->
                          0 < a /\ a + bucketsize t <= brk w;
  inv_G : forall b a, G !! b = Some a -> is_Some (heap w !! b);
  inv_B : 0 <= B h;
  inv_count : count h = total_occ (heap w) G;
  inv_nil : buckets h = 0 -> B h = 0 /\ oldbuckets h = 0 /\ G = ∅;
  inv_arr : buckets h <> 0 ->
            0 < buckets h /\ buckets h + 2 ^ B h * bucketsize t <= brk w;
  inv_new : buckets h <> 0 -> forall i, 0 <= i < 2 ^ B h ->
            exists l, chain_ok (heap w) G (newb h i) l /\
                      (pending (heap w) h i ->
                       fresh_bucket (heap w) (newb h i));
  inv_old : growing h = true ->
            buckets h <> 0 /\ 0 < oldbuckets h /\
            oldbuckets h + noldbuckets h * bucketsize t <= buckets h /\
            (is_sameSizeGrow h = false -> 1 <= B h) /\
            0 <= nevacuate h < noldbuckets h /\
            (forall j bm, 0 <= j < nevacuate h ->
                          heap w !! oldb h j = Some bm -> evacuated bm = true) /\
            forall j, 0 <= j < noldbuckets h ->
            exists bm, heap w !! oldb h j = Some bm /\
                       G !! oldb h j = Some (oldb h j) /\
                       (evacuated bm = false ->
                        exists l, chain_ok (heap w) G (oldb h j) l);
  inv_idle : growing h = false -> is_sameSizeGrow h = false;
  inv_pool : exists n, pool_at (heap w) G (pool_cursor h) n
}.

(** The head of the chain a lookup with hash [hash] walks. *)
Definition lookup_head (H : gmap Z (bmap K V)) (h : hmap) (hash : Z)
  : Z -> Prop :=
  fun a =>
    (pending H h (hash mod 2 ^ B h) /\ a = oldb h (hash mod noldbuckets h)) \/
    (~ pending H h (hash mod 2 ^ B h) /\ a = newb h (hash mod 2 ^ B h)).

(** [found w h key v]: the table maps [key] to [v]: the walk of a lookup of
    [key] ends in a cell whose element is [v]. *)
Definition found (w : world K V) (h : hmap) (key : K) (v : V) : Prop :=
  exists x a l b c,
    hasher t key (hash0 h) 0 = Some x /\
    lookup_head (heap w) h (wrap x) a /\
    chain (heap w) a l /\
    first_match key (tophash (wrap x)) (cells_of (heap w) l) = Some (b, c, v).

(** What a run of statements should have left for [key]: the element of the
    last assignment to an equal key since the last creation, clearing or
    deletion of an equal key. *)
Fixpoint expected (key : K) (ops : list op) (cur : option V) : option V :=
  match ops with
  | [] => cur
  | o :: ops' =>
      expected key ops'
        match o with
        | OpMake _ | OpClear => None
        | OpPut k v => if key_equal t key k then Some v else cur
        | OpDelete k => if key_equal t key k then None else cur
        | _ => cur
        end
  end.

(** * Properties *)

(** ** Machine arithmetic *)

Lemma wordBits_cases : ArchOK -> wordBits = 32 \/ wordBits = 64.
Proof. intros [[-> | ->] _ _]; unfold wordBits; lia. Qed.

Lemma wrap_range x : ArchOK -> 0 <= wrap x < 2 ^ wordBits.
Proof.
  intros HA. unfold wrap. apply Z.mod_pos_bound.
  destruct (wordBits_cases HA) as [-> | ->]; lia.
Qed.

Lemma wrap_small x : 0 <= x < 2 ^ wordBits -> wrap x = x.
Proof. intros. unfold wrap. apply Z.mod_small; lia. Qed.

Lemma bucketShift_pow b :
  ArchOK -> 0 <= b < wordBits -> bucketShift b = 2 ^ b.
Proof.
  intros HA Hb. unfold bucketShift.
  assert (Hm : Z.land b (PtrSize * 8 - 1) = b).
  { fold wordBits.
    destruct (wordBits_cases HA) as [E | E]; rewrite E in *.
    - change (32 - 1) with (Z.ones 5). rewrite Z.land_ones by lia.
      apply Z.mod_small. simpl. lia.
    - change (64 - 1) with (Z.ones 6). rewrite Z.land_ones by lia.
      apply Z.mod_small. simpl. lia. }
  rewrite Hm, Z.shiftl_1_l. apply wrap_small.
  split; [apply Z.pow_nonneg; lia|].
  apply Z.pow_lt_mono_r; lia.
Qed.

Lemma bucketMask_pow b :
  ArchOK -> 0 <= b < wordBits -> bucketMask b = 2 ^ b - 1.
Proof.
  intros HA Hb. unfold bucketMask. rewrite bucketShift_pow by assumption.
  apply wrap_small.
  assert (0 < 2 ^ b) by (apply Z.pow_pos_nonneg; lia).
  assert (2 ^ b < 2 ^ wordBits) by (apply Z.pow_lt_mono_r; lia).
  lia.
Qed.

Lemma land_mask x b : 0 <= b -> Z.land x (2 ^ b - 1) = x mod 2 ^ b.
Proof.
  intros. replace (2 ^ b - 1) with (Z.ones b)
    by (rewrite Z.ones_equiv; lia).
  apply Z.land_ones; lia.
Qed.

Lemma pow2_pos b : 0 <= b -> 0 < 2 ^ b.
Proof. intros. apply Z.pow_pos_nonneg; lia. Qed.

Lemma pow2_succ b : 0 <= b -> 2 ^ (b + 1) = 2 * 2 ^ b.
Proof. intros. rewrite Z.pow_add_r by lia. lia. Qed.

Lemma pow2_le a b : 0 <= a <= b -> 2 ^ a <= 2 ^ b.
Proof. intros. apply Z.pow_le_mono_r; lia. Qed.

Lemma pow2_half b : 0 <= b -> 2 ^ b / 2 = if b =? 0 then 0 else 2 ^ (b - 1).
Proof.
  intros Hb. destruct (Z.eqb_spec b 0) as [-> | Hn]; [reflexivity|].
  replace b with (b - 1 + 1) at 1 by lia.
  rewrite pow2_succ by lia.
  rewrite Z.mul_comm, Z.div_mul by lia. reflexivity.
Qed.

(** The load factor test in plain arithmetic: [count] exceeds [bucketCnt]
    and [13/2 * 2^B]. *)
Lemma overLoadFactor_spec c b :
  ArchOK -> 0 <= b <= wordBits - 3 -> c < 2 ^ wordBits ->
  overLoadFactor c b = true <-> 8 < c /\ 13 * 2 ^ b < 2 * c.
Proof.
  intros HA Hb Hc. unfold overLoadFactor.
  rewrite bucketShift_pow by (auto; lia).
  unfold loadFactorNum, loadFactorDen, bucketCnt, bucketCntBits.
  change (Z.shiftl 1 3) with 8.
  rewrite pow2_half by lia.
  assert (Hw : 2 ^ wordBits = 8 * 2 ^ (wordBits - 3)).
  { replace wordBits with (wordBits - 3 + 3) at 1 by lia.
    rewrite Z.pow_add_r by lia. lia. }
  pose proof (pow2_le b (wordBits - 3) ltac:(lia)) as Hle.
  pose proof (pow2_pos b ltac:(lia)) as Hpos.
  rewrite andb_true_iff, !Z.ltb_lt.
  destruct (Z.eqb_spec b 0) as [-> | Hn].
  - change (2 ^ 0) with 1. rewrite Z.mul_0_r.
    split; intros [H1 H2]; (split; [lia|]).
    + lia.
    + rewrite (wrap_small 0) by lia. rewrite wrap_small by lia. lia.
  - assert (Hb1 : 2 ^ b = 2 * 2 ^ (b - 1)).
    { replace b with (b - 1 + 1) at 1 by lia. apply pow2_succ. lia. }
    pose proof (pow2_pos (b - 1) ltac:(lia)).
    rewrite (wrap_small (13 * 2 ^ (b - 1))) by lia.
    split; intros [H1 H2]; (split; [lia|]).
    + rewrite wrap_small in H2 by lia. lia.
    + rewrite wrap_small by lia. lia.
Qed.

Lemma overLoadFactor_small c b : c <= 8 -> overLoadFactor c b = false.
Proof.
  intros Hc. unfold overLoadFactor, bucketCnt, bucketCntBits.
  change (Z.shiftl 1 3) with 8.
  destruct (Z.ltb_spec 8 c); [lia | reflexivity].
Qed.

(** [findB] returns the least [B], from [b0] on, that the hint does not
    overload, if there is one within reach. *)
Lemma findB_least fuel : forall hint b0 b1,
  0 <= b0 <= b1 -> b1 < 256 -> b1 - b0 < Z.of_nat fuel ->
  overLoadFactor hint b1 = false ->
  exists b, findB fuel hint b0 = Some b /\ b0 <= b <= b1 /\
            overLoadFactor hint b = false /\
            forall b', b0 <= b' < b -> overLoadFactor hint b' = true.
Proof.
  induction fuel as [| fuel IH]; intros hint b0 b1 H0 H1 Hf Hb1; [lia|].
  cbn [findB]. destruct (overLoadFactor hint b0) eqn:E.
  - assert (b0 <> b1) by congruence.
    unfold wrap8. rewrite Z.mod_small by lia.
    destruct (IH hint (b0 + 1) b1) as (b & Hb & Hr & Hn & Hl);
      [lia | lia | lia | assumption |].
    exists b. repeat split; [assumption | lia | lia | assumption |].
    intros b' Hb'. destruct (Z.eq_dec b' b0) as [-> | ?]; [assumption|].
    apply Hl. lia.
  - exists b0. repeat split; [lia | lia | assumption |]. intros; lia.
Qed.

(** ** Stepping through monadic code *)

Lemma cellIndexes_eq : cellIndexes = [0; 1; 2; 3; 4; 5; 6; 7]%nat.
Proof. reflexivity. Qed.

Opaque cellIndexes.

Lemma bind_ok {A B' : Type} (m : M A) (f : A -> M B') w b w' :
  bind m f w = Ok b w' -> exists a w1, m w = Ok a w1 /\ f a w1 = Ok b w'.
Proof.
  unfold bind. destruct (m w) as [a w1 | e w1]; [eauto | discriminate].
Qed.

Lemma bind_err {A B' : Type} (m : M A) (f : A -> M B') w e w' :
  bind m f w = Err e w' ->
  m w = Err e w' \/ exists a w1, m w = Ok a w1 /\ f a w1 = Err e w'.
Proof.
  unfold bind. destruct (m w) as [a w1 | e1 w1]; [eauto|].
  intros [= -> ->]. auto.
Qed.

Lemma bind_eq_ok {A B' : Type} (m : M A) (f : A -> M B') w a w1 :
  m w = Ok a w1 -> bind m f w = f a w1.
Proof. unfold bind. intros ->. reflexivity. Qed.

(** Inversion of a successful run of a sequence. *)
Ltac inv_bind H :=
  let a := fresh "a" in
  let w1 := fresh "w" in
  let H1 := fresh "H" in
  apply bind_ok in H as (a & w1 & H1 & H).

(** ** A weakest precondition for runs that do not end in a panic *)

Definition wp {A : Type} (m : M A) (w : world K V)
           (Q : A -> world K V -> Prop) : Prop :=
  match m w with
  | Ok a w' => Q a w'
  | Err e _ => recoverable e = false
  end.

Lemma wp_ok {A : Type} (m : M A) w Q a w' :
  wp m w Q -> m w = Ok a w' -> Q a w'.
Proof. unfold wp. intros H E. rewrite E in H. exact H. Qed.

Lemma wp_err {A : Type} (m : M A) w Q e w' :
  wp m w Q -> m w = Err e w' -> recoverable e = false.
Proof. unfold wp. intros H E. rewrite E in H. exact H. Qed.

Lemma wp_mono {A : Type} (m : M A) w (Q Q' : A -> world K V -> Prop) :
  wp m w Q -> (forall a w', Q a w' -> Q' a w') -> wp m w Q'.
Proof. unfold wp. destruct (m w); auto. Qed.

Lemma wp_ret {A : Type} (a : A) w (Q : A -> world K V -> Prop) :
  Q a w -> wp (ret a) w Q.
Proof. auto. Qed.

Lemma wp_bind {A B' : Type} (m : M A) (f : A -> M B') w Q :
  wp m w (fun a w1 => wp (f a) w1 Q) -> wp (bind m f) w Q.
Proof. unfold wp, bind. destruct (m w); auto. Qed.

Lemma wp_fail {A : Type} e w (Q : A -> world K V -> Prop) :
  recoverable e = false -> wp (fail e) w Q.
Proof. auto. Qed.

Lemma wp_throw {A : Type} msg w (Q : A -> world K V -> Prop) :
  wp (throw msg) w Q.
Proof. reflexivity. Qed.

Lemma wp_get_world w (Q : world K V -> world K V -> Prop) :
  Q w w -> wp get_world w Q.
Proof. auto. Qed.

Lemma wp_geth w (Q : hmap -> world K V -> Prop) :
  (forall h, hdr w = Some h -> Q h w) -> wp geth w Q.
Proof. unfold wp, geth. destruct (hdr w); auto. Qed.

Lemma wp_seth h w (Q : unit -> world K V -> Prop) :
  Q tt (set_hdr (Some h) w) -> wp (seth h) w Q.
Proof. auto. Qed.

Lemma wp_updh f w (Q : unit -> world K V -> Prop) :
  (forall h, hdr w = Some h -> Q tt (set_hdr (Some (f h)) w)) ->
  wp (updh f) w Q.
Proof. unfold wp, updh, bind, geth, seth. destruct (hdr w); auto. Qed.

Lemma wp_load b w (Q : bmap K V -> world K V -> Prop) :
  (forall bm, heap w !! b = Some bm -> Q bm w) -> wp (load b) w Q.
Proof. unfold wp, load. destruct (heap w !! b); auto. Qed.

Lemma wp_store b bm w (Q : unit -> world K V -> Prop) :
  (is_Some (heap w !! b) -> Q tt (set_heap (<[b := bm]> (heap w)) w)) ->
  wp (store b bm) w Q.
Proof. unfold wp, store. destruct (heap w !! b); eauto. Qed.

Lemma wp_updb b f w (Q : unit -> world K V -> Prop) :
  (forall bm, heap w !! b = Some bm ->
              Q tt (set_heap (<[b := f bm]> (heap w)) w)) ->
  wp (updb b f) w Q.
Proof.
  intros H. unfold wp, updb, bind, load, store.
  destruct (heap w !! b) as [bm|] eqn:E; [|reflexivity].
  cbn beta iota. rewrite E. auto.
Qed.

Lemma wp_bmap_overflow b w (Q : Z -> world K V -> Prop) :
  (forall bm, heap w !! b = Some bm -> Q (b_overflow bm) w) ->
  wp (bmap_overflow b) w Q.
Proof.
  intros H. unfold bmap_overflow. apply wp_bind, wp_load.
  intros bm Hb. apply wp_ret. auto.
Qed.

Lemma wp_fastrand w (Q : Z -> world K V -> Prop) :
  Q (wrap32 (rand w O)) (set_rand (fun n => rand w (S n)) w) ->
  wp fastrand w Q.
Proof. auto. Qed.

Lemma wp_call_hasher key seed w (Q : Z -> world K V -> Prop) :
  hashable key ->
  (forall x, hasher t key seed (rand w O) = Some x ->
             Q (wrap x) (set_hcalls ((key, seed) :: hcalls w)
                           (set_rand (fun n => rand w (S n)) w))) ->
  wp (call_hasher key seed) w Q.
Proof.
  intros Hk H. unfold wp, call_hasher.
  destruct (hasher t key seed (rand w O)) as [x|] eqn:E.
  - apply H. reflexivity.
  - exfalso. exact (Hk _ _ E).
Qed.

Lemma wp_newarray n w (Q : Z -> world K V -> Prop) :
  (1 <= n -> brk w + n * bucket_size t <= maxAlloc ->
   Q (brk w)
     (set_brk (brk w + n * bucket_size t)
        (set_heap (fill_buckets (heap w) (brk w) (Z.to_nat n)) w))) ->
  wp (newarray n) w Q.
Proof.
  intros H. unfold wp, newarray.
  destruct (Z.ltb_spec n 1); cbn [orb]; [reflexivity|].
  destruct (Z.ltb_spec maxAlloc (brk w + n * bucket_size t)); [reflexivity|].
  apply H; lia.
Qed.

(** ** Bucket memory *)

Lemma fill_buckets_in H base n i :
  0 < bucketsize t -> (i < n)%nat ->
  fill_buckets H base n !! (base + Z.of_nat i * bucketsize t) = Some zero_bmap.
Proof.
  intros HS. induction n as [| n IH]; intros Hi; [lia|].
  cbn [fill_buckets].
  destruct (Nat.eq_dec i n) as [-> | Hne].
  - apply lookup_insert_eq.
  - rewrite lookup_insert_ne by nia. apply IH. lia.
Qed.

Lemma fill_buckets_out H base n a :
  (forall i, (i < n)%nat -> a <> base + Z.of_nat i * bucketsize t) ->
  fill_buckets H base n !! a = H !! a.
Proof.
  induction n as [| n IH]; intros Ha; [reflexivity|].
  cbn [fill_buckets]. rewrite lookup_insert_ne.
  - apply IH. intros i Hi. apply Ha. lia.
  - intros E. apply (Ha n); [lia | congruence].
Qed.

Lemma fill_buckets_lookup H base n a bm :
  0 < bucketsize t ->
  fill_buckets H base n !! a = Some bm ->
  (exists i, (i < n)%nat /\ a = base + Z.of_nat i * bucketsize t /\
             bm = zero_bmap) \/
  ((forall i, (i < n)%nat -> a <> base + Z.of_nat i * bucketsize t) /\
   H !! a = Some bm).
Proof.
  intros HS. induction n as [| n IH]; cbn [fill_buckets]; intros Hl.
  - right. split; [intros; lia | assumption].
  - destruct (Z.eq_dec a (base + Z.of_nat n * bucketsize t)) as [-> | Hne].
    + rewrite lookup_insert_eq in Hl. left. exists n.
      split; [lia|]. split; congruence.
    + rewrite lookup_insert_ne in Hl by congruence.
      destruct (IH Hl) as [(i & Hi & -> & ->) | [Hout Hh]].
      * left. exists i. split; [lia | auto].
      * right. split; [|assumption]. intros i Hi.
        destruct (Nat.eq_dec i n) as [-> | ?]; [assumption|].
        apply Hout. lia.
Qed.

Ltac munfold :=
  unfold bind, ret, fail, throw, get_world, geth, seth, updh, load, store,
    updb, bmap_overflow, setoverflow in *.

Ltac case_match_goal :=
  match goal with
  | |- context [match ?x with _ => _ end] => destruct x eqn:?
  end.

(** ** Addresses and bucket arrays *)

Lemma pow2_wordBits_pos : ArchOK -> 0 < 2 ^ wordBits.
Proof. intros HA. destruct (wordBits_cases HA) as [-> | ->]; lia. Qed.

Lemma add_small p x : 0 <= p + x < 2 ^ wordBits -> add p x = p + x.
Proof. intros. unfold add. apply wrap_small. assumption. Qed.

Lemma bucketAt_eq base i :
  0 <= i -> 0 <= base -> 0 <= bucketsize t ->
  base + i * bucketsize t < 2 ^ wordBits ->
  bucketAt base i = base + i * bucketsize t.
Proof.
  intros. unfold bucketAt. rewrite (wrap_small (i * bucketsize t)) by nia.
  apply add_small. nia.
Qed.

Lemma int_of_small x :
  ArchOK -> 0 <= x < 2 ^ (wordBits - 1) -> int_of x = x.
Proof.
  intros HA Hx. unfold int_of.
  assert (2 ^ wordBits = 2 * 2 ^ (wordBits - 1)).
  { destruct (wordBits_cases HA) as [-> | ->]; reflexivity. }
  rewrite Z.mod_small by lia. lia.
Qed.

Lemma int_of_large x :
  ArchOK -> 2 ^ (wordBits - 1) <= x < 2 ^ wordBits -> int_of x < 0.
Proof.
  intros HA Hx. unfold int_of.
  assert (E : 2 ^ wordBits = 2 * 2 ^ (wordBits - 1)).
  { destruct (wordBits_cases HA) as [-> | ->]; reflexivity. }
  replace (x + 2 ^ (wordBits - 1))
    with (x - 2 ^ (wordBits - 1) + 1 * 2 ^ wordBits) by lia.
  rewrite Z.mod_add by lia. rewrite Z.mod_small by lia. lia.
Qed.

Lemma nbucketsFor_bounds b :
  ArchOK -> TypeOK -> 0 <= b < wordBits ->
  (4 <= b -> bucketsize t * (2 ^ b + 2 ^ (b - 4)) < 2 ^ wordBits) ->
  2 ^ b <= nbucketsFor b < 2 ^ wordBits /\
  (4 <= b -> 2 ^ b + 2 ^ (b - 4) <= nbucketsFor b) /\
  (b < 4 -> nbucketsFor b = 2 ^ b).
Proof.
  intros HA HT Hb Hsz. unfold nbucketsFor.
  rewrite bucketShift_pow by (auto; lia).
  pose proof (pow2_pos b ltac:(lia)) as Hp.
  assert (Hlt : 2 ^ b < 2 ^ wordBits) by (apply Z.pow_lt_mono_r; lia).
  destruct (Z.leb_spec 4 b) as [H4 | H4]; [|lia].
  specialize (Hsz H4).
  assert (Hw8 : wrap8 (b - 4) = b - 4).
  { unfold wrap8. apply Z.mod_small.
    destruct (wordBits_cases HA) as [E | E]; rewrite E in Hb; lia. }
  rewrite Hw8, bucketShift_pow by (auto; lia).
  pose proof (pow2_pos (b - 4) ltac:(lia)) as Hp4.
  destruct HT as [E1 [HS1 HS2] _ _ _ _ _].
  assert (HSp : 12 <= bucketsize t).
  { unfold dataOffset in HS1. destruct HA as [[-> | ->] _ _]; lia. }
  rewrite E1.
  set (nb := 2 ^ b + 2 ^ (b - 4)) in *.
  assert (Hnb : 0 <= nb < 2 ^ wordBits) by nia.
  rewrite (wrap_small nb) by exact Hnb.
  rewrite (wrap_small (bucketsize t * nb)) by nia.
  destruct (arch_roundupsize HA (bucketsize t * nb) ltac:(nia)) as [Hu1 Hu2].
  destruct (Z.eqb_spec (roundupsize (bucketsize t * nb)) (bucketsize t * nb));
    cbn [negb]; [lia|].
  assert (nb <= roundupsize (bucketsize t * nb) / bucketsize t).
  { apply Z.div_le_lower_bound; lia. }
  assert (roundupsize (bucketsize t * nb) / bucketsize t
          <= roundupsize (bucketsize t * nb)).
  { apply Z.div_le_upper_bound; nia. }
  lia.
Qed.

(** The world after a successful [makeBucketArray(t, b, nil)]. *)
Definition bucketArray_world (b : Z) (w : world K V) : world K V :=
  let n := nbucketsFor b in
  let w1 := set_brk (brk w + n * bucket_size t)
              (set_heap (fill_buckets (heap w) (brk w) (Z.to_nat n)) w) in
  if 2 ^ b =? n then w1
  else set_heap (<[brk w + (n - 1) * bucketsize t
                   := set_b_overflow (brk w) zero_bmap]> (heap w1)) w1.

(** [makeBucketArray(t, b, nil)] fails only for lack of memory; otherwise
    it returns the array at the allocation frontier and the bucket behind
    the [2^b] main buckets if there is one. *)
Lemma makeBucketArray_new b w :
  ArchOK -> TypeOK -> 0 <= b < wordBits -> 0 < brk w ->
  2 ^ b <= nbucketsFor b < 2 ^ wordBits ->
  makeBucketArray b 0 w =
  if (nbucketsFor b <? 2 ^ (wordBits - 1))
     && (brk w + nbucketsFor b * bucketsize t <=? maxAlloc)
  then Ok (brk w, if 2 ^ b =? nbucketsFor b then 0
                  else brk w + 2 ^ b * bucketsize t)
          (bucketArray_world b w)
  else Err OutOfMemory w.
Proof.
  intros HA HT Hb Hbrk Hn. unfold makeBucketArray, bucketArray_world.
  rewrite bucketShift_pow by (auto; lia).
  set (n := nbucketsFor b) in *.
  pose proof (pow2_pos b ltac:(lia)) as Hp.
  destruct HT as [E1 [HS1 HS2] _ _ _ _ _].
  assert (HSp : 12 <= bucketsize t).
  { unfold dataOffset in HS1. destruct HA as [[-> | ->] _ _]; lia. }
  assert (Ew : 2 ^ wordBits = 2 * 2 ^ (wordBits - 1)).
  { destruct (wordBits_cases HA) as [-> | ->]; reflexivity. }
  destruct HA as [HP [HM1 HM2] HR].
  assert (HA : ArchOK) by (constructor; auto).
  rewrite Z.eqb_refl. unfold bind at 1. unfold newarray.
  destruct (Z.ltb_spec n (2 ^ (wordBits - 1))) as [Hs | Hl]; cbn [andb].
  - rewrite int_of_small by (auto; lia). rewrite E1.
    destruct (Z.ltb_spec n 1); [lia|]. cbn [orb].
    destruct (Z.leb_spec (brk w + n * bucketsize t) maxAlloc) as [Hr | Hr].
    + destruct (Z.ltb_spec maxAlloc (brk w + n * bucketsize t)); [lia|].
      destruct (Z.eqb_spec (2 ^ b) n) as [E | E]; cbn [negb].
      * reflexivity.
      * unfold setoverflow, updb, bind, load, store, ret. cbn [heap set_brk set_heap].
        assert (Hlast : add (brk w) (wrap (wrap (n - 1) * bucketsize t))
                        = brk w + (n - 1) * bucketsize t).
        { rewrite (wrap_small (n - 1)) by lia.
          rewrite (wrap_small ((n - 1) * bucketsize t)) by nia.
          apply add_small. nia. }
        assert (Hfill : fill_buckets (heap w) (brk w) (Z.to_nat n)
                          !! (brk w + (n - 1) * bucketsize t)
                        = Some zero_bmap).
        { replace (brk w + (n - 1) * bucketsize t)
            with (brk w + Z.of_nat (Z.to_nat (n - 1)) * bucketsize t)
            by (rewrite Z2Nat.id by lia; reflexivity).
          apply fill_buckets_in; lia. }
        rewrite Hlast. cbn [heap set_brk set_heap]. rewrite !Hfill.
        cbn [heap set_brk set_heap]. rewrite ?Hfill.
        rewrite (wrap_small (2 ^ b * bucketsize t)) by nia.
        rewrite add_small by nia.
        reflexivity.
    + destruct (Z.ltb_spec maxAlloc (brk w + n * bucketsize t)); [|lia].
      reflexivity.
  - pose proof (int_of_large n HA ltac:(lia)).
    destruct (Z.ltb_spec (int_of n) 1); [|lia]. reflexivity.
Qed.

(** ** Concurrent access detection (C2) *)

(** A computation that raises no fatal error of the runtime. *)
Definition never_throws {A : Type} (m : M A) : Prop :=
  forall w msg w', m w <> Err (Throw msg) w'.

Lemma never_throws_bind {A B' : Type} (m : M A) (f : A -> M B') :
  never_throws m -> (forall a, never_throws (f a)) ->
  never_throws (bind m f).
Proof.
  intros Hm Hf w msg w'. unfold bind.
  destruct (m w) as [a w1 | e w1] eqn:E.
  - apply Hf.
  - intros [= -> ->]. exact (Hm _ _ _ E).
Qed.

Lemma never_throws_ret {A : Type} (a : A) : never_throws (ret a).
Proof. intros w msg w'. discriminate. Qed.

Lemma never_throws_load b : never_throws (load b).
Proof. intros w msg w'. unfold load. destruct (heap w !! b); discriminate. Qed.

Lemma never_throws_call_hasher key seed : never_throws (call_hasher key seed).
Proof.
  intros w msg w'. unfold call_hasher.
  destruct (hasher t key seed (rand w 0%nat)); discriminate.
Qed.

Lemma never_throws_bucketloop fuel : forall b key top,
  never_throws (bucketloop fuel b key top).
Proof.
  induction fuel as [| fuel IH]; intros b key top; simpl.
  - intros w msg w'. discriminate.
  - destruct (b =? 0); [apply never_throws_ret|].
    apply never_throws_bind; [apply never_throws_load|].
    intros bm. cbv beta.
    destruct (probe_cells bm key top cellIndexes);
      [apply never_throws_ret | apply never_throws_ret | apply IH].
Qed.

Lemma never_throws_lookup h key : never_throws (lookup h key).
Proof.
  unfold lookup.
  apply never_throws_bind; [apply never_throws_call_hasher|]. intros hash.
  apply never_throws_bind.
  - destruct (negb (oldbuckets h =? 0)); [|apply never_throws_ret].
    apply never_throws_bind; [apply never_throws_load|]. intros obm.
    destruct (negb (evacuated obm)); apply never_throws_ret.
  - intros b. intros w. unfold bind, get_world.
    apply never_throws_bucketloop.
Qed.

Lemma never_throws_mapaccessK key : never_throws (mapaccessK key).
Proof.
  intros w. unfold mapaccessK, bind, get_world.
  destruct (hdr w) as [h|]; [|discriminate].
  destruct (count h =? 0); [discriminate|].
  intros msg w'.
  destruct (lookup h key w) as [r w1 | e w1] eqn:E.
  - destruct r as [[b i]|]; discriminate.
  - intros [= -> ->]. exact (never_throws_lookup _ _ _ _ _ E).
Qed.

(** C2, amended: on a non-empty table whose [hashWriting] flag is set,
    [mapaccess1] and [mapaccess2] throw "concurrent map read and map write",
    [mapassign], [mapdelete] and [mapclear] throw "concurrent map writes",
    and [mapiternext] throws "concurrent map iteration and map write", each
    leaving the world as it was; [mapaccessK] does not look at the flag and
    never throws. *)
Theorem hashWriting_detected w h key it :
  hdr w = Some h -> count h <> 0 ->
  Z.land (flags h) hashWriting <> 0 -> it_h it = true ->
  mapaccess1 key w = Err (Throw "concurrent map read and map write") w /\
  mapaccess2 key w = Err (Throw "concurrent map read and map write") w /\
  mapassign key w = Err (Throw "concurrent map writes") w /\
  mapdelete key w = Err (Throw "concurrent map writes") w /\
  mapclear w = Err (Throw "concurrent map writes") w /\
  mapiternext it w
    = Err (Throw "concurrent map iteration and map write") w /\
  never_throws (mapaccessK key).
Proof.
  intros Hh Hc Hf Hit.
  assert (Ec : (count h =? 0) = false) by (apply Z.eqb_neq; exact Hc).
  assert (Ef : (Z.land (flags h) hashWriting =? 0) = false)
    by (apply Z.eqb_neq; exact Hf).
  unfold mapaccess1, mapaccess2, mapassign, mapdelete, mapclear, mapiternext.
  munfold. rewrite Hit. cbn beta iota delta [negb].
  rewrite Hh. cbn beta iota. rewrite ?Ec, Ef. cbn beta iota delta [negb].
  repeat split; try reflexivity. apply never_throws_mapaccessK.
Qed.

(** ** Creation (C10) *)

Ltac wsimpl :=
  cbn [hdr heap brk rand hcalls set_hdr set_heap set_brk set_rand set_hcalls
       count flags B noverflow hash0 buckets oldbuckets nevacuate extra
       set_count set_flags set_B set_noverflow set_hash0 set_buckets
       set_oldbuckets set_nevacuate set_extra new_hmap
       overflow oldoverflow nextOverflow set_overflow set_oldoverflow
       set_nextOverflow new_mapextra fst snd] in *.

(** The hint [makemap] sizes the table for: the [int64] hint of [makemap64]
    if it fits an [int], and if as many buckets neither overflow a
    [uintptr] nor exceed [maxAlloc]; 0 otherwise. *)
Definition effective_hint (hint : Z) : Z :=
  let hint1 :=
    if (- 2 ^ (wordBits - 1) <=? hint) && (hint <? 2 ^ (wordBits - 1))
    then hint else 0 in
  if (2 ^ wordBits <=? wrap hint1 * bucket_size t)
     || (maxAlloc <? wrap (wrap hint1 * bucket_size t))
  then 0 else hint1.

Lemma makemap64_makemap hint :
  PtrSize = 4 \/ PtrSize = 8 -> - 2 ^ 63 <= hint < 2 ^ 63 ->
  makemap64 hint =
  makemap (if (- 2 ^ (wordBits - 1) <=? hint) && (hint <? 2 ^ (wordBits - 1))
           then hint else 0).
Proof.
  intros HP Hh. unfold makemap64.
  assert (HW : wordBits = 32 \/ wordBits = 64)
    by (unfold wordBits; destruct HP as [-> | ->]; auto).
  destruct HW as [E | E].
  - destruct ((- 2 ^ (wordBits - 1) <=? hint) && (hint <? 2 ^ (wordBits - 1)))
      eqn:Hfit.
    + apply andb_true_iff in Hfit as [H1%Z.leb_le H2%Z.ltb_lt].
      assert (Ei : int_of hint = hint).
      { unfold int_of in *. rewrite E in *. rewrite Z.mod_small; lia. }
      rewrite Ei. unfold int64_of. rewrite Z.mod_small by lia.
      replace (hint + 2 ^ 63 - 2 ^ 63) with hint by lia.
      rewrite Z.eqb_refl. cbn [negb]. rewrite Ei. reflexivity.
    + assert (Hr : - 2 ^ 31 <= int_of hint < 2 ^ 31).
      { unfold int_of. rewrite E.
        pose proof (Z.mod_pos_bound (hint + 2 ^ (32 - 1)) (2 ^ 32) ltac:(lia)).
        change (2 ^ (32 - 1)) with (2 ^ 31) in *. lia. }
      assert (Hne : int_of hint <> hint).
      { intros Ei. rewrite Ei in Hr. rewrite E in Hfit.
        apply andb_false_iff in Hfit as [H1%Z.leb_gt | H2%Z.ltb_ge];
          change (2 ^ (32 - 1)) with (2 ^ 31) in *; lia. }
      unfold int64_of at 1. rewrite Z.mod_small by lia.
      replace (int_of hint + 2 ^ 63 - 2 ^ 63) with (int_of hint) by lia.
      destruct (Z.eqb_spec (int_of hint) hint); [contradiction|].
      cbn [negb]. unfold int_of. rewrite E. reflexivity.
  - assert (Hfit : (- 2 ^ (wordBits - 1) <=? hint)
                   && (hint <? 2 ^ (wordBits - 1)) = true).
    { rewrite E. apply andb_true_iff. split; [apply Z.leb_le | apply Z.ltb_lt];
        change (2 ^ (64 - 1)) with (2 ^ 63); lia. }
    rewrite Hfit.
    assert (Ei : int_of hint = hint).
    { unfold int_of. rewrite E. change (2 ^ (64 - 1)) with (2 ^ 63).
      rewrite Z.mod_small; lia. }
    rewrite Ei. unfold int64_of. rewrite Z.mod_small by lia.
    replace (hint + 2 ^ 63 - 2 ^ 63) with hint by lia.
    rewrite Z.eqb_refl. cbn [negb]. rewrite Ei. reflexivity.
Qed.

(** The header a creation for [B = b] leaves, given the seed drawn. *)
Definition made_hmap (b : Z) (seed : Z) (bkts nextOverflow : Z) : hmap :=
  Hmap 0 0 b 0 seed bkts 0 0
       (if nextOverflow =? 0 then None
        else Some (Mapextra None None nextOverflow)).

(** ** A panic of the hash function (C7) *)

(** The world a panicking call of the hash function leaves: the call is
    logged and has drawn from the random source; nothing else differs. *)
Definition after_hash_panic (key : K) (seed : Z) (w : world K V) : world K V :=
  set_hcalls ((key, seed) :: hcalls w) (set_rand (fun n => rand w (S n)) w).

(** C7: in [mapassign] and [mapdelete] the hash function is called before
    [hashWriting] is set.  If it panics, the call ends in that panic with the
    header (count, flags, buckets, old buckets, evacuation cursor) and the
    bucket memory exactly as before the call, the flag clear, so that a
    later [mapaccess1] or [mapaccess2] does not throw "concurrent map read
    and map write". *)
Theorem hash_panic_before_hashWriting w h key :
  hdr w = Some h -> Z.land (flags h) hashWriting = 0 ->
  (forall seed, hasher t key seed (rand w O) = None) ->
  hashMightPanic t = true ->
  let seed := if count h =? 0 then 0 else hash0 h in
  mapassign key w = Err Trap (after_hash_panic key (hash0 h) w) /\
  mapdelete key w = Err Trap (after_hash_panic key seed w) /\
  (forall s, hdr (after_hash_panic key s w) = Some h /\
             heap (after_hash_panic key s w) = heap w /\
             brk (after_hash_panic key s w) = brk w) /\
  (forall s key' msg w',
      mapaccess1 key' (after_hash_panic key s w) <> Err (Throw msg) w' /\
      mapaccess2 key' (after_hash_panic key s w) <> Err (Throw msg) w').
Proof.
  intros Hh Hf Hp Hm seed.
  assert (Ef : (Z.land (flags h) hashWriting =? 0) = true)
    by (apply Z.eqb_eq; exact Hf).
  split; [|split; [|split]].
  - unfold mapassign, call_hasher. munfold. cbn beta iota.
    rewrite Hh. cbn beta iota. rewrite Ef. cbn beta iota delta [negb].
    rewrite Hp. reflexivity.
  - unfold mapdelete, lookup_empty, call_hasher, seed. munfold. cbn beta iota.
    rewrite Hh, Hm. cbn beta iota.
    destruct (count h =? 0).
    + rewrite Hp. reflexivity.
    + rewrite Ef. cbn beta iota delta [negb]. rewrite Hp. reflexivity.
  - intros s. repeat split; assumption.
  - intros s key' msg w'.
    assert (Hh' : hdr (after_hash_panic key s w) = Some h) by exact Hh.
    unfold mapaccess1, mapaccess2, lookup_empty. munfold. cbn beta iota.
    rewrite Hh'. cbn beta iota.
    pose proof (never_throws_call_hasher key' 0 (after_hash_panic key s w)
                  msg w') as Hc.
    pose proof (never_throws_lookup h key' (after_hash_panic key s w)
                  msg w') as Hl.
    destruct (count h =? 0).
    + destruct (hashMightPanic t); cbn beta iota.
      * destruct (call_hasher key' 0 (after_hash_panic key s w)) eqn:E;
          split; congruence.
      * split; discriminate.
    + rewrite Ef. cbn beta iota delta [negb].
      destruct (lookup h key' (after_hash_panic key s w)) as [[[b i]|] w1|e w1];
        split; congruence.
Qed.

(** ** The flags *)

Lemma land_pow2 f k :
  0 <= k -> Z.land f (2 ^ k) = if Z.testbit f k then 2 ^ k else 0.
Proof.
  intros Hk. apply Z.bits_inj'. intros n Hn.
  rewrite Z.land_spec, Z.pow2_bits_eqb by lia.
  destruct (Z.eqb_spec k n) as [-> | Hne].
  - destruct (Z.testbit f n); cbn [andb].
    + rewrite Z.pow2_bits_eqb, Z.eqb_refl by lia. reflexivity.
    + rewrite Z.bits_0. reflexivity.
  - rewrite andb_false_r. destruct (Z.testbit f k).
    + rewrite Z.pow2_bits_eqb by lia.
      destruct (Z.eqb_spec k n); [contradiction | reflexivity].
    + rewrite Z.bits_0. reflexivity.
Qed.

Lemma flag_test f k :
  0 <= k -> (Z.land f (2 ^ k) =? 0) = negb (Z.testbit f k).
Proof.
  intros Hk. rewrite land_pow2 by assumption.
  pose proof (pow2_pos k Hk).
  destruct (Z.testbit f k); cbn [negb]; [apply Z.eqb_neq; lia | reflexivity].
Qed.

Lemma is_sameSizeGrow_bit h : is_sameSizeGrow h = Z.testbit (flags h) 3.
Proof.
  unfold is_sameSizeGrow. change sameSizeGrow with (2 ^ 3).
  rewrite flag_test by lia. apply negb_involutive.
Qed.

(** ** Starting a grow (C3) *)

Lemma set_hdr_same (w : world K V) h : hdr w = Some h -> set_hdr (Some h) w = w.
Proof. destruct w. cbn. intros ->. reflexivity. Qed.

Lemma ret_ok {A : Type} (a b : A) w w' : ret a w = Ok b w' -> b = a /\ w' = w.
Proof. unfold ret. intros [= -> ->]. auto. Qed.

Lemma geth_ok w h w' : geth w = Ok h w' -> hdr w = Some h /\ w' = w.
Proof. unfold geth. destruct (hdr w); intros [= -> ->]; auto. Qed.

Lemma seth_ok h w u w' : seth h w = Ok u w' -> w' = set_hdr (Some h) w.
Proof. unfold seth. intros H. inversion H. reflexivity. Qed.

Lemma updh_ok f w u w' :
  updh f w = Ok u w' ->
  exists h, hdr w = Some h /\ w' = set_hdr (Some (f h)) w.
Proof.
  unfold updh, bind, geth, seth. destruct (hdr w) as [h|]; [|discriminate].
  intros H. inversion H. eauto.
Qed.

Lemma load_ok b w bm w' :
  load b w = Ok bm w' -> heap w !! b = Some bm /\ w' = w.
Proof. unfold load. destruct (heap w !! b); intros [= -> ->]; auto. Qed.

Lemma store_ok b bm w u w' :
  store b bm w = Ok u w' ->
  is_Some (heap w !! b) /\ w' = set_heap (<[b := bm]> (heap w)) w.
Proof.
  unfold store. destruct (heap w !! b); [|discriminate].
  intros H. inversion H. eauto.
Qed.

Lemma updb_ok b f w u w' :
  updb b f w = Ok u w' ->
  exists bm, heap w !! b = Some bm /\
             w' = set_heap (<[b := f bm]> (heap w)) w.
Proof.
  unfold updb, bind, load, store.
  destruct (heap w !! b) as [bm|] eqn:E; [|discriminate].
  cbn beta iota. rewrite E. intros H. inversion H. eauto.
Qed.

Lemma newarray_ok n w a w' :
  newarray n w = Ok a w' ->
  1 <= n /\ brk w + n * bucket_size t <= maxAlloc /\ a = brk w /\
  w' = set_brk (brk w + n * bucket_size t)
         (set_heap (fill_buckets (heap w) (brk w) (Z.to_nat n)) w).
Proof.
  unfold newarray.
  destruct (Z.ltb_spec n 1); cbn [orb]; [discriminate|].
  destruct (Z.ltb_spec maxAlloc (brk w + n * bucket_size t)); [discriminate|].
  intros [= <- <-]. auto.
Qed.

Lemma makeBucketArray_frame b d w x w' :
  makeBucketArray b d w = Ok x w' ->
  hdr w' = hdr w /\ rand w' = rand w /\ hcalls w' = hcalls w.
Proof.
  unfold makeBucketArray. cbv zeta. intros H. inv_bind H.
  assert (Hw : hdr w0 = hdr w /\ rand w0 = rand w /\ hcalls w0 = hcalls w).
  { destruct (d =? 0).
    - apply newarray_ok in H0 as (_ & _ & _ & ->). auto.
    - unfold memclr_buckets, bind, ret in H0. injection H0 as _ <-. auto. }
  destruct (negb _).
  - inv_bind H. apply ret_ok in H as [_ ->].
    apply updb_ok in H1 as (bm & _ & ->). exact Hw.
  - apply ret_ok in H as [_ ->]. exact Hw.
Qed.

(** What [hashGrow] does to the header: the current array becomes the old
    one, the cursor and the overflow count start at zero, and [B] is one more
    exactly when one more entry would overload the table; otherwise [B]
    stays and [sameSizeGrow] is set. *)
Lemma hashGrow_header w h w' :
  hdr w = Some h -> hashGrow w = Ok tt w' ->
  exists h',
    hdr w' = Some h' /\ oldbuckets h' = buckets h /\ nevacuate h' = 0 /\
    noverflow h' = 0 /\ count h' = count h /\ hash0 h' = hash0 h /\
    buckets h' = brk w /\
    if overLoadFactor (int_of (count h + 1)) (B h)
    then B h' = wrap8 (B h + 1) /\
         is_sameSizeGrow h' = is_sameSizeGrow h
    else B h' = wrap8 (B h + 0) /\ is_sameSizeGrow h' = true.
Proof.
  intros Hh H. unfold hashGrow in H.
  unfold bind at 1, geth at 1 in H. rewrite Hh in H.
  revert H. generalize (overLoadFactor (int_of (count h + 1)) (B h)).
  intros ov H.
  set (h1 := if negb ov then set_flags (Z.lor (flags h) sameSizeGrow) h
             else h).
  assert (E1 : (if negb ov
                then updh (fun h => set_flags (Z.lor (flags h) sameSizeGrow) h)
                else ret tt) w = Ok tt (set_hdr (Some h1) w)).
  { unfold h1. destruct ov; cbn [negb].
    - unfold ret. rewrite set_hdr_same by assumption. reflexivity.
    - unfold updh, bind, geth, seth. rewrite Hh. reflexivity. }
  unfold bind at 1 in H. rewrite E1 in H.
  unfold bind at 1, geth at 1 in H. cbn [hdr set_hdr] in H.
  unfold bind at 1 in H.
  destruct (makeBucketArray _ 0 _) as [[nb nx] w2 | e w2] eqn:Emk;
    [|discriminate].
  destruct (makeBucketArray_frame _ _ _ _ _ Emk) as (Eh2 & _ & _).
  cbn [hdr set_hdr] in Eh2.
  unfold bind at 1, geth at 1 in H. rewrite Eh2 in H.
  unfold bind at 1, seth at 1 in H.
  unfold bind at 1, geth at 1 in H. cbn [hdr set_hdr] in H.
  match type of H with
  | bind ?m _ ?ww = _ => destruct (m ww) as [[] w3|] eqn:Eov
  end.
  2:{ unfold bind in H. rewrite Eov in H. discriminate. }
  unfold bind at 1 in H. rewrite Eov in H.
  assert (Hbk : nb = brk w).
  { unfold makeBucketArray, newarray in Emk. cbv zeta in Emk.
    rewrite Z.eqb_refl in Emk. unfold bind at 1 in Emk.
    cbn [brk set_hdr] in Emk.
    destruct (_ || _) in Emk; [discriminate|].
    destruct (negb _) in Emk.
    - unfold bind in Emk. destruct (setoverflow _ _ _) in Emk;
        [|discriminate]. injection Emk as <- _ _. reflexivity.
    - injection Emk as <- _ _. reflexivity. }
  subst nb.
  match type of Eov with
  | _ (set_hdr (Some ?hh) w2) = _ => set (h3 := hh) in *
  end.
  assert (Hflag : is_sameSizeGrow h3 = is_sameSizeGrow h1).
  { rewrite !is_sameSizeGrow_bit. unfold h3. wsimpl.
    change (Z.lor iterator oldIterator) with 3.
    destruct (negb (Z.land (flags h1) iterator =? 0));
      rewrite ?Z.lor_spec, Z.ldiff_spec;
      change (Z.testbit 3 3) with false;
      change (Z.testbit oldIterator 3) with false;
      rewrite ?orb_false_r; cbn [negb]; apply andb_true_r. }
  assert (Hh3 : exists e3, hdr w3 = Some (set_extra e3 h3)).
  { destruct (extra h3) as [e|] eqn:Ee.
    - destruct (overflow e) as [o|].
      + destruct (oldoverflow e); [discriminate|].
        munfold. injection Eov as <-. eexists. reflexivity.
      + injection Eov as <-. exists (extra h3). destruct h3; reflexivity.
    - injection Eov as <-. exists (extra h3). destruct h3; reflexivity. }
  destruct Hh3 as (e3 & Hh3).
  assert (Hfin : exists e4, hdr w' = Some (set_extra e4 h3)).
  { destruct (negb (nx =? 0)).
    - apply updh_ok in H as (hh & Hhh & ->). rewrite Hh3 in Hhh.
      injection Hhh as <-. eexists. reflexivity.
    - apply ret_ok in H as [_ ->]. eauto. }
  destruct Hfin as (e4 & Hfin).
  exists (set_extra e4 h3). split; [assumption|].
  assert (Hs4 : is_sameSizeGrow (set_extra e4 h3) = is_sameSizeGrow h1)
    by exact Hflag.
  assert (Hb1 : buckets h1 = buckets h /\ count h1 = count h /\
                hash0 h1 = hash0 h /\ B h1 = B h).
  { unfold h1. destruct (negb ov); auto. }
  destruct Hb1 as (Eb & Ec & E0 & EB).
  split; [exact Eb|]. split; [reflexivity|]. split; [reflexivity|].
  split; [exact Ec|]. split; [exact E0|]. split; [reflexivity|].
  rewrite Hs4. change (B (set_extra e4 h3)) with (wrap8 (B h1 + if negb ov then 0 else 1)).
  rewrite EB. unfold h1. destruct ov; cbn [negb]; (split; [reflexivity|]).
  - reflexivity.
  - rewrite is_sameSizeGrow_bit. wsimpl. rewrite Z.lor_spec.
    change (Z.testbit sameSizeGrow 3) with true. apply orb_true_r.
Qed.

(** Headers that differ in the overflow bookkeeping only ([noverflow] and
    [extra]). *)
Definition same_table (h h' : hmap) : Prop :=
  B h' = B h /\ buckets h' = buckets h /\ oldbuckets h' = oldbuckets h /\
  flags h' = flags h /\ count h' = count h /\ hash0 h' = hash0 h /\
  nevacuate h' = nevacuate h.

Lemma same_table_refl h : same_table h h.
Proof. repeat split. Qed.

Lemma same_table_trans h1 h2 h3 :
  same_table h1 h2 -> same_table h2 h3 -> same_table h1 h3.
Proof. unfold same_table. intuition congruence. Qed.

Lemma same_table_noverflow h n : same_table h (set_noverflow n h).
Proof. repeat split. Qed.

Lemma same_table_extra h e : same_table h (set_extra e h).
Proof. repeat split. Qed.

Lemma fastrand_ok w r w' :
  fastrand w = Ok r w' ->
  hdr w' = hdr w /\ heap w' = heap w /\ brk w' = brk w.
Proof. unfold fastrand. intros H. inversion H. auto. Qed.

Lemma incrnoverflow_header w h u w' :
  hdr w = Some h -> incrnoverflow w = Ok u w' ->
  exists h', hdr w' = Some h' /\ same_table h h' /\ extra h' = extra h /\
             heap w' = heap w /\ brk w' = brk w.
Proof.
  intros Hh H. unfold incrnoverflow in H. inv_bind H.
  apply geth_ok in H0 as [Hh0 ->]. rewrite Hh in Hh0. injection Hh0 as <-.
  destruct (B h <? 16).
  - apply seth_ok in H as ->. eexists. split; [reflexivity|].
    split; [apply same_table_noverflow | auto].
  - inv_bind H. apply fastrand_ok in H0 as (E1 & E2 & E3).
    destruct (_ =? 0).
    + apply updh_ok in H as (h1 & Hh1 & ->). rewrite E1, Hh in Hh1.
      injection Hh1 as <-. eexists. split; [reflexivity|].
      split; [apply same_table_noverflow | auto].
    + apply ret_ok in H as [_ ->]. exists h. rewrite E1.
      split; [assumption|]. split; [apply same_table_refl | auto].
Qed.

Lemma createOverflow_same h : same_table h (createOverflow h).
Proof.
  unfold createOverflow. destruct (extra h) as [e|] eqn:E; cbn [extra set_extra].
  - rewrite E. destruct (overflow e); [apply same_table_refl|].
    apply same_table_extra.
  - cbn. repeat split.
Qed.

Lemma newoverflow_header b w h a w' :
  hdr w = Some h -> newoverflow b w = Ok a w' ->
  exists h', hdr w' = Some h' /\ same_table h h'.
Proof.
  intros Hh H. unfold newoverflow in H. inv_bind H.
  apply geth_ok in H0 as [Hh0 ->]. rewrite Hh in Hh0. injection Hh0 as <-.
  inv_bind H.
  assert (H1 : exists h1, hdr w0 = Some h1 /\ same_table h h1).
  { destruct (extra h) as [e|].
    - destruct (negb (nextOverflow e =? 0)).
      + inv_bind H0. unfold bmap_overflow in H1. inv_bind H1.
        apply load_ok in H2 as [_ ->]. apply ret_ok in H1 as [_ ->].
        destruct (a1 =? 0).
        * inv_bind H0. apply seth_ok in H1 as ->.
          apply ret_ok in H0 as [_ ->]. eexists. split; [reflexivity|].
          apply same_table_extra.
        * inv_bind H0. apply updb_ok in H1 as (bm & _ & ->).
          inv_bind H0. apply seth_ok in H1 as ->.
          apply ret_ok in H0 as [_ ->]. eexists. split; [reflexivity|].
          apply same_table_extra.
      + apply newarray_ok in H0 as (_ & _ & _ & ->). exists h.
        split; [assumption | apply same_table_refl].
    - apply newarray_ok in H0 as (_ & _ & _ & ->). exists h.
      split; [assumption | apply same_table_refl]. }
  destruct H1 as (h1 & Hh1 & S1).
  inv_bind H.
  destruct (incrnoverflow_header _ _ _ _ Hh1 H1) as (h2 & Hh2 & S2 & _).
  inv_bind H.
  assert (H3 : exists h3, hdr w2 = Some h3 /\ same_table h2 h3).
  { destruct (bucket_ptrdata t =? 0).
    - inv_bind H2. apply updh_ok in H3 as (h3 & Hh3 & ->).
      rewrite Hh2 in Hh3. injection Hh3 as <-.
      apply updh_ok in H2 as (h4 & Hh4 & ->). cbn [hdr set_hdr] in Hh4.
      injection Hh4 as <-. eexists. split; [reflexivity|].
      eapply same_table_trans; [apply createOverflow_same|].
      destruct (extra (createOverflow h2));
        [apply same_table_extra | apply same_table_refl].
    - apply ret_ok in H2 as [_ ->]. exists h2.
      split; [assumption | apply same_table_refl]. }
  destruct H3 as (h3 & Hh3 & S3).
  inv_bind H. apply updb_ok in H3 as (bm & _ & ->).
  apply ret_ok in H as [_ ->]. exists h3. split; [exact Hh3|].
  eauto using same_table_trans.
Qed.

(** The walk of [mapassign] only reads. *)
Lemma assign_chain_readonly fuel : forall b key top ins w x w',
  assign_chain fuel b key top ins w = Ok x w' -> w' = w.
Proof.
  induction fuel as [| fuel IH]; intros b key top ins w x w' H;
    cbn [assign_chain] in H; [discriminate|].
  inv_bind H. apply load_ok in H0 as [_ ->].
  destruct (assign_cells b a key top ins cellIndexes).
  - apply ret_ok in H as [_ ->]. reflexivity.
  - apply ret_ok in H as [_ ->]. reflexivity.
  - destruct (b_overflow a =? 0).
    + apply ret_ok in H as [_ ->]. reflexivity.
    + eapply IH. exact H.
Qed.

(** [tooManyOverflowBuckets(noverflow, B)]: there are at least
    [2^min(B,15)] overflow buckets, about as many as regular buckets. *)
Lemma tooManyOverflowBuckets_spec n b :
  0 <= b -> tooManyOverflowBuckets n b = true <-> 2 ^ Z.min b 15 <= n.
Proof.
  intros Hb. unfold tooManyOverflowBuckets.
  assert (E : (if 15 <? b then 15 else b) = Z.min b 15)
    by (destruct (Z.ltb_spec 15 b); lia).
  rewrite E. set (m := Z.min b 15). assert (Hm : 0 <= m <= 15) by lia.
  pose proof (Z.land_ones m 4 ltac:(lia)) as E15.
  change (Z.ones 4) with 15 in E15. change (2 ^ 4) with 16 in E15.
  rewrite Z.mod_small in E15 by lia.
  rewrite E15, Z.shiftl_1_l. unfold wrap16.
  assert (Hp : 0 < 2 ^ m <= 2 ^ 15).
  { split; [apply Z.pow_pos_nonneg; lia | apply Z.pow_le_mono_r; lia]. }
  change (2 ^ 15) with 32768 in Hp. change (2 ^ 16) with 65536.
  rewrite Z.mod_small by lia. apply Z.leb_le.
Qed.

(** C3: when [mapassign], at the label [again], finds no mapping for the
    key and no grow is in progress, it starts a grow ([hashGrow] and [goto
    again]) iff one more entry exceeds the load factor ([count+1 > 8] and
    [count+1 > 13/2 * 2^B]) or there are too many overflow buckets
    ([noverflow >= 2^min(B,15)]).  The grow doubles the table ([B+1])
    exactly when the load factor is exceeded; otherwise [B] stays and
    [sameSizeGrow] is set.  Without a grow the entry is inserted and the
    array and [B] stay.  [count+1] is an [int]: the count is below the
    largest one. *)
Theorem grow_started_iff w h key hash ins lastb r w' :
  ArchOK ->
  hdr w = Some h -> growing h = false -> buckets h <> 0 ->
  0 <= B h <= wordBits - 4 ->
  0 <= count h -> count h + 1 < 2 ^ (wordBits - 1) ->
  assign_chain (walk_fuel w)
    (bucketAt (buckets h) (Z.land hash (bucketMask (B h))))
    key (tophash hash) None w = Ok (None, ins, lastb) w ->
  mapassign_again key hash w = Ok r w' ->
  let lf := 8 < count h + 1 /\ 13 * 2 ^ B h < 2 * (count h + 1) in
  let tm := 2 ^ Z.min (B h) 15 <= noverflow h in
  exists h',
    hdr w' = Some h' /\
    (r = None <-> lf \/ tm) /\
    (lf -> growing h' = true /\ oldbuckets h' = buckets h /\
           B h' = B h + 1 /\ is_sameSizeGrow h' = is_sameSizeGrow h) /\
    (~ lf -> tm -> growing h' = true /\ oldbuckets h' = buckets h /\
                   B h' = B h /\ is_sameSizeGrow h' = true) /\
    (~ lf -> ~ tm -> growing h' = false /\ B h' = B h /\
                     buckets h' = buckets h).
Proof.
  intros HA Hh Hg Hb HB Hc Hc1 Hwalk H lf tm.
  assert (Ew : 2 ^ wordBits = 2 * 2 ^ (wordBits - 1)).
  { destruct (wordBits_cases HA) as [-> | ->]; reflexivity. }
  assert (Hw : 4 <= wordBits - 4 < 100).
  { destruct (wordBits_cases HA) as [-> | ->]; lia. }
  assert (Ei : int_of (count h + 1) = count h + 1)
    by (apply int_of_small; [assumption | lia]).
  assert (Hlf : overLoadFactor (int_of (count h + 1)) (B h) = true <-> lf).
  { rewrite Ei. apply overLoadFactor_spec; [assumption | lia | lia]. }
  assert (Htm : tooManyOverflowBuckets (noverflow h) (B h) = true <-> tm)
    by (apply tooManyOverflowBuckets_spec; lia).
  unfold mapassign_again in H.
  unfold bind at 1, geth at 1 in H. rewrite Hh in H.
  rewrite Hg in H. unfold bind at 1, ret at 1 in H.
  unfold bind at 1, geth at 1 in H. rewrite Hh in H.
  unfold bind at 1, get_world at 1 in H.
  unfold bind at 1 in H. rewrite Hwalk in H. cbv beta iota in H.
  unfold bind at 1, geth at 1 in H. rewrite Hh in H.
  rewrite Hg in H. cbn [negb andb] in H.
  destruct (overLoadFactor (int_of (count h + 1)) (B h)
            || tooManyOverflowBuckets (noverflow h) (B h)) eqn:Ec.
  - inv_bind H. apply ret_ok in H as [-> ->]. destruct a.
    destruct (hashGrow_header _ _ _ Hh H0)
      as (h' & Hh' & Ho & _ & _ & _ & _ & _ & HBf).
    exists h'. split; [assumption|].
    assert (Hgr : growing h' = true).
    { unfold growing. rewrite Ho.
      destruct (Z.eqb_spec (buckets h) 0); [contradiction | reflexivity]. }
    apply orb_true_iff in Ec.
    split; [|split; [|split]].
    + split; [intros _ | reflexivity].
      destruct Ec as [Ec | Ec];
        [left; apply Hlf; exact Ec | right; apply Htm; exact Ec].
    + intros L. apply Hlf in L. rewrite L in HBf. destruct HBf as [EB Es].
      assert (Hr : 0 <= B h + 1 < 256) by lia.
      unfold wrap8 in EB. change (2 ^ 8) with 256 in EB.
      rewrite Z.mod_small in EB by exact Hr. auto.
    + intros NL T.
      destruct (overLoadFactor (int_of (count h + 1)) (B h));
        [exfalso; apply NL, Hlf; reflexivity|].
      destruct HBf as [EB Es].
      assert (Hr : 0 <= B h + 0 < 256) by lia.
      unfold wrap8 in EB. change (2 ^ 8) with 256 in EB.
      rewrite Z.mod_small in EB by exact Hr.
      rewrite Z.add_0_r in EB. auto.
    + intros NL NT. exfalso. destruct Ec as [Ec | Ec];
        [apply NL, Hlf; exact Ec | apply NT, Htm; exact Ec].
  - apply orb_false_iff in Ec as [Ec1 Ec2].
    assert (NL : ~ lf) by (intros L; apply Hlf in L; congruence).
    assert (NT : ~ tm) by (intros T; apply Htm in T; congruence).
    inv_bind H.
    assert (Hh0 : exists h0, hdr w0 = Some h0 /\ same_table h h0).
    { destruct ins as [[ib ii]|].
      - apply ret_ok in H0 as [_ ->]. exists h.
        split; [assumption | apply same_table_refl].
      - inv_bind H0. apply ret_ok in H0 as [_ ->].
        eapply newoverflow_header; eassumption. }
    destruct Hh0 as (h0 & Hh0 & S0). destruct a as [ib ii].
    inv_bind H. apply updb_ok in H1 as (bm & _ & ->).
    inv_bind H. apply updh_ok in H1 as (h1 & Hh1 & ->).
    cbn [hdr set_heap] in Hh1. rewrite Hh0 in Hh1. injection Hh1 as <-.
    apply ret_ok in H as [-> ->].
    destruct S0 as (EB & Eb & Eo & _).
    eexists. split; [reflexivity|].
    split; [|split; [|split]].
    + split; [discriminate | intros [L | T]; contradiction].
    + intros L. contradiction.
    + intros _ T. contradiction.
    + intros _ _. unfold growing in *. wsimpl. rewrite Eo. auto.
Qed.

(** ** Runs that return *)

Definition tot {A : Type} (m : M A) (w : world K V)
           (Q : A -> world K V -> Prop) : Prop :=
  exists a w', m w = Ok a w' /\ Q a w'.

Lemma tot_wp {A : Type} (m : M A) w Q : tot m w Q -> wp m w Q.
Proof. intros (a & w' & E & HQ). unfold wp. rewrite E. exact HQ. Qed.

Lemma tot_mono {A : Type} (m : M A) w (Q Q' : A -> world K V -> Prop) :
  tot m w Q -> (forall a w', Q a w' -> Q' a w') -> tot m w Q'.
Proof. intros (a & w' & E & HQ) H. exists a, w'. auto. Qed.

Lemma tot_ret {A : Type} (a : A) w (Q : A -> world K V -> Prop) :
  Q a w -> tot (ret a) w Q.
Proof. intros. exists a, w. auto. Qed.

Lemma tot_bind {A B' : Type} (m : M A) (f : A -> M B') w Q :
  tot m w (fun a w1 => tot (f a) w1 Q) -> tot (bind m f) w Q.
Proof.
  intros (a & w1 & E & b & w2 & E2 & HQ). exists b, w2.
  split; [|assumption]. unfold bind. rewrite E. assumption.
Qed.

Lemma tot_geth h w (Q : hmap -> world K V -> Prop) :
  hdr w = Some h -> Q h w -> tot geth w Q.
Proof. intros Hh HQ. exists h, w. unfold geth. rewrite Hh. auto. Qed.

Lemma tot_seth h w (Q : unit -> world K V -> Prop) :
  Q tt (set_hdr (Some h) w) -> tot (seth h) w Q.
Proof. intros. eexists _, _. split; [reflexivity | assumption]. Qed.

Lemma tot_updh f h w (Q : unit -> world K V -> Prop) :
  hdr w = Some h -> Q tt (set_hdr (Some (f h)) w) -> tot (updh f) w Q.
Proof.
  intros Hh HQ. eexists _, _. split; [|exact HQ].
  unfold updh, bind, geth, seth. rewrite Hh. reflexivity.
Qed.

Lemma tot_load b bm w (Q : bmap K V -> world K V -> Prop) :
  heap w !! b = Some bm -> Q bm w -> tot (load b) w Q.
Proof. intros Hb HQ. exists bm, w. unfold load. rewrite Hb. auto. Qed.

Lemma tot_updb b f bm w (Q : unit -> world K V -> Prop) :
  heap w !! b = Some bm ->
  Q tt (set_heap (<[b := f bm]> (heap w)) w) -> tot (updb b f) w Q.
Proof.
  intros Hb HQ. eexists _, _. split; [|exact HQ].
  unfold updb, bind, load, store. rewrite Hb. cbn beta iota. rewrite Hb.
  reflexivity.
Qed.

Lemma tot_bmap_overflow b bm w (Q : Z -> world K V -> Prop) :
  heap w !! b = Some bm -> Q (b_overflow bm) w -> tot (bmap_overflow b) w Q.
Proof.
  intros Hb HQ. unfold bmap_overflow. apply tot_bind.
  apply (tot_load _ bm); [assumption|]. apply tot_ret. assumption.
Qed.

Lemma tot_fastrand w (Q : Z -> world K V -> Prop) :
  Q (wrap32 (rand w O)) (set_rand (fun n => rand w (S n)) w) ->
  tot fastrand w Q.
Proof. intros. eexists _, _. split; [reflexivity | assumption]. Qed.

Lemma tot_ok {A : Type} (m : M A) w Q a w' :
  tot m w Q -> m w = Ok a w' -> Q a w'.
Proof. intros (a1 & w1 & E & HQ) E'. congruence. Qed.

(** [incrnoverflow] changes the overflow counter (and draws a random
    number) only. *)
Lemma incrnoverflow_tot w h :
  hdr w = Some h ->
  tot incrnoverflow w
      (fun _ w' => exists n, hdr w' = Some (set_noverflow n h) /\
                             heap w' = heap w /\ brk w' = brk w).
Proof.
  intros Hh. unfold incrnoverflow. apply tot_bind, (tot_geth h); [assumption|].
  destruct (B h <? 16).
  - apply tot_seth. exists (wrap16 (noverflow h + 1)). auto.
  - apply tot_bind, tot_fastrand.
    match goal with |- context [if ?c then _ else _] => destruct c end.
    + apply (tot_updh _ h); [assumption|].
      exists (wrap16 (noverflow h + 1)). auto.
    + apply tot_ret. exists (noverflow h). destruct h. auto.
Qed.

(** ** The pool of preallocated overflow buckets (C9) *)

Lemma pool_at_frame H H' G G' p n :
  pool_at H G p n ->
  (forall i, (i < n)%nat ->
             H' !! (p + Z.of_nat i * bucketsize t)
             = H !! (p + Z.of_nat i * bucketsize t) /\
             G' !! (p + Z.of_nat i * bucketsize t) = None) ->
  pool_at H' G' p n.
Proof.
  revert p. induction n as [| n IH]; intros p HP Hf; [exact HP|].
  cbn [pool_at] in *. destruct HP as (Hp & HG & o & Ho & Hn).
  destruct (Hf O ltac:(lia)) as [E1 E2].
  rewrite Z.mul_0_l, Z.add_0_r in E1, E2.
  split; [assumption|]. split; [assumption|].
  exists o. split; [congruence|].
  destruct n as [| n]; [assumption|].
  destruct Hn as [-> Hn]. split; [reflexivity|].
  apply IH; [assumption|]. intros i Hi.
  specialize (Hf (S i) ltac:(lia)).
  replace (p + bucketsize t + Z.of_nat i * bucketsize t)
    with (p + Z.of_nat (S i) * bucketsize t) by lia.
  exact Hf.
Qed.

Lemma pool_at_lookup H G p n i :
  pool_at H G p n -> (i < n)%nat ->
  G !! (p + Z.of_nat i * bucketsize t) = None /\
  is_Some (H !! (p + Z.of_nat i * bucketsize t)).
Proof.
  revert p i. induction n as [| n IH]; intros p i HP Hi; [lia|].
  cbn [pool_at] in HP. destruct HP as (Hp & HG & o & Ho & Hn).
  destruct i as [| i].
  - rewrite Z.mul_0_l, Z.add_0_r. eauto.
  - destruct n as [| n]; [lia|]. destruct Hn as [_ Hn].
    replace (p + Z.of_nat (S i) * bucketsize t)
      with (p + bucketsize t + Z.of_nat i * bucketsize t) by lia.
    apply IH; [assumption | lia].
Qed.

Lemma pool_cursor_createOverflow h :
  pool_cursor (createOverflow h) = pool_cursor h.
Proof.
  unfold createOverflow, pool_cursor.
  destruct (extra h) as [e|] eqn:E; cbn [extra set_extra].
  - rewrite E. destruct (overflow e); [rewrite E; reflexivity|].
    reflexivity.
  - reflexivity.
Qed.

(** The header after [newoverflow] has recorded the bucket [ovf]. *)
Definition note_overflow (ovf : Z) (h : hmap) : hmap :=
  if bucket_ptrdata t =? 0 then
    let h1 := createOverflow h in
    match extra h1 with
    | Some e =>
        set_extra
          (Some (set_overflow (Some (default [] (overflow e) ++ [ovf])) e)) h1
    | None => h1
    end
  else h.

Lemma note_overflow_same ovf h :
  same_table h (note_overflow ovf h) /\
  pool_cursor (note_overflow ovf h) = pool_cursor h.
Proof.
  unfold note_overflow. destruct (bucket_ptrdata t =? 0).
  - pose proof (createOverflow_same h) as HS.
    pose proof (pool_cursor_createOverflow h) as HP.
    destruct (extra (createOverflow h)) as [e|] eqn:E.
    + split.
      * eapply same_table_trans; [exact HS | apply same_table_extra].
      * rewrite <- HP. unfold pool_cursor. rewrite E. reflexivity.
    + auto.
  - split; [apply same_table_refl | reflexivity].
Qed.

(** The end of [newoverflow], from [h.incrnoverflow()] on. *)
Lemma newoverflow_tail (bk ovf : Z) bb w h (Q : Z -> world K V -> Prop) :
  hdr w = Some h -> heap w !! bk = Some bb ->
  (forall n w', hdr w' = Some (note_overflow ovf (set_noverflow n h)) ->
                heap w' = <[bk := set_b_overflow ovf bb]> (heap w) ->
                brk w' = brk w -> Q ovf w') ->
  tot (incrnoverflow;;
       (if bucket_ptrdata t =? 0 then
          updh createOverflow;;
          updh (fun h =>
                  match extra h with
                  | Some e =>
                      set_extra
                        (Some (set_overflow
                                 (Some (default [] (overflow e) ++ [ovf])) e)) h
                  | None => h
                  end)
        else ret tt);;
       setoverflow bk ovf;;
       ret ovf) w Q.
Proof.
  intros Hh Hb HQ. apply tot_bind.
  eapply tot_mono; [apply (incrnoverflow_tot w h Hh)|].
  intros _ w1 (n & Hh1 & EH & EB). cbn beta.
  apply tot_bind.
  assert (Hmid : tot (if bucket_ptrdata t =? 0 then
          updh createOverflow;;
          updh (fun h =>
                  match extra h with
                  | Some e =>
                      set_extra
                        (Some (set_overflow
                                 (Some (default [] (overflow e) ++ [ovf])) e)) h
                  | None => h
                  end)
        else ret tt) w1
        (fun _ w2 => hdr w2 = Some (note_overflow ovf (set_noverflow n h)) /\
                     heap w2 = heap w /\ brk w2 = brk w)).
  { unfold note_overflow. destruct (bucket_ptrdata t =? 0).
    - apply tot_bind. eapply tot_updh; [eassumption|].
      eapply tot_updh; [reflexivity|]. cbn [hdr heap brk set_hdr]. auto.
    - apply tot_ret. auto. }
  eapply tot_mono; [exact Hmid|]. intros _ w2 (Hh2 & EH2 & EB2). cbn beta.
  apply tot_bind. unfold setoverflow.
  eapply tot_updb; [rewrite EH2; eassumption|].
  apply tot_ret. apply (HQ n); cbn [hdr heap brk set_heap]; congruence.
Qed.

Lemma pool_at_intro H G p o n :
  0 < p -> 0 < bucketsize t -> o <> 0 ->
  (forall i, (i < S n)%nat ->
     G !! (p + Z.of_nat i * bucketsize t) = None /\
     H !! (p + Z.of_nat i * bucketsize t) =
       Some (if Nat.eqb i n then set_b_overflow o zero_bmap else zero_bmap)) ->
  pool_at H G p (S n).
Proof.
  intros Hp HS Ho. revert p Hp.
  induction n as [| n IH]; intros p Hp Hall.
  - destruct (Hall O ltac:(lia)) as [G0 H0].
    rewrite Z.mul_0_l, Z.add_0_r in G0, H0. cbn [Nat.eqb] in H0.
    cbn [pool_at]. split; [lia|]. split; [assumption|]. exists o. auto.
  - destruct (Hall O ltac:(lia)) as [G0 H0].
    rewrite Z.mul_0_l, Z.add_0_r in G0, H0. cbn [Nat.eqb] in H0.
    cbn [pool_at]. split; [lia|]. split; [assumption|].
    exists 0. split; [exact H0|]. split; [reflexivity|].
    apply IH; [lia|]. intros i Hi.
    specialize (Hall (S i) ltac:(lia)). cbn [Nat.eqb] in Hall.
    replace (p + bucketsize t + Z.of_nat i * bucketsize t)
      with (p + Z.of_nat (S i) * bucketsize t) by lia.
    exact Hall.
Qed.

(** The buckets of a new array: zeroed, but for the overflow pointer of the
    last one when overflow buckets were preallocated; the rest of the
    memory is as it was. *)
Lemma bucketArray_world_lookup b w i :
  0 < bucketsize t -> 0 <= i < nbucketsFor b ->
  heap (bucketArray_world b w) !! (brk w + i * bucketsize t) =
  Some (if (i =? nbucketsFor b - 1) && negb (2 ^ b =? nbucketsFor b)
        then set_b_overflow (brk w) zero_bmap else zero_bmap).
Proof.
  intros HS Hi. unfold bucketArray_world.
  set (n := nbucketsFor b) in *.
  assert (Hfill : fill_buckets (heap w) (brk w) (Z.to_nat n)
                    !! (brk w + i * bucketsize t) = Some zero_bmap).
  { replace (brk w + i * bucketsize t)
      with (brk w + Z.of_nat (Z.to_nat i) * bucketsize t)
      by (rewrite Z2Nat.id by lia; reflexivity).
    apply fill_buckets_in; lia. }
  destruct (Z.eqb_spec (2 ^ b) n) as [E | E]; cbn [negb].
  - rewrite andb_false_r. cbn [heap set_brk set_heap]. exact Hfill.
  - rewrite andb_true_r. cbn [heap set_brk set_heap].
    destruct (Z.eqb_spec i (n - 1)) as [-> | Hne].
    + apply lookup_insert_eq.
    + rewrite lookup_insert_ne by nia. exact Hfill.
Qed.

Lemma bucketArray_world_other b w a :
  0 < bucketsize t -> 1 <= nbucketsFor b -> a < brk w ->
  heap (bucketArray_world b w) !! a = heap w !! a.
Proof.
  intros HS Hn Ha. unfold bucketArray_world.
  set (n := nbucketsFor b) in *.
  assert (Hfill : fill_buckets (heap w) (brk w) (Z.to_nat n) !! a
                  = heap w !! a).
  { apply fill_buckets_out. intros i Hi. nia. }
  destruct (Z.eqb_spec (2 ^ b) n) as [E | E]; cbn [heap set_brk set_heap].
  - exact Hfill.
  - rewrite lookup_insert_ne by nia. exact Hfill.
Qed.

Lemma bucketArray_world_brk b w :
  brk (bucketArray_world b w) = brk w + nbucketsFor b * bucket_size t /\
  hdr (bucketArray_world b w) = hdr w.
Proof.
  unfold bucketArray_world. destruct (2 ^ b =? nbucketsFor b); auto.
Qed.

(** While the pool lasts, [newoverflow] hands out the bucket under the
    cursor: the cursor moves on by one bucket, or to nil behind the last
    bucket of the pool, whose overflow pointer is reset.  Nothing is
    allocated. *)
Lemma newoverflow_pool w h G bk bb n :
  ArchOK -> TypeOK ->
  hdr w = Some h -> brk w <= maxAlloc ->
  (forall a bm, heap w !! a = Some bm -> 0 < a < brk w) ->
  heap w !! bk = Some bb -> is_Some (G !! bk) ->
  pool_at (heap w) G (pool_cursor h) (S n) ->
  tot (newoverflow bk) w (fun ovf w' =>
    ovf = pool_cursor h /\ brk w' = brk w /\
    heap w' = <[bk := set_b_overflow ovf bb]> (<[ovf := zero_bmap]> (heap w)) /\
    exists h', hdr w' = Some h' /\ same_table h h' /\
      pool_cursor h' = match n with
                       | O => 0
                       | S _ => pool_cursor h + bucketsize t
                       end /\
      forall a, pool_at (heap w') (<[ovf := a]> G) (pool_cursor h') n).
Proof.
  intros HA HT Hh Hbrk Hheap Hbk HG HP.
  assert (HS : 0 < bucketsize t).
  { destruct HT as [_ [HS _] _ _ _ _ _]. unfold dataOffset in HS.
    destruct HA as [[E | E] _ _]; rewrite E in HS; lia. }
  cbn [pool_at] in HP. destruct HP as (Hp & HGp & o & Ho & Hn).
  set (p := pool_cursor h) in *.
  assert (Hne : bk <> p).
  { intros ->. rewrite HGp in HG. destruct HG; discriminate. }
  unfold newoverflow. apply tot_bind, (tot_geth h); [assumption|].
  destruct (extra h) as [e|] eqn:Ee;
    [|exfalso; apply Hp; unfold p, pool_cursor; rewrite Ee; reflexivity].
  assert (Ep : nextOverflow e = p)
    by (unfold p, pool_cursor; rewrite Ee; reflexivity).
  rewrite Ep. destruct (Z.eqb_spec p 0) as [|_]; [contradiction|].
  cbn [negb]. apply tot_bind, tot_bind.
  eapply tot_bmap_overflow; [exact Ho|]. cbn [b_overflow set_b_overflow].
  destruct n as [| n].
  - destruct (Z.eqb_spec o 0) as [|_]; [contradiction|].
    apply tot_bind. unfold setoverflow. eapply tot_updb; [exact Ho|].
    apply tot_bind, tot_seth, tot_ret.
    eapply newoverflow_tail.
    + reflexivity.
    + cbn [heap set_hdr set_heap]. rewrite lookup_insert_ne by auto.
      exact Hbk.
    + intros m w' Hh' EH EB. cbn [heap brk set_hdr set_heap] in EH, EB.
      split; [reflexivity|]. split; [assumption|]. split; [exact EH|].
      eexists. split; [exact Hh'|].
      destruct (note_overflow_same p
                  (set_noverflow m
                     (set_extra (Some (set_nextOverflow 0 e)) h)))
        as [S1 S2].
      split; [|split].
      * eapply same_table_trans; [|exact S1]. repeat split.
      * rewrite S2. reflexivity.
      * intros a. rewrite S2. reflexivity.
  - destruct Hn as [-> Hn]. rewrite Z.eqb_refl.
    destruct (pool_at_lookup _ _ _ _ O Hn ltac:(lia)) as [_ [x Hx]].
    rewrite Z.mul_0_l, Z.add_0_r in Hx. apply Hheap in Hx.
    assert (Hw : 0 <= p + bucketsize t < 2 ^ wordBits).
    { destruct HA as [_ [? ?] _]. lia. }
    rewrite (add_small _ _ Hw).
    apply tot_bind, tot_seth, tot_ret.
    eapply newoverflow_tail.
    + reflexivity.
    + exact Hbk.
    + intros m w' Hh' EH EB. cbn [heap brk set_hdr set_heap] in EH, EB.
      split; [reflexivity|]. split; [assumption|].
      assert (Eid : <[p := zero_bmap]> (heap w) = heap w)
        by (apply insert_id; exact Ho).
      split; [rewrite Eid; exact EH|].
      eexists. split; [exact Hh'|].
      destruct (note_overflow_same p
                  (set_noverflow m
                     (set_extra
                        (Some (set_nextOverflow (p + bucketsize t) e)) h)))
        as [S1 S2].
      split; [|split].
      * eapply same_table_trans; [|exact S1]. repeat split.
      * rewrite S2. reflexivity.
      * intros a. rewrite S2.
        change (pool_cursor _) with (p + bucketsize t).
        eapply pool_at_frame; [exact Hn|]. intros i Hi.
        destruct (pool_at_lookup _ _ _ _ i Hn Hi) as [HGi _].
        split.
        -- rewrite EH. rewrite lookup_insert_ne; [reflexivity|].
           intros ->. rewrite HGi in HG. destruct HG; discriminate.
        -- rewrite lookup_insert_ne by nia. exact HGi.
Qed.

(** Without a pool, [newoverflow] allocates the bucket. *)
Lemma newoverflow_fresh w h bk bb :
  TypeOK ->
  hdr w = Some h -> pool_cursor h = 0 ->
  (forall a bm, heap w !! a = Some bm -> 0 < a < brk w) ->
  heap w !! bk = Some bb ->
  brk w + bucketsize t <= maxAlloc ->
  tot (newoverflow bk) w (fun ovf w' =>
    ovf = brk w /\ brk w' = brk w + bucketsize t /\
    heap w' = <[bk := set_b_overflow ovf bb]> (<[ovf := zero_bmap]> (heap w)) /\
    exists h', hdr w' = Some h' /\ same_table h h' /\ pool_cursor h' = 0).
Proof.
  intros HT Hh Hp Hheap Hbk Hmem.
  destruct HT as [E1 _ _ _ _ _ _].
  assert (Hnew : tot newobject w (fun ovf w1 =>
            ovf = brk w /\ hdr w1 = Some h /\
            brk w1 = brk w + bucketsize t /\
            heap w1 = <[brk w := zero_bmap]> (heap w))).
  { eexists _, _. unfold newobject, newarray. rewrite E1.
    destruct (Z.ltb_spec 1 1); [lia|]. cbn [orb].
    rewrite Z.mul_1_l.
    destruct (Z.ltb_spec maxAlloc (brk w + bucketsize t)); [lia|].
    split; [reflexivity|]. cbn [hdr heap brk set_brk set_heap].
    split; [reflexivity|]. split; [assumption|]. split; [reflexivity|].
    change (Z.to_nat 1) with 1%nat. cbn [fill_buckets].
    rewrite Z.mul_0_l, Z.add_0_r. reflexivity. }
  assert (Hne : bk <> brk w).
  { intros ->. apply Hheap in Hbk. lia. }
  assert (Hfin : forall ovf w1,
            ovf = brk w /\ hdr w1 = Some h /\
            brk w1 = brk w + bucketsize t /\
            heap w1 = <[brk w := zero_bmap]> (heap w) ->
            tot (incrnoverflow;;
       (if bucket_ptrdata t =? 0 then
          updh createOverflow;;
          updh (fun h =>
                  match extra h with
                  | Some e =>
                      set_extra
                        (Some (set_overflow
                                 (Some (default [] (overflow e) ++ [ovf])) e)) h
                  | None => h
                  end)
        else ret tt);;
       setoverflow bk ovf;;
       ret ovf) w1 (fun ovf w' =>
    ovf = brk w /\ brk w' = brk w + bucketsize t /\
    heap w' = <[bk := set_b_overflow ovf bb]> (<[ovf := zero_bmap]> (heap w)) /\
    exists h', hdr w' = Some h' /\ same_table h h' /\ pool_cursor h' = 0)).
  { intros ovf w1 (-> & Hh1 & EB1 & EH1).
    eapply newoverflow_tail.
    - exact Hh1.
    - rewrite EH1, lookup_insert_ne by auto. exact Hbk.
    - intros m w' Hh' EH EB.
      split; [reflexivity|]. split; [congruence|].
      split; [rewrite EH, EH1; reflexivity|].
      eexists. split; [exact Hh'|].
      destruct (note_overflow_same (brk w) (set_noverflow m h)) as [S1 S2].
      split.
      + eapply same_table_trans; [|exact S1]. apply same_table_noverflow.
      + rewrite S2. exact Hp. }
  unfold newoverflow. apply tot_bind, (tot_geth h); [assumption|].
  apply tot_bind.
  unfold pool_cursor in Hp.
  destruct (extra h) as [e|] eqn:Ee.
  - rewrite Hp. cbn [Z.eqb negb].
    eapply tot_mono; [exact Hnew|]. exact Hfin.
  - eapply tot_mono; [exact Hnew|]. exact Hfin.
Qed.

Lemma makeBucketArray_pool b w G :
  ArchOK -> TypeOK ->
  4 <= b < wordBits -> 0 < brk w ->
  bucketsize t * (2 ^ b + 2 ^ (b - 4)) < 2 ^ wordBits ->
  nbucketsFor b < 2 ^ (wordBits - 1) ->
  brk w + nbucketsFor b * bucketsize t <= maxAlloc ->
  (forall a, brk w <= a -> G !! a = None) ->
  exists w' extras,
    makeBucketArray b 0 w = Ok (brk w, brk w + 2 ^ b * bucketsize t) w' /\
    Z.of_nat extras = nbucketsFor b - 2 ^ b /\
    2 ^ (b - 4) <= Z.of_nat extras /\
    brk w' = brk w + nbucketsFor b * bucketsize t /\
    (forall i, 0 <= i < nbucketsFor b - 1 ->
               heap w' !! (brk w + i * bucketsize t) = Some zero_bmap) /\
    heap w' !! (brk w + (nbucketsFor b - 1) * bucketsize t)
    = Some (set_b_overflow (brk w) zero_bmap) /\
    pool_at (heap w') G (brk w + 2 ^ b * bucketsize t) extras.
Proof.
  intros HA HT Hb Hbrk Hsz Hn Hmem HG.
  destruct (nbucketsFor_bounds b HA HT ltac:(lia) ltac:(auto))
    as (Hr & Hpool & _).
  specialize (Hpool ltac:(lia)).
  assert (Hp4 : 0 < 2 ^ (b - 4)) by (apply Z.pow_pos_nonneg; lia).
  assert (HS : 0 < bucketsize t).
  { destruct HT as [_ [HS _] _ _ _ _ _]. unfold dataOffset in HS.
    destruct HA as [[E | E] _ _]; rewrite E in HS; lia. }
  pose proof (pow2_pos b ltac:(lia)) as Hp.
  exists (bucketArray_world b w), (Z.to_nat (nbucketsFor b - 2 ^ b)).
  rewrite Z2Nat.id by lia.
  assert (Hne : (2 ^ b =? nbucketsFor b) = false) by (apply Z.eqb_neq; lia).
  split.
  { rewrite (makeBucketArray_new b w HA HT) by (auto; lia).
    rewrite Hne.
    destruct (Z.ltb_spec (nbucketsFor b) (2 ^ (wordBits - 1))); [|lia].
    destruct (Z.leb_spec (brk w + nbucketsFor b * bucketsize t) maxAlloc);
      [|lia].
    reflexivity. }
  split; [reflexivity|]. split; [lia|].
  split.
  { destruct (bucketArray_world_brk b w) as [-> _].
    destruct HT as [-> _ _ _ _ _ _]. reflexivity. }
  split.
  { intros i Hi. rewrite bucketArray_world_lookup by (auto; lia).
    destruct (Z.eqb_spec i (nbucketsFor b - 1)); [lia|]. reflexivity. }
  split.
  { rewrite bucketArray_world_lookup by (auto; lia).
    rewrite Z.eqb_refl, Hne. reflexivity. }
  destruct (Z.to_nat (nbucketsFor b - 2 ^ b)) as [| k] eqn:Ek; [lia|].
  apply (pool_at_intro _ _ _ (brk w)); [nia | assumption | lia |].
  intros i Hi. split; [apply HG; nia|].
  replace (brk w + 2 ^ b * bucketsize t + Z.of_nat i * bucketsize t)
    with (brk w + (2 ^ b + Z.of_nat i) * bucketsize t) by lia.
  rewrite bucketArray_world_lookup by (auto; lia).
  rewrite Hne. cbn [negb]. rewrite andb_true_r.
  destruct (Nat.eqb_spec i k) as [-> | Hik].
  - destruct (Z.eqb_spec (2 ^ b + Z.of_nat k) (nbucketsFor b - 1)); [|lia].
    reflexivity.
  - destruct (Z.eqb_spec (2 ^ b + Z.of_nat i) (nbucketsFor b - 1)); [lia|].
    reflexivity.
Qed.

(** C9 (amended).  A new bucket array for [B >= 4] has, behind its [2^B]
    main buckets, the overflow buckets that fit in the size the allocator
    rounds the request for [2^B + 2^(B-4)] buckets to: at least [2^(B-4)].
    All buckets are zeroed, except that the overflow pointer of the last
    bucket of the array is the base address of the array;
    [makeBucketArray] returns the base and, as the cursor of the pool, the
    first bucket behind the main ones.  [newoverflow] hands out the bucket
    under the cursor without allocating: it moves the cursor on by one
    bucket while the overflow pointer of that bucket is nil, and at the
    last bucket of the pool resets this pointer and the cursor to nil.
    With a nil cursor it allocates the overflow bucket. *)
Theorem overflow_pool :
  ArchOK -> TypeOK ->
  (forall b w G,
     4 <= b < wordBits -> 0 < brk w ->
     bucketsize t * (2 ^ b + 2 ^ (b - 4)) < 2 ^ wordBits ->
     nbucketsFor b < 2 ^ (wordBits - 1) ->
     brk w + nbucketsFor b * bucketsize t <= maxAlloc ->
     (forall a, brk w <= a -> G !! a = None) ->
     exists w' extras,
       makeBucketArray b 0 w = Ok (brk w, brk w + 2 ^ b * bucketsize t) w' /\
       Z.of_nat extras = nbucketsFor b - 2 ^ b /\
       2 ^ (b - 4) <= Z.of_nat extras /\
       brk w' = brk w + nbucketsFor b * bucketsize t /\
       (forall i, 0 <= i < nbucketsFor b - 1 ->
                  heap w' !! (brk w + i * bucketsize t) = Some zero_bmap) /\
       heap w' !! (brk w + (nbucketsFor b - 1) * bucketsize t)
       = Some (set_b_overflow (brk w) zero_bmap) /\
       pool_at (heap w') G (brk w + 2 ^ b * bucketsize t) extras) /\
  (forall w h G bk bb n,
     hdr w = Some h -> brk w <= maxAlloc ->
     (forall a bm, heap w !! a = Some bm -> 0 < a < brk w) ->
     heap w !! bk = Some bb -> is_Some (G !! bk) ->
     pool_at (heap w) G (pool_cursor h) (S n) ->
     exists w' h',
       newoverflow bk w = Ok (pool_cursor h) w' /\
       brk w' = brk w /\
       heap w' = <[bk := set_b_overflow (pool_cursor h) bb]>
                   (<[pool_cursor h := zero_bmap]> (heap w)) /\
       hdr w' = Some h' /\
       pool_cursor h' = match n with
                        | O => 0
                        | S _ => pool_cursor h + bucketsize t
                        end /\
       pool_at (heap w') (<[pool_cursor h := bk]> G) (pool_cursor h') n) /\
  (forall w h bk bb,
     hdr w = Some h -> pool_cursor h = 0 ->
     (forall a bm, heap w !! a = Some bm -> 0 < a < brk w) ->
     heap w !! bk = Some bb ->
     brk w + bucketsize t <= maxAlloc ->
     exists w' h',
       newoverflow bk w = Ok (brk w) w' /\
       brk w' = brk w + bucketsize t /\
       heap w' = <[bk := set_b_overflow (brk w) bb]>
                   (<[brk w := zero_bmap]> (heap w)) /\
       hdr w' = Some h' /\ pool_cursor h' = 0).
Proof.
  intros HA HT. split; [|split].
  - intros b w G. apply makeBucketArray_pool; assumption.
  - intros w h G bk bb n Hh Hbrk Hheap Hbk HG HP.
    destruct (newoverflow_pool w h G bk bb n HA HT Hh Hbrk Hheap Hbk HG HP)
      as (ovf & w' & E & -> & EB & EH & h' & Hh' & _ & EC & HP').
    exists w', h'. auto 10.
  - intros w h bk bb Hh Hc Hheap Hbk Hmem.
    destruct (newoverflow_fresh w h bk bb HT Hh Hc Hheap Hbk Hmem)
      as (ovf & w' & E & -> & EB & EH & h' & Hh' & _ & EC).
    exists w', h'. auto 10.
Qed.

Lemma land_small x : 0 <= x < 8 -> Z.land x (bucketCnt - 1) = x.
Proof.
  intros Hx. change (bucketCnt - 1) with (2 ^ 3 - 1).
  rewrite land_mask by lia. apply Z.mod_small. lia.
Qed.

(** ** Chains *)

Lemma chain_det H b l1 l2 : chain H b l1 -> chain H b l2 -> l1 = l2.
Proof.
  intros C1. revert l2. induction C1 as [| b bm l Hb Hl C IH]; intros l2 C2.
  - inversion C2; [reflexivity | congruence].
  - inversion C2 as [| b' bm' l' Hb' Hl' C']; subst; [congruence|].
    f_equal. apply IH. congruence.
Qed.

Lemma chain_ext H H' b l :
  chain H b l ->
  (forall x bm, x ∈ l -> H !! x = Some bm ->
                exists bm', H' !! x = Some bm' /\
                            b_overflow bm' = b_overflow bm) ->
  chain H' b l.
Proof.
  induction 1 as [| b bm l Hb Hl C IH]; intros Hext; [constructor|].
  destruct (Hext b bm) as (bm' & Hl' & Eo);
    [apply list_elem_of_here | assumption |].
  econstructor; [assumption | exact Hl' |]. rewrite Eo. apply IH.
  intros x bmx Hx. apply Hext. apply list_elem_of_further. assumption.
Qed.

Lemma chain_same H H' b l :
  chain H b l -> (forall x, x ∈ l -> H' !! x = H !! x) -> chain H' b l.
Proof.
  intros C E. apply (chain_ext H); [assumption|].
  intros x bm Hx Hl. exists bm. rewrite E by assumption. auto.
Qed.

Lemma chain_in H b l x :
  chain H b l -> x ∈ l -> x <> 0 /\ is_Some (H !! x).
Proof.
  induction 1 as [| b bm l Hb Hl C IH]; intros Hx.
  - apply elem_of_nil in Hx. contradiction.
  - apply elem_of_cons in Hx as [-> | Hx]; eauto.
Qed.

Lemma chain_head H b l :
  chain H b l -> b <> 0 ->
  exists bm l', l = b :: l' /\ H !! b = Some bm /\
                chain H (b_overflow bm) l'.
Proof. destruct 1; [congruence | eauto]. Qed.

Lemma chain_suffix H b l l1 x l2 :
  chain H b l -> l = l1 ++ x :: l2 -> chain H x (x :: l2).
Proof.
  intros C. revert l1. induction C as [| b bm l Hb Hl C IH]; intros l1 E.
  - destruct l1; discriminate.
  - destruct l1 as [| y l1]; cbn in E.
    + injection E as -> ->. econstructor; eassumption.
    + injection E as -> ->. eapply IH. reflexivity.
Qed.

Lemma chain_NoDup H b l : chain H b l -> NoDup l.
Proof.
  induction 1 as [| b bm l Hb Hl C IH]; [constructor|].
  constructor; [|assumption]. intros Hin.
  apply list_elem_of_split in Hin as (l1 & l2 & E).
  pose proof (chain_suffix _ _ _ _ _ _ C E) as C2.
  assert (C1 : chain H b (b :: l)) by (econstructor; eassumption).
  pose proof (chain_det _ _ _ _ C1 C2) as E2. injection E2 as E2.
  rewrite E2 in E. apply (f_equal length) in E.
  rewrite length_app in E. cbn in E. lia.
Qed.

Lemma NoDup_range_length (l : list Z) n :
  NoDup l -> (forall x, x ∈ l -> 0 < x < n) -> 0 < n ->
  Z.of_nat (length l) < n.
Proof.
  intros ND Hr Hn.
  assert (Hs : l ⊆+ seqZ 1 (n - 1)).
  { apply NoDup_submseteq; [assumption|]. intros x Hx.
    apply elem_of_seqZ. specialize (Hr x Hx). lia. }
  apply submseteq_length in Hs. rewrite length_seqZ in Hs. lia.
Qed.

(** A chain is shorter than the fuel of a walk. *)
Lemma chain_fuel w b l :
  0 < brk w ->
  (forall a bm, heap w !! a = Some bm -> 0 < a /\ a + bucketsize t <= brk w) ->
  0 < bucketsize t ->
  chain (heap w) b l -> (length l < walk_fuel w)%nat.
Proof.
  intros Hb Hheap HS C. unfold walk_fuel.
  assert (Z.of_nat (length l) < brk w); [|lia].
  apply NoDup_range_length; [eapply chain_NoDup; eassumption | | assumption].
  intros x Hx. destruct (chain_in _ _ _ _ C Hx) as [_ [bm Hbm]].
  apply Hheap in Hbm. lia.
Qed.

(** ** The cells of a chain and the walk of a lookup *)

Lemma cells_of_cons H b l bm :
  H !! b = Some bm -> cells_of H (b :: l) = bucket_cells b bm ++ cells_of H l.
Proof. intros E. unfold cells_of. cbn [flat_map]. rewrite E. reflexivity. Qed.

Lemma cells_of_app H l1 l2 :
  cells_of H (l1 ++ l2) = cells_of H l1 ++ cells_of H l2.
Proof. unfold cells_of. apply flat_map_app. Qed.

Lemma cells_of_ext H H' l :
  (forall x, x ∈ l -> H' !! x = H !! x) -> cells_of H' l = cells_of H l.
Proof.
  induction l as [| b l IH]; intros E; [reflexivity|].
  unfold cells_of in *. cbn [flat_map].
  rewrite (E b) by apply list_elem_of_here.
  f_equal. apply IH. intros x Hx. apply E. apply list_elem_of_further.
  assumption.
Qed.

Lemma probe_first_match bm b key top cs
      (rest : list (Z * K * (Z * nat * V))) :
  first_match key top
    (map (fun c => (b_tophash bm c, b_keys bm c, (b, c, b_elems bm c))) cs
     ++ rest)
  = match probe_cells bm key top cs with
    | Hit i => Some (b, i, b_elems bm i)
    | Stop => None
    | Next => first_match key top rest
    end.
Proof.
  induction cs as [| c cs IH]; [reflexivity|].
  cbn [map app first_match probe_cells].
  destruct (negb (b_tophash bm c =? top)).
  - destruct (b_tophash bm c =? emptyRest); [reflexivity | exact IH].
  - destruct (key_equal t key (b_keys bm c)); [reflexivity | exact IH].
Qed.

(** The walk of the lookups computes [first_match] on the cells of the
    chain. *)
Lemma bucketloop_first_match w b l key top fuel :
  chain (heap w) b l -> (length l < fuel)%nat ->
  bucketloop fuel b key top w
  = Ok (option_map (fun p => (fst (fst p), snd (fst p)))
          (first_match key top (cells_of (heap w) l))) w.
Proof.
  intros C. revert fuel.
  induction C as [| b bm l Hb Hl C IH]; intros fuel Hf.
  - destruct fuel as [| fuel]; [cbn in Hf; lia|]. reflexivity.
  - destruct fuel as [| fuel]; [cbn in Hf; lia|].
    cbn [bucketloop]. destruct (Z.eqb_spec b 0) as [|_]; [contradiction|].
    unfold bind at 1. unfold load. rewrite Hl. cbn beta iota.
    rewrite (cells_of_cons _ _ _ _ Hl). unfold bucket_cells.
    rewrite probe_first_match.
    destruct (probe_cells bm key top cellIndexes); [reflexivity..|].
    apply IH. cbn in Hf. lia.
Qed.

(** ** Counting the entries *)

Lemma total_occ_empty H : total_occ H ∅ = 0.
Proof. unfold total_occ. apply map_fold_empty. Qed.

Lemma total_occ_insert H G b a :
  G !! b = None -> total_occ H (<[b := a]> G) = total_occ H G + occ_at H b.
Proof.
  intros E. unfold total_occ.
  rewrite map_fold_insert_L; [reflexivity | intros; lia | assumption].
Qed.

Lemma total_occ_ext H H' G :
  (forall b, is_Some (G !! b) -> occ_at H' b = occ_at H b) ->
  total_occ H' G = total_occ H G.
Proof.
  induction G as [| i x m Hi IH] using map_ind; intros E.
  - rewrite !total_occ_empty. reflexivity.
  - rewrite !total_occ_insert by assumption.
    rewrite IH.
    + rewrite E; [reflexivity|]. rewrite lookup_insert_eq. eauto.
    + intros b [y Hb]. apply E.
      rewrite lookup_insert_ne by congruence. eauto.
Qed.

Lemma total_occ_update H H' G b a :
  G !! b = Some a ->
  (forall b', b' <> b -> is_Some (G !! b') -> occ_at H' b' = occ_at H b') ->
  total_occ H' G = total_occ H G + occ_at H' b - occ_at H b.
Proof.
  induction G as [| i x m Hi IH] using map_ind; intros Hb E.
  - rewrite fin_maps.lookup_empty in Hb. discriminate.
  - rewrite !total_occ_insert by assumption.
    destruct (Z.eq_dec i b) as [-> | Hne].
    + rewrite (total_occ_ext H H' m); [lia|].
      intros b' [y Hb']. apply E; [congruence|].
      rewrite lookup_insert_ne by congruence. eauto.
    + rewrite lookup_insert_ne in Hb by assumption.
      rewrite IH; [|assumption|].
      * rewrite (E i); [lia | assumption |].
        rewrite lookup_insert_eq. eauto.
      * intros b' Hb' [y Hy]. apply E; [assumption|].
        rewrite lookup_insert_ne by congruence. eauto.
Qed.

Lemma occ_count (bm : bmap K V) l :
  Z.of_nat (length (filter (fun c => occupied (b_tophash bm c) = true) l))
  = fold_right (fun c acc => (if occupied (b_tophash bm c) then 1 else 0) + acc)
               0 l.
Proof.
  induction l as [| c l IH]; [reflexivity|].
  rewrite filter_cons. cbn [fold_right]. rewrite <- IH.
  destruct (decide (occupied (b_tophash bm c) = true)) as [E | E].
  - rewrite E. cbn [length]. lia.
  - destruct (occupied (b_tophash bm c)); [congruence | lia].
Qed.

Lemma occ_bmap_sum (bm : bmap K V) :
  occ_bmap bm
  = fold_right (fun c acc => (if occupied (b_tophash bm c) then 1 else 0) + acc)
               0 [0; 1; 2; 3; 4; 5; 6; 7]%nat.
Proof. unfold occ_bmap. rewrite cellIndexes_eq. apply occ_count. Qed.

Lemma occ_bmap_range (bm : bmap K V) : 0 <= occ_bmap bm <= 8.
Proof.
  rewrite occ_bmap_sum. cbn [fold_right].
  repeat match goal with
         | |- context [if ?c then _ else _] => destruct c
         end; lia.
Qed.

Lemma occ_bmap_ext bm bm' :
  (forall c, (c < 8)%nat -> b_tophash bm' c = b_tophash bm c) ->
  occ_bmap bm' = occ_bmap bm.
Proof.
  intros E. rewrite !occ_bmap_sum. cbn [fold_right].
  rewrite !E by lia. reflexivity.
Qed.

Lemma occ_bmap_set_tophash bm i x :
  (i < 8)%nat ->
  occ_bmap (set_tophash i x bm)
  = occ_bmap bm + (if occupied x then 1 else 0)
    - (if occupied (b_tophash bm i) then 1 else 0).
Proof.
  intros Hi. rewrite !occ_bmap_sum. cbn [fold_right b_tophash set_tophash].
  unfold upd.
  do 8 (destruct i as [| i]; [cbn [Nat.eqb]; lia|]). lia.
Qed.

Lemma occ_bmap_empty bm :
  (forall c, (c < 8)%nat -> occupied (b_tophash bm c) = false) ->
  occ_bmap bm = 0.
Proof.
  intros E. rewrite occ_bmap_sum. cbn [fold_right].
  rewrite !E by lia. reflexivity.
Qed.

Lemma occ_at_range H b : 0 <= occ_at H b <= 8.
Proof.
  unfold occ_at. destruct (H !! b); [apply occ_bmap_range | lia].
Qed.

Lemma total_occ_nonneg H G : 0 <= total_occ H G.
Proof.
  induction G as [| j y m Hj IHm] using map_ind.
  - rewrite total_occ_empty. lia.
  - rewrite total_occ_insert by assumption.
    pose proof (occ_at_range H j). lia.
Qed.

Lemma total_occ_ge H G b a :
  G !! b = Some a -> 0 <= occ_at H b <= total_occ H G.
Proof.
  induction G as [| i x m Hi IH] using map_ind; intros Hb.
  - rewrite fin_maps.lookup_empty in Hb. discriminate.
  - rewrite total_occ_insert by assumption.
    pose proof (total_occ_nonneg H m) as Hm.
    pose proof (occ_at_range H b). pose proof (occ_at_range H i).
    destruct (Z.eq_dec i b) as [-> | Hne]; [lia|].
    rewrite lookup_insert_ne in Hb by assumption.
    specialize (IH Hb). lia.
Qed.

Lemma total_occ_zero H G :
  (forall b, is_Some (G !! b) -> occ_at H b = 0) -> total_occ H G = 0.
Proof.
  induction G as [| i x m Hi IH] using map_ind; intros E.
  - apply total_occ_empty.
  - rewrite total_occ_insert by assumption. rewrite IH.
    + rewrite E; [reflexivity|]. rewrite lookup_insert_eq. eauto.
    + intros b [y Hb]. apply E. rewrite lookup_insert_ne by congruence. eauto.
Qed.

(** ** Consequences of the invariant *)

Lemma bucketsize_min : ArchOK -> TypeOK -> 12 <= bucketsize t < 2 ^ 16.
Proof.
  intros HA HT. destruct HT as [_ [HS1 HS2] _ _ _ _ _].
  unfold dataOffset in HS1. destruct HA as [[E | E] _ _]; rewrite E in HS1; lia.
Qed.

Lemma maxAlloc_small : ArchOK -> 8 * maxAlloc <= 2 ^ (wordBits - 5) * 64.
Proof.
  intros HA. pose proof HA as [_ [_ HM] _].
  destruct (wordBits_cases HA) as [E | E]; rewrite E in *;
    [change (2 ^ (32 - 5)) with (2 ^ 27) | change (2 ^ (64 - 5)) with (2 ^ 59)];
    lia.
Qed.

Lemma Inv_B w h G : ArchOK -> TypeOK -> Inv w h G -> 0 <= B h <= wordBits - 6.
Proof.
  intros HA HT I. pose proof (inv_B _ _ _ I) as HB.
  pose proof (wordBits_cases HA) as HW.
  destruct (Z.eq_dec (buckets h) 0) as [E | E].
  - destruct (inv_nil _ _ _ I E) as (-> & _). lia.
  - destruct (inv_arr _ _ _ I E) as [H0 H1].
    pose proof (inv_brk _ _ _ I) as Hbrk.
    pose proof (bucketsize_min HA HT) as HS.
    pose proof (maxAlloc_small HA) as HM.
    destruct (Z_le_gt_dec (B h) (wordBits - 6)) as [|Hgt]; [lia|].
    exfalso.
    assert (2 ^ (wordBits - 5) <= 2 ^ B h) by (apply pow2_le; lia).
    assert (0 < 2 ^ (wordBits - 5)) by (apply pow2_pos; lia).
    nia.
Qed.

Lemma Inv_bucketsize_fits w h G i :
  ArchOK -> TypeOK -> Inv w h G -> buckets h <> 0 -> 0 <= i < 2 ^ B h ->
  0 < newb h i /\ newb h i + bucketsize t <= brk w /\
  bucketAt (buckets h) i = newb h i.
Proof.
  intros HA HT I E Hi.
  destruct (inv_arr _ _ _ I E) as [H0 H1].
  pose proof (inv_brk _ _ _ I) as Hbrk.
  pose proof (bucketsize_min HA HT) as HS.
  pose proof HA as [_ [_ HM] _].
  unfold newb. split; [nia|]. split; [nia|].
  apply bucketAt_eq; nia.
Qed.

Lemma Inv_newb w h G hash :
  ArchOK -> TypeOK -> Inv w h G -> buckets h <> 0 ->
  0 <= hash mod 2 ^ B h < 2 ^ B h /\
  bucketAt (buckets h) (Z.land hash (bucketMask (B h)))
  = newb h (hash mod 2 ^ B h).
Proof.
  intros HA HT I E. pose proof (Inv_B _ _ _ HA HT I) as HB.
  pose proof (pow2_pos (B h) ltac:(lia)) as Hp.
  pose proof (Z.mod_pos_bound hash (2 ^ B h) Hp) as Hm.
  split; [assumption|].
  rewrite bucketMask_pow by (auto; lia). rewrite land_mask by lia.
  apply (Inv_bucketsize_fits w h G); assumption.
Qed.

Lemma Inv_nold w h G :
  ArchOK -> TypeOK -> Inv w h G -> growing h = true ->
  0 < noldbuckets h /\
  noldbuckets h = 2 ^ (if is_sameSizeGrow h then B h else B h - 1) /\
  2 ^ B h = (if is_sameSizeGrow h then 1 else 2) * noldbuckets h /\
  oldbucketmask h = noldbuckets h - 1.
Proof.
  intros HA HT I Hg. pose proof (Inv_B _ _ _ HA HT I) as HB.
  destruct (inv_old _ _ _ I Hg) as (_ & _ & _ & H1 & _).
  pose proof (wordBits_cases HA) as HW.
  assert (E : noldbuckets h
              = 2 ^ (if is_sameSizeGrow h then B h else B h - 1)).
  { unfold noldbuckets. destruct (is_sameSizeGrow h).
    - apply bucketShift_pow; [assumption | lia].
    - specialize (H1 eq_refl). unfold wrap8. change (2 ^ 8) with 256.
      rewrite Z.mod_small by lia. apply bucketShift_pow; [assumption | lia]. }
  assert (Hp : 0 < noldbuckets h).
  { rewrite E. apply pow2_pos. destruct (is_sameSizeGrow h); [lia|].
    specialize (H1 eq_refl). lia. }
  split; [assumption|]. split; [assumption|]. split.
  - rewrite E. destruct (is_sameSizeGrow h); [lia|].
    specialize (H1 eq_refl).
    replace (B h) with (B h - 1 + 1) at 1 by lia.
    rewrite pow2_succ by lia. reflexivity.
  - unfold oldbucketmask. apply wrap_small.
    assert (2 ^ B h < 2 ^ wordBits) by (apply Z.pow_lt_mono_r; lia).
    rewrite E in *. destruct (is_sameSizeGrow h); [lia|].
    specialize (H1 eq_refl).
    assert (2 ^ (B h - 1) <= 2 ^ B h) by (apply pow2_le; lia). lia.
Qed.

Lemma Inv_oldb_fits w h G j :
  ArchOK -> TypeOK -> Inv w h G -> growing h = true ->
  0 <= j < noldbuckets h ->
  0 < oldb h j /\ oldb h j + bucketsize t <= buckets h /\
  bucketAt (oldbuckets h) j = oldb h j.
Proof.
  intros HA HT I Hg Hj.
  destruct (inv_old _ _ _ I Hg) as (E & H0 & H1 & _).
  destruct (inv_arr _ _ _ I E) as [H2 H3].
  pose proof (inv_brk _ _ _ I) as Hbrk.
  pose proof (bucketsize_min HA HT) as HS.
  pose proof HA as [_ [_ HM] _].
  pose proof (Inv_B _ _ _ HA HT I) as HB.
  pose proof (pow2_pos (B h) ltac:(lia)) as Hp.
  unfold oldb. split; [nia|]. split; [nia|].
  apply bucketAt_eq; nia.
Qed.

Lemma mod_nold w h G x :
  ArchOK -> TypeOK -> Inv w h G -> growing h = true ->
  (x mod 2 ^ B h) mod noldbuckets h = x mod noldbuckets h.
Proof.
  intros HA HT I Hg.
  destruct (Inv_nold _ _ _ HA HT I Hg) as (Hp & _ & E & _).
  apply Z.mod_mod_divide.
  rewrite E. exists (if is_sameSizeGrow h then 1 else 2). reflexivity.
Qed.

Lemma Inv_oldb w h G hash :
  ArchOK -> TypeOK -> Inv w h G -> growing h = true ->
  0 <= hash mod noldbuckets h < noldbuckets h /\
  bucketAt (oldbuckets h)
    (Z.land hash (if negb (is_sameSizeGrow h)
                  then Z.shiftr (bucketMask (B h)) 1
                  else bucketMask (B h)))
  = oldb h (hash mod noldbuckets h) /\
  Z.land hash (oldbucketmask h) = hash mod noldbuckets h.
Proof.
  intros HA HT I Hg. pose proof (Inv_B _ _ _ HA HT I) as HB.
  destruct (Inv_nold _ _ _ HA HT I Hg) as (Hp & E & E2 & Em).
  destruct (inv_old _ _ _ I Hg) as (_ & _ & _ & H1 & _).
  pose proof (Z.mod_pos_bound hash (noldbuckets h) Hp) as Hm.
  split; [assumption|].
  assert (EL : forall e, 0 <= e -> noldbuckets h = 2 ^ e ->
                         Z.land hash (noldbuckets h - 1)
                         = hash mod noldbuckets h).
  { intros e He ->. apply land_mask. assumption. }
  assert (He : 0 <= (if is_sameSizeGrow h then B h else B h - 1)).
  { destruct (is_sameSizeGrow h); [|specialize (H1 eq_refl)]; lia. }
  split.
  - rewrite bucketMask_pow by (auto; lia).
    replace (if negb (is_sameSizeGrow h)
             then Z.shiftr (2 ^ B h - 1) 1 else 2 ^ B h - 1)
      with (noldbuckets h - 1).
    + rewrite (EL _ He E).
      apply (Inv_oldb_fits w h G); assumption.
    + destruct (is_sameSizeGrow h); cbn [negb]; [lia|].
      rewrite Z.shiftr_div_pow2 by lia. change (2 ^ 1) with 2.
      change (2 ^ B h = 2 * noldbuckets h) in E2.
      rewrite E2. apply (Z.div_unique _ 2 _ 1); lia.
  - rewrite Em. apply (EL _ He E).
Qed.

(** ** Lookups in a well-formed table *)

(** The world after a call of the hash function that returns. *)
Definition after_hash (key : K) (seed : Z) (w : world K V) : world K V :=
  set_hcalls ((key, seed) :: hcalls w) (set_rand (fun n => rand w (S n)) w).

Lemma call_hasher_ok key seed w x :
  hasher t key seed (rand w O) = Some x ->
  call_hasher key seed w = Ok (wrap x) (after_hash key seed w).
Proof. intros E. unfold call_hasher. rewrite E. reflexivity. Qed.

(** The head of the chain a lookup walks, and the chain. *)
Lemma lookup_head_chain w h G hash :
  ArchOK -> TypeOK -> Inv w h G -> buckets h <> 0 ->
  exists a l,
    lookup_head (heap w) h hash a /\ chain_ok (heap w) G a l /\
    (do b <-
       (let c := oldbuckets h in
        if negb (c =? 0) then
          let m := if negb (is_sameSizeGrow h)
                   then Z.shiftr (bucketMask (B h)) 1 else bucketMask (B h) in
          let oldb := bucketAt c (Z.land hash m) in
          do obm <- load oldb;
          if negb (evacuated obm) then ret oldb
          else ret (bucketAt (buckets h) (Z.land hash (bucketMask (B h))))
        else ret (bucketAt (buckets h) (Z.land hash (bucketMask (B h)))));
     ret b) w = Ok a w.
Proof.
  intros HA HT I E.
  destruct (Inv_newb w h G hash HA HT I E) as [Hi En].
  destruct (inv_new _ _ _ I E _ Hi) as (ln & Cn & Fn).
  cbv zeta. fold (growing h).
  destruct (growing h) eqn:Hg.
  - destruct (Inv_oldb w h G hash HA HT I Hg) as (Hj & Eo & _).
    destruct (inv_old _ _ _ I Hg) as (_ & _ & _ & _ & _ & _ & Hold).
    destruct (Hold _ Hj) as (bm & Hbm & HG & Hch).
    rewrite Eo, En. unfold bind at 1. unfold bind at 1. unfold load.
    rewrite Hbm. cbn beta iota.
    assert (Ep : pending (heap w) h (hash mod 2 ^ B h) <->
                 evacuated bm = false).
    { unfold pending. rewrite (mod_nold w h G) by assumption.
      split.
      - intros (_ & bm' & Hbm' & Ev). congruence.
      - intros Ev. split; [assumption|]. eauto. }
    destruct (evacuated bm) eqn:Ev; cbn [negb].
    + exists (newb h (hash mod 2 ^ B h)), ln.
      split; [|split; [assumption | reflexivity]].
      right. split; [|reflexivity]. rewrite Ep. discriminate.
    + destruct (Hch eq_refl) as (lo & Co).
      exists (oldb h (hash mod noldbuckets h)), lo.
      split; [|split; [assumption | reflexivity]].
      left. split; [|reflexivity]. apply Ep. reflexivity.
  - cbn [negb]. rewrite En.
    exists (newb h (hash mod 2 ^ B h)), ln.
    split; [|split; [assumption | reflexivity]].
    right. split; [|reflexivity]. unfold pending. rewrite Hg.
    intros [? _]. discriminate.
Qed.

Lemma lookup_head_det H h hash a a' :
  lookup_head H h hash a -> lookup_head H h hash a' -> a = a'.
Proof. unfold lookup_head. intros [[? ->] | [? ->]] [[? ->] | [? ->]]; tauto. Qed.

Lemma lookup_spec w h G key x :
  ArchOK -> TypeOK -> Inv w h G -> buckets h <> 0 ->
  hasher t key (hash0 h) (rand w O) = Some x ->
  exists a l,
    lookup_head (heap w) h (wrap x) a /\ chain_ok (heap w) G a l /\
    lookup h key w
    = Ok (option_map (fun p => (fst (fst p), snd (fst p)))
            (first_match key (tophash (wrap x)) (cells_of (heap w) l)))
         (after_hash key (hash0 h) w).
Proof.
  intros HA HT I E Hx.
  destruct (lookup_head_chain w h G (wrap x) HA HT I E)
    as (a & l & Ha & Cl & Erun).
  exists a, l. split; [assumption|]. split; [assumption|].
  unfold lookup. unfold bind at 1. rewrite (call_hasher_ok _ _ _ _ Hx).
  cbn beta iota zeta.
  set (w1 := after_hash key (hash0 h) w).
  assert (Erun1 : forall (A : Type) (f : Z -> M A),
             (do b <-
       (let c := oldbuckets h in
        if negb (c =? 0) then
          let m := if negb (is_sameSizeGrow h)
                   then Z.shiftr (bucketMask (B h)) 1 else bucketMask (B h) in
          let oldb := bucketAt c (Z.land (wrap x) m) in
          do obm <- load oldb;
          if negb (evacuated obm) then ret oldb
          else ret (bucketAt (buckets h) (Z.land (wrap x) (bucketMask (B h))))
        else ret (bucketAt (buckets h) (Z.land (wrap x) (bucketMask (B h)))));
              f b) w1 = f a w1).
  { intros A f. cbv zeta in Erun |- *.
    unfold bind at 1.
    unfold bind at 1 in Erun.
    match type of Erun with
    | match ?m w with _ => _ end = _ =>
        assert (Em : m w1 = match m w with
                            | Ok b _ => Ok b w1
                            | Err e _ => Err e w1
                            end)
    end.
    { destruct (negb (oldbuckets h =? 0)); [|reflexivity].
      unfold bind, load. change (heap w1) with (heap w).
      destruct (heap w !! _); [|reflexivity].
      destruct (negb (evacuated b)); reflexivity. }
    rewrite Em.
    match type of Erun with
    | match ?r with _ => _ end = _ => destruct r as [b wb | e wb]
    end; [|discriminate].
    apply ret_ok in Erun as [-> _]. reflexivity. }
  rewrite Erun1. unfold bind at 1. unfold get_world. cbn beta iota.
  destruct Cl as (Cl & _).
  apply (bucketloop_first_match w1); [exact Cl|].
  apply (chain_fuel w1 a l).
  - apply (inv_brk _ _ _ I).
  - apply (inv_heap _ _ _ I).
  - pose proof (bucketsize_min HA HT). lia.
  - exact Cl.
Qed.

(** A cell lets the search for [key] pass when it neither ends the walk
    nor matches. *)
Definition passes {A : Type} (key : K) (top : Z) (c : Z * K * A) : Prop :=
  (fst (fst c) = top /\ key_equal t key (snd (fst c)) = false) \/
  (fst (fst c) <> top /\ fst (fst c) <> emptyRest).

Lemma first_match_pass {A : Type} key top c (cs : list (Z * K * A)) :
  passes key top c ->
  first_match key top (c :: cs) = first_match key top cs.
Proof.
  destruct c as [[x k] a]. unfold passes. cbn [fst snd first_match].
  intros [[-> E] | [H1 H2]].
  - rewrite Z.eqb_refl, E. reflexivity.
  - destruct (Z.eqb_spec x top); [contradiction|]. cbn [negb].
    destruct (Z.eqb_spec x emptyRest); [contradiction | reflexivity].
Qed.

Lemma first_match_app_pass {A : Type} key top (pre cs : list (Z * K * A)) :
  Forall (passes key top) pre ->
  first_match key top (pre ++ cs) = first_match key top cs.
Proof.
  induction 1 as [| c pre Hc HF IH]; [reflexivity|].
  cbn [app]. rewrite first_match_pass by assumption. exact IH.
Qed.

Lemma first_match_here {A : Type} key top k a (cs : list (Z * K * A)) :
  key_equal t key k = true ->
  first_match key top ((top, k, a) :: cs) = Some a.
Proof.
  intros E. cbn [first_match]. rewrite Z.eqb_refl. cbn [negb]. rewrite E.
  reflexivity.
Qed.

Lemma first_match_Some {A : Type} key top (cs : list (Z * K * A)) a :
  first_match key top cs = Some a ->
  exists pre k post,
    cs = pre ++ (top, k, a) :: post /\ Forall (passes key top) pre /\
    key_equal t key k = true.
Proof.
  induction cs as [| [[x k] a'] cs IH]; [discriminate|].
  cbn [first_match].
  destruct (Z.eqb_spec x top) as [-> | Hne]; cbn [negb].
  - destruct (key_equal t key k) eqn:Ek.
    + intros [= ->]. exists [], k, cs. auto.
    + intros Hm. destruct (IH Hm) as (pre & k' & post & -> & HF & Ek').
      exists ((top, k, a') :: pre), k', post.
      split; [reflexivity|]. split; [|assumption].
      constructor; [|assumption]. left. auto.
  - destruct (Z.eqb_spec x emptyRest) as [| Hne0]; [discriminate|].
    intros Hm. destruct (IH Hm) as (pre & k' & post & -> & HF & Ek').
    exists ((x, k, a') :: pre), k', post.
    split; [reflexivity|]. split; [|assumption].
    constructor; [|assumption]. right. auto.
Qed.

Lemma first_match_None {A : Type} key top (cs : list (Z * K * A)) :
  (forall x k a, (x, k, a) ∈ cs -> x = top -> key_equal t key k = false) ->
  first_match key top cs = None.
Proof.
  induction cs as [| [[x k] a] cs IH]; intros Hn; [reflexivity|].
  cbn [first_match].
  assert (IH' : first_match key top cs = None).
  { apply IH. intros x' k' a' Hin. apply (Hn x' k' a').
    apply list_elem_of_further. assumption. }
  destruct (Z.eqb_spec x top) as [-> | Hne]; cbn [negb].
  - rewrite (Hn top k a); [exact IH' | apply list_elem_of_here | reflexivity].
  - destruct (x =? emptyRest); [reflexivity | exact IH'].
Qed.

Lemma first_match_map {A A' : Type} key top (f : A -> A')
      (cs : list (Z * K * A)) :
  first_match key top (map (fun c => (fst c, f (snd c))) cs)
  = option_map f (first_match key top cs).
Proof.
  induction cs as [| [[x k] a] cs IH]; [reflexivity|].
  cbn [map first_match fst snd].
  destruct (negb (x =? top)).
  - destruct (x =? emptyRest); [reflexivity | exact IH].
  - destruct (key_equal t key k); [reflexivity | exact IH].
Qed.

Lemma bucket_cells_in b bm x k b' c v :
  (x, k, (b', c, v)) ∈ bucket_cells b bm ->
  b' = b /\ (c < 8)%nat /\ x = b_tophash bm c /\ k = b_keys bm c /\
  v = b_elems bm c.
Proof.
  unfold bucket_cells. intros Hin.
  apply list_elem_of_fmap in Hin as (c0 & E & Hc0).
  injection E as -> -> -> -> ->.
  rewrite cellIndexes_eq in Hc0.
  repeat (apply elem_of_cons in Hc0 as [-> | Hc0]; [repeat split; lia|]).
  apply elem_of_nil in Hc0. contradiction.
Qed.

Lemma cells_of_in H l x k b c v :
  (x, k, (b, c, v)) ∈ cells_of H l ->
  b ∈ l /\ (c < 8)%nat /\
  exists bm, H !! b = Some bm /\ x = b_tophash bm c /\ k = b_keys bm c /\
             v = b_elems bm c.
Proof.
  induction l as [| b0 l IH]; intros Hin.
  - apply elem_of_nil in Hin. contradiction.
  - unfold cells_of in Hin. cbn [flat_map] in Hin.
    apply elem_of_app in Hin as [Hin | Hin].
    + destruct (H !! b0) as [bm|] eqn:E;
        [|apply elem_of_nil in Hin; contradiction].
      apply bucket_cells_in in Hin as (-> & Hc & -> & -> & ->).
      split; [apply list_elem_of_here|]. split; [assumption|]. eauto.
    + destruct (IH Hin) as (Hb & Hc & Hbm).
      split; [apply list_elem_of_further; assumption | auto].
Qed.

Lemma occ_bmap_pos (bm : bmap K V) c :
  (c < 8)%nat -> occupied (b_tophash bm c) = true -> 1 <= occ_bmap bm.
Proof.
  intros Hc Ho. rewrite occ_bmap_sum. cbn [fold_right].
  assert (Hnn : forall c', 0 <= (if occupied (b_tophash bm c') then 1 else 0))
    by (intros c'; destruct (occupied (b_tophash bm c')); lia).
  pose proof (Hnn 0%nat). pose proof (Hnn 1%nat). pose proof (Hnn 2%nat).
  pose proof (Hnn 3%nat). pose proof (Hnn 4%nat). pose proof (Hnn 5%nat).
  pose proof (Hnn 6%nat). pose proof (Hnn 7%nat).
  do 8 (destruct c as [| c]; [rewrite Ho; lia|]). lia.
Qed.

Lemma tophash_range x : minTopHash <= tophash x < 256.
Proof.
  unfold tophash, minTopHash, wrap8. change (2 ^ 8) with 256.
  set (y := Z.shiftr x (PtrSize * 8 - 8)).
  pose proof (Z.mod_pos_bound y 256 ltac:(lia)) as Hy.
  destruct (Z.ltb_spec (y mod 256) 5).
  - rewrite Z.mod_small by lia. lia.
  - lia.
Qed.

Lemma Inv_count_buckets w h G : Inv w h G -> count h <> 0 -> buckets h <> 0.
Proof.
  intros I Hc E. destruct (inv_nil _ _ _ I E) as (_ & _ & EG).
  rewrite (inv_count _ _ _ I), EG, total_occ_empty in Hc. congruence.
Qed.

(** The pointer a lookup returns for the outcome of its walk. *)
Definition slot_of (r : option (Z * nat * V)) : slotptr :=
  match r with
  | Some p => Slot (fst (fst p)) (snd (fst p))
  | None => ZeroVal
  end.

Lemma mapaccess_spec w h G key x :
  ArchOK -> TypeOK -> Inv w h G -> count h <> 0 ->
  Z.land (flags h) hashWriting = 0 ->
  hasher t key (hash0 h) (rand w O) = Some x ->
  exists a l,
    lookup_head (heap w) h (wrap x) a /\ chain_ok (heap w) G a l /\
    mapaccess1 key w
    = Ok (slot_of (first_match key (tophash (wrap x)) (cells_of (heap w) l)))
         (after_hash key (hash0 h) w) /\
    mapaccess2 key w
    = Ok (slot_of (first_match key (tophash (wrap x)) (cells_of (heap w) l)),
          match first_match key (tophash (wrap x)) (cells_of (heap w) l)
          with Some _ => true | None => false end)
         (after_hash key (hash0 h) w).
Proof.
  intros HA HT I Hc Hf Hx.
  pose proof (Inv_count_buckets _ _ _ I Hc) as E.
  destruct (lookup_spec w h G key x HA HT I E Hx) as (a & l & Ha & Cl & Erun).
  exists a, l. split; [assumption|]. split; [assumption|].
  split; [unfold mapaccess1 | unfold mapaccess2];
    unfold bind at 1; unfold get_world; cbn beta iota;
    rewrite (inv_hdr _ _ _ I);
    (destruct (Z.eqb_spec (count h) 0) as [|_]; [contradiction|]);
    rewrite Hf; cbn [Z.eqb negb]; unfold bind; rewrite Erun;
    destruct (first_match key (tophash (wrap x)) (cells_of (heap w) l))
      as [[[b c] v]|]; reflexivity.
Qed.

Lemma mapaccess_empty w key :
  hdr w = None \/ (exists h, hdr w = Some h /\ count h = 0) ->
  mapaccess1 key w = (lookup_empty key;; ret ZeroVal) w /\
  mapaccess2 key w = (lookup_empty key;; ret (ZeroVal, false)) w.
Proof.
  intros Hw.
  split; [unfold mapaccess1 | unfold mapaccess2];
    unfold bind at 1; unfold get_world; cbn beta iota;
    destruct Hw as [-> | (h & -> & ->)]; reflexivity.
Qed.




(** ** The pointer [mapaccess1] returns (C4) *)


(** ** Updating one cell of a chain *)

(** The place of a cell, and the replacement of the cell at a place. *)
Definition cell_pos (c : Z * K * (Z * nat * V)) : Z * nat :=
  fst (snd c).

Definition cell_at (bm : bmap K V) (b : Z) (c : nat) : Z * K * (Z * nat * V) :=
  (b_tophash bm c, b_keys bm c, (b, c, b_elems bm c)).

Definition replace_cell (b : Z) (c : nat) (new : Z * K * (Z * nat * V))
           (old : Z * K * (Z * nat * V)) : Z * K * (Z * nat * V) :=
  if (fst (cell_pos old) =? b) && Nat.eqb (snd (cell_pos old)) c
  then new else old.

(** Two buckets that differ in cell [c] at most. *)
Definition same_but (c : nat) (bm bm' : bmap K V) : Prop :=
  b_overflow bm' = b_overflow bm /\
  forall c', c' <> c ->
             b_tophash bm' c' = b_tophash bm c' /\
             b_keys bm' c' = b_keys bm c' /\
             b_elems bm' c' = b_elems bm c'.

Lemma bucket_cells_eq b bm :
  bucket_cells b bm = map (cell_at bm b) cellIndexes.
Proof. reflexivity. Qed.

Lemma bucket_cells_replace b bm bm' c :
  same_but c bm bm' ->
  bucket_cells b bm'
  = map (replace_cell b c (cell_at bm' b c)) (bucket_cells b bm).
Proof.
  intros [_ Hs]. rewrite !bucket_cells_eq, map_map.
  apply map_ext. intros c'. unfold replace_cell, cell_at, cell_pos.
  cbn [fst snd]. rewrite Z.eqb_refl. cbn [andb].
  destruct (Nat.eqb_spec c' c) as [-> | Hne]; [reflexivity|].
  destruct (Hs c' Hne) as (-> & -> & ->). reflexivity.
Qed.

Lemma bucket_cells_other b0 bm0 b c new :
  b0 <> b ->
  map (replace_cell b c new) (bucket_cells b0 bm0) = bucket_cells b0 bm0.
Proof.
  intros Hne. rewrite <- (map_id (bucket_cells b0 bm0)) at 2.
  rewrite bucket_cells_eq, !map_map. apply map_ext. intros c'.
  unfold replace_cell, cell_at, cell_pos. cbn [fst snd].
  destruct (Z.eqb_spec b0 b); [contradiction | reflexivity].
Qed.

(** Changing cell [c] of bucket [b] replaces that cell in the cells of a
    chain. *)
Lemma cells_of_replace H l b bm bm' c :
  H !! b = Some bm -> same_but c bm bm' ->
  cells_of (<[b := bm']> H) l
  = map (replace_cell b c (cell_at bm' b c)) (cells_of H l).
Proof.
  intros Hb Hs. induction l as [| b0 l IH]; [reflexivity|].
  unfold cells_of in *. cbn [flat_map]. rewrite map_app, <- IH. f_equal.
  destruct (Z.eq_dec b0 b) as [-> | Hne].
  - rewrite lookup_insert_eq, Hb. apply bucket_cells_replace. assumption.
  - rewrite lookup_insert_ne by congruence.
    destruct (H !! b0); [|reflexivity].
    symmetry. apply bucket_cells_other. assumption.
Qed.

(** The places of the cells of a chain are distinct. *)
Lemma cells_of_pos_in H l p :
  p ∈ map cell_pos (cells_of H l) -> fst p ∈ l.
Proof.
  intros Hin. apply list_elem_of_fmap in Hin as ([[x k] [[b c] v]] & -> & Hin).
  apply cells_of_in in Hin as (Hb & _). exact Hb.
Qed.

Lemma bucket_cells_pos b bm :
  map cell_pos (bucket_cells b bm) = map (fun c => (b, c)) cellIndexes.
Proof. rewrite bucket_cells_eq, map_map. reflexivity. Qed.

Lemma cells_of_NoDup H l :
  NoDup l -> NoDup (map cell_pos (cells_of H l)).
Proof.
  induction 1 as [| b l Hnin ND IH]; [constructor|].
  unfold cells_of in *. cbn [flat_map]. rewrite map_app.
  apply NoDup_app. split; [|split].
  - destruct (H !! b); [|constructor]. rewrite bucket_cells_pos.
    rewrite cellIndexes_eq. cbn [map].
    repeat (constructor;
            [rewrite ?elem_of_cons, elem_of_nil; intros Hx;
             repeat (destruct Hx as [Hx | Hx]; [discriminate|]);
             exact Hx|]).
    constructor.
  - intros p Hp Hp'. apply Hnin.
    apply (cells_of_pos_in H l p) in Hp'.
    destruct (H !! b) as [bm|]; [|apply elem_of_nil in Hp; contradiction].
    rewrite bucket_cells_pos in Hp.
    apply list_elem_of_fmap in Hp as (c & -> & _). exact Hp'.
  - exact IH.
Qed.

Lemma replace_cell_split b c new cs pre old post :
  NoDup (map cell_pos cs) ->
  cs = pre ++ old :: post -> cell_pos old = (b, c) ->
  map (replace_cell b c new) cs = pre ++ new :: post.
Proof.
  intros ND -> Hp. rewrite map_app in ND. cbn [map] in ND.
  apply NoDup_app in ND as (_ & Hpre & ND).
  apply NoDup_cons in ND as [Hpost _].
  assert (Hid : forall l, (forall x, x ∈ l -> cell_pos x <> (b, c)) ->
                          map (replace_cell b c new) l = l).
  { intros l Hl. rewrite <- (map_id l) at 2. apply map_ext_in.
    intros x Hx. apply list_elem_of_In in Hx. specialize (Hl x Hx).
    unfold replace_cell.
    destruct (Z.eqb_spec (fst (cell_pos x)) b) as [E1 | E1]; [|reflexivity].
    destruct (Nat.eqb_spec (snd (cell_pos x)) c) as [E2 | E2]; [|reflexivity].
    exfalso. apply Hl. destruct (cell_pos x). cbn in *. congruence. }
  rewrite map_app. cbn [map]. rewrite !Hid.
  - unfold replace_cell. rewrite Hp. cbn [fst snd].
    rewrite Z.eqb_refl, Nat.eqb_refl. reflexivity.
  - intros x Hx E. apply Hpost. rewrite Hp, <- E.
    apply list_elem_of_fmap. eauto.
  - intros x Hx E. apply (Hpre (cell_pos x)).
    + apply list_elem_of_fmap. eauto.
    + rewrite E, <- Hp. apply list_elem_of_here.
Qed.

(** ** The destinations of an evacuation *)

(** An entry: the tophash, the key and the element of a cell. *)
Definition forget (c : Z * K * (Z * nat * V)) : Z * K * V :=
  (fst c, snd (snd c)).

Definition bucket_entries (bm : bmap K V) : list (Z * K * V) :=
  map (fun c => (b_tophash bm c, b_keys bm c, b_elems bm c)) cellIndexes.

Lemma bucket_entries_forget b bm :
  map forget (bucket_cells b bm) = bucket_entries bm.
Proof. unfold bucket_cells, bucket_entries. rewrite map_map. reflexivity. Qed.

Lemma length_bucket_entries bm : length (bucket_entries bm) = 8%nat.
Proof.
  unfold bucket_entries. rewrite length_map, cellIndexes_eq. reflexivity.
Qed.

Lemma chain_last_overflow H a D d bm :
  chain H a (D ++ [d]) -> H !! d = Some bm -> b_overflow bm = 0.
Proof.
  intros C Hd.
  pose proof (chain_suffix _ _ _ D d [] C eq_refl) as C1.
  inversion C1 as [| b bm' l Hb Hl Cn]; subst.
  rewrite Hd in Hl. injection Hl as <-. inversion Cn. congruence.
Qed.

Lemma chain_snoc H H' a D d nb bd bn :
  chain H a (D ++ [d]) ->
  (forall x, x ∈ D -> H' !! x = H !! x) ->
  nb <> 0 -> H' !! d = Some bd -> b_overflow bd = nb ->
  H' !! nb = Some bn -> b_overflow bn = 0 ->
  chain H' a ((D ++ [d]) ++ [nb]).
Proof.
  intros C Hsame Hnb Hd Eo Hn En. subst nb. revert a C Hsame.
  induction D as [| x D IH]; intros a C Hsame.
  - cbn [app] in *. inversion C as [| b bm l Hb Hl Cn]; subst.
    econstructor; [assumption | exact Hd |].
    econstructor; [assumption | exact Hn |]. rewrite En. constructor.
  - cbn [app] in *. inversion C as [| b bm l Hb Hl Cn]; subst.
    econstructor; [assumption | |].
    + rewrite Hsame by apply list_elem_of_here. exact Hl.
    + apply IH; try assumption.
      intros y Hy. apply Hsame. apply list_elem_of_further. assumption.
Qed.

(** [dest_ok H G head D dst m]: the chain [D] from the bucket [head] of
    the new array ends in the bucket of the cursor [dst]; the cells before
    the cursor hold the entries [m], the cells from the cursor on are
    [emptyRest]. *)
Definition dest_ok (H : gmap Z (bmap K V)) (G : gmap Z Z) (head : Z)
           (D : list Z) (dst : evacDst) (m : list (Z * K * V)) : Prop :=
  exists D' bmd,
    D = D' ++ [dst_b dst] /\ chain H head D /\ owned G head D /\
    0 <= dst_i dst <= 8 /\
    H !! dst_b dst = Some bmd /\
    (forall c, (c < 8)%nat ->
       (Z.of_nat c < dst_i dst ->
        occupied (b_tophash bmd c) = true /\ hashable (b_keys bmd c)) /\
       (dst_i dst <= Z.of_nat c -> b_tophash bmd c = emptyRest)) /\
    (forall b bm c, b ∈ D' -> H !! b = Some bm -> (c < 8)%nat ->
       occupied (b_tophash bm c) = true /\ hashable (b_keys bm c)) /\
    m = map forget (cells_of H D')
        ++ firstn (Z.to_nat (dst_i dst)) (bucket_entries bmd).

Lemma owned_mono (G G' : gmap Z Z) a l :
  owned G a l -> (forall b g, G !! b = Some g -> G' !! b = Some g) ->
  owned G' a l.
Proof. intros Ho HG b Hb. apply HG, Ho, Hb. Qed.

Lemma dest_ok_frame H H' G G' head D dst m :
  dest_ok H G head D dst m ->
  (forall a, a ∈ D -> H' !! a = H !! a) ->
  (forall b g, G !! b = Some g -> G' !! b = Some g) ->
  dest_ok H' G' head D dst m.
Proof.
  intros (D' & bmd & -> & C & Ho & Hi & Hd & Hc & Hfull & ->) Hsame HG.
  assert (Hin : dst_b dst ∈ D' ++ [dst_b dst]).
  { apply elem_of_app. right. apply list_elem_of_here. }
  assert (Hsame' : forall a, a ∈ D' -> H' !! a = H !! a).
  { intros a Ha. apply Hsame. apply elem_of_app. auto. }
  exists D', bmd. split; [reflexivity|].
  split; [apply (chain_same H); assumption|].
  split; [eapply owned_mono; eassumption|].
  split; [assumption|]. split; [rewrite Hsame; assumption|].
  split; [assumption|]. split.
  - intros b bm c Hb Hbm. rewrite Hsame' in Hbm by assumption. eauto.
  - rewrite (cells_of_ext H H') by assumption. reflexivity.
Qed.

Lemma dest_ok_fresh H (G : gmap Z Z) head :
  head <> 0 -> fresh_bucket H head -> G !! head = Some head ->
  dest_ok H G head [head] (EvacDst head 0) [].
Proof.
  intros Hne (bm & Hb & Ho & Ht) HG. exists [], bm. cbn [app dst_b dst_i].
  split; [reflexivity|]. split.
  { econstructor; [assumption | exact Hb |]. rewrite Ho. constructor. }
  split.
  { intros b Hb'. apply list_elem_of_singleton in Hb' as ->. assumption. }
  split; [lia|]. split; [assumption|]. split.
  { intros c Hc. split; [lia | auto]. }
  split.
  { intros b bm' c Hb'. apply elem_of_nil in Hb'. contradiction. }
  reflexivity.
Qed.

Lemma Forall_firstn_cells {A : Type} (f : nat -> A) (P : A -> Prop) n :
  (forall c, (c < n)%nat -> (c < 8)%nat -> P (f c)) ->
  Forall P (firstn n (map f cellIndexes)).
Proof.
  intros Hf. rewrite cellIndexes_eq.
  do 8 (destruct n as [| n];
        [cbn [map firstn]; repeat (constructor; [apply Hf; lia|]);
         constructor|]).
  cbn [map firstn]. repeat (constructor; [apply Hf; lia|]).
  destruct n; constructor.
Qed.

Lemma Forall_skipn_cells {A : Type} (f : nat -> A) (P : A -> Prop) n :
  (forall c, (n <= c)%nat -> (c < 8)%nat -> P (f c)) ->
  Forall P (skipn n (map f cellIndexes)).
Proof.
  intros Hf. rewrite cellIndexes_eq.
  do 8 (destruct n as [| n];
        [cbn [map skipn]; repeat (constructor; [apply Hf; lia|]);
         constructor|]).
  cbn [map skipn]. destruct n; constructor.
Qed.

Lemma firstn_entries_set bm j top k e :
  (j < 8)%nat ->
  firstn (S j)
    (bucket_entries (set_elem j e (set_key j k (set_tophash j top bm))))
  = firstn j (bucket_entries bm) ++ [(top, k, e)].
Proof.
  intros Hj. unfold bucket_entries. rewrite cellIndexes_eq.
  do 8 (destruct j as [| j]; [reflexivity|]). lia.
Qed.

Lemma shortcut_fill l1 l2 :
  Forall (fun x => x <> emptyRest) l1 ->
  Forall (fun x => occupied x = false) l2 ->
  shortcut (l1 ++ l2).
Proof.
  intros H1 H2. induction H1 as [| x l1 Hx H1 IH]; cbn [app shortcut].
  - induction H2 as [| y l2 Hy H2 IH2]; cbn [shortcut]; auto.
  - split; [intros; contradiction | exact IH].
Qed.

Lemma tidy_fill l1 l2 :
  Forall (fun x => occupied x = true) l1 ->
  Forall (fun x => x = emptyRest) l2 ->
  tidy (l1 ++ l2).
Proof.
  intros H1 H2. split.
  - apply shortcut_fill.
    + eapply Forall_impl; [exact H1|]. intros x Hx E. rewrite E in Hx.
      discriminate.
    + eapply Forall_impl; [exact H2|]. intros x ->. reflexivity.
  - induction H1 as [| x l1 Hx H1 IH]; cbn [app trailing].
    + induction H2 as [| y l2 Hy H2 IH2]; cbn [trailing]; [exact I|].
      split; [|exact IH2]. intros E. rewrite Hy in E. discriminate.
    + split; [|exact IH]. intros E. rewrite E in Hx. discriminate.
Qed.

Lemma dest_ok_write H G head D db di m bmd top k e :
  dest_ok H G head D (EvacDst db di) m -> 0 <= di < 8 ->
  H !! db = Some bmd -> occupied top = true -> hashable k ->
  dest_ok (<[db := set_elem (Z.to_nat di) e
                     (set_key (Z.to_nat di) k
                        (set_tophash (Z.to_nat di) top bmd))]> H)
          G head D (EvacDst db (di + 1)) (m ++ [(top, k, e)]).
Proof.
  intros (D' & bmd' & ED & C & Ho & Hi & Hd & Hc & Hfull & ->) Hdi Hdb Htop Hk.
  cbn [dst_b dst_i] in *. rewrite Hdb in Hd. injection Hd as <-.
  pose proof (chain_NoDup _ _ _ C) as ND. rewrite ED in ND.
  apply NoDup_app in ND as (_ & Hnin & _).
  assert (Hnin' : forall b, b ∈ D' -> b <> db).
  { intros b Hb ->. apply (Hnin db Hb). apply list_elem_of_here. }
  set (j := Z.to_nat di) in *.
  exists D', (set_elem j e (set_key j k (set_tophash j top bmd))).
  cbn [dst_b dst_i].
  split; [assumption|]. split.
  { apply (chain_ext H); [assumption|]. intros x bm Hx Hbm.
    destruct (Z.eq_dec x db) as [-> | Hne].
    - rewrite lookup_insert_eq. eexists. split; [reflexivity|].
      cbn [b_overflow set_elem set_key set_tophash]. congruence.
    - rewrite lookup_insert_ne by congruence. eauto. }
  split; [assumption|]. split; [lia|].
  split; [apply lookup_insert_eq|]. split.
  { intros c Hc8. cbn [b_tophash b_keys set_elem set_key set_tophash].
    unfold upd. destruct (Hc c Hc8) as [H1 H2].
    destruct (Nat.eqb_spec c j) as [-> | Hne].
    - split; [auto | intros; unfold j in *; lia].
    - split; intros Hlt; [apply H1 | apply H2]; unfold j in *; lia. }
  split.
  { intros b bm c Hb Hbm. rewrite lookup_insert_ne in Hbm; [eauto|].
    intros <-. exact (Hnin' _ Hb eq_refl). }
  assert (Ec : forall bm', cells_of (<[db := bm']> H) D' = cells_of H D').
  { intros bm'. apply cells_of_ext. intros x Hx. apply lookup_insert_ne.
    intros <-. exact (Hnin' _ Hx eq_refl). }
  rewrite Ec, <- app_assoc. f_equal.
  replace (Z.to_nat (di + 1)) with (S j) by (unfold j; lia).
  symmetry. apply firstn_entries_set. unfold j. lia.
Qed.

Lemma dest_ok_grow H G head D db m bmd nb :
  dest_ok H G head D (EvacDst db 8) m ->
  H !! db = Some bmd -> nb <> 0 -> G !! nb = None ->
  dest_ok (<[db := set_b_overflow nb bmd]> (<[nb := zero_bmap]> H))
          (<[nb := head]> G) head (D ++ [nb]) (EvacDst nb 0) m.
Proof.
  intros (D' & bmd' & ED & C & Ho & Hi & Hd & Hc & Hfull & ->) Hdb Hnb HG.
  cbn [dst_b dst_i] in *. rewrite Hdb in Hd. injection Hd as <-.
  pose proof (chain_NoDup _ _ _ C) as ND. rewrite ED in ND.
  apply NoDup_app in ND as (_ & Hnin & _).
  assert (Hnin' : forall b, b ∈ D' -> b <> db).
  { intros b Hb ->. apply (Hnin db Hb). apply list_elem_of_here. }
  assert (HnbD : forall b, b ∈ D -> b <> nb).
  { intros b Hb ->. rewrite (Ho nb Hb) in HG. discriminate. }
  assert (Hdbnb : db <> nb).
  { apply HnbD. rewrite ED. apply elem_of_app. right. apply list_elem_of_here. }
  assert (Hsame : forall x, x ∈ D' ->
            <[db := set_b_overflow nb bmd]> (<[nb := zero_bmap]> H) !! x
            = H !! x).
  { intros x Hx.
    assert (x <> nb).
    { apply HnbD. rewrite ED. apply elem_of_app. auto. }
    pose proof (Hnin' x Hx).
    rewrite !lookup_insert_ne by congruence. reflexivity. }
  exists (D' ++ [db]), zero_bmap. cbn [dst_b dst_i].
  split; [rewrite ED; reflexivity|]. split.
  { rewrite ED in C |- *.
    eapply (chain_snoc H); try eassumption.
    - apply lookup_insert_eq.
    - reflexivity.
    - rewrite lookup_insert_ne by congruence. apply lookup_insert_eq.
    - reflexivity. }
  split.
  { intros b Hb. apply elem_of_app in Hb as [Hb | Hb].
    - rewrite lookup_insert_ne; [auto|]. intros <-. exact (HnbD _ Hb eq_refl).
    - apply list_elem_of_singleton in Hb as ->. apply lookup_insert_eq. }
  split; [lia|]. split.
  { rewrite lookup_insert_ne by congruence. apply lookup_insert_eq. }
  split.
  { intros c Hc8. split; [lia | reflexivity]. }
  split.
  { intros b bm c Hb Hbm Hc8. apply elem_of_app in Hb as [Hb | Hb].
    - rewrite Hsame in Hbm by assumption. eauto.
    - apply list_elem_of_singleton in Hb as ->.
      rewrite lookup_insert_eq in Hbm. injection Hbm as <-.
      cbn [b_tophash b_keys set_b_overflow]. apply Hc; lia. }
  rewrite cells_of_app, map_app.
  rewrite (cells_of_ext H (<[db := set_b_overflow nb bmd]>
                             (<[nb := zero_bmap]> H)) D' Hsame).
  cbn [Z.to_nat firstn]. rewrite app_nil_r. f_equal.
  unfold cells_of. cbn [flat_map]. rewrite lookup_insert_eq, app_nil_r.
  rewrite bucket_entries_forget.
  change (bucket_entries (set_b_overflow nb bmd)) with (bucket_entries bmd).
  change (Z.to_nat 8) with 8%nat.
  rewrite firstn_all2; [reflexivity|]. rewrite length_bucket_entries. lia.
Qed.

Lemma dest_ok_final H G head D dst m :
  dest_ok H G head D dst m ->
  chain_ok H G head D /\
  exists pad, map forget (cells_of H D) = m ++ pad /\
              Forall (fun e => fst (fst e) = emptyRest) pad.
Proof.
  intros (D' & bmd & -> & C & Ho & Hi & Hd & Hc & Hfull & ->).
  assert (Ecells : map forget (cells_of H (D' ++ [dst_b dst]))
                   = (map forget (cells_of H D')
                      ++ firstn (Z.to_nat (dst_i dst)) (bucket_entries bmd))
                     ++ skipn (Z.to_nat (dst_i dst)) (bucket_entries bmd)).
  { rewrite cells_of_app, map_app, <- app_assoc, firstn_skipn. f_equal.
    unfold cells_of. cbn [flat_map]. rewrite Hd, app_nil_r.
    apply bucket_entries_forget. }
  assert (Hpad : Forall (fun e : Z * K * V => fst (fst e) = emptyRest)
                        (skipn (Z.to_nat (dst_i dst)) (bucket_entries bmd))).
  { apply Forall_skipn_cells. intros c Hc1 Hc8. cbn [fst].
    apply Hc; [assumption | lia]. }
  assert (Hm : Forall (fun e : Z * K * V =>
                         occupied (fst (fst e)) = true /\
                         hashable (snd (fst e)))
                 (map forget (cells_of H D')
                  ++ firstn (Z.to_nat (dst_i dst)) (bucket_entries bmd))).
  { apply Forall_app. split.
    - apply Forall_forall. intros e He.
      apply list_elem_of_fmap in He as ([[x k] [[b c] v]] & -> & Hin).
      apply cells_of_in in Hin as (Hb & Hc8 & bm & Hbm & -> & -> & _).
      cbn [forget fst snd]. eauto.
    - apply Forall_firstn_cells. intros c Hc1 Hc8. cbn [fst snd].
      apply Hc; [assumption | lia]. }
  split; [|eauto].
  split; [assumption|]. split; [assumption|]. split.
  - unfold tops_of.
    replace (map (fun c => fst (fst c)) (cells_of H (D' ++ [dst_b dst])))
      with (map (fun e : Z * K * V => fst (fst e))
                (map forget (cells_of H (D' ++ [dst_b dst]))))
      by (rewrite map_map; reflexivity).
    rewrite Ecells, map_app. apply tidy_fill.
    + apply Forall_fmap. eapply Forall_impl; [exact Hm|].
      intros e [Ho' _]. exact Ho'.
    + apply Forall_fmap. eapply Forall_impl; [exact Hpad|].
      intros e E. exact E.
  - assert (HF : Forall (fun e : Z * K * V =>
                           (fst (fst e) <= emptyOne \/
                            minTopHash <= fst (fst e)) /\
                           (minTopHash <= fst (fst e) ->
                            hashable (snd (fst e))))
                        (map forget (cells_of H (D' ++ [dst_b dst])))).
    { rewrite Ecells. apply Forall_app. split.
      - eapply Forall_impl; [exact Hm|]. intros e [Ho' Hk].
        apply Z.leb_le in Ho'. auto.
      - eapply Forall_impl; [exact Hpad|]. intros e E. rewrite E.
        unfold emptyRest, emptyOne, minTopHash. split; [lia | intros; lia]. }
    apply Forall_fmap in HF. eapply Forall_impl; [exact HF|].
    intros c Hc'. exact Hc'.
Qed.

Lemma first_match_app_Some {A : Type} key top (l1 l2 : list (Z * K * A)) a :
  first_match key top l1 = Some a -> first_match key top (l1 ++ l2) = Some a.
Proof.
  induction l1 as [| [[x k] a'] l1 IH]; [discriminate|].
  cbn [app first_match]. destruct (negb (x =? top)).
  - destruct (x =? emptyRest); [discriminate | exact IH].
  - destruct (key_equal t key k); [auto | exact IH].
Qed.

Lemma first_match_app_inv {A : Type} key top (l1 l2 : list (Z * K * A)) a :
  first_match key top (l1 ++ l2) = Some a ->
  first_match key top l1 = Some a \/
  (Forall (passes key top) l1 /\ first_match key top l2 = Some a).
Proof.
  induction l1 as [| [[x k] a'] l1 IH]; [auto|].
  cbn [app first_match].
  destruct (Z.eqb_spec x top) as [-> | Hne]; cbn [negb].
  - destruct (key_equal t key k) eqn:Ek; [auto|].
    intros Hm. destruct (IH Hm) as [? | [HF ?]]; [auto|].
    right. split; [|assumption]. constructor; [|assumption]. left. auto.
  - destruct (Z.eqb_spec x emptyRest) as [| Hne0]; [discriminate|].
    intros Hm. destruct (IH Hm) as [? | [HF ?]]; [auto|].
    right. split; [|assumption]. constructor; [|assumption]. right. auto.
Qed.

(** ** What an evacuation does to the lookups *)

(** The half an entry with hash [x] goes to: y in a doubling grow when the
    bit [newbit] of the hash is set. *)
Definition useY_of (h : hmap) (newbit x : Z) : bool :=
  negb (is_sameSizeGrow h) && negb (Z.land (wrap x) newbit =? 0).

(** [done] are the entries of the old bucket's chain seen so far, [mX] and
    [mY] the entries put in the two destinations.  A search that passes
    all of [done] passes [mX] and [mY]; a search that ends in [done] ends
    in the destination its key's hash designates, with the same
    element. *)
Definition tracked (h : hmap) (newbit : Z) (done mX mY : list (Z * K * V))
  : Prop :=
  forall key top, minTopHash <= top ->
    (Forall (passes key top) done ->
     Forall (passes key top) mX /\ Forall (passes key top) mY) /\
    (forall v x,
       first_match key top done = Some v ->
       key_equal t key key = true ->
       hasher t key (hash0 h) 0 = Some x ->
       first_match key top (if useY_of h newbit x then mY else mX) = Some v).

Lemma tracked_nil h newbit : tracked h newbit [] [] [].
Proof.
  intros key top Htop. split; [auto|]. intros v x Hm. discriminate.
Qed.

Lemma tracked_skip h newbit done mX mY ts ks vs :
  tracked h newbit done mX mY -> ts < minTopHash ->
  tracked h newbit (done ++ [(ts, ks, vs)]) mX mY.
Proof.
  intros HT Hts key top Htop. destruct (HT key top Htop) as [H1 H2].
  split.
  - intros HF. apply Forall_app in HF as [HF _]. auto.
  - intros v x Hm Hr Hx. apply first_match_app_inv in Hm as [Hm | [_ Hm]].
    + eauto.
    + cbn [first_match] in Hm.
      destruct (Z.eqb_spec ts top) as [-> | Hne]; [lia|]. cbn [negb] in Hm.
      destruct (ts =? emptyRest); discriminate.
Qed.

Lemma tracked_move h newbit done mX mY ts ks vs (useY : bool) top' :
  tracked h newbit done mX mY ->
  (forall key top, passes key top (ts, ks, vs) ->
                   passes key top (top', ks, vs)) ->
  (forall key x, key_equal t key ks = true -> key_equal t key key = true ->
                 hasher t key (hash0 h) 0 = Some x ->
                 top' = ts /\ useY = useY_of h newbit x) ->
  tracked h newbit (done ++ [(ts, ks, vs)])
          (if useY then mX else mX ++ [(top', ks, vs)])
          (if useY then mY ++ [(top', ks, vs)] else mY).
Proof.
  intros HT Hpass Hmatch key top Htop.
  destruct (HT key top Htop) as [H1 H2]. split.
  - intros HF. apply Forall_app in HF as [HF Hs].
    rewrite Forall_singleton in Hs. destruct (H1 HF) as [HX HY].
    specialize (Hpass key top Hs).
    destruct useY; split; try assumption;
      apply Forall_app; split; try assumption;
      rewrite Forall_singleton; assumption.
  - intros v x Hm Hr Hx. apply first_match_app_inv in Hm as [Hm | [HF Hm]].
    + specialize (H2 v x Hm Hr Hx).
      destruct useY, (useY_of h newbit x); try assumption;
        apply first_match_app_Some; assumption.
    + destruct (H1 HF) as [HX HY]. cbn [first_match] in Hm.
      destruct (Z.eqb_spec ts top) as [-> | Hne]; cbn [negb] in Hm;
        [|destruct (ts =? emptyRest); discriminate].
      destruct (key_equal t key ks) eqn:Ek; [|discriminate].
      injection Hm as ->.
      destruct (Hmatch key x Ek Hr Hx) as [-> ->].
      destruct (useY_of h newbit x);
        rewrite first_match_app_pass by assumption;
        apply first_match_here; assumption.
Qed.

(** What [evacuate] decides for an occupied cell with tophash [top] and key
    [k], from the key's hash [hash] computed along: the half ([0] is x,
    [1] is y) and the tophash the entry takes to its destination. *)
Definition evac_choice (h : hmap) (newbit top : Z) (k : K) (hash : Z)
  : Z * Z :=
  if is_sameSizeGrow h then (0, top)
  else evacuate_decide h newbit top k hash.

Lemma evac_choice_flags h h' newbit top k hash :
  flags h' = flags h ->
  evac_choice h' newbit top k hash = evac_choice h newbit top k hash.
Proof.
  intros E. unfold evac_choice, evacuate_decide, is_sameSizeGrow.
  rewrite E. reflexivity.
Qed.

(** Every occupied entry of [done] is in the destination of the half
    decided for it from a hash of its key, with the tophash decided. *)
Definition placed (h : hmap) (newbit : Z) (done mX mY : list (Z * K * V))
  : Prop :=
  forall top k v, (top, k, v) ∈ done -> minTopHash <= top ->
    exists r hx (useY : bool) top',
      hasher t k (hash0 h) r = Some hx /\
      evac_choice h newbit top k (wrap hx)
      = ((if useY then 1 else 0), top') /\
      (top', k, v) ∈ (if useY then mY else mX).

Lemma placed_nil h newbit : placed h newbit [] [] [].
Proof. intros top k v Hin. apply elem_of_nil in Hin. contradiction. Qed.

Lemma placed_skip h newbit done mX mY ts ks vs :
  placed h newbit done mX mY -> ts < minTopHash ->
  placed h newbit (done ++ [(ts, ks, vs)]) mX mY.
Proof.
  intros HP Hts top k v Hin Htop. apply elem_of_app in Hin as [Hin | Hin].
  - exact (HP top k v Hin Htop).
  - apply list_elem_of_singleton in Hin. injection Hin as -> -> ->. lia.
Qed.

Lemma placed_move h newbit done mX mY ts ks vs (useY : bool) top' r hx :
  placed h newbit done mX mY ->
  hasher t ks (hash0 h) r = Some hx ->
  evac_choice h newbit ts ks (wrap hx) = ((if useY then 1 else 0), top') ->
  placed h newbit (done ++ [(ts, ks, vs)])
         (if useY then mX else mX ++ [(top', ks, vs)])
         (if useY then mY ++ [(top', ks, vs)] else mY).
Proof.
  intros HP Hx Hc top k v Hin Htop. apply elem_of_app in Hin as [Hin | Hin].
  - destruct (HP top k v Hin Htop) as (r0 & hx0 & u0 & t0 & A1 & A2 & A3).
    exists r0, hx0, u0, t0. split; [exact A1|]. split; [exact A2|].
    destruct u0, useY; try assumption; apply elem_of_app; auto.
  - apply list_elem_of_singleton in Hin. injection Hin as -> -> ->.
    exists r, hx, useY, top'. split; [exact Hx|]. split; [exact Hc|].
    destruct useY; apply elem_of_app; right; apply list_elem_of_here.
Qed.

(** What the evacuation decides for an occupied cell, as the lookups see
    it. *)
Lemma decide_facts h newbit ts ks x' r (vs : V) :
  TypeOK -> minTopHash <= ts ->
  hasher t ks (hash0 h) r = Some x' ->
  exists (useY : bool) top',
    (if is_sameSizeGrow h then (0, ts)
     else evacuate_decide h newbit ts ks (wrap x'))
    = ((if useY then 1 else 0), top') /\
    (is_sameSizeGrow h = true -> useY = false) /\
    minTopHash <= top' /\
    (forall key top, passes key top (ts, ks, vs) ->
                     passes key top (top', ks, vs)) /\
    (forall key x, key_equal t key ks = true -> key_equal t key key = true ->
                   hasher t key (hash0 h) 0 = Some x ->
                   top' = ts /\ useY = useY_of h newbit x).
Proof.
  intros HT Hts Hx. unfold useY_of.
  destruct (is_sameSizeGrow h) eqn:Hss.
  { exists false, ts. repeat split; auto. }
  unfold evacuate_decide.
  destruct (negb (Z.land (flags h) iterator =? 0) && negb (reflexivekey t)
            && negb (key_equal t ks ks)) eqn:Enan.
  - apply andb_true_iff in Enan as [_ Enr]. apply negb_true_iff in Enr.
    assert (Hneq : forall key, key_equal t key ks = true -> False).
    { intros key Ek.
      pose proof (type_equal_trans HT _ _ _ (type_equal_sym HT _ _ Ek) Ek).
      congruence. }
    exists (negb (Z.land ts 1 =? 0)), (tophash (wrap x')).
    pose proof (tophash_range (wrap x')) as Hr.
    split; [|split; [discriminate|split; [lia|split]]].
    + f_equal. assert (E : Z.land ts 1 = ts mod 2)
        by exact (land_mask ts 1 ltac:(lia)).
      pose proof (Z.mod_pos_bound ts 2 ltac:(lia)).
      destruct (Z.eqb_spec (Z.land ts 1) 0); cbn [negb]; lia.
    + intros key top Hp. unfold passes in *. cbn [fst snd] in *.
      destruct (key_equal t key ks) eqn:Ek; [exfalso; eauto|].
      destruct (Z.eq_dec (tophash (wrap x')) top); [auto|].
      right. split; [assumption|]. unfold emptyRest, minTopHash in *. lia.
    + intros key x Ek. exfalso. eauto.
  - exists (negb (Z.land (wrap x') newbit =? 0)), ts.
    split; [|split; [discriminate|split; [assumption|split]]].
    + destruct (negb (Z.land (wrap x') newbit =? 0)); reflexivity.
    + auto.
    + intros key x Ek Hr Hkx. split; [reflexivity|].
      rewrite (type_hash_equal HT key ks (hash0 h) 0 r Ek) in Hkx.
      rewrite Hx in Hkx. injection Hkx as <-. reflexivity.
Qed.

Lemma newoverflow_oom w h bk :
  TypeOK -> hdr w = Some h -> pool_cursor h = 0 ->
  brk w + bucketsize t > maxAlloc ->
  newoverflow bk w = Err OutOfMemory w.
Proof.
  intros HT Hh Hp Hm. destruct HT as [E1 _ _ _ _ _ _].
  assert (Hnew : newobject w = Err OutOfMemory w).
  { unfold newobject, newarray. rewrite E1, Z.mul_1_l.
    destruct (Z.ltb_spec 1 1); [lia|]. cbn [orb].
    destruct (Z.ltb_spec maxAlloc (brk w + bucketsize t)); [reflexivity | lia]. }
  unfold newoverflow. unfold bind at 1. unfold geth. rewrite Hh.
  cbn beta iota. unfold pool_cursor in Hp. unfold bind at 1.
  destruct (extra h) as [e|].
  - rewrite Hp. cbn [Z.eqb negb]. rewrite Hnew. reflexivity.
  - rewrite Hnew. reflexivity.
Qed.

(** [newoverflow] in a well-formed memory: the bucket it returns is new to
    the registry; it comes zeroed and is linked behind [bk]. *)
Lemma newoverflow_wp w h G bk bb (Q : Z -> world K V -> Prop) :
  ArchOK -> TypeOK ->
  hdr w = Some h -> 0 < brk w <= maxAlloc ->
  (forall a bm, heap w !! a = Some bm -> 0 < a /\ a + bucketsize t <= brk w) ->
  heap w !! bk = Some bb -> is_Some (G !! bk) ->
  (forall b g, G !! b = Some g -> is_Some (heap w !! b)) ->
  (exists n, pool_at (heap w) G (pool_cursor h) n) ->
  (forall ovf w' h',
     hdr w' = Some h' -> same_table h h' ->
     brk w <= brk w' <= maxAlloc ->
     0 < ovf /\ ovf + bucketsize t <= brk w' ->
     G !! ovf = None -> ovf <> bk ->
     heap w' = <[bk := set_b_overflow ovf bb]>
                 (<[ovf := zero_bmap]> (heap w)) ->
     (forall a, exists n, pool_at (heap w') (<[ovf := a]> G)
                                  (pool_cursor h') n) ->
     Q ovf w') ->
  wp (newoverflow bk) w Q.
Proof.
  intros HA HT Hh Hbrk Hheap Hbk HG HGh [n HP] HQ.
  pose proof (bucketsize_min HA HT) as HS.
  assert (Hheap' : forall a bm, heap w !! a = Some bm -> 0 < a < brk w).
  { intros a bm Ha. apply Hheap in Ha. lia. }
  destruct n as [| n].
  - cbn [pool_at] in HP.
    destruct (Z_le_gt_dec (brk w + bucketsize t) maxAlloc) as [Hm | Hm].
    + apply tot_wp. eapply tot_mono.
      { apply (newoverflow_fresh w h bk bb HT Hh HP Hheap' Hbk Hm). }
      intros ovf w' (-> & EB & EH & h' & Hh' & HS' & HC').
      apply (HQ _ _ h'); try assumption; try lia.
      * destruct (G !! brk w) as [g|] eqn:EG; [|reflexivity].
        exfalso. destruct (HGh _ _ EG) as [x Ex].
        apply Hheap' in Ex. lia.
      * intros E. rewrite <- E in Hbk. apply Hheap' in Hbk. lia.
      * intros a. exists O. exact HC'.
    + unfold wp. rewrite (newoverflow_oom w h bk HT Hh HP Hm). reflexivity.
  - assert (Hbrk' : brk w <= maxAlloc) by lia.
    apply tot_wp. eapply tot_mono.
    { apply (newoverflow_pool w h G bk bb n HA HT Hh Hbrk' Hheap' Hbk HG HP). }
    intros ovf w' (-> & EB & EH & h' & Hh' & HS' & HC' & HP').
    cbn [pool_at] in HP. destruct HP as (Hp & HGp & o & Ho & _).
    apply (HQ _ _ h'); try assumption; try lia.
    + apply Hheap in Ho. lia.
    + intros E. rewrite E in HGp. destruct HG as [g HG']. congruence.
    + intros a. exists n. apply HP'.
Qed.

(** ** The invariant of the loops of [evacuate] *)

Definition is_mark (x : Z) : Prop := evacuatedX <= x <= evacuatedEmpty.

Definition bupd {A : Type} (f : bool -> A) (s : bool) (v : A) : bool -> A :=
  fun s' => if Bool.eqb s' s then v else f s'.

Lemma newb_inj h i i' :
  0 < bucketsize t -> newb h i = newb h i' -> i = i'.
Proof. unfold newb. intros HS E. nia. Qed.

Lemma chain_ok_head H G a l :
  chain_ok H G a l -> a <> 0 -> G !! a = Some a.
Proof.
  intros (C & Ho & _) Ha. destruct (chain_head _ _ _ C Ha) as (bm & l' & -> & _).
  apply Ho. apply list_elem_of_here.
Qed.

Lemma chain_ok_frame H H' G G' a l :
  chain_ok H G a l ->
  (forall b, b ∈ l -> H' !! b = H !! b) ->
  (forall b g, G !! b = Some g -> G' !! b = Some g) ->
  chain_ok H' G' a l.
Proof.
  intros (C & Ho & Hs & Hc) Hsame HG.
  split; [apply (chain_same H); assumption|].
  split; [eapply owned_mono; eassumption|].
  unfold tops_of in *. rewrite (cells_of_ext H H') by assumption. auto.
Qed.

Lemma cellIndexes_eq_seq : cellIndexes = seq 0 8.
Proof. rewrite cellIndexes_eq. reflexivity. Qed.

Lemma cellIndexes_in c : (c < 8)%nat -> c ∈ cellIndexes.
Proof.
  intros Hc. rewrite cellIndexes_eq.
  do 8 (destruct c as [| c];
        [repeat (first [apply list_elem_of_here | apply list_elem_of_further])|]).
  lia.
Qed.

Lemma cells_of_elem H l b bm c :
  b ∈ l -> H !! b = Some bm -> (c < 8)%nat -> cell_at bm b c ∈ cells_of H l.
Proof.
  intros Hb Hbm Hc. induction l as [| b0 l IH].
  - apply elem_of_nil in Hb. contradiction.
  - unfold cells_of in *. cbn [flat_map]. apply elem_of_app.
    apply elem_of_cons in Hb as [<- | Hb]; [left | right; auto].
    rewrite Hbm, bucket_cells_eq. apply list_elem_of_fmap.
    exists c. split; [reflexivity | apply cellIndexes_in; assumption].
Qed.

Lemma same_table_fields h h' :
  same_table h h' ->
  growing h' = growing h /\ is_sameSizeGrow h' = is_sameSizeGrow h /\
  noldbuckets h' = noldbuckets h /\
  (forall i, newb h' i = newb h i) /\ (forall i, oldb h' i = oldb h i).
Proof.
  intros (EB & Eb & Eo & Ef & _).
  assert (Es : is_sameSizeGrow h' = is_sameSizeGrow h)
    by (unfold is_sameSizeGrow; rewrite Ef; reflexivity).
  split; [unfold growing; rewrite Eo; reflexivity|].
  split; [exact Es|].
  split; [unfold noldbuckets; rewrite Es, EB; reflexivity|].
  split; intros i; [unfold newb; rewrite Eb | unfold oldb; rewrite Eo];
    reflexivity.
Qed.

Lemma pending_same_table H h h' i :
  same_table h h' -> pending H h' i <-> pending H h i.
Proof.
  intros HS. destruct (same_table_fields h h' HS) as (Eg & _ & En & _ & Eo).
  unfold pending. rewrite Eg, En, Eo. reflexivity.
Qed.

Lemma is_mark_evacuated (bm : bmap K V) :
  is_mark (b_tophash bm O) -> evacuated bm = true.
Proof.
  unfold is_mark, evacuated, evacuatedX, evacuatedEmpty, emptyOne, minTopHash.
  intros Hm. apply andb_true_iff. split; [apply Z.ltb_lt | apply Z.ltb_lt]; lia.
Qed.

Section Evacuation.

Variables (w0 : world K V) (h0 : hmap) (G0 : gmap Z Z) (j : Z) (L : list Z).
Hypothesis HA : ArchOK.
Hypothesis HT : TypeOK.
Hypothesis I0 : Inv w0 h0 G0.
Hypothesis Hg0 : growing h0 = true.
Hypothesis Hj : 0 <= j < noldbuckets h0.
Hypothesis HL : chain_ok (heap w0) G0 (oldb h0 j) L.
Hypothesis Hpend : exists bm, heap w0 !! oldb h0 j = Some bm /\
                              evacuated bm = false.

(** The heads of the two destinations: the buckets of index [j] and
    [j + newbit] of the new array; the second one is in use in a doubling
    grow only. *)
Definition ev_head (s : bool) : Z :=
  if s then newb h0 (j + noldbuckets h0) else newb h0 j.

Definition active (s : bool) : Prop :=
  s = true -> is_sameSizeGrow h0 = false.

Definition ev_index (s : bool) : Z :=
  if s then j + noldbuckets h0 else j.

Lemma ev_index_range s : active s -> 0 <= ev_index s < 2 ^ B h0.
Proof.
  intros Ha. destruct (Inv_nold _ _ _ HA HT I0 Hg0) as (Hp & _ & E & _).
  unfold ev_index. destruct s.
  - rewrite (Ha eq_refl) in E. lia.
  - destruct (is_sameSizeGrow h0); lia.
Qed.

Lemma ev_head_index s : ev_head s = newb h0 (ev_index s).
Proof. destruct s; reflexivity. Qed.

Lemma ev_index_mod s : active s -> ev_index s mod noldbuckets h0 = j.
Proof.
  intros Ha. unfold ev_index. destruct s.
  - rewrite <- (Z.mul_1_l (noldbuckets h0)) at 1.
    rewrite Z.mod_add by lia. apply Z.mod_small. assumption.
  - apply Z.mod_small. assumption.
Qed.

Lemma ev_buckets : buckets h0 <> 0.
Proof. destruct (inv_old _ _ _ I0 Hg0) as (E & _). exact E. Qed.

Lemma ev_pending s : active s -> pending (heap w0) h0 (ev_index s).
Proof.
  intros Ha. split; [assumption|]. rewrite ev_index_mod by assumption.
  exact Hpend.
Qed.

Lemma ev_head_facts s :
  active s ->
  ev_head s <> 0 /\ ev_head s <> oldb h0 j /\
  G0 !! ev_head s = Some (ev_head s) /\
  fresh_bucket (heap w0) (ev_head s).
Proof.
  intros Ha. pose proof (ev_index_range s Ha) as Hi.
  destruct (Inv_bucketsize_fits w0 h0 G0 _ HA HT I0 ev_buckets Hi)
    as (H1 & H2 & _).
  destruct (Inv_oldb_fits w0 h0 G0 j HA HT I0 Hg0 Hj) as (H3 & H4 & _).
  destruct (inv_arr _ _ _ I0 ev_buckets) as [H5 H6].
  destruct (inv_new _ _ _ I0 ev_buckets _ Hi) as (l & Cl & Hf).
  pose proof (bucketsize_min HA HT) as HS.
  rewrite ev_head_index. split; [lia|]. split.
  - unfold newb in *. nia.
  - split; [|apply Hf, ev_pending; assumption].
    eapply chain_ok_head; [exact Cl | lia].
Qed.

Lemma ev_head_inj s s' :
  active s -> active s' -> ev_head s = ev_head s' -> s = s'.
Proof.
  intros Ha Ha' E. rewrite !ev_head_index in E.
  pose proof (bucketsize_min HA HT) as HS.
  apply newb_inj in E; [|lia].
  destruct (Inv_nold _ _ _ HA HT I0 Hg0) as (Hp & _).
  unfold ev_index in E. destruct s, s'; try reflexivity; lia.
Qed.

Lemma HL_old b : b ∈ L -> G0 !! b = Some (oldb h0 j).
Proof. destruct HL as (_ & Ho & _). apply Ho. Qed.

(** [EV w G P cnt dst D m]: the state inside [evacuate]: [P] are the cells
    of the old chain already marked, [dst] the two cursors, [D] the chains
    they have filled and [m] the entries they have put there; [cnt] is the
    number of live entries of the registered buckets. *)
Record EV (w : world K V) (G : gmap Z Z) (P : Z -> nat -> Prop) (cnt : Z)
       (dst : bool -> evacDst) (D : bool -> list Z)
       (m : bool -> list (Z * K * V)) : Prop := {
  ev_hdr : exists h, hdr w = Some h /\ same_table h0 h /\
                     exists n, pool_at (heap w) G (pool_cursor h) n;
  ev_brk : brk w0 <= brk w <= maxAlloc;
  ev_heap : forall a bm, heap w !! a = Some bm ->
                         0 < a /\ a + bucketsize t <= brk w;
  ev_G : forall b g, G !! b = Some g -> is_Some (heap w !! b);
  ev_G0 : forall b g, G0 !! b = Some g -> G !! b = Some g;
  ev_Gnew : forall b g, G !! b = Some g -> G0 !! b = None ->
                        exists s, active s /\ g = ev_head s;
  ev_frame : forall a g, G0 !! a = Some g -> g <> oldb h0 j ->
                         (forall s, active s -> g <> ev_head s) ->
                         heap w !! a = heap w0 !! a;
  ev_count : total_occ (heap w) G = cnt;
  ev_old : forall b, b ∈ L ->
           exists bm bm0,
             heap w !! b = Some bm /\ heap w0 !! b = Some bm0 /\
             b_overflow bm = b_overflow bm0 /\
             forall c, (c < 8)%nat ->
                       b_keys bm c = b_keys bm0 c /\
                       b_elems bm c = b_elems bm0 c /\
                       (P b c -> is_mark (b_tophash bm c)) /\
                       (~ P b c -> b_tophash bm c = b_tophash bm0 c);
  ev_dst : forall s, active s ->
                     dest_ok (heap w) G (ev_head s) (D s) (dst s) (m s);
  ev_idle : forall s, ~ active s -> m s = []
}.

Lemma EV_init :
  EV w0 G0 (fun _ _ => False) (count h0)
     (fun s => if s then (if is_sameSizeGrow h0 then EvacDst 0 0
                          else EvacDst (ev_head true) 0)
               else EvacDst (ev_head false) 0)
     (fun s => [ev_head s]) (fun _ => []).
Proof.
  constructor.
  - exists h0. split; [apply (inv_hdr _ _ _ I0)|].
    split; [apply same_table_refl | apply (inv_pool _ _ _ I0)].
  - pose proof (inv_brk _ _ _ I0). lia.
  - apply (inv_heap _ _ _ I0).
  - apply (inv_G _ _ _ I0).
  - auto.
  - intros b g Hb Hn. congruence.
  - reflexivity.
  - symmetry. apply (inv_count _ _ _ I0).
  - intros b Hb. destruct HL as (C & _).
    destruct (chain_in _ _ _ _ C Hb) as [_ [bm Hbm]].
    exists bm, bm. split; [assumption|]. split; [assumption|].
    split; [reflexivity|]. intros c Hc.
    split; [reflexivity|]. split; [reflexivity|].
    split; [intros [] | reflexivity].
  - intros s Ha. destruct (ev_head_facts s Ha) as (H1 & _ & H3 & H4).
    assert (E : (if s then (if is_sameSizeGrow h0 then EvacDst 0 0
                            else EvacDst (ev_head true) 0)
                 else EvacDst (ev_head false) 0) = EvacDst (ev_head s) 0).
    { destruct s; [rewrite (Ha eq_refl)|]; reflexivity. }
    rewrite E. apply dest_ok_fresh; assumption.
  - reflexivity.
Qed.

Lemma EV_old_owner w G P cnt dst D m b :
  EV w G P cnt dst D m -> b ∈ L -> G !! b = Some (oldb h0 j).
Proof. intros E Hb. apply (ev_G0 _ _ _ _ _ _ _ E), HL_old, Hb. Qed.

Lemma EV_dst_owner w G P cnt dst D m s a :
  EV w G P cnt dst D m -> active s -> a ∈ D s -> G !! a = Some (ev_head s).
Proof.
  intros E Ha Hin.
  destruct (ev_dst _ _ _ _ _ _ _ E s Ha) as (D' & bmd & _ & _ & Ho & _).
  apply Ho, Hin.
Qed.

Lemma EV_dst_last w G P cnt dst D m s :
  EV w G P cnt dst D m -> active s -> dst_b (dst s) ∈ D s.
Proof.
  intros E Ha.
  destruct (ev_dst _ _ _ _ _ _ _ E s Ha) as (D' & bmd & -> & _).
  apply elem_of_app. right. apply list_elem_of_here.
Qed.

Lemma EV_pool_frame w G P cnt dst D m (H' : gmap Z (bmap K V)) h n :
  EV w G P cnt dst D m ->
  pool_at (heap w) G (pool_cursor h) n ->
  (forall a, G !! a = None -> H' !! a = heap w !! a) ->
  pool_at H' G (pool_cursor h) n.
Proof.
  intros E HP Hsame. eapply pool_at_frame; [exact HP|]. intros i Hi.
  destruct (pool_at_lookup _ _ _ _ i HP Hi) as [HG _]. auto.
Qed.

(** Marking a cell of the old chain. *)
Lemma EV_mark w w' G P cnt dst D m b bm c mk :
  EV w G P cnt dst D m ->
  hdr w' = hdr w -> brk w' = brk w ->
  b ∈ L -> heap w !! b = Some bm -> (c < 8)%nat -> ~ P b c -> is_mark mk ->
  heap w' = <[b := set_tophash c mk bm]> (heap w) ->
  EV w' G (fun b' c' => P b' c' \/ (b' = b /\ c' = c))
     (cnt - (if occupied (b_tophash bm c) then 1 else 0)) dst D m.
Proof.
  intros E Eh Eb Hb Hbm Hc HnP Hmk EH.
  pose proof (EV_old_owner _ _ _ _ _ _ _ b E Hb) as HGb.
  assert (Hother : forall a, a <> b -> heap w' !! a = heap w !! a).
  { intros a Hne. rewrite EH. apply lookup_insert_ne. congruence. }
  assert (Hreg : forall a g, G !! a = Some g -> g <> oldb h0 j -> a <> b).
  { intros a g Ha Hg ->. congruence. }
  constructor.
  - destruct (ev_hdr _ _ _ _ _ _ _ E) as (h & Hh & HS & n & HP).
    exists h. split; [congruence|]. split; [assumption|]. exists n.
    eapply (EV_pool_frame w); [exact E | exact HP |].
    intros a Ha. apply Hother. intros ->. congruence.
  - rewrite Eb. apply (ev_brk _ _ _ _ _ _ _ E).
  - intros a bma Ha. rewrite Eb.
    destruct (Z.eq_dec a b) as [-> | Hne].
    + apply (ev_heap _ _ _ _ _ _ _ E b bm Hbm).
    + rewrite Hother in Ha by assumption.
      apply (ev_heap _ _ _ _ _ _ _ E a bma Ha).
  - intros a g Ha. destruct (Z.eq_dec a b) as [-> | Hne].
    + rewrite EH, lookup_insert_eq. eauto.
    + rewrite Hother by assumption. apply (ev_G _ _ _ _ _ _ _ E a g Ha).
  - apply (ev_G0 _ _ _ _ _ _ _ E).
  - apply (ev_Gnew _ _ _ _ _ _ _ E).
  - intros a g Ha Hg Hs. rewrite Hother.
    + apply (ev_frame _ _ _ _ _ _ _ E a g Ha Hg Hs).
    + eapply Hreg; [|exact Hg]. apply (ev_G0 _ _ _ _ _ _ _ E). exact Ha.
  - rewrite (total_occ_update (heap w) (heap w') G b _ HGb).
    + rewrite (ev_count _ _ _ _ _ _ _ E). unfold occ_at.
      rewrite EH, lookup_insert_eq, Hbm.
      rewrite occ_bmap_set_tophash by assumption.
      assert (occupied mk = false) as ->; [|lia].
      unfold occupied, is_mark, evacuatedX, evacuatedEmpty, minTopHash in *.
      apply Z.leb_gt. lia.
    + intros a Hne _. unfold occ_at. rewrite Hother by assumption.
      reflexivity.
  - intros b' Hb'.
    destruct (ev_old _ _ _ _ _ _ _ E b' Hb')
      as (bm' & bm0 & H1 & H2 & H3 & H4).
    destruct (Z.eq_dec b' b) as [-> | Hne].
    + rewrite Hbm in H1. injection H1 as <-.
      exists (set_tophash c mk bm), bm0.
      split; [rewrite EH; apply lookup_insert_eq|].
      split; [assumption|]. split; [exact H3|].
      intros c' Hc'. destruct (H4 c' Hc') as (K1 & K2 & K3 & K4).
      split; [exact K1|]. split; [exact K2|].
      cbn [b_tophash set_tophash]. unfold upd.
      destruct (Nat.eqb_spec c' c) as [-> | Hnc].
      * split; [auto | intros Hn; exfalso; apply Hn; auto].
      * split.
        -- intros [HP | [_ ?]]; [auto | contradiction].
        -- intros Hn. apply K4. intros HP. apply Hn. auto.
    + exists bm', bm0. split; [rewrite Hother; assumption|].
      split; [assumption|]. split; [assumption|].
      intros c' Hc'. destruct (H4 c' Hc') as (K1 & K2 & K3 & K4).
      split; [exact K1|]. split; [exact K2|]. split.
      * intros [HP | [? _]]; [auto | contradiction].
      * intros Hn. apply K4. intros HP. apply Hn. auto.
  - intros s Ha. eapply dest_ok_frame.
    + apply (ev_dst _ _ _ _ _ _ _ E s Ha).
    + intros a Hin. apply Hother.
      pose proof (EV_dst_owner _ _ _ _ _ _ _ s a E Ha Hin) as HGa.
      intros ->. rewrite HGb in HGa. injection HGa as E1.
      destruct (ev_head_facts s Ha) as (_ & Hne & _). congruence.
    + auto.
  - apply (ev_idle _ _ _ _ _ _ _ E).
Qed.

Lemma bupd_same {A : Type} (f : bool -> A) s v : bupd f s v s = v.
Proof. unfold bupd. rewrite Bool.eqb_reflx. reflexivity. Qed.

Lemma bupd_other {A : Type} (f : bool -> A) s s' v :
  s' <> s -> bupd f s v s' = f s'.
Proof.
  intros Hne. unfold bupd. destruct (Bool.eqb_spec s' s); [contradiction|].
  reflexivity.
Qed.

(** Putting an entry in the cell under a cursor. *)
Lemma EV_write w w' G P cnt dst D m s db di bmd top k e :
  EV w G P cnt dst D m -> active s -> dst s = EvacDst db di -> 0 <= di < 8 ->
  hdr w' = hdr w -> brk w' = brk w -> heap w !! db = Some bmd ->
  occupied top = true -> hashable k ->
  heap w' = <[db := set_elem (Z.to_nat di) e
                      (set_key (Z.to_nat di) k
                         (set_tophash (Z.to_nat di) top bmd))]> (heap w) ->
  EV w' G P (cnt + 1) (bupd dst s (EvacDst db (di + 1))) D
     (bupd m s (m s ++ [(top, k, e)])).
Proof.
  intros E Ha Ed Hdi Eh Eb Hdb Htop Hk EH.
  pose proof (EV_dst_last _ _ _ _ _ _ _ s E Ha) as Hlast.
  rewrite Ed in Hlast. cbn [dst_b] in Hlast.
  pose proof (EV_dst_owner _ _ _ _ _ _ _ s db E Ha Hlast) as HGd.
  destruct (ev_head_facts s Ha) as (Hs0 & Hsold & _).
  assert (Hother : forall a, a <> db -> heap w' !! a = heap w !! a).
  { intros a Hne. rewrite EH. apply lookup_insert_ne. congruence. }
  pose proof (ev_dst _ _ _ _ _ _ _ E s Ha) as Hds. rewrite Ed in Hds.
  assert (Hempty : b_tophash bmd (Z.to_nat di) = emptyRest).
  { destruct Hds as (D' & bmd' & _ & _ & _ & _ & Hd & Hc & _).
    cbn [dst_b dst_i] in *. rewrite Hdb in Hd. injection Hd as <-.
    apply Hc; lia. }
  constructor.
  - destruct (ev_hdr _ _ _ _ _ _ _ E) as (h & Hh & HS & n & HP).
    exists h. split; [congruence|]. split; [assumption|]. exists n.
    eapply (EV_pool_frame w); [exact E | exact HP |].
    intros a Hn. apply Hother. intros ->. congruence.
  - rewrite Eb. apply (ev_brk _ _ _ _ _ _ _ E).
  - intros a bma Hla. rewrite Eb.
    destruct (Z.eq_dec a db) as [-> | Hne].
    + apply (ev_heap _ _ _ _ _ _ _ E db bmd Hdb).
    + rewrite Hother in Hla by assumption.
      apply (ev_heap _ _ _ _ _ _ _ E a bma Hla).
  - intros a g Hg. destruct (Z.eq_dec a db) as [-> | Hne].
    + rewrite EH, lookup_insert_eq. eauto.
    + rewrite Hother by assumption. apply (ev_G _ _ _ _ _ _ _ E a g Hg).
  - apply (ev_G0 _ _ _ _ _ _ _ E).
  - apply (ev_Gnew _ _ _ _ _ _ _ E).
  - intros a g Hg Hgo Hgs. rewrite Hother.
    + apply (ev_frame _ _ _ _ _ _ _ E a g Hg Hgo Hgs).
    + intros ->. apply (ev_G0 _ _ _ _ _ _ _ E) in Hg.
      rewrite HGd in Hg. injection Hg as <-. exact (Hgs s Ha eq_refl).
  - rewrite (total_occ_update (heap w) (heap w') G db _ HGd).
    + rewrite (ev_count _ _ _ _ _ _ _ E). unfold occ_at.
      rewrite EH, lookup_insert_eq, Hdb.
      rewrite (occ_bmap_ext
                 (set_tophash (Z.to_nat di) top bmd)
                 (set_elem (Z.to_nat di) e
                    (set_key (Z.to_nat di) k
                       (set_tophash (Z.to_nat di) top bmd))))
        by reflexivity.
      rewrite occ_bmap_set_tophash by lia. rewrite Htop, Hempty.
      change (if occupied emptyRest then 1 else 0) with 0. lia.
    + intros a Hne _. unfold occ_at. rewrite Hother by assumption.
      reflexivity.
  - intros b Hb. pose proof (EV_old_owner _ _ _ _ _ _ _ b E Hb) as HGb.
    destruct (ev_old _ _ _ _ _ _ _ E b Hb) as (bm & bm0 & H1 & H2).
    exists bm, bm0. split; [|exact H2]. rewrite Hother; [assumption|].
    intros ->. congruence.
  - intros s' Ha'. destruct (Bool.bool_dec s' s) as [-> | Hne].
    + rewrite !bupd_same. rewrite EH.
      apply dest_ok_write; assumption.
    + rewrite !bupd_other by assumption. eapply dest_ok_frame.
      * apply (ev_dst _ _ _ _ _ _ _ E s' Ha').
      * intros a Hin. apply Hother.
        pose proof (EV_dst_owner _ _ _ _ _ _ _ s' a E Ha' Hin) as HGa.
        intros ->. rewrite HGd in HGa. injection HGa as E1.
        apply Hne. symmetry. apply ev_head_inj; assumption.
      * auto.
  - intros s' Hn. destruct (Bool.bool_dec s' s) as [-> | Hne];
      [contradiction|].
    rewrite bupd_other by assumption.
    apply (ev_idle _ _ _ _ _ _ _ E s' Hn).
Qed.

(** Linking a new overflow bucket behind a full destination. *)
Lemma EV_grow w w' G P cnt dst D m s db bmd ovf h' :
  EV w G P cnt dst D m -> active s -> dst s = EvacDst db 8 ->
  heap w !! db = Some bmd ->
  hdr w' = Some h' ->
  (forall h, hdr w = Some h -> same_table h h') ->
  brk w <= brk w' <= maxAlloc ->
  0 < ovf /\ ovf + bucketsize t <= brk w' ->
  G !! ovf = None ->
  heap w' = <[db := set_b_overflow ovf bmd]>
              (<[ovf := zero_bmap]> (heap w)) ->
  (exists n, pool_at (heap w') (<[ovf := ev_head s]> G) (pool_cursor h') n) ->
  EV w' (<[ovf := ev_head s]> G) P cnt (bupd dst s (EvacDst ovf 0))
     (bupd D s (D s ++ [ovf])) m.
Proof.
  intros E Ha Ed Hdb Hh' HS' Hbrk Hovf HGo EH HP'.
  pose proof (EV_dst_last _ _ _ _ _ _ _ s E Ha) as Hlast.
  rewrite Ed in Hlast. cbn [dst_b] in Hlast.
  pose proof (EV_dst_owner _ _ _ _ _ _ _ s db E Ha Hlast) as HGd.
  assert (Hne : db <> ovf) by (intros ->; congruence).
  assert (Hother : forall a, a <> db -> a <> ovf ->
                             heap w' !! a = heap w !! a).
  { intros a H1 H2. rewrite EH. rewrite !lookup_insert_ne by congruence.
    reflexivity. }
  assert (Hreg : forall a g, G !! a = Some g -> a <> ovf).
  { intros a g Hg ->. congruence. }
  assert (HGm : forall b g, G !! b = Some g ->
                            <[ovf := ev_head s]> G !! b = Some g).
  { intros b g Hg. rewrite lookup_insert_ne; [assumption|].
    intros <-. congruence. }
  constructor.
  - destruct (ev_hdr _ _ _ _ _ _ _ E) as (h & Hh & HS & _).
    exists h'. split; [assumption|]. split; [|assumption].
    eapply same_table_trans; [exact HS | auto].
  - pose proof (ev_brk _ _ _ _ _ _ _ E). lia.
  - intros a bma Hla.
    destruct (Z.eq_dec a ovf) as [-> | H1]; [assumption|].
    destruct (Z.eq_dec a db) as [-> | H2].
    + pose proof (ev_heap _ _ _ _ _ _ _ E db bmd Hdb). lia.
    + rewrite Hother in Hla by assumption.
      pose proof (ev_heap _ _ _ _ _ _ _ E a bma Hla). lia.
  - intros a g Hg. rewrite EH.
    destruct (Z.eq_dec a db) as [-> | H2];
      [rewrite lookup_insert_eq; eauto|].
    rewrite lookup_insert_ne by congruence.
    destruct (Z.eq_dec a ovf) as [-> | H1];
      [rewrite lookup_insert_eq; eauto|].
    rewrite lookup_insert_ne by congruence.
    rewrite lookup_insert_ne in Hg by congruence.
    apply (ev_G _ _ _ _ _ _ _ E a g Hg).
  - intros b g Hg. apply HGm. apply (ev_G0 _ _ _ _ _ _ _ E). exact Hg.
  - intros b g Hg Hn. destruct (Z.eq_dec b ovf) as [-> | H1].
    + rewrite lookup_insert_eq in Hg. injection Hg as <-. eauto.
    + rewrite lookup_insert_ne in Hg by congruence.
      apply (ev_Gnew _ _ _ _ _ _ _ E b g Hg Hn).
  - intros a g Hg Hgo Hgs.
    pose proof (ev_G0 _ _ _ _ _ _ _ E a g Hg) as HGa.
    rewrite Hother.
    + apply (ev_frame _ _ _ _ _ _ _ E a g Hg Hgo Hgs).
    + intros ->. rewrite HGd in HGa. injection HGa as <-.
      exact (Hgs s Ha eq_refl).
    + eapply Hreg. exact HGa.
  - rewrite total_occ_insert by assumption.
    rewrite (total_occ_ext (heap w) (heap w') G).
    + rewrite (ev_count _ _ _ _ _ _ _ E). unfold occ_at.
      rewrite EH, lookup_insert_ne by congruence.
      rewrite lookup_insert_eq.
      rewrite occ_bmap_empty; [lia | reflexivity].
    + intros b [g Hg]. unfold occ_at.
      destruct (Z.eq_dec b db) as [-> | H2].
      * rewrite EH, lookup_insert_eq, Hdb. apply occ_bmap_ext. reflexivity.
      * rewrite Hother; [reflexivity | assumption | eapply Hreg; eassumption].
  - intros b Hb. pose proof (EV_old_owner _ _ _ _ _ _ _ b E Hb) as HGb.
    destruct (ev_old _ _ _ _ _ _ _ E b Hb) as (bm & bm0 & H1 & H2).
    exists bm, bm0. split; [|exact H2]. rewrite Hother; [assumption | |].
    + intros ->. rewrite HGd in HGb. injection HGb as E1.
      destruct (ev_head_facts s Ha) as (_ & Hso & _). congruence.
    + eapply Hreg. exact HGb.
  - intros s' Ha'. destruct (Bool.bool_dec s' s) as [-> | Hns].
    + rewrite !bupd_same. rewrite EH.
      pose proof (ev_dst _ _ _ _ _ _ _ E s Ha) as Hds. rewrite Ed in Hds.
      apply dest_ok_grow; try assumption. lia.
    + rewrite !bupd_other by assumption. eapply dest_ok_frame.
      * apply (ev_dst _ _ _ _ _ _ _ E s' Ha').
      * intros a Hin.
        pose proof (EV_dst_owner _ _ _ _ _ _ _ s' a E Ha' Hin) as HGa.
        apply Hother.
        -- intros ->. rewrite HGd in HGa. injection HGa as E1.
           apply Hns. symmetry. apply ev_head_inj; assumption.
        -- eapply Hreg. exact HGa.
      * exact HGm.
  - apply (ev_idle _ _ _ _ _ _ _ E).
Qed.

Lemma EV_mark_wp w G P cnt dst D m b c mk :
  EV w G P cnt dst D m -> b ∈ L -> (c < 8)%nat -> ~ P b c -> is_mark mk ->
  wp (updb b (set_tophash c mk)) w
     (fun _ w' =>
        exists bm, heap w !! b = Some bm /\
          EV w' G (fun b' c' => P b' c' \/ (b' = b /\ c' = c))
             (cnt - (if occupied (b_tophash bm c) then 1 else 0)) dst D m).
Proof.
  intros E Hb Hc HnP Hmk. apply wp_updb. intros bm Hbm. exists bm.
  split; [assumption|].
  eapply (EV_mark w); try eassumption; reflexivity.
Qed.

Lemma EV_prepare_wp w G P cnt dst D m s :
  EV w G P cnt dst D m -> active s ->
  wp (if dst_i (dst s) =? bucketCnt then
        do nb <- newoverflow (dst_b (dst s));
        ret (EvacDst nb 0)
      else ret (dst s)) w
     (fun d w' =>
        exists G' D' dst',
          EV w' G' P cnt dst' D' m /\ dst' s = d /\
          (forall s', s' <> s -> dst' s' = dst s') /\
          0 <= dst_i d < 8).
Proof.
  intros E Ha.
  pose proof (ev_dst _ _ _ _ _ _ _ E s Ha) as Hds.
  destruct Hds as (D' & bmd & ED & C & Ho & Hi & Hd & _).
  destruct (Z.eqb_spec (dst_i (dst s)) bucketCnt) as [E8 | E8].
  - change bucketCnt with 8 in E8.
    destruct (ev_hdr _ _ _ _ _ _ _ E) as (h & Hh & HS & HP).
    pose proof (EV_dst_last _ _ _ _ _ _ _ s E Ha) as Hlast.
    pose proof (EV_dst_owner _ _ _ _ _ _ _ s _ E Ha Hlast) as HGd.
    apply wp_bind.
    apply (newoverflow_wp w h G (dst_b (dst s)) bmd); try assumption.
    + pose proof (ev_brk _ _ _ _ _ _ _ E). pose proof (inv_brk _ _ _ I0). lia.
    + apply (ev_heap _ _ _ _ _ _ _ E).
    + eauto.
    + apply (ev_G _ _ _ _ _ _ _ E).
    + intros ovf w' h' Hh' HS' Hbrk Hovf HGo Hne EH HP'.
      apply wp_ret.
      exists (<[ovf := ev_head s]> G), (bupd D s (D s ++ [ovf])),
        (bupd dst s (EvacDst ovf 0)).
      split.
      * eapply (EV_grow w); try eassumption.
        -- destruct (dst s) as [db di]. cbn [dst_b dst_i] in *. subst di.
           reflexivity.
        -- intros h1 Hh1. rewrite Hh in Hh1. injection Hh1 as <-. assumption.
        -- apply HP'.
      * split; [apply bupd_same|]. split.
        -- intros s' Hs'. apply bupd_other. assumption.
        -- cbn [dst_i]. lia.
  - apply wp_ret. exists G, D, dst. split; [assumption|].
    split; [reflexivity|]. split; [auto|].
    change bucketCnt with 8 in E8. lia.
Qed.

Lemma EV_write_wp w G P cnt dst D m s top k e :
  EV w G P cnt dst D m -> active s -> 0 <= dst_i (dst s) < 8 ->
  occupied top = true -> hashable k ->
  wp (updb (dst_b (dst s))
           (fun d =>
              set_elem (Z.to_nat (Z.land (dst_i (dst s)) (bucketCnt - 1))) e
                (set_key (Z.to_nat (Z.land (dst_i (dst s)) (bucketCnt - 1))) k
                   (set_tophash
                      (Z.to_nat (Z.land (dst_i (dst s)) (bucketCnt - 1)))
                      top d)))) w
     (fun _ w' =>
        EV w' G P (cnt + 1)
           (bupd dst s (EvacDst (dst_b (dst s)) (dst_i (dst s) + 1))) D
           (bupd m s (m s ++ [(top, k, e)]))).
Proof.
  intros E Ha Hdi Htop Hk. rewrite land_small by assumption.
  apply wp_updb. intros bmd Hbmd.
  eapply (EV_write w); try eassumption; try reflexivity.
  destruct (dst s); reflexivity.
Qed.

Lemma EV_ext w w' G P cnt dst D m :
  hdr w' = hdr w -> heap w' = heap w -> brk w' = brk w ->
  EV w G P cnt dst D m -> EV w' G P cnt dst D m.
Proof.
  intros Eh EH Eb E. destruct E. constructor; rewrite ?Eh, ?EH, ?Eb; auto.
Qed.

(** The invariant of the loops: [P] are the cells marked, [done] the
    entries of the old chain they held, [xy] the two cursors. *)
Definition EVI (P : Z -> nat -> Prop) (done : list (Z * K * V))
           (xy : evacDst * evacDst) (w : world K V) : Prop :=
  exists G dst D m,
    EV w G P (count h0) dst D m /\ xy = (dst false, dst true) /\
    tracked h0 (noldbuckets h0) done (m false) (m true) /\
    placed h0 (noldbuckets h0) done (m false) (m true).

Lemma HL_hashable b bm0 c :
  b ∈ L -> heap w0 !! b = Some bm0 -> (c < 8)%nat ->
  (b_tophash bm0 c <= emptyOne \/ minTopHash <= b_tophash bm0 c) /\
  (minTopHash <= b_tophash bm0 c -> hashable (b_keys bm0 c)).
Proof.
  intros Hb Hbm Hc. destruct HL as (_ & _ & _ & HF).
  rewrite Forall_forall in HF.
  exact (HF _ (cells_of_elem _ _ _ _ _ Hb Hbm Hc)).
Qed.

Lemma evacuate_cell_wp P done xy w b bm0 c :
  EVI P done xy w -> b ∈ L -> heap w0 !! b = Some bm0 -> (c < 8)%nat ->
  ~ P b c ->
  wp (evacuate_cell (noldbuckets h0) b xy c) w
     (fun xy' w' =>
        EVI (fun b' c' => P b' c' \/ (b' = b /\ c' = c))
            (done ++ [(b_tophash bm0 c, b_keys bm0 c, b_elems bm0 c)])
            xy' w').
Proof.
  intros (G & dst & D & m & E & -> & Tr & Pl) Hb Hbm0 Hc HnP.
  destruct (ev_old _ _ _ _ _ _ _ E b Hb) as (bm & bm0' & H1 & H2 & H3 & H4).
  rewrite Hbm0 in H2. injection H2 as <-.
  destruct (H4 c Hc) as (K1 & K2 & _ & K4). specialize (K4 HnP).
  destruct (HL_hashable b bm0 c Hb Hbm0 Hc) as [Hclean Hhash].
  destruct (ev_hdr _ _ _ _ _ _ _ E) as (h & Hh & HS & _).
  destruct HS as (EB & Ebk & Eob & Efl & Ecnt & Eh0 & Enev).
  assert (Ess : is_sameSizeGrow h = is_sameSizeGrow h0)
    by (unfold is_sameSizeGrow; rewrite Efl; reflexivity).
  unfold evacuate_cell. apply wp_bind, wp_load. intros bm' Hbm'.
  rewrite H1 in Hbm'. injection Hbm' as <-.
  rewrite K1, K2, K4.
  set (top := b_tophash bm0 c) in *. set (k2 := b_keys bm0 c) in *.
  set (e2 := b_elems bm0 c) in *.
  destruct (isEmpty top) eqn:Eemp.
  { apply wp_bind, wp_store. intros _. apply wp_ret.
    exists G, dst, D, m. split; [|split; [reflexivity|split]].
    - unfold isEmpty in Eemp. apply Z.leb_le in Eemp.
      replace (count h0)
        with (count h0 - (if occupied (b_tophash bm c) then 1 else 0)).
      + eapply (EV_mark w); try eassumption; try reflexivity.
        unfold is_mark, evacuatedX, evacuatedEmpty. lia.
      + rewrite K4. unfold occupied.
        destruct (Z.leb_spec minTopHash top);
          [unfold minTopHash, emptyOne in *; lia | cbn iota; lia].
    - apply tracked_skip; [assumption|].
      unfold isEmpty in Eemp. apply Z.leb_le in Eemp.
      unfold minTopHash, emptyOne in *. lia.
    - apply placed_skip; [assumption|].
      unfold isEmpty in Eemp. apply Z.leb_le in Eemp.
      unfold minTopHash, emptyOne in *. lia. }
  destruct (Z.ltb_spec top minTopHash) as [Hlt | Hge]; [apply wp_throw|].
  specialize (Hhash Hge).
  apply wp_bind, wp_geth. intros h1 Hh1. rewrite Hh in Hh1.
  injection Hh1 as <-.
  apply wp_bind.
  (* the decision *)
  assert (Hdec : wp (if negb (is_sameSizeGrow h)
                     then do hash <- call_hasher k2 (hash0 h);
                          ret (evacuate_decide h (noldbuckets h0) top k2 hash)
                     else ret (0, top)) w
            (fun r w1 =>
               hdr w1 = hdr w /\ heap w1 = heap w /\ brk w1 = brk w /\
               exists (useY : bool) top',
                 r = ((if useY then 1 else 0), top') /\
                 (is_sameSizeGrow h = true -> useY = false) /\
                 minTopHash <= top' /\
                 (forall key top0, passes key top0 (top, k2, e2) ->
                                   passes key top0 (top', k2, e2)) /\
                 (forall key x, key_equal t key k2 = true ->
                                key_equal t key key = true ->
                                hasher t key (hash0 h) 0 = Some x ->
                                top' = top /\
                                useY = useY_of h (noldbuckets h0) x) /\
                 exists r0 hx,
                   hasher t k2 (hash0 h) r0 = Some hx /\
                   evac_choice h (noldbuckets h0) top k2 (wrap hx)
                   = ((if useY then 1 else 0), top'))).
  { destruct (is_sameSizeGrow h) eqn:Hss; cbn [negb].
    - apply wp_ret. split; [reflexivity|]. split; [reflexivity|].
      split; [reflexivity|].
      destruct (hasher t k2 (hash0 h) 0) as [x0|] eqn:Ex0;
        [|exfalso; exact (Hhash _ _ Ex0)].
      destruct (decide_facts h (noldbuckets h0) top k2 x0 0 e2 HT Hge Ex0)
        as (useY & top' & Ed & F1 & F2 & F3 & F4).
      rewrite Hss in Ed. injection Ed as Eu <-.
      exists useY, top. rewrite (F1 Hss) in *.
      split; [reflexivity|]. split; [reflexivity|].
      split; [assumption|]. split; [assumption|]. split; [assumption|].
      exists 0, x0. split; [exact Ex0|].
      unfold evac_choice. rewrite Hss. reflexivity.
    - apply wp_bind, wp_call_hasher; [assumption|]. intros x0 Ex0.
      apply wp_ret. split; [reflexivity|]. split; [reflexivity|].
      split; [reflexivity|].
      destruct (decide_facts h (noldbuckets h0) top k2 x0 (rand w O) e2
                  HT Hge Ex0)
        as (useY & top' & Ed & F1 & F2 & F3 & F4).
      rewrite Hss in Ed. exists useY, top'.
      split; [exact Ed|]. split; [discriminate|].
      split; [assumption|]. split; [assumption|]. split; [assumption|].
      exists (rand w O), x0. split; [exact Ex0|].
      unfold evac_choice. rewrite Hss. exact Ed. }
  eapply wp_mono; [exact Hdec|]. clear Hdec.
  intros r w1 (Eh1 & EH1 & Eb1 & useY & top' & -> & F1 & F2 & F3 & F4
               & r0 & hx & F5 & F6).
  cbn beta iota.
  change (negb (evacuatedX + 1 =? evacuatedY)
          || negb (Z.lxor evacuatedX 1 =? evacuatedY)) with false.
  cbn iota.
  assert (E1 : EV w1 G P (count h0) dst D m)
    by (eapply EV_ext; [| | | exact E]; assumption).
  assert (Hact : active useY).
  { intros ->. destruct (is_sameSizeGrow h0) eqn:Hss0; [|reflexivity].
    rewrite Ess in F1. specialize (F1 eq_refl). discriminate. }
  apply wp_bind. eapply wp_mono.
  { apply (EV_mark_wp w1 G P (count h0) dst D m b c
             (evacuatedX + (if useY then 1 else 0)) E1 Hb Hc HnP).
    unfold is_mark, evacuatedX, evacuatedEmpty. destruct useY; lia. }
  intros u2 w2 (bmx & Hbmx & E2). cbn beta.
  rewrite EH1, H1 in Hbmx. injection Hbmx as <-.
  fold top in K4. rewrite K4 in E2.
  assert (Eocc : occupied top = true) by (apply Z.leb_le; exact Hge).
  rewrite Eocc in E2.
  assert (Eds : (if (if useY then 1 else 0) =? 0
                 then fst (dst false, dst true)
                 else snd (dst false, dst true)) = dst useY)
    by (destruct useY; reflexivity).
  rewrite Eds. apply wp_bind. eapply wp_mono.
  { apply (EV_prepare_wp w2 _ _ _ _ _ _ useY E2 Hact). }
  intros d w3 (G' & D' & dst' & E3 & Ed & Eoth & Hdi). cbn beta.
  rewrite <- Ed in Hdi |- *.
  apply wp_bind. eapply wp_mono.
  { apply (EV_write_wp w3 _ _ _ _ _ _ useY top' k2 e2 E3 Hact Hdi).
    - apply Z.leb_le. exact F2.
    - exact Hhash. }
  intros u4 w4 E4. cbn beta in E4. apply wp_ret.
  exists G', (bupd dst' useY (EvacDst (dst_b (dst' useY))
                                      (dst_i (dst' useY) + 1))), D',
    (bupd m useY (m useY ++ [(top', k2, e2)])).
  split; [|split; [|split]].
  - replace (count h0) with (count h0 - 1 + 1) by lia. exact E4.
  - destruct useY; cbn [Z.eqb fst snd].
    + rewrite bupd_same, bupd_other by discriminate.
      rewrite (Eoth false) by discriminate. reflexivity.
    + rewrite bupd_same, bupd_other by discriminate.
      rewrite (Eoth true) by discriminate. reflexivity.
  - assert (Tm : tracked h0 (noldbuckets h0) (done ++ [(top, k2, e2)])
                   (if useY then m false else m false ++ [(top', k2, e2)])
                   (if useY then m true ++ [(top', k2, e2)] else m true)).
    { apply tracked_move; [assumption | assumption |].
      intros key x Ek Hr Hx. rewrite <- Eh0 in Hx.
      destruct (F4 key x Ek Hr Hx) as [Et Eu]. split; [exact Et|].
      rewrite Eu. unfold useY_of. rewrite Ess. reflexivity. }
    destruct useY.
    + rewrite bupd_same, bupd_other by discriminate. exact Tm.
    + rewrite bupd_same, bupd_other by discriminate. exact Tm.
  - assert (Pm : placed h0 (noldbuckets h0) (done ++ [(top, k2, e2)])
                   (if useY then m false else m false ++ [(top', k2, e2)])
                   (if useY then m true ++ [(top', k2, e2)] else m true)).
    { apply (placed_move _ _ _ _ _ _ _ _ _ _ r0 hx); [assumption | |].
      - rewrite <- Eh0. exact F5.
      - rewrite <- (evac_choice_flags h0 h _ _ _ _ Efl). exact F6. }
    destruct useY.
    + rewrite bupd_same, bupd_other by discriminate. exact Pm.
    + rewrite bupd_same, bupd_other by discriminate. exact Pm.
Qed.
Lemma EVI_ext P P' done xy w :
  (forall b c, P b c <-> P' b c) -> EVI P done xy w -> EVI P' done xy w.
Proof.
  intros HP (G & dst & D & m & E & Exy & Tr). exists G, dst, D, m.
  split; [|auto]. destruct E. constructor; try assumption.
  intros b Hb. destruct (ev_old0 b Hb) as (bm & bm0 & H1 & H2 & H3 & H4).
  exists bm, bm0. split; [assumption|]. split; [assumption|].
  split; [assumption|]. intros c Hc.
  destruct (H4 c Hc) as (K1 & K2 & K3 & K4).
  split; [assumption|]. split; [assumption|]. split.
  - intros HP'. apply K3, HP, HP'.
  - intros HnP'. apply K4. intros HPb. apply HnP', HP, HPb.
Qed.

Lemma skipn_entries bm c :
  (c < 8)%nat ->
  skipn c (bucket_entries bm)
  = (b_tophash bm c, b_keys bm c, b_elems bm c)
      :: skipn (S c) (bucket_entries bm).
Proof.
  intros Hc. unfold bucket_entries. rewrite cellIndexes_eq.
  do 8 (destruct c as [| c]; [reflexivity|]). lia.
Qed.

Lemma skipn_entries_all bm : skipn 8 (bucket_entries bm) = [].
Proof. unfold bucket_entries. rewrite cellIndexes_eq. reflexivity. Qed.

(** The loop over the cells of one old bucket, from cell [c] on. *)
Lemma evacuate_cells_wp b bm0 n :
  b ∈ L -> heap w0 !! b = Some bm0 ->
  forall c P done xy w,
    (c + n = 8)%nat ->
    (forall c', (c <= c' < 8)%nat -> ~ P b c') ->
    EVI P done xy w ->
    wp (evacuate_cells (noldbuckets h0) b xy (seq c n)) w
       (fun xy' w' =>
          EVI (fun b' c' => P b' c' \/ (b' = b /\ (c <= c' < 8)%nat))
              (done ++ skipn c (bucket_entries bm0)) xy' w').
Proof.
  intros Hb Hbm0. induction n as [| n IH]; intros c P done xy w Hcn HnP HE.
  - cbn [seq evacuate_cells]. apply wp_ret.
    assert (c = 8%nat) as -> by lia.
    rewrite skipn_entries_all, app_nil_r.
    eapply EVI_ext; [|exact HE]. intros b' c'. split; [auto|].
    intros [? | [_ ?]]; [assumption | lia].
  - cbn [seq evacuate_cells]. apply wp_bind. eapply wp_mono.
    { apply (evacuate_cell_wp P done xy w b bm0 c HE Hb Hbm0); [lia|].
      apply HnP. lia. }
    intros xy1 w1 HE1. cbn beta in HE1 |- *. eapply wp_mono.
    { refine (IH (S c) _ _ xy1 w1 _ _ HE1); [lia|].
      intros c' Hc' [HP | [_ ->]]; [|lia]. apply (HnP c'); [lia | exact HP]. }
    intros xy2 w2 HE2. cbn beta in HE2 |- *.
    rewrite (skipn_entries bm0 c) by lia.
    rewrite <- app_assoc in HE2. cbn [app] in HE2.
    eapply EVI_ext; [|exact HE2]. intros b' c'. split.
    + intros [[HP | [-> ->]] | [-> Hc']]; [auto | right | right];
        (split; [reflexivity | lia]).
    + intros [HP | [-> Hc']]; [auto|].
      destruct (Nat.eq_dec c' c) as [-> | Hne]; [auto|].
      right. split; [reflexivity | lia].
Qed.

(** The loop along the old chain. *)
Lemma evacuate_chain_wp fuel :
  forall Ld b Lr xy w,
    L = Ld ++ Lr -> chain (heap w0) b Lr ->
    EVI (fun b' c' => b' ∈ Ld /\ (c' < 8)%nat)
        (map forget (cells_of (heap w0) Ld)) xy w ->
    wp (evacuate_chain fuel (noldbuckets h0) b xy) w
       (fun _ w' =>
          exists xy',
            EVI (fun b' c' => b' ∈ L /\ (c' < 8)%nat)
                (map forget (cells_of (heap w0) L)) xy' w').
Proof.
  induction fuel as [| fuel IH]; intros Ld b Lr xy w EL C HE.
  - apply wp_fail. reflexivity.
  - cbn [evacuate_chain]. destruct C as [| b bm0 Lr Hb0 Hbm0 C].
    + cbn [Z.eqb]. apply wp_ret. rewrite app_nil_r in EL. subst Ld. eauto.
    + destruct (Z.eqb_spec b 0) as [|_]; [contradiction|].
      assert (HbL : b ∈ L).
      { rewrite EL. apply elem_of_app. right. apply list_elem_of_here. }
      assert (HbLd : b ∉ Ld).
      { destruct HL as (CL & _). pose proof (chain_NoDup _ _ _ CL) as ND.
        rewrite EL in ND. apply NoDup_app in ND as (_ & Hd & _).
        intros Hin. apply (Hd b Hin). apply list_elem_of_here. }
      apply wp_bind. rewrite cellIndexes_eq_seq. eapply wp_mono.
      { refine (evacuate_cells_wp b bm0 8 HbL Hbm0 O _ _ xy w _ _ HE);
          [reflexivity|].
        intros c' _ [Hin _]. contradiction. }
      intros xy1 w1 HE1. cbn beta in HE1 |- *.
      apply wp_bind, wp_bmap_overflow. intros bm1 Hbm1.
      assert (Eo : b_overflow bm1 = b_overflow bm0).
      { destruct HE1 as (G & dst & D & m & E & _).
        destruct (ev_old _ _ _ _ _ _ _ E b HbL)
          as (bm & bm0' & H1 & H2 & H3 & _).
        congruence. }
      rewrite Eo. apply (IH (Ld ++ [b]) _ Lr).
      * rewrite <- app_assoc. exact EL.
      * exact C.
      * rewrite cells_of_app, map_app.
        replace (map forget (cells_of (heap w0) [b]))
          with (skipn 0 (bucket_entries bm0)).
        -- eapply EVI_ext; [|exact HE1]. intros b' c'. split.
           ++ intros [[Hin Hc] | [-> Hc]]; (split; [|lia]);
                apply elem_of_app; [auto | right; apply list_elem_of_here].
           ++ intros [Hin Hc]. apply elem_of_app in Hin as [Hin | Hin];
                [auto|]. apply list_elem_of_singleton in Hin as ->.
              right. split; [reflexivity | lia].
        -- unfold cells_of. cbn [flat_map skipn]. rewrite Hbm0, app_nil_r.
           symmetry. apply bucket_entries_forget.
Qed.

(** An index of the new array is that of a destination, or its old bucket
    is another one than [j]. *)
Lemma ev_index_cases i :
  0 <= i < 2 ^ B h0 ->
  (exists s, active s /\ i = ev_index s) \/ i mod noldbuckets h0 <> j.
Proof.
  intros Hi. destruct (Inv_nold _ _ _ HA HT I0 Hg0) as (Hp & _ & E & _).
  destruct (Z.eq_dec (i mod noldbuckets h0) j) as [Em | Em]; [left | auto].
  pose proof (Z.div_mod i (noldbuckets h0) ltac:(lia)) as Hdm.
  pose proof (Z.mod_pos_bound i (noldbuckets h0) Hp) as Hmb.
  assert (Hq : 0 <= i / noldbuckets h0) by (apply Z.div_pos; lia).
  destruct (is_sameSizeGrow h0) eqn:Hss.
  - exists false. split; [intros; discriminate|]. cbn [ev_index].
    assert (i / noldbuckets h0 = 0) by nia. nia.
  - assert (i / noldbuckets h0 = 0 \/ i / noldbuckets h0 = 1) as [Hq0 | Hq1]
      by nia.
    + exists false. split; [intros; discriminate|]. cbn [ev_index]. nia.
    + exists true. split; [intros _; exact Hss|]. cbn [ev_index]. nia.
Qed.

Lemma ev_other_head i s :
  0 <= i < 2 ^ B h0 -> i mod noldbuckets h0 <> j -> active s ->
  newb h0 i <> ev_head s.
Proof.
  intros Hi Hm Ha E. rewrite ev_head_index in E.
  pose proof (bucketsize_min HA HT) as HS.
  apply newb_inj in E; [|lia]. subst i. apply Hm, ev_index_mod, Ha.
Qed.

Lemma ev_new_old i j' :
  0 <= i < 2 ^ B h0 -> 0 <= j' < noldbuckets h0 -> newb h0 i <> oldb h0 j'.
Proof.
  intros Hi Hj'.
  destruct (Inv_bucketsize_fits w0 h0 G0 _ HA HT I0 ev_buckets Hi)
    as (H1 & _).
  destruct (Inv_oldb_fits w0 h0 G0 j' HA HT I0 Hg0 Hj') as (_ & H4 & _).
  pose proof (bucketsize_min HA HT) as HS.
  unfold newb in *. nia.
Qed.

Lemma ev_old_inj j1 j2 : oldb h0 j1 = oldb h0 j2 -> j1 = j2.
Proof.
  pose proof (bucketsize_min HA HT) as HS. unfold oldb. intros E. nia.
Qed.

Lemma ev_old_reg j' :
  0 <= j' < noldbuckets h0 -> G0 !! oldb h0 j' = Some (oldb h0 j').
Proof.
  intros Hj'. destruct (inv_old _ _ _ I0 Hg0) as (_ & _ & _ & _ & _ & _ & Ho).
  destruct (Ho j' Hj') as (bm & _ & HG & _). exact HG.
Qed.

(** After the loops every cell of the old chain bears a mark, and the
    table is well formed again. *)
(** The new bucket of a hash whose old bucket is [j]. *)
Lemma bit_mod y k :
  0 <= k ->
  y mod 2 ^ (k + 1)
  = y mod 2 ^ k + (if Z.land y (2 ^ k) =? 0 then 0 else 2 ^ k).
Proof.
  intros Hk. rewrite flag_test by assumption.
  rewrite pow2_succ by assumption. rewrite (Z.mul_comm 2).
  rewrite Z.rem_mul_r by (pose proof (pow2_pos k Hk); lia).
  destruct (Z.testbit y k) eqn:Eb; cbn [negb].
  - apply Z.testbit_true in Eb; [|assumption]. rewrite Eb. lia.
  - apply Z.testbit_false in Eb; [|assumption]. rewrite Eb. lia.
Qed.

Lemma ev_lookup_index x :
  wrap x mod noldbuckets h0 = j ->
  active (useY_of h0 (noldbuckets h0) x) /\
  wrap x mod 2 ^ B h0 = ev_index (useY_of h0 (noldbuckets h0) x).
Proof.
  intros Ej.
  destruct (Inv_nold _ _ _ HA HT I0 Hg0) as (Hp & En & E2 & _).
  destruct (inv_old _ _ _ I0 Hg0) as (_ & _ & _ & HB & _).
  unfold useY_of, active. destruct (is_sameSizeGrow h0) eqn:Hss; cbn [negb andb].
  - split; [discriminate|]. cbn [ev_index]. rewrite <- Ej. f_equal. lia.
  - specialize (HB eq_refl).
    pose proof (bit_mod (wrap x) (B h0 - 1) ltac:(lia)) as Hb.
    replace (B h0 - 1 + 1) with (B h0) in Hb by lia.
    rewrite <- En in Hb. split; [reflexivity|].
    rewrite Hb, Ej.
    destruct (Z.land (wrap x) (noldbuckets h0) =? 0); cbn [negb ev_index]; lia.
Qed.

Section Evacuated.

Variables (w : world K V) (G : gmap Z Z) (dst : bool -> evacDst)
          (D : bool -> list Z) (m : bool -> list (Z * K * V)).
Hypothesis E : EV w G (fun b' c' => b' ∈ L /\ (c' < 8)%nat) (count h0)
                  dst D m.

Lemma ev_head_in_L : oldb h0 j ∈ L.
Proof.
  destruct HL as (C & _). destruct Hpend as (bm & Hbm & _).
  destruct (Inv_oldb_fits w0 h0 G0 j HA HT I0 Hg0 Hj) as (H3 & _).
  destruct (chain_head _ _ _ C ltac:(lia)) as (bm' & l' & -> & _).
  apply list_elem_of_here.
Qed.

Lemma ev_j_evacuated :
  exists bm, heap w !! oldb h0 j = Some bm /\ evacuated bm = true.
Proof.
  destruct (ev_old _ _ _ _ _ _ _ E _ ev_head_in_L)
    as (bm & bm0 & H1 & _ & _ & H4).
  exists bm. split; [assumption|]. apply is_mark_evacuated.
  destruct (H4 O ltac:(lia)) as (_ & _ & K3 & _). apply K3.
  split; [apply ev_head_in_L | lia].
Qed.

Lemma ev_frame_new i b l :
  0 <= i < 2 ^ B h0 -> i mod noldbuckets h0 <> j ->
  owned G0 (newb h0 i) l -> b ∈ l -> heap w !! b = heap w0 !! b.
Proof.
  intros Hi Hm Ho Hb.
  apply (ev_frame _ _ _ _ _ _ _ E b (newb h0 i)); [apply Ho, Hb | |].
  - apply ev_new_old; assumption.
  - intros s Ha. apply ev_other_head; assumption.
Qed.

Lemma ev_frame_old j' b l :
  0 <= j' < noldbuckets h0 -> j' <> j ->
  owned G0 (oldb h0 j') l -> b ∈ l -> heap w !! b = heap w0 !! b.
Proof.
  intros Hj' Hne Ho Hb.
  apply (ev_frame _ _ _ _ _ _ _ E b (oldb h0 j')); [apply Ho, Hb | |].
  - intros E'. apply Hne, ev_old_inj, E'.
  - intros s Ha E'. symmetry in E'. rewrite ev_head_index in E'.
    eapply ev_new_old; [|exact Hj' | exact E'].
    apply ev_index_range. assumption.
Qed.

Lemma ev_frame_old_head j' :
  0 <= j' < noldbuckets h0 -> j' <> j ->
  heap w !! oldb h0 j' = heap w0 !! oldb h0 j'.
Proof.
  intros Hj' Hne.
  apply (ev_frame_old j' (oldb h0 j') [oldb h0 j']); try assumption.
  - intros b Hb. apply list_elem_of_singleton in Hb as ->.
    apply ev_old_reg. assumption.
  - apply list_elem_of_here.
Qed.

Lemma EV_Inv : exists h, hdr w = Some h /\ same_table h0 h /\ Inv w h G.
Proof.
  destruct (ev_hdr _ _ _ _ _ _ _ E) as (h & Hh & HS & HP).
  exists h. split; [assumption|]. split; [assumption|].
  destruct (same_table_fields h0 h HS) as (Eg & Ess & En & Enb & Eob).
  pose proof HS as (EB & Eb & Eo & Ef & Ec & Eh0 & Ene).
  pose proof (inv_brk _ _ _ I0) as Hbrk0.
  pose proof (ev_brk _ _ _ _ _ _ _ E) as Hbrk.
  destruct ev_j_evacuated as (bmj & Hbmj & Evj).
  constructor.
  - assumption.
  - lia.
  - apply (ev_heap _ _ _ _ _ _ _ E).
  - apply (ev_G _ _ _ _ _ _ _ E).
  - rewrite EB. apply (inv_B _ _ _ I0).
  - rewrite Ec. symmetry. apply (ev_count _ _ _ _ _ _ _ E).
  - rewrite Eb. intros E0. exfalso. exact (ev_buckets E0).
  - rewrite Eb, EB. intros Hb.
    destruct (inv_arr _ _ _ I0 Hb) as [H1 H2]. lia.
  - rewrite Eb, EB. intros Hb i Hi. rewrite Enb.
    destruct (ev_index_cases i Hi) as [(s & Ha & ->) | Hm].
    + destruct (dest_ok_final _ _ _ _ _ _ (ev_dst _ _ _ _ _ _ _ E s Ha))
        as (Cok & _).
      rewrite <- ev_head_index. exists (D s). split; [exact Cok|].
      intros Hpe. exfalso. apply (pending_same_table _ _ _ _ HS) in Hpe.
      destruct Hpe as (_ & bm & Hbm & Ev).
      rewrite ev_index_mod in Hbm by assumption. congruence.
    + destruct (inv_new _ _ _ I0 Hb i Hi) as (l & Cl & Hf).
      pose proof Cl as (_ & Ho & _).
      exists l. split.
      * eapply chain_ok_frame; [exact Cl | |apply (ev_G0 _ _ _ _ _ _ _ E)].
        intros b Hbl. eapply ev_frame_new; eassumption.
      * intros Hpe. apply (pending_same_table _ _ _ _ HS) in Hpe.
        assert (Hj' : 0 <= i mod noldbuckets h0 < noldbuckets h0).
        { apply Z.mod_pos_bound.
          destruct (Inv_nold _ _ _ HA HT I0 Hg0) as (Hp & _). exact Hp. }
        assert (Hpe0 : pending (heap w0) h0 i).
        { destruct Hpe as (Hg & bm & Hbm & Ev). split; [assumption|].
          exists bm. split; [|assumption].
          rewrite <- (ev_frame_old_head _ Hj' Hm). exact Hbm. }
        destruct (Hf Hpe0) as (bm & Hbm & Hfr). exists bm.
        split; [|exact Hfr].
        rewrite <- Hbm. eapply (ev_frame_new i _ l); try eassumption.
        destruct Cl as (C & _).
        destruct (Inv_bucketsize_fits w0 h0 G0 _ HA HT I0 Hb Hi) as (H1 & _).
        destruct (chain_head _ _ _ C ltac:(lia)) as (bm' & l' & -> & _).
        apply list_elem_of_here.
  - rewrite Eg. intros _.
    destruct (inv_old _ _ _ I0 Hg0) as (O1 & O2 & O3 & O4 & O5 & O6 & O7).
    rewrite Eb, Eo, En, Ess, EB, Ene.
    split; [assumption|]. split; [assumption|]. split; [assumption|].
    split; [assumption|]. split; [assumption|]. split.
    + intros j' bm Hj' Hbm. rewrite Eob in Hbm.
      destruct (Z.eq_dec j' j) as [-> | Hne]; [congruence|].
      rewrite ev_frame_old_head in Hbm by (assumption || lia). eauto.
    + intros j' Hj'. rewrite Eob.
      destruct (Z.eq_dec j' j) as [-> | Hne].
      * exists bmj. split; [assumption|]. split.
        -- apply (ev_G0 _ _ _ _ _ _ _ E). apply ev_old_reg. assumption.
        -- intros Ev. congruence.
      * destruct (O7 j' Hj') as (bm & Hbm & HG & Hch).
        exists bm. split; [rewrite ev_frame_old_head; assumption|].
        split; [apply (ev_G0 _ _ _ _ _ _ _ E); assumption|].
        intros Ev. destruct (Hch Ev) as (l & Cl). exists l.
        pose proof Cl as (_ & Ho & _).
        eapply chain_ok_frame; [exact Cl | |apply (ev_G0 _ _ _ _ _ _ _ E)].
        intros b Hbl. eapply ev_frame_old; eassumption.
  - rewrite Eg, Hg0. discriminate.
  - exact HP.
Qed.

(** Every entry a lookup found before the evacuation of old bucket [j] is
    found after it. *)
Lemma EV_found h key v :
  tracked h0 (noldbuckets h0) (map forget (cells_of (heap w0) L))
          (m false) (m true) ->
  hdr w = Some h -> same_table h0 h ->
  key_equal t key key = true ->
  found w0 h0 key v -> found w h key v.
Proof.
  intros Tr Hh HS Hrefl (x & a & l & b & c & Hx & Hlh & Hch & Hfm).
  destruct (same_table_fields h0 h HS) as (Eg & Ess & En & Enb & Eob).
  pose proof HS as (EB & Eb & Eo & Ef & Ec & Eh0 & Ene).
  destruct (Inv_nold _ _ _ HA HT I0 Hg0) as (Hp & _).
  pose proof (pow2_pos (B h0) (inv_B _ _ _ I0)) as HpB.
  pose proof (Z.mod_pos_bound (wrap x) (2 ^ B h0) HpB) as Hi.
  pose proof (Z.mod_pos_bound (wrap x) (noldbuckets h0) Hp) as Hjm.
  pose proof (mod_nold _ _ _ (wrap x) HA HT I0 Hg0) as Hmm.
  destruct ev_j_evacuated as (bmj & Hbmj & Evj).
  destruct Hlh as [[Hpe ->] | [Hnp ->]].
  - destruct (Z.eq_dec (wrap x mod noldbuckets h0) j) as [Ej | Ej].
    + rewrite Ej in Hch.
      assert (l = L) as -> by (eapply chain_det; [exact Hch | apply HL]).
      pose proof (first_match_map key (tophash (wrap x)) snd
                    (cells_of (heap w0) L)) as Hm.
      change (map (fun c0 : Z * K * (Z * nat * V) => (fst c0, snd (snd c0)))
                  (cells_of (heap w0) L))
        with (map forget (cells_of (heap w0) L)) in Hm.
      rewrite Hfm in Hm. cbn [option_map snd] in Hm.
      destruct (Tr key (tophash (wrap x)) (proj1 (tophash_range (wrap x))))
        as [_ Tr2].
      specialize (Tr2 v x Hm Hrefl Hx).
      destruct (ev_lookup_index x Ej) as [Ha Ei].
      set (s := useY_of h0 (noldbuckets h0) x) in *.
      assert (Hms : first_match key (tophash (wrap x)) (m s) = Some v)
        by (destruct s; exact Tr2).
      destruct (dest_ok_final _ _ _ _ _ _ (ev_dst _ _ _ _ _ _ _ E s Ha))
        as ((Cd & _) & pad & Epad & _).
      pose proof (first_match_map key (tophash (wrap x)) snd
                    (cells_of (heap w) (D s))) as Hm'.
      change (map (fun c0 : Z * K * (Z * nat * V) => (fst c0, snd (snd c0)))
                  (cells_of (heap w) (D s)))
        with (map forget (cells_of (heap w) (D s))) in Hm'.
      rewrite Epad, (first_match_app_Some _ _ _ _ _ Hms) in Hm'.
      destruct (first_match key (tophash (wrap x)) (cells_of (heap w) (D s)))
        as [[[b' c'] v'] |] eqn:Ef'; [|discriminate].
      cbn [option_map snd] in Hm'. injection Hm' as <-.
      exists x, (ev_head s), (D s), b', c'.
      split; [rewrite Eh0; exact Hx|]. split; [|split; assumption].
      right. rewrite EB. split.
      * intros Hpe'. apply (pending_same_table _ _ _ _ HS) in Hpe'.
        destruct Hpe' as (_ & bm & Hbm & Ev).
        rewrite Hmm, Ej in Hbm. congruence.
      * rewrite Enb, Ei. apply ev_head_index.
    + destruct Hpe as (_ & bm & Hbm & Ev). rewrite Hmm in Hbm.
      destruct (inv_old _ _ _ I0 Hg0) as (_ & _ & _ & _ & _ & _ & O7).
      destruct (O7 _ Hjm) as (bm' & Hbm' & _ & Hch').
      assert (bm' = bm) as -> by congruence.
      destruct (Hch' Ev) as (l' & Cl).
      assert (l' = l) as -> by (eapply chain_det; [apply Cl | exact Hch]).
      pose proof Cl as (_ & Ho & _).
      assert (Hfr : forall b0, b0 ∈ l -> heap w !! b0 = heap w0 !! b0).
      { intros b0 Hb0. eapply ev_frame_old; eassumption. }
      exists x, (oldb h0 (wrap x mod noldbuckets h0)), l, b, c.
      split; [rewrite Eh0; exact Hx|]. split; [|split].
      * left. rewrite EB, En, Eob. split; [|reflexivity].
        apply (pending_same_table _ _ _ _ HS). split; [assumption|].
        exists bm. rewrite Hmm. split; [|assumption].
        rewrite ev_frame_old_head; assumption.
      * eapply chain_same; [exact Hch|]. exact Hfr.
      * rewrite (cells_of_ext (heap w0) (heap w) l Hfr). exact Hfm.
  - assert (Em : (wrap x mod 2 ^ B h0) mod noldbuckets h0 <> j).
    { intros Em. apply Hnp. split; [assumption|].
      rewrite Em. exact Hpend. }
    destruct (inv_new _ _ _ I0 ev_buckets _ Hi) as (l' & Cl & _).
    assert (l' = l) as -> by (eapply chain_det; [apply Cl | exact Hch]).
    pose proof Cl as (_ & Ho & _).
    assert (Hfr : forall b0, b0 ∈ l -> heap w !! b0 = heap w0 !! b0).
    { intros b0 Hb0. eapply ev_frame_new; eassumption. }
    exists x, (newb h0 (wrap x mod 2 ^ B h0)), l, b, c.
    split; [rewrite Eh0; exact Hx|]. split; [|split].
    + right. rewrite EB, Enb. split; [|reflexivity].
      intros Hpe'. apply (pending_same_table _ _ _ _ HS) in Hpe'.
      apply Hnp. destruct Hpe' as (_ & bm & Hbm & Ev).
      split; [assumption|]. exists bm. split; [|assumption].
      rewrite <- Hbm. symmetry. apply ev_frame_old_head; [|assumption].
      apply Z.mod_pos_bound. assumption.
    + eapply chain_same; [exact Hch|]. exact Hfr.
    + rewrite (cells_of_ext (heap w0) (heap w) l Hfr). exact Hfm.
Qed.


End Evacuated.

End Evacuation.


(** ** The evacuation of one old bucket *)

(** The bucket at [a] bears an evacuation mark. *)
Definition evacuated_at (H : gmap Z (bmap K V)) (a : Z) : Prop :=
  exists bm, H !! a = Some bm /\ evacuated bm = true.

(** The two destinations [evacuate] starts from for old bucket [j]. *)
Definition evac_start (h : hmap) (j : Z) : evacDst * evacDst :=
  (EvacDst (newb h j) 0,
   if is_sameSizeGrow h then EvacDst 0 0
   else EvacDst (newb h (j + noldbuckets h)) 0).

Lemma evacuate_chain_spec w h G j L fuel :
  ArchOK -> TypeOK -> Inv w h G -> growing h = true ->
  0 <= j < noldbuckets h ->
  chain_ok (heap w) G (oldb h j) L ->
  (exists bm, heap w !! oldb h j = Some bm /\ evacuated bm = false) ->
  wp (evacuate_chain fuel (noldbuckets h) (oldb h j) (evac_start h j)) w
     (fun _ w' =>
        exists h' G',
          hdr w' = Some h' /\ same_table h h' /\ Inv w' h' G' /\
          brk w <= brk w' /\
          evacuated_at (heap w') (oldb h j) /\
          (forall j', 0 <= j' < noldbuckets h -> j' <> j ->
                      heap w' !! oldb h j' = heap w !! oldb h j') /\
          (forall key v, key_equal t key key = true ->
                         found w h key v -> found w' h' key v)).
Proof.
  intros HA HT I Hg Hj HL Hpend.
  eapply wp_mono.
  - eapply evacuate_chain_wp
      with (w0 := w) (h0 := h) (G0 := G) (j := j) (L := L)
           (Ld := []) (Lr := L); try eassumption.
    + reflexivity.
    + apply HL.
    + eapply EVI_ext with (P := fun _ _ => False); try eassumption.
      * intros b c. split; [intros [] | intros [Hb _]].
        apply elem_of_nil in Hb. exact Hb.
      * eexists G, _, _, _. split; [|split].
        -- eapply EV_init with (j := j); eassumption.
        -- unfold evac_start, ev_head. reflexivity.
        -- split; [apply tracked_nil | apply placed_nil].
  - intros _ w' (xy' & G' & dst & D & m & E & _ & Tr & _). cbn beta in E.
    assert (HI' : exists h', hdr w' = Some h' /\ same_table h h' /\
                             Inv w' h' G').
    { eapply EV_Inv with (w0 := w) (j := j) (L := L) (dst := dst) (D := D)
                         (m := m); eassumption. }
    destruct HI' as (h' & Hh' & HS & I').
    exists h', G'. split; [assumption|]. split; [assumption|].
    split; [assumption|]. split; [apply (ev_brk _ _ _ _ _ _ _ _ _ _ _ _ E)|].
    split; [|split].
    + eapply ev_j_evacuated with (j := j) (w0 := w) (L := L); eassumption.
    + intros j' Hj' Hne.
      eapply ev_frame_old_head with (j := j) (L := L); eassumption.
    + intros key v Hr Hf.
      eapply EV_found with (w0 := w) (j := j) (L := L); eassumption.
Qed.



(** ** Tables that differ in the header only *)

(** The fields that decide where a lookup goes. *)
Definition same_shape (h h' : hmap) : Prop :=
  B h' = B h /\ buckets h' = buckets h /\ oldbuckets h' = oldbuckets h /\
  hash0 h' = hash0 h /\ is_sameSizeGrow h' = is_sameSizeGrow h.

Lemma same_shape_refl h : same_shape h h.
Proof. repeat split. Qed.

Lemma same_shape_trans h1 h2 h3 :
  same_shape h1 h2 -> same_shape h2 h3 -> same_shape h1 h3.
Proof.
  intros (A1 & A2 & A3 & A4 & A5) (B1 & B2 & B3 & B4 & B5).
  repeat split; congruence.
Qed.

Lemma same_table_shape h h' : same_table h h' -> same_shape h h'.
Proof.
  intros HS. destruct (same_table_fields h h' HS) as (_ & Es & _).
  destruct HS as (EB & Eb & Eo & _ & _ & Eh & _). repeat split; assumption.
Qed.

Lemma shape_fields h h' :
  same_shape h h' ->
  growing h' = growing h /\ noldbuckets h' = noldbuckets h /\
  (forall i, newb h' i = newb h i) /\ (forall i, oldb h' i = oldb h i).
Proof.
  intros (EB & Eb & Eo & _ & Es).
  split; [unfold growing; rewrite Eo; reflexivity|].
  split; [unfold noldbuckets; rewrite Es, EB; reflexivity|].
  split; intros i; [unfold newb; rewrite Eb | unfold oldb; rewrite Eo];
    reflexivity.
Qed.

Lemma pending_shape H h h' i :
  same_shape h h' -> pending H h' i <-> pending H h i.
Proof.
  intros HS. destruct (shape_fields h h' HS) as (Eg & En & _ & Eo).
  unfold pending. rewrite Eg, En, Eo. reflexivity.
Qed.

Lemma lookup_head_shape H h h' hash a :
  same_shape h h' -> lookup_head H h hash a -> lookup_head H h' hash a.
Proof.
  intros HS Hl. destruct (shape_fields h h' HS) as (Eg & En & Enb & Eob).
  pose proof HS as (EB & _).
  unfold lookup_head in *. rewrite EB, En, Enb, Eob.
  destruct Hl as [[Hp ->] | [Hp ->]]; [left | right]; split;
    try reflexivity.
  - apply (pending_shape H h h' _ HS). exact Hp.
  - intros Hp'. apply Hp. apply (pending_shape H h h' _ HS) in Hp'.
    exact Hp'.
Qed.

Lemma found_shape w w' h h' key v :
  same_shape h h' -> heap w' = heap w ->
  found w h key v -> found w' h' key v.
Proof.
  intros HS EH (x & a & l & b & c & Hx & Hl & Hc & Hf).
  pose proof HS as (_ & _ & _ & Eh & _).
  exists x, a, l, b, c. rewrite EH, Eh.
  split; [assumption|]. split; [|split; assumption].
  eapply lookup_head_shape; eassumption.
Qed.

(** The fields the invariant reads. *)
Definition layout (h h' : hmap) : Prop :=
  same_shape h h' /\ count h' = count h /\ nevacuate h' = nevacuate h /\
  pool_cursor h' = pool_cursor h.

Lemma layout_refl h : layout h h.
Proof. split; [apply same_shape_refl | repeat split]. Qed.

Lemma layout_trans h1 h2 h3 : layout h1 h2 -> layout h2 h3 -> layout h1 h3.
Proof.
  intros (A1 & A2 & A3 & A4) (B1 & B2 & B3 & B4).
  split; [eapply same_shape_trans; eassumption|].
  repeat split; congruence.
Qed.

Lemma Inv_layout w h G w' h' :
  Inv w h G -> hdr w' = Some h' -> heap w' = heap w -> brk w' = brk w ->
  layout h h' -> Inv w' h' G.
Proof.
  intros I Hh EH Eb (HS & Ec & Ene & Ep).
  destruct (shape_fields h h' HS) as (Eg & En & Enb & Eob).
  pose proof HS as (EB & Ebk & Eo & Eh0 & Ess).
  constructor; rewrite ?EH, ?Eb, ?EB, ?Ebk, ?Eo, ?Ec, ?Ene, ?Ep, ?Eg, ?En,
                 ?Ess.
  - assumption.
  - apply (inv_brk _ _ _ I).
  - apply (inv_heap _ _ _ I).
  - apply (inv_G _ _ _ I).
  - apply (inv_B _ _ _ I).
  - apply (inv_count _ _ _ I).
  - apply (inv_nil _ _ _ I).
  - apply (inv_arr _ _ _ I).
  - intros Hb i Hi. destruct (inv_new _ _ _ I Hb i Hi) as (l & Cl & Hf).
    exists l. rewrite Enb. split; [exact Cl|]. intros Hp. apply Hf.
    apply (pending_shape _ h h' i HS). exact Hp.
  - intros Hg. destruct (inv_old _ _ _ I Hg) as (O1 & O2 & O3 & O4 & O5 & O6 & O7).
    split; [assumption|]. split; [assumption|]. split; [assumption|].
    split; [assumption|]. split; [assumption|]. split.
    + intros j bm. rewrite Eob. apply O6.
    + intros j Hj. rewrite Eob. apply O7. exact Hj.
  - apply (inv_idle _ _ _ I).
  - apply (inv_pool _ _ _ I).
Qed.

(** ** Consequences of the invariant for a growing table *)

Lemma Inv_new_old w h G i j :
  ArchOK -> TypeOK -> Inv w h G -> growing h = true ->
  0 <= i < 2 ^ B h -> 0 <= j < noldbuckets h -> newb h i <> oldb h j.
Proof.
  intros HA HT I Hg Hi Hj.
  destruct (inv_old _ _ _ I Hg) as (Hb & _).
  destruct (Inv_bucketsize_fits w h G _ HA HT I Hb Hi) as (H1 & _).
  destruct (Inv_oldb_fits w h G j HA HT I Hg Hj) as (_ & H4 & _).
  pose proof (bucketsize_min HA HT) as HS.
  unfold newb in *. nia.
Qed.

Lemma Inv_old_reg w h G j :
  Inv w h G -> growing h = true -> 0 <= j < noldbuckets h ->
  G !! oldb h j = Some (oldb h j).
Proof.
  intros I Hg Hj. destruct (inv_old _ _ _ I Hg) as (_ & _ & _ & _ & _ & _ & Ho).
  destruct (Ho j Hj) as (bm & _ & HG & _). exact HG.
Qed.

Lemma Inv_new_reg w h G i :
  ArchOK -> TypeOK -> Inv w h G -> buckets h <> 0 -> 0 <= i < 2 ^ B h ->
  G !! newb h i = Some (newb h i).
Proof.
  intros HA HT I Hb Hi. destruct (inv_new _ _ _ I Hb i Hi) as (l & Cl & _).
  eapply chain_ok_head; [exact Cl|].
  destruct (Inv_bucketsize_fits w h G _ HA HT I Hb Hi) as (H1 & _). lia.
Qed.

Lemma pool_at_registry H H' G p n :
  pool_at H G p n -> (forall a, G !! a = None -> H' !! a = H !! a) ->
  pool_at H' G p n.
Proof.
  intros HP Hsame. eapply pool_at_frame; [exact HP|]. intros i Hi.
  destruct (pool_at_lookup _ _ _ _ i HP Hi) as [HG _]. auto.
Qed.

Lemma mod_index_range w h G x :
  Inv w h G -> 0 <= x mod 2 ^ B h < 2 ^ B h.
Proof.
  intros I. apply Z.mod_pos_bound. apply pow2_pos. apply (inv_B _ _ _ I).
Qed.

Lemma mod_nold_range w h G x :
  ArchOK -> TypeOK -> Inv w h G -> growing h = true ->
  0 <= x mod noldbuckets h < noldbuckets h.
Proof.
  intros HA HT I Hg. apply Z.mod_pos_bound.
  destruct (Inv_nold _ _ _ HA HT I Hg) as (Hp & _). exact Hp.
Qed.


(** ** Updates confined to the buckets of one chain

    The buckets a step writes, and the buckets it adds to the table, are
    registered under one head [g0]: a bucket of the current array that is
    not pending, or an evacuated bucket of the old array. *)

Section Update.
Variables (w w' : world K V) (h h' : hmap) (G G' : gmap Z Z) (g0 : Z).
Hypothesis HA : ArchOK.
Hypothesis HT : TypeOK.
Hypothesis I : Inv w h G.
Hypothesis Hb : buckets h <> 0.
Hypothesis HS : same_shape h h'.
Hypothesis HG : forall b g, G !! b = Some g -> G' !! b = Some g.
Hypothesis Hframe : forall a g, G !! a = Some g -> g <> g0 ->
                                heap w' !! a = heap w !! a.
Hypothesis Hnew0 : forall i, 0 <= i < 2 ^ B h -> newb h i = g0 ->
                             ~ pending (heap w) h i.
Hypothesis Hold0 : forall j, growing h = true -> 0 <= j < noldbuckets h ->
                             oldb h j = g0 ->
                             evacuated_at (heap w) g0 /\
                             evacuated_at (heap w') g0.

Lemma upd_chain_frame a l :
  a <> g0 -> chain_ok (heap w) G a l -> chain_ok (heap w') G' a l.
Proof.
  intros Ha Cl. pose proof Cl as (_ & Ho & _).
  eapply chain_ok_frame; [exact Cl | | exact HG].
  intros b Hbl. eapply Hframe; [apply Ho; exact Hbl | exact Ha].
Qed.

Lemma upd_old_head j :
  growing h = true -> 0 <= j < noldbuckets h -> oldb h j <> g0 ->
  heap w' !! oldb h j = heap w !! oldb h j.
Proof.
  intros Hg Hj Hne. eapply Hframe; [|exact Hne].
  eapply Inv_old_reg; eassumption.
Qed.

Lemma upd_pending i :
  0 <= i < 2 ^ B h -> pending (heap w') h i -> pending (heap w) h i.
Proof.
  intros Hi (Hg & bm & Hbm & Ev). split; [assumption|].
  pose proof (mod_nold_range _ _ _ i HA HT I Hg) as Hj.
  destruct (Z.eq_dec (oldb h (i mod noldbuckets h)) g0) as [E0 | E0].
  - destruct (Hold0 _ Hg Hj E0) as (_ & bm' & Hbm' & Ev').
    rewrite E0 in Hbm. congruence.
  - exists bm. split; [|assumption].
    rewrite <- (upd_old_head _ Hg Hj E0). exact Hbm.
Qed.

Lemma upd_pending_back i :
  0 <= i < 2 ^ B h -> pending (heap w) h i -> pending (heap w') h i.
Proof.
  intros Hi (Hg & bm & Hbm & Ev). split; [assumption|].
  pose proof (mod_nold_range _ _ _ i HA HT I Hg) as Hj.
  destruct (Z.eq_dec (oldb h (i mod noldbuckets h)) g0) as [E0 | E0].
  - destruct (Hold0 _ Hg Hj E0) as ((bm' & Hbm' & Ev') & _).
    rewrite E0 in Hbm. congruence.
  - exists bm. split; [|assumption].
    rewrite (upd_old_head _ Hg Hj E0). exact Hbm.
Qed.

(** The invariant after the update. *)
Lemma Inv_update :
  hdr w' = Some h' -> nevacuate h' = nevacuate h ->
  brk w <= brk w' <= maxAlloc ->
  (forall a bm, heap w' !! a = Some bm ->
                0 < a /\ a + bucketsize t <= brk w') ->
  (forall b g, G' !! b = Some g -> is_Some (heap w' !! b)) ->
  count h' = total_occ (heap w') G' ->
  (exists n, pool_at (heap w') G' (pool_cursor h') n) ->
  (forall i, 0 <= i < 2 ^ B h -> newb h i = g0 ->
             exists l', chain_ok (heap w') G' g0 l') ->
  Inv w' h' G'.
Proof.
  intros Hh Ene Hbrk Hheap HG' Hcnt Hpool Hch.
  destruct (shape_fields h h' HS) as (Eg & En & Enb & Eob).
  pose proof HS as (EB & Ebk & Eo & Eh0 & Ess).
  pose proof (inv_brk _ _ _ I) as Hbrk0.
  constructor; rewrite ?EB, ?Ebk, ?Eo, ?Ene, ?Eg, ?En, ?Ess.
  - assumption.
  - lia.
  - assumption.
  - assumption.
  - apply (inv_B _ _ _ I).
  - assumption.
  - intros E0. contradiction.
  - intros _. destruct (inv_arr _ _ _ I Hb) as [H1 H2]. lia.
  - intros _ i Hi. rewrite Enb.
    destruct (Z.eq_dec (newb h i) g0) as [E0 | E0].
    + destruct (Hch i Hi E0) as (l' & Cl). exists l'. rewrite E0.
      split; [exact Cl|]. intros Hp. exfalso.
      apply (pending_shape _ h h' i HS) in Hp.
      apply (Hnew0 i Hi E0). apply upd_pending; assumption.
    + destruct (inv_new _ _ _ I Hb i Hi) as (l & Cl & Hf).
      exists l. split; [apply upd_chain_frame; assumption|].
      intros Hp. apply (pending_shape _ h h' i HS) in Hp.
      destruct (Hf (upd_pending i Hi Hp)) as (bm & Hbm & Hfr).
      exists bm. split; [|exact Hfr]. rewrite <- Hbm.
      eapply Hframe; [|exact E0].
      eapply Inv_new_reg; eassumption.
  - intros Hg.
    destruct (inv_old _ _ _ I Hg) as (O1 & O2 & O3 & O4 & O5 & O6 & O7).
    split; [assumption|]. split; [assumption|]. split; [assumption|].
    split; [assumption|]. split; [assumption|]. split.
    + intros j bm Hj Hbm. rewrite Eob in Hbm.
      assert (Hj' : 0 <= j < noldbuckets h) by lia.
      destruct (Z.eq_dec (oldb h j) g0) as [E0 | E0].
      * destruct (Hold0 _ Hg Hj' E0) as (_ & bm' & Hbm' & Ev').
        rewrite E0 in Hbm. congruence.
      * rewrite (upd_old_head _ Hg Hj' E0) in Hbm. eauto.
    + intros j Hj. rewrite Eob.
      destruct (Z.eq_dec (oldb h j) g0) as [E0 | E0].
      * destruct (Hold0 _ Hg Hj E0) as (_ & bm' & Hbm' & Ev').
        exists bm'. rewrite E0. split; [assumption|]. split.
        -- apply HG. rewrite <- E0. eapply Inv_old_reg; eassumption.
        -- intros Ev. congruence.
      * destruct (O7 j Hj) as (bm & Hbm & HGo & Hc).
        exists bm. split; [rewrite (upd_old_head _ Hg Hj E0); exact Hbm|].
        split; [apply HG; exact HGo|].
        intros Ev. destruct (Hc Ev) as (l & Cl). exists l.
        apply upd_chain_frame; assumption.
  - apply (inv_idle _ _ _ I).
  - assumption.
Qed.

(** A lookup that found an entry finds it after the update, if the
    update kept it in the chain of [g0]. *)
Lemma found_update key v :
  found w h key v ->
  (forall x l b c,
     hasher t key (hash0 h) 0 = Some x ->
     newb h (wrap x mod 2 ^ B h) = g0 ->
     chain (heap w) g0 l ->
     first_match key (tophash (wrap x)) (cells_of (heap w) l) = Some (b, c, v) ->
     exists l' b' c',
       chain (heap w') g0 l' /\
       first_match key (tophash (wrap x)) (cells_of (heap w') l')
       = Some (b', c', v)) ->
  found w' h' key v.
Proof.
  intros (x & a & l & b & c & Hx & Hl & Hc & Hf) Hsame.
  destruct (shape_fields h h' HS) as (Eg & En & Enb & Eob).
  pose proof HS as (EB & Ebk & Eo & Eh0 & Ess).
  pose proof (mod_index_range _ _ _ (wrap x) I) as Hi.
  assert (Hfr : forall a0 l0, a0 <> g0 -> chain_ok (heap w) G a0 l0 ->
                 chain (heap w) a0 l ->
                 chain (heap w') a0 l /\
                 cells_of (heap w') l = cells_of (heap w) l).
  { intros a0 l0 Ha0 Cl Hc0.
    assert (l0 = l) as -> by (eapply chain_det; [apply Cl | exact Hc0]).
    pose proof Cl as (_ & Ho & _).
    assert (Hfr : forall b0, b0 ∈ l -> heap w' !! b0 = heap w !! b0).
    { intros b0 Hb0. eapply Hframe; [apply Ho; exact Hb0 | exact Ha0]. }
    split; [eapply chain_same; eassumption|].
    apply cells_of_ext. exact Hfr. }
  destruct Hl as [[Hp ->] | [Hp ->]].
  - pose proof Hp as (Hg & bm & Hbm & Ev).
    pose proof (mod_nold_range _ _ _ (wrap x) HA HT I Hg) as Hj.
    rewrite (mod_nold _ _ _ (wrap x) HA HT I Hg) in Hbm.
    assert (E0 : oldb h (wrap x mod noldbuckets h) <> g0).
    { intros E0. destruct (Hold0 _ Hg Hj E0) as ((bm' & Hbm' & Ev') & _).
      rewrite E0 in Hbm. congruence. }
    destruct (inv_old _ _ _ I Hg) as (_ & _ & _ & _ & _ & _ & O7).
    destruct (O7 _ Hj) as (bm' & Hbm' & _ & Hch').
    assert (bm' = bm) as -> by congruence.
    destruct (Hch' Ev) as (l0 & Cl).
    destruct (Hfr _ _ E0 Cl Hc) as [Hc' Ec].
    exists x, (oldb h (wrap x mod noldbuckets h)), l, b, c.
    rewrite Eh0, Ec. split; [assumption|]. split; [|split; assumption].
    eapply lookup_head_shape; [exact HS|]. left. split; [|reflexivity].
    apply upd_pending_back; assumption.
  - assert (Hnp' : ~ pending (heap w') h (wrap x mod 2 ^ B h)).
    { intros Hp'. apply Hp. apply upd_pending; assumption. }
    destruct (Z.eq_dec (newb h (wrap x mod 2 ^ B h)) g0) as [E0 | E0].
    + rewrite E0 in Hc.
      destruct (Hsame x l b c Hx E0 Hc Hf) as (l' & b' & c' & Hc' & Hf').
      exists x, g0, l', b', c'. rewrite Eh0.
      split; [assumption|]. split; [|split; assumption].
      eapply lookup_head_shape; [exact HS|]. right. split; [exact Hnp'|].
      symmetry. exact E0.
    + destruct (inv_new _ _ _ I Hb _ Hi) as (l0 & Cl & _).
      destruct (Hfr _ _ E0 Cl Hc) as [Hc' Ec].
      exists x, (newb h (wrap x mod 2 ^ B h)), l, b, c.
      rewrite Eh0, Ec. split; [assumption|]. split; [|split; assumption].
      eapply lookup_head_shape; [exact HS|]. right. split; [exact Hnp'|].
      reflexivity.
Qed.

End Update.


(** ** Advancing the evacuation mark *)

(** The flags as bits. *)
Lemma land_flag f k : 0 <= k -> Z.land f (2 ^ k) = 0 <-> Z.testbit f k = false.
Proof.
  intros Hk. rewrite land_pow2 by assumption. pose proof (pow2_pos k Hk).
  destruct (Z.testbit f k); split; intros; try reflexivity; try discriminate;
    lia.
Qed.

Lemma testbit_ldiff_pow2 f i k :
  0 <= i -> 0 <= k ->
  Z.testbit (Z.ldiff f (2 ^ k)) i = Z.testbit f i && negb (k =? i).
Proof.
  intros Hi Hk. rewrite Z.ldiff_spec, Z.pow2_bits_eqb by assumption.
  reflexivity.
Qed.

Lemma testbit_lor_pow2 f i k :
  0 <= i -> 0 <= k ->
  Z.testbit (Z.lor f (2 ^ k)) i = Z.testbit f i || (k =? i).
Proof.
  intros Hi Hk. rewrite Z.lor_spec, Z.pow2_bits_eqb by assumption.
  reflexivity.
Qed.

Lemma testbit_lxor_pow2 f i k :
  0 <= i -> 0 <= k ->
  Z.testbit (Z.lxor f (2 ^ k)) i = xorb (Z.testbit f i) (k =? i).
Proof.
  intros Hi Hk. rewrite Z.lxor_spec, Z.pow2_bits_eqb by assumption.
  reflexivity.
Qed.

(** Whether a writer is at work. *)
Definition writing (h : hmap) : bool := Z.testbit (flags h) 2.

Lemma writing_flag h : Z.land (flags h) hashWriting = 0 <-> writing h = false.
Proof. apply (land_flag (flags h) 2). lia. Qed.

Lemma writing_test h : (Z.land (flags h) hashWriting =? 0) = negb (writing h).
Proof. apply (flag_test (flags h) 2). lia. Qed.

(** The header when the last old bucket has been evacuated. *)
Definition end_grow (h : hmap) : hmap :=
  let h1 := set_oldbuckets 0 h in
  let h2 := match extra h1 with
            | Some e => set_extra (Some (set_oldoverflow None e)) h1
            | None => h1
            end in
  set_flags (Z.ldiff (flags h2) sameSizeGrow) h2.

(** The header when the mark has advanced to [k]. *)
Definition advanced (h : hmap) (k : Z) : hmap :=
  if k =? noldbuckets h then end_grow (set_nevacuate k h)
  else set_nevacuate k h.

Lemma set_nevacuate_same h : set_nevacuate (nevacuate h) h = h.
Proof. destruct h. reflexivity. Qed.

Lemma set_nevacuate_twice h a b :
  set_nevacuate b (set_nevacuate a h) = set_nevacuate b h.
Proof. reflexivity. Qed.

Lemma advance_loop_spec n : forall w h stop N,
  ArchOK ->
  hdr w = Some h -> 0 <= nevacuate h <= stop -> stop <= N ->
  N + 1 < 2 ^ wordBits ->
  (forall j, 0 <= j < N ->
             bucketAt (oldbuckets h) j = oldb h j /\
             is_Some (heap w !! oldb h j)) ->
  exists k,
    advance_loop n stop w = Ok tt (set_hdr (Some (set_nevacuate k h)) w) /\
    nevacuate h <= k <= stop /\ k <= nevacuate h + Z.of_nat n /\
    (forall j, nevacuate h <= j < k -> evacuated_at (heap w) (oldb h j)) /\
    (k < stop -> k < nevacuate h + Z.of_nat n ->
     ~ evacuated_at (heap w) (oldb h k)).
Proof.
  induction n as [| n IH]; intros w h stop N HA Hh Hk Hs HN Hold.
  - exists (nevacuate h). cbn [advance_loop]. unfold ret.
    rewrite set_nevacuate_same, (set_hdr_same w h Hh).
    split; [reflexivity|]. split; [lia|]. split; [lia|].
    split; intros; lia.
  - cbn [advance_loop]. unfold bind at 1. unfold geth at 1. rewrite Hh.
    destruct (nevacuate h =? stop) eqn:Es; cbn [negb].
    + apply Z.eqb_eq in Es. exists (nevacuate h). unfold ret.
      rewrite set_nevacuate_same, (set_hdr_same w h Hh).
      split; [reflexivity|]. split; [lia|]. split; [lia|].
      split; intros; lia.
    + apply Z.eqb_neq in Es.
      destruct (Hold (nevacuate h) ltac:(lia)) as [Ea [bm Hbm]].
      unfold bucketEvacuated. unfold bind at 1. unfold bind at 1.
      unfold geth at 1. rewrite Hh. unfold bind at 1. unfold load at 1.
      rewrite Ea, Hbm. unfold ret at 1.
      destruct (evacuated bm) eqn:Ev.
      * unfold bind at 1. unfold seth at 1.
        assert (Ew : wrap (nevacuate h + 1) = nevacuate h + 1)
          by (apply wrap_small; lia).
        rewrite Ew.
        destruct (IH (set_hdr (Some (set_nevacuate (nevacuate h + 1) h)) w)
                     (set_nevacuate (nevacuate h + 1) h) stop N HA eq_refl)
          as (k & Ek & Hk1 & Hk2 & Hk3 & Hk4);
          [cbn; lia | assumption | assumption | exact Hold |].
        cbn [nevacuate set_nevacuate] in Hk1, Hk2, Hk3, Hk4.
        exists k. rewrite Ek. split; [reflexivity|].
        split; [lia|]. split; [lia|]. split.
        -- intros j Hj. destruct (Z.eq_dec j (nevacuate h)) as [-> | Hne].
           ++ exists bm. split; assumption.
           ++ apply Hk3. lia.
        -- intros H1 H2. apply Hk4; lia.
      * exists (nevacuate h). unfold ret.
        rewrite set_nevacuate_same, (set_hdr_same w h Hh).
        split; [reflexivity|]. split; [lia|]. split; [lia|].
        split; [intros; lia|]. intros _ _ (bm' & Hbm' & Ev').
        congruence.
Qed.


Lemma advanceEvacuationMark_spec w h G :
  ArchOK -> TypeOK -> Inv w h G -> growing h = true ->
  exists k,
    advanceEvacuationMark (noldbuckets h) w
    = Ok tt (set_hdr (Some (advanced h k)) w) /\
    nevacuate h + 1 <= k <= noldbuckets h /\
    k <= nevacuate h + 1 + 1024 /\
    (forall j, nevacuate h + 1 <= j < k -> evacuated_at (heap w) (oldb h j)) /\
    (k < noldbuckets h -> k < nevacuate h + 1 + 1024 ->
     ~ evacuated_at (heap w) (oldb h k)).
Proof.
  intros HA HT I Hg.
  destruct (inv_old _ _ _ I Hg) as (O1 & O2 & O3 & O4 & O5 & O6 & O7).
  destruct (Inv_nold _ _ _ HA HT I Hg) as (Hp & En & E2 & _).
  pose proof (Inv_B _ _ _ HA HT I) as HB.
  pose proof (inv_B _ _ _ I) as HB0.
  assert (Hsmall : noldbuckets h + 2048 < 2 ^ wordBits).
  { assert (noldbuckets h <= 2 ^ (wordBits - 6)).
    { rewrite En. apply pow2_le. destruct (is_sameSizeGrow h); lia. }
    destruct (wordBits_cases HA) as [E | E]; rewrite E in *;
      change (2 ^ (32 - 6)) with 67108864 in *;
      change (2 ^ (64 - 6)) with 288230376151711744 in *;
      change (2 ^ 32) with 4294967296;
      change (2 ^ 64) with 18446744073709551616; lia. }
  pose proof (inv_hdr _ _ _ I) as Hh.
  set (n1 := nevacuate h + 1).
  set (stop := if noldbuckets h <? n1 + 1024 then noldbuckets h
               else n1 + 1024).
  assert (Hstop : n1 <= stop <= noldbuckets h /\ stop <= n1 + 1024 /\
                  (stop = noldbuckets h \/ stop = n1 + 1024)).
  { unfold stop, n1. destruct (noldbuckets h <? nevacuate h + 1 + 1024) eqn:El;
      [apply Z.ltb_lt in El | apply Z.ltb_ge in El]; lia. }
  set (h1 := set_nevacuate n1 h).
  set (w1 := set_hdr (Some h1) w).
  destruct (advance_loop_spec (Z.to_nat (stop - n1)) w1 h1 stop
              (noldbuckets h) HA eq_refl)
    as (k & Ek & Hk1 & Hk2 & Hk3 & Hk4).
  { cbn. unfold n1 in *. lia. }
  { lia. }
  { lia. }
  { intros j Hj. cbn [oldbuckets h1 set_nevacuate].
    destruct (Inv_oldb_fits w h G j HA HT I Hg Hj) as (_ & _ & Ea).
    destruct (O7 j Hj) as (bm & Hbm & _).
    split; [exact Ea|]. exists bm. exact Hbm. }
  cbn [nevacuate h1 set_nevacuate] in Hk1, Hk2, Hk3, Hk4.
  rewrite Z2Nat.id in Hk2, Hk4 by lia.
  exists k. split; [|split; [unfold n1 in *; lia|]].
  - unfold advanceEvacuationMark.
    unfold bind at 1. unfold updh at 1. unfold bind at 1.
    unfold geth at 1. rewrite Hh. unfold seth at 1.
    assert (Ew1 : wrap (nevacuate h + 1) = n1)
      by (apply wrap_small; unfold n1; lia).
    rewrite Ew1. fold h1. fold w1.
    unfold bind at 1. unfold geth at 1.
    change (hdr w1) with (Some h1).
    cbn [nevacuate h1 set_nevacuate].
    assert (Ew2 : wrap (n1 + 1024) = n1 + 1024)
      by (apply wrap_small; unfold n1; lia).
    rewrite Ew2. fold stop.
    assert (Ew3 : wrap (stop - n1) = stop - n1)
      by (apply wrap_small; lia).
    rewrite Ew3. unfold bind at 1. rewrite Ek.
    unfold bind at 1. unfold geth at 1.
    cbn [hdr set_hdr nevacuate set_nevacuate].
    unfold advanced. unfold h1. rewrite set_nevacuate_twice.
    destruct (k =? noldbuckets h) eqn:Ekn; [|reflexivity].
    unfold bind at 1. unfold seth at 1.
    unfold bind at 1. unfold updh at 1. unfold bind at 1.
    unfold geth at 1. cbn [hdr set_hdr]. unfold seth at 1.
    unfold updh. unfold bind at 1. unfold geth at 1.
    cbn [hdr set_hdr]. unfold seth. cbn [set_hdr hdr heap brk rand hcalls].
    reflexivity.
  - split; [unfold n1 in *; lia|]. split.
    + intros j Hj. apply Hk3. unfold n1. lia.
    + intros H1 H2. apply Hk4; unfold n1 in *; lia.
Qed.


(** ** What the steps of a write keep *)

(** Lookups of keys that equal themselves keep their result. *)
Definition keeps (w : world K V) (h : hmap) (w' : world K V) (h' : hmap)
  : Prop :=
  forall key v, key_equal t key key = true ->
                found w h key v -> found w' h' key v.

(** The progress of a grow: the arrays move to fresh memory only, and
    while the old array stays the one being evacuated, the mark does not
    go back and a bucket that was evacuated stays evacuated. *)
Definition progress (w : world K V) (h : hmap) (w' : world K V) (h' : hmap)
  : Prop :=
  brk w <= brk w' /\
  (growing h' = true ->
   oldbuckets h' = oldbuckets h \/ oldbuckets h' = buckets h \/
   brk w <= oldbuckets h') /\
  (buckets h' <> 0 -> buckets h' = buckets h \/ brk w <= buckets h') /\
  (growing h = true -> oldbuckets h' = oldbuckets h ->
   same_shape h h' /\ nevacuate h <= nevacuate h' /\
   forall j, 0 <= j < noldbuckets h ->
             evacuated_at (heap w) (oldb h j) ->
             evacuated_at (heap w') (oldb h j)).

Lemma keeps_refl w h : keeps w h w h.
Proof. intros key v _ Hf. exact Hf. Qed.

Lemma keeps_trans w1 h1 w2 h2 w3 h3 :
  keeps w1 h1 w2 h2 -> keeps w2 h2 w3 h3 -> keeps w1 h1 w3 h3.
Proof. intros K1 K2 key v Hr Hf. apply K2, K1; assumption. Qed.

Lemma keeps_shape w h w' h' :
  same_shape h h' -> heap w' = heap w -> keeps w h w' h'.
Proof. intros HS EH key v _ Hf. eapply found_shape; eassumption. Qed.

Lemma progress_refl w h : progress w h w h.
Proof.
  split; [lia|]. split; [auto|]. split; [auto|].
  intros _ _. split; [apply same_shape_refl|]. split; [lia | auto].
Qed.

Lemma Inv_arrays w h G :
  ArchOK -> TypeOK -> Inv w h G -> growing h = true ->
  0 < oldbuckets h < buckets h /\ buckets h < brk w.
Proof.
  intros HA HT I Hg.
  destruct (inv_old _ _ _ I Hg) as (O1 & O2 & O3 & _).
  destruct (inv_arr _ _ _ I O1) as [H1 H2].
  destruct (Inv_nold _ _ _ HA HT I Hg) as (Hp & _).
  pose proof (bucketsize_min HA HT) as Hs.
  pose proof (pow2_pos (B h) (inv_B _ _ _ I)) as HpB.
  nia.
Qed.

Lemma progress_trans w1 h1 G1 w2 h2 w3 h3 :
  ArchOK -> TypeOK -> Inv w1 h1 G1 ->
  progress w1 h1 w2 h2 -> progress w2 h2 w3 h3 -> progress w1 h1 w3 h3.
Proof.
  intros HA HT I (A1 & A2 & A3 & A4) (B1 & B2 & B3 & B4).
  assert (Hgo : forall h, growing h = true <-> oldbuckets h <> 0).
  { intros h. unfold growing. rewrite negb_true_iff. apply Z.eqb_neq. }
  split; [lia|]. split; [|split].
  - intros Hg3. destruct (B2 Hg3) as [E | [E | E]].
    + assert (Hg2 : growing h2 = true).
      { apply Hgo. rewrite <- E. apply Hgo. exact Hg3. }
      destruct (A2 Hg2) as [E' | [E' | E']]; [left | right; left | right; right];
        congruence || lia.
    + assert (Hb2 : buckets h2 <> 0).
      { rewrite <- E. apply Hgo. exact Hg3. }
      destruct (A3 Hb2) as [E' | E']; [right; left | right; right];
        congruence || lia.
    + right. right. lia.
  - intros Hb3. destruct (B3 Hb3) as [E | E]; [|right; lia].
    assert (Hb2 : buckets h2 <> 0) by congruence.
    destruct (A3 Hb2) as [E' | E']; [left | right]; congruence || lia.
  - intros Hg1 E31.
    destruct (Inv_arrays _ _ _ HA HT I Hg1) as (Ho & Hbk).
    assert (Hg3 : growing h3 = true) by (apply Hgo; lia).
    assert (E21 : oldbuckets h2 = oldbuckets h1).
    { destruct (B2 Hg3) as [E | [E | E]]; [congruence | | lia].
      assert (Hb2 : buckets h2 <> 0) by lia.
      destruct (A3 Hb2) as [E' | E']; lia. }
    destruct (A4 Hg1 E21) as (S1 & N1 & V1).
    assert (Hg2 : growing h2 = true) by (apply Hgo; lia).
    destruct (B4 Hg2 ltac:(congruence)) as (S2 & N2 & V2).
    destruct (shape_fields h1 h2 S1) as (_ & En & _ & Eob).
    split; [eapply same_shape_trans; eassumption|]. split; [lia|].
    intros j Hj Hev. rewrite <- Eob. apply V2; [rewrite En; exact Hj|].
    rewrite Eob. apply V1; assumption.
Qed.

Lemma end_grow_fields h :
  B (end_grow h) = B h /\ buckets (end_grow h) = buckets h /\
  oldbuckets (end_grow h) = 0 /\ count (end_grow h) = count h /\
  hash0 (end_grow h) = hash0 h /\ nevacuate (end_grow h) = nevacuate h /\
  pool_cursor (end_grow h) = pool_cursor h /\
  flags (end_grow h) = Z.ldiff (flags h) sameSizeGrow.
Proof.
  destruct h as [c f b n s bk ob ne [e |]]; cbn; repeat split.
Qed.

Lemma sameSizeGrow_ldiff f :
  Z.testbit (Z.ldiff f sameSizeGrow) 3 = false /\
  Z.testbit (Z.ldiff f sameSizeGrow) 2 = Z.testbit f 2.
Proof.
  change sameSizeGrow with (2 ^ 3).
  rewrite !testbit_ldiff_pow2 by lia. cbn. split.
  - apply andb_false_r.
  - apply andb_true_r.
Qed.

(** The table after [advanceEvacuationMark]. *)
Lemma advanced_ok w h G k :
  ArchOK -> TypeOK -> Inv w h G -> growing h = true ->
  nevacuate h <= k <= noldbuckets h ->
  (forall j, 0 <= j < k -> evacuated_at (heap w) (oldb h j)) ->
  Inv (set_hdr (Some (advanced h k)) w) (advanced h k) G /\
  writing (advanced h k) = writing h /\
  hash0 (advanced h k) = hash0 h /\
  B (advanced h k) = B h /\ buckets (advanced h k) = buckets h /\
  (oldbuckets (advanced h k) = oldbuckets h \/
   oldbuckets (advanced h k) = 0) /\
  progress w h (set_hdr (Some (advanced h k)) w) (advanced h k) /\
  keeps w h (set_hdr (Some (advanced h k)) w) (advanced h k) /\
  nevacuate (advanced h k) = k /\
  (growing (advanced h k) = true -> k < noldbuckets h).
Proof.
  intros HA HT I Hg Hk Hev.
  destruct (inv_old _ _ _ I Hg) as (O1 & O2 & O3 & O4 & O5 & O6 & O7).
  unfold advanced. destruct (k =? noldbuckets h) eqn:Ek.
  - apply Z.eqb_eq in Ek.
    destruct (end_grow_fields (set_nevacuate k h))
      as (EB & Ebk & Eo & Ec & Eh & Ene & Ep & Ef).
    cbn [B buckets count hash0 nevacuate flags set_nevacuate] in *.
    change (pool_cursor (set_nevacuate k h)) with (pool_cursor h) in Ep.
    set (h' := end_grow (set_nevacuate k h)) in *.
    destruct (sameSizeGrow_ldiff (flags h)) as [F3 F2].
    assert (Ess : is_sameSizeGrow h' = false)
      by (rewrite is_sameSizeGrow_bit, Ef; exact F3).
    assert (Hg' : growing h' = false)
      by (unfold growing; rewrite Eo; reflexivity).
    assert (Hnp : forall i, ~ pending (heap w) h i).
    { intros i (_ & bm & Hbm & Ev).
      destruct (Hev (i mod noldbuckets h)) as (bm' & Hbm' & Ev').
      - rewrite Ek. eapply mod_nold_range; eassumption.
      - congruence. }
    split; [|split; [|split; [|split; [|split; [|split; [|split; [|split;
      [|split]]]]]]]].
    + constructor; cbn [hdr heap brk set_hdr];
        rewrite ?EB, ?Ebk, ?Eo, ?Ec, ?Ep, ?Hg'.
      * reflexivity.
      * apply (inv_brk _ _ _ I).
      * apply (inv_heap _ _ _ I).
      * apply (inv_G _ _ _ I).
      * apply (inv_B _ _ _ I).
      * apply (inv_count _ _ _ I).
      * intros E0. contradiction.
      * apply (inv_arr _ _ _ I).
      * intros Hb i Hi. destruct (inv_new _ _ _ I Hb i Hi) as (l & Cl & _).
        exists l. unfold newb in *. rewrite Ebk. split; [exact Cl|].
        intros [Hgg _]. congruence.
      * discriminate.
      * intros _. exact Ess.
      * apply (inv_pool _ _ _ I).
    + unfold writing. rewrite Ef. exact F2.
    + exact Eh.
    + exact EB.
    + exact Ebk.
    + right. exact Eo.
    + split; [cbn; lia|]. split; [intros; congruence|].
      split; [intros _; left; exact Ebk|].
      intros _ E0. lia.
    + intros key v _ (x & a & l & b & c & Hx & Hl & Hc & Hf).
      destruct Hl as [[Hp _] | [_ ->]]; [exfalso; eapply Hnp; exact Hp|].
      exists x, (newb h (wrap x mod 2 ^ B h)), l, b, c.
      cbn [heap set_hdr]. rewrite Eh.
      split; [assumption|]. split; [|split; assumption].
      right. rewrite EB. split.
      * intros [Hgg _]. congruence.
      * unfold newb. rewrite Ebk. reflexivity.
    + exact Ene.
    + intros Hgg. congruence.
  - apply Z.eqb_neq in Ek.
    set (h' := set_nevacuate k h).
    assert (HS : same_shape h h') by (repeat split).
    split; [|split; [|split; [|split; [|split; [|split; [|split; [|split;
      [|split]]]]]]]]; try reflexivity.
    + constructor; cbn [hdr heap brk set_hdr].
      * reflexivity.
      * apply (inv_brk _ _ _ I).
      * apply (inv_heap _ _ _ I).
      * apply (inv_G _ _ _ I).
      * apply (inv_B _ _ _ I).
      * apply (inv_count _ _ _ I).
      * apply (inv_nil _ _ _ I).
      * apply (inv_arr _ _ _ I).
      * apply (inv_new _ _ _ I).
      * intros _. change (noldbuckets h') with (noldbuckets h).
        change (nevacuate h') with k.
        split; [assumption|]. split; [assumption|]. split; [assumption|].
        split; [assumption|]. split; [lia|]. split; [|exact O7].
        intros j bm Hj Hbm. destruct (Hev j Hj) as (bm' & Hbm' & Ev').
        change (oldb h' j) with (oldb h j) in Hbm. congruence.
      * apply (inv_idle _ _ _ I).
      * apply (inv_pool _ _ _ I).
    + left. reflexivity.
    + split; [cbn; lia|]. split; [intros _; left; reflexivity|].
      split; [intros _; left; reflexivity|].
      intros _ _. split; [exact HS|]. split; [cbn; lia|]. auto.
    + apply keeps_shape; [exact HS | reflexivity].
    + intros _. lia.
Qed.


(** ** [evacuate] *)

(** Writing to an evacuated bucket of the old array without touching its
    tophash bytes: the clearing at the end of [evacuate]. *)
Lemma dead_update_ok w h G j bm bm' :
  ArchOK -> TypeOK -> Inv w h G -> growing h = true ->
  0 <= j < noldbuckets h ->
  heap w !! oldb h j = Some bm -> evacuated bm = true ->
  (forall c, b_tophash bm' c = b_tophash bm c) ->
  Inv (set_heap (<[oldb h j := bm']> (heap w)) w) h G /\
  keeps w h (set_heap (<[oldb h j := bm']> (heap w)) w) h /\
  (forall a, evacuated_at (heap w) a ->
             evacuated_at (<[oldb h j := bm']> (heap w)) a).
Proof.
  intros HA HT I Hg Hj Hbm Ev Htop.
  set (w' := set_heap (<[oldb h j := bm']> (heap w)) w).
  destruct (inv_old _ _ _ I Hg) as (Hb & _).
  pose proof (Inv_old_reg _ _ _ j I Hg Hj) as Hreg.
  assert (Ev' : evacuated bm' = true)
    by (unfold evacuated in *; rewrite Htop; exact Ev).
  assert (HS : same_shape h h) by apply same_shape_refl.
  assert (HG : forall b g, G !! b = Some g -> G !! b = Some g) by auto.
  assert (Hframe : forall a g, G !! a = Some g -> g <> oldb h j ->
                               heap w' !! a = heap w !! a).
  { intros a g Ha Hne. cbn [heap w' set_heap].
    apply lookup_insert_ne. intros <-. congruence. }
  assert (Hnew0 : forall i, 0 <= i < 2 ^ B h -> newb h i = oldb h j ->
                            ~ pending (heap w) h i).
  { intros i Hi E0. exfalso.
    eapply (Inv_new_old w h G i j); eassumption. }
  assert (Hold0 : forall j', growing h = true -> 0 <= j' < noldbuckets h ->
                             oldb h j' = oldb h j ->
                             evacuated_at (heap w) (oldb h j) /\
                             evacuated_at (heap w') (oldb h j)).
  { intros j' _ _ _. split; [exists bm; auto|].
    exists bm'. split; [|exact Ev'].
    cbn [heap w' set_heap]. apply lookup_insert_eq. }
  split; [|split].
  - eapply Inv_update with (w := w) (h := h) (G := G) (g0 := oldb h j);
      try eassumption.
    + apply (inv_hdr _ _ _ I).
    + reflexivity.
    + pose proof (inv_brk _ _ _ I). cbn [brk w' set_heap]. lia.
    + intros a bm0 Ha. cbn [heap brk w' set_heap] in *.
      destruct (Z.eq_dec a (oldb h j)) as [-> | Hne].
      * apply (inv_heap _ _ _ I _ _ Hbm).
      * rewrite lookup_insert_ne in Ha by congruence.
        apply (inv_heap _ _ _ I _ _ Ha).
    + intros b g Hbg. cbn [heap w' set_heap].
      destruct (Z.eq_dec b (oldb h j)) as [-> | Hne].
      * rewrite lookup_insert_eq. eauto.
      * rewrite lookup_insert_ne by congruence. apply (inv_G _ _ _ I _ _ Hbg).
    + rewrite (inv_count _ _ _ I). symmetry. apply total_occ_ext.
      intros b _. unfold occ_at. cbn [heap w' set_heap].
      destruct (Z.eq_dec b (oldb h j)) as [-> | Hne].
      * rewrite lookup_insert_eq, Hbm. apply occ_bmap_ext. auto.
      * rewrite lookup_insert_ne by congruence. reflexivity.
    + destruct (inv_pool _ _ _ I) as (n & Hn). exists n.
      eapply pool_at_registry; [exact Hn|].
      intros a Ha. cbn [heap w' set_heap].
      apply lookup_insert_ne. intros <-. congruence.
    + intros i Hi E0. exfalso.
      eapply (Inv_new_old w h G i j); eassumption.
  - intros key v _ Hf.
    eapply found_update with (w := w) (h := h) (G := G) (g0 := oldb h j);
      try eassumption.
    intros x l b c _ E0. exfalso.
    eapply (Inv_new_old w h G (wrap x mod 2 ^ B h) j); try eassumption.
    eapply mod_index_range; eassumption.
  - intros a (bm0 & Hbm0 & Ev0).
    destruct (Z.eq_dec a (oldb h j)) as [-> | Hne].
    + exists bm'. rewrite lookup_insert_eq. auto.
    + exists bm0. rewrite lookup_insert_ne by congruence. auto.
Qed.


(** What a step of the incremental evacuation leaves. *)
Definition work_post (w : world K V) (h : hmap) (w' : world K V) : Prop :=
  exists h' G',
    hdr w' = Some h' /\ Inv w' h' G' /\ writing h' = writing h /\
    hash0 h' = hash0 h /\ B h' = B h /\ buckets h' = buckets h /\
    (oldbuckets h' = oldbuckets h \/ oldbuckets h' = 0) /\
    progress w h w' h' /\ keeps w h w' h'.

Lemma evac_start_eq w h G j :
  ArchOK -> TypeOK -> Inv w h G -> growing h = true ->
  0 <= j < noldbuckets h ->
  (EvacDst (bucketAt (buckets h) j) 0,
   if negb (is_sameSizeGrow h)
   then EvacDst (bucketAt (buckets h) (wrap (j + noldbuckets h))) 0
   else EvacDst 0 0) = evac_start h j.
Proof.
  intros HA HT I Hg Hj.
  destruct (inv_old _ _ _ I Hg) as (Hb & _).
  destruct (Inv_nold _ _ _ HA HT I Hg) as (Hp & En & E2 & _).
  pose proof (Inv_B _ _ _ HA HT I) as HB.
  pose proof (pow2_pos (B h) ltac:(lia)) as HpB.
  unfold evac_start.
  destruct (Inv_bucketsize_fits w h G j HA HT I Hb) as (_ & _ & ->).
  { destruct (is_sameSizeGrow h); lia. }
  destruct (is_sameSizeGrow h) eqn:Ess; cbn [negb]; [reflexivity|].
  assert (Hw : wrap (j + noldbuckets h) = j + noldbuckets h).
  { apply wrap_small. split; [lia|].
    assert (2 ^ B h <= 2 ^ wordBits) by (apply pow2_le; lia). lia. }
  rewrite Hw.
  destruct (Inv_bucketsize_fits w h G (j + noldbuckets h) HA HT I Hb)
    as (_ & _ & ->); [lia | reflexivity].
Qed.

Lemma same_table_writing h h' : same_table h h' -> writing h' = writing h.
Proof. intros (_ & _ & _ & Ef & _). unfold writing. rewrite Ef. reflexivity. Qed.

Lemma Inv_evacuated_below w h G j :
  Inv w h G -> growing h = true -> 0 <= j < nevacuate h ->
  evacuated_at (heap w) (oldb h j).
Proof.
  intros I Hg Hj.
  destruct (inv_old _ _ _ I Hg) as (_ & _ & _ & _ & O5 & O6 & O7).
  destruct (O7 j ltac:(lia)) as (bm & Hbm & _).
  exists bm. split; [exact Hbm|]. eapply O6; eassumption.
Qed.

Lemma evacuate_wp w h G j :
  ArchOK -> TypeOK -> Inv w h G -> growing h = true ->
  0 <= j < noldbuckets h ->
  wp (evacuate j) w
     (fun _ w' =>
        work_post w h w' /\
        forall h', hdr w' = Some h' -> growing h' = true ->
                   evacuated_at (heap w') (oldb h j)).
Proof.
  intros HA HT I Hg Hj.
  pose proof (inv_hdr _ _ _ I) as Hh.
  destruct (inv_old _ _ _ I Hg) as (Hb & O2 & O3 & O4 & O5 & O6 & O7).
  destruct (Inv_oldb_fits w h G j HA HT I Hg Hj) as (_ & _ & Ea).
  set (mid := fun w1 : world K V =>
    exists h1 G1,
      hdr w1 = Some h1 /\ same_table h h1 /\ Inv w1 h1 G1 /\
      brk w <= brk w1 /\ evacuated_at (heap w1) (oldb h j) /\
      (forall j', 0 <= j' < noldbuckets h ->
                  evacuated_at (heap w) (oldb h j') ->
                  evacuated_at (heap w1) (oldb h j')) /\
      keeps w h w1 h1).
  unfold evacuate. apply wp_bind, wp_geth. intros h_ Hh_.
  assert (h_ = h) as -> by congruence. cbv zeta. rewrite Ea.
  apply wp_bind, wp_load. intros bm Hbm.
  apply wp_bind with (Q := fun _ w' => _).
  apply wp_mono with (Q := fun _ w1 => mid w1).
  - destruct (evacuated bm) eqn:Ev; cbn [negb].
    + apply wp_ret. exists h, G.
      split; [assumption|]. split; [apply same_table_refl|].
      split; [assumption|]. split; [lia|].
      split; [exists bm; auto|]. split; [auto | apply keeps_refl].
    + rewrite (evac_start_eq w h G j HA HT I Hg Hj).
      destruct (O7 j Hj) as (bm0 & Hbm0 & _ & Hch).
      assert (bm0 = bm) as -> by congruence.
      destruct (Hch Ev) as (L & HL).
      apply wp_bind, wp_get_world. apply wp_bind.
      eapply wp_mono.
      * eapply evacuate_chain_spec with (G := G) (L := L); try eassumption.
        exists bm. auto.
      * intros _ w1 (h1 & G1 & Hh1 & HS & I1 & Hbrk & Hev & Hoth & Hk).
        cbn beta.
        assert (Hstay : forall j', 0 <= j' < noldbuckets h ->
                  evacuated_at (heap w) (oldb h j') ->
                  evacuated_at (heap w1) (oldb h j')).
        { intros j' Hj' Hev'. destruct (Z.eq_dec j' j) as [-> | Hne].
          - exact Hev.
          - unfold evacuated_at. rewrite Hoth by assumption. exact Hev'. }
        apply wp_bind, wp_geth. intros h_ Hh_'.
        assert (h_ = h1) as -> by congruence.
        destruct (same_table_fields h h1 HS) as (Eg & Ess & En & Enb & Eob).
        pose proof HS as (_ & _ & Eo & _).
        destruct ((Z.land (flags h1) oldIterator =? 0)
                  && negb (bucket_ptrdata t =? 0)).
        -- rewrite Eo, Ea. apply wp_updb. intros bm1 Hbm1.
           destruct Hev as (bm1' & Hbm1' & Ev1).
           assert (bm1' = bm1) as -> by congruence.
           destruct (dead_update_ok w1 h1 G1 j bm1
                       (Bmap (b_tophash bm1) (fun _ => zero_key t)
                             (fun _ => zero_elem t) 0) HA HT I1)
             as (I2 & K2 & S2);
             [congruence | lia | rewrite Eob; exact Hbm1 | exact Ev1
              | reflexivity |].
           rewrite Eob in I2, K2, S2.
           exists h1, G1. split; [exact Hh1|]. split; [assumption|].
           split; [exact I2|]. split; [exact Hbrk|]. split; [|split].
           ++ cbn [heap set_heap]. apply S2. exists bm1. auto.
           ++ intros j' Hj' Hev'. cbn [heap set_heap]. apply S2. auto.
           ++ eapply keeps_trans; eassumption.
        -- apply wp_ret. exists h1, G1. auto 10.
  - intros _ w1 (h1 & G1 & Hh1 & HS & I1 & Hbrk & Hev & Hstay & Hk).
    destruct (same_table_fields h h1 HS) as (Eg & Ess & En & Enb & Eob).
    pose proof HS as (EB & Ebk & Eo & Ef & Ec & Eh0 & Ene).
    assert (Hg1 : growing h1 = true) by congruence.
    assert (P1 : progress w h w1 h1).
    { split; [exact Hbrk|]. split; [intros _; left; exact Eo|].
      split; [intros _; left; exact Ebk|]. intros _ _.
      split; [apply same_table_shape; exact HS|]. split; [lia | exact Hstay]. }
    apply wp_bind, wp_geth. intros h_ Hh_'.
    assert (h_ = h1) as -> by congruence.
    destruct (j =? nevacuate h1) eqn:Ej.
    + apply Z.eqb_eq in Ej.
      destruct (advanceEvacuationMark_spec w1 h1 G1 HA HT I1 Hg1)
        as (k & Ek & Hk1 & Hk2 & Hk3 & Hk4).
      rewrite En in Ek. unfold wp. rewrite Ek.
      destruct (advanced_ok w1 h1 G1 k HA HT I1 Hg1 ltac:(lia))
        as (I2 & W2 & H2 & B2 & Bk2 & O2' & P2 & K2 & N2 & G2).
      { intros j' Hj'.
        destruct (Z_lt_le_dec j' (nevacuate h1)) as [Hlt | Hge].
        - eapply Inv_evacuated_below; [eassumption | assumption | lia].
        - destruct (Z.eq_dec j' (nevacuate h1)) as [-> | Hne].
          + rewrite <- Ej, Eob. exact Hev.
          + apply Hk3. lia. }
      split.
      * exists (advanced h1 k), G1. split; [reflexivity|].
        split; [exact I2|].
        split; [rewrite W2; apply same_table_writing; exact HS|].
        split; [congruence|]. split; [congruence|]. split; [congruence|].
        split; [destruct O2'; [left | right]; congruence|].
        split; [eapply progress_trans; eassumption|].
        eapply keeps_trans; eassumption.
      * intros h' _ _. exact Hev.
    + apply wp_ret. split.
      * exists h1, G1. split; [assumption|]. split; [assumption|].
        split; [apply same_table_writing; exact HS|].
        split; [assumption|]. split; [assumption|]. split; [assumption|].
        split; [left; assumption|]. split; assumption.
      * intros h' _ _. exact Hev.
Qed.


(** ** Keys that do not equal themselves during a doubling grow (C8) *)












Lemma work_post_refl w h G : Inv w h G -> work_post w h w.
Proof.
  intros I. exists h, G. split; [apply (inv_hdr _ _ _ I)|].
  split; [assumption|]. repeat (split; [reflexivity|]).
  split; [left; reflexivity|]. split; [apply progress_refl | apply keeps_refl].
Qed.

Lemma work_post_trans w h G w1 h1 w2 :
  ArchOK -> TypeOK -> Inv w h G -> hdr w1 = Some h1 ->
  work_post w h w1 -> work_post w1 h1 w2 -> work_post w h w2.
Proof.
  intros HA HT I Hh1 (h1' & G1 & Hh1' & I1 & W1 & H1 & B1 & Bk1 & O1 & P1 & K1)
         (h2 & G2 & Hh2 & I2 & W2 & H2 & B2 & Bk2 & O2 & P2 & K2).
  assert (h1' = h1) as -> by congruence.
  exists h2, G2. split; [assumption|]. split; [assumption|].
  split; [congruence|]. split; [congruence|]. split; [congruence|].
  split; [congruence|]. split.
  - destruct O2 as [E | E]; [|right; exact E].
    destruct O1 as [E' | E']; [left | right]; congruence.
  - split; [eapply progress_trans; eassumption|].
    eapply keeps_trans; eassumption.
Qed.

(** [growWork]: after it the bucket about to be used is not pending. *)
Lemma growWork_wp w h G bucket :
  ArchOK -> TypeOK -> Inv w h G -> growing h = true ->
  wp (growWork bucket) w
     (fun _ w' =>
        work_post w h w' /\
        forall h', hdr w' = Some h' -> ~ pending (heap w') h' bucket).
Proof.
  intros HA HT I Hg.
  pose proof (inv_hdr _ _ _ I) as Hh.
  destruct (Inv_oldb _ _ _ bucket HA HT I Hg) as (Hj & _ & Em).
  unfold growWork. apply wp_bind, wp_geth. intros h_ Hh_.
  assert (h_ = h) as -> by congruence. rewrite Em.
  apply wp_bind. eapply wp_mono;
    [apply (evacuate_wp w h G _ HA HT I Hg Hj)|].
  intros _ w1 [Hw1 Hev1]. cbn beta.
  pose proof Hw1 as (h1 & G1 & Hh1 & I1 & W1 & H1 & B1 & Bk1 & O1 & P1 & K1).
  apply wp_bind, wp_geth. intros h_ Hh_'.
  assert (h_ = h1) as -> by congruence.
  assert (Hnp1 : growing h1 = true ->
                 same_shape h h1 /\
                 evacuated_at (heap w1) (oldb h1 (bucket mod noldbuckets h1))).
  { intros Hg1. destruct P1 as (_ & _ & _ & P4).
    assert (Eo : oldbuckets h1 = oldbuckets h).
    { destruct O1 as [E | E]; [exact E|].
      unfold growing in Hg1. rewrite E in Hg1. discriminate. }
    destruct (P4 Hg Eo) as (HS & _).
    destruct (shape_fields h h1 HS) as (_ & En & _ & Eob).
    split; [exact HS|]. rewrite En, Eob. apply (Hev1 h1 Hh1 Hg1). }
  destruct (growing h1) eqn:Hg1.
  - destruct (Hnp1 eq_refl) as (HS1 & Hev).
    destruct (inv_old _ _ _ I1 Hg1) as (_ & _ & _ & _ & O5 & _).
    eapply wp_mono; [apply (evacuate_wp w1 h1 G1 _ HA HT I1 Hg1 O5)|].
    intros _ w2 [Hw2 _]. cbn beta. split.
    + eapply work_post_trans; eassumption.
    + intros h2 Hh2 (Hg2 & bm & Hbm & Ev).
      destruct Hw2 as (h2' & G2 & Hh2' & I2 & W2 & H2 & B2 & Bk2 & O2 & P2
                       & K2).
      assert (h2' = h2) as -> by congruence.
      assert (Eo : oldbuckets h2 = oldbuckets h1).
      { destruct O2 as [E | E]; [exact E|].
        unfold growing in Hg2. rewrite E in Hg2. discriminate. }
      destruct P2 as (_ & _ & _ & P4).
      destruct (P4 Hg1 Eo) as (HS2 & _ & Hst).
      destruct (shape_fields h1 h2 HS2) as (_ & En & _ & Eob).
      rewrite En, Eob in Hbm.
      destruct (Hst (bucket mod noldbuckets h1)) as (bm' & Hbm' & Ev').
      * eapply mod_nold_range; eassumption.
      * exact Hev.
      * congruence.
  - apply wp_ret. split; [exact Hw1|].
    intros h' Hh' (Hg' & _). congruence.
Qed.


(** ** Fresh bucket arrays *)

(** Registering the [n] buckets of the array at [base], each as the head
    of its own chain. *)
Fixpoint reg_array (G : gmap Z Z) (base : Z) (n : nat) : gmap Z Z :=
  match n with
  | O => G
  | S n' => <[base + Z.of_nat n' * bucketsize t
              := base + Z.of_nat n' * bucketsize t]> (reg_array G base n')
  end.

Lemma reg_array_in G base n i :
  0 < bucketsize t -> (i < n)%nat ->
  reg_array G base n !! (base + Z.of_nat i * bucketsize t)
  = Some (base + Z.of_nat i * bucketsize t).
Proof.
  intros HS. induction n as [| n IH]; intros Hi; [lia|].
  cbn [reg_array]. destruct (Nat.eq_dec i n) as [-> | Hne].
  - apply lookup_insert_eq.
  - rewrite lookup_insert_ne by nia. apply IH. lia.
Qed.

Lemma reg_array_out G base n a :
  (forall i, (i < n)%nat -> a <> base + Z.of_nat i * bucketsize t) ->
  reg_array G base n !! a = G !! a.
Proof.
  induction n as [| n IH]; intros Ha; [reflexivity|].
  cbn [reg_array]. rewrite lookup_insert_ne.
  - apply IH. intros i Hi. apply Ha. lia.
  - intros E. apply (Ha n); [lia | auto].
Qed.

Lemma reg_array_lookup G base n a g :
  0 < bucketsize t ->
  reg_array G base n !! a = Some g ->
  (exists i, (i < n)%nat /\ a = base + Z.of_nat i * bucketsize t /\ g = a) \/
  ((forall i, (i < n)%nat -> a <> base + Z.of_nat i * bucketsize t) /\
   G !! a = Some g).
Proof.
  intros HS. induction n as [| n IH]; cbn [reg_array]; intros Hl.
  - right. split; [intros; lia | assumption].
  - destruct (Z.eq_dec a (base + Z.of_nat n * bucketsize t)) as [-> | Hne].
    + rewrite lookup_insert_eq in Hl. injection Hl as <-.
      left. exists n. split; [lia | auto].
    + rewrite lookup_insert_ne in Hl by (intros E; apply Hne; rewrite E;
                                           reflexivity).
      destruct (IH Hl) as [(i & Hi & -> & ->) | [Hout HG]].
      * left. exists i. split; [lia | auto].
      * right. split; [|assumption]. intros i Hi.
        destruct (Nat.eq_dec i n) as [-> | Hn]; [assumption | apply Hout; lia].
Qed.

Lemma reg_array_mono G base n b g :
  (forall i, (i < n)%nat -> G !! (base + Z.of_nat i * bucketsize t) = None) ->
  G !! b = Some g -> reg_array G base n !! b = Some g.
Proof.
  intros Hfree Hb. rewrite reg_array_out; [assumption|].
  intros i Hi ->. rewrite Hfree in Hb by assumption. discriminate.
Qed.

Lemma total_occ_reg_array H G base n :
  0 < bucketsize t ->
  (forall i, (i < n)%nat -> G !! (base + Z.of_nat i * bucketsize t) = None) ->
  (forall i, (i < n)%nat -> occ_at H (base + Z.of_nat i * bucketsize t) = 0) ->
  total_occ H (reg_array G base n) = total_occ H G.
Proof.
  intros HS. induction n as [| n IH]; intros Hfree Hocc; [reflexivity|].
  cbn [reg_array]. rewrite total_occ_insert.
  - rewrite IH, Hocc by (intros; auto with lia). lia.
  - rewrite reg_array_out; [apply Hfree; lia|]. intros i Hi. nia.
Qed.

(** Indexes as natural numbers. *)
Lemma index_nat i n :
  0 <= i < n -> exists k, (k < Z.to_nat n)%nat /\ i = Z.of_nat k.
Proof. intros Hi. exists (Z.to_nat i). lia. Qed.

Lemma occ_zero_bmap o : occ_bmap (set_b_overflow o zero_bmap) = 0.
Proof. apply occ_bmap_empty. intros c _. reflexivity. Qed.

Lemma cells_zero_bmap H a o :
  H !! a = Some (set_b_overflow o zero_bmap) ->
  tidy (tops_of H [a]) /\ Forall cell_ok (cells_of H [a]).
Proof.
  intros Ha. split.
  - unfold tops_of, cells_of. cbn [flat_map]. rewrite Ha, app_nil_r.
    unfold bucket_cells. rewrite map_map. cbn [fst b_tophash set_b_overflow
      zero_bmap]. rewrite cellIndexes_eq.
    apply (tidy_fill [] [0; 0; 0; 0; 0; 0; 0; 0]); repeat constructor.
  - apply Forall_forall. intros [[x k] [[b c] v]] Hin.
    apply cells_of_in in Hin as (Hb & Hc & bm & Hbm & -> & -> & _).
    apply list_elem_of_singleton in Hb as ->.
    assert (bm = set_b_overflow o zero_bmap) as -> by congruence.
    unfold cell_ok. cbn. unfold emptyOne, minTopHash. split; [lia | intros; lia].
Qed.

(** A zeroed bucket is a chain of its own. *)
Lemma fresh_chain_ok H (G : gmap Z Z) a :
  H !! a = Some zero_bmap -> a <> 0 -> G !! a = Some a ->
  chain_ok H G a [a] /\ fresh_bucket H a.
Proof.
  intros Ha Hne HG.
  destruct (cells_zero_bmap H a 0) as [Ht Hc].
  { rewrite Ha. reflexivity. }
  split.
  - split; [|split; [|split; assumption]].
    + econstructor; [exact Hne | exact Ha | constructor].
    + intros b Hb. apply list_elem_of_singleton in Hb as ->. exact HG.
  - exists zero_bmap. split; [exact Ha|]. split; reflexivity.
Qed.


(** ** [hashGrow] *)

(** The world and the rest of the header after [hashGrow]: the memory is
    the one [makeBucketArray] leaves, the cursor of the pool is the new
    array's if it has a pool, and [hashWriting] is untouched. *)
Lemma hashGrow_world w h w' :
  hdr w = Some h -> hashGrow w = Ok tt w' ->
  exists nx w2 w1 h',
    heap w1 = heap w /\ brk w1 = brk w /\
    makeBucketArray
      (wrap8 (B h + if negb (overLoadFactor (int_of (count h + 1)) (B h))
                    then 0 else 1)) 0 w1
    = Ok (brk w, nx) w2 /\
    heap w' = heap w2 /\ brk w' = brk w2 /\
    hdr w' = Some h' /\
    pool_cursor h' = (if nx =? 0 then pool_cursor h else nx) /\
    writing h' = writing h.
Proof.
  intros Hh H. unfold hashGrow in H.
  unfold bind at 1, geth at 1 in H. rewrite Hh in H.
  revert H. generalize (overLoadFactor (int_of (count h + 1)) (B h)).
  intros ov H.
  set (h1 := if negb ov then set_flags (Z.lor (flags h) sameSizeGrow) h
             else h).
  assert (E1 : (if negb ov
                then updh (fun h => set_flags (Z.lor (flags h) sameSizeGrow) h)
                else ret tt) w = Ok tt (set_hdr (Some h1) w)).
  { unfold h1. destruct ov; cbn [negb].
    - unfold ret. rewrite set_hdr_same by assumption. reflexivity.
    - unfold updh, bind, geth, seth. rewrite Hh. reflexivity. }
  unfold bind at 1 in H. rewrite E1 in H.
  unfold bind at 1, geth at 1 in H. cbn [hdr set_hdr] in H.
  unfold bind at 1 in H.
  assert (EB1 : B h1 = B h) by (unfold h1; destruct (negb ov); reflexivity).
  rewrite EB1 in H.
  destruct (makeBucketArray _ 0 _) as [[nb nx] w2 | e w2] eqn:Emk;
    [|discriminate].
  destruct (makeBucketArray_frame _ _ _ _ _ Emk) as (Eh2 & _ & _).
  cbn [hdr set_hdr] in Eh2.
  unfold bind at 1, geth at 1 in H. rewrite Eh2 in H.
  unfold bind at 1, seth at 1 in H.
  unfold bind at 1, geth at 1 in H. cbn [hdr set_hdr] in H.
  match type of H with
  | bind ?m _ ?ww = _ => destruct (m ww) as [[] w3|] eqn:Eov
  end.
  2:{ unfold bind in H. rewrite Eov in H. discriminate. }
  unfold bind at 1 in H. rewrite Eov in H.
  assert (Hbk : nb = brk w).
  { unfold makeBucketArray, newarray in Emk. cbv zeta in Emk.
    rewrite Z.eqb_refl in Emk. unfold bind at 1 in Emk.
    cbn [brk set_hdr] in Emk.
    destruct (_ || _) in Emk; [discriminate|].
    destruct (negb _) in Emk.
    - unfold bind in Emk. destruct (setoverflow _ _ _) in Emk;
        [|discriminate]. injection Emk as <- _ _. reflexivity.
    - injection Emk as <- _ _. reflexivity. }
  subst nb.
  match type of Eov with
  | _ (set_hdr (Some ?hh) w2) = _ => set (h3 := hh) in *
  end.
  assert (Hw3 : writing h3 = writing h).
  { unfold writing, h3. wsimpl.
    assert (Hw1 : Z.testbit (flags h1) 2 = Z.testbit (flags h) 2).
    { unfold h1. destruct (negb ov); [|reflexivity]. wsimpl.
      rewrite Z.lor_spec. change (Z.testbit sameSizeGrow 2) with false.
      apply orb_false_r. }
    rewrite <- Hw1.
    change (Z.lor iterator oldIterator) with 3.
    destruct (negb (Z.land (flags h1) iterator =? 0));
      rewrite ?Z.lor_spec, Z.ldiff_spec;
      change (Z.testbit 3 2) with false;
      change (Z.testbit oldIterator 2) with false;
      rewrite ?orb_false_r; cbn [negb]; apply andb_true_r. }
  assert (Ep3 : pool_cursor h3 = pool_cursor h).
  { unfold pool_cursor, h3. wsimpl. unfold h1. destruct (negb ov); reflexivity. }
  assert (Hh3 : heap w3 = heap w2 /\ brk w3 = brk w2 /\
                exists e3, hdr w3 = Some (set_extra e3 h3) /\
                           pool_cursor (set_extra e3 h3) = pool_cursor h).
  { destruct (extra h3) as [e|] eqn:Ee.
    - destruct (overflow e) as [o|].
      + destruct (oldoverflow e); [discriminate|].
        munfold. injection Eov as <-. split; [reflexivity|].
        split; [reflexivity|]. eexists. split; [reflexivity|].
        rewrite <- Ep3. unfold pool_cursor. rewrite Ee. reflexivity.
      + injection Eov as <-. split; [reflexivity|]. split; [reflexivity|].
        exists (extra h3). split; [destruct h3; reflexivity|].
        rewrite <- Ep3. reflexivity.
    - injection Eov as <-. split; [reflexivity|]. split; [reflexivity|].
      exists (extra h3). split; [destruct h3; reflexivity|].
      rewrite <- Ep3. reflexivity. }
  destruct Hh3 as (EH3 & Eb3 & e3 & Hh3 & Ep3').
  exists nx, w2, (set_hdr (Some h1) w).
  destruct (nx =? 0) eqn:Enx; cbn [negb] in H.
  - apply ret_ok in H as [_ ->]. exists (set_extra e3 h3).
    split; [reflexivity|]. split; [reflexivity|]. split; [exact Emk|].
    split; [assumption|]. split; [assumption|]. split; [assumption|].
    split; [assumption|]. exact Hw3.
  - apply updh_ok in H as (hh & Hhh & ->). rewrite Hh3 in Hhh.
    injection Hhh as <-. eexists.
    split; [reflexivity|]. split; [reflexivity|]. split; [exact Emk|].
    split; [assumption|]. split; [assumption|]. split; [reflexivity|].
    split; [reflexivity|]. exact Hw3.
Qed.


(** What [makeBucketArray(t, b, nil)] leaves: [2^b] zeroed buckets at the
    allocation frontier, behind them the pool if there is one; the memory
    below is untouched. *)
Lemma new_array_facts b w bk nx w2 :
  ArchOK -> TypeOK -> 0 <= b < wordBits -> 0 < brk w ->
  (4 <= b -> bucketsize t * (2 ^ b + 2 ^ (b - 4)) < 2 ^ wordBits) ->
  (forall a bm, heap w !! a = Some bm -> a + bucketsize t <= brk w) ->
  makeBucketArray b 0 w = Ok (bk, nx) w2 ->
  bk = brk w /\ hdr w2 = hdr w /\
  exists n,
    2 ^ b <= n /\ brk w2 = brk w + n * bucketsize t /\ brk w2 <= maxAlloc /\
    (forall i, 0 <= i < 2 ^ b ->
               heap w2 !! (brk w + i * bucketsize t) = Some zero_bmap) /\
    (forall a, a < brk w -> heap w2 !! a = heap w !! a) /\
    (forall a bm, heap w2 !! a = Some bm ->
       (a < brk w /\ heap w !! a = Some bm) \/
       (brk w <= a /\ a + bucketsize t <= brk w2 /\ occ_bmap bm = 0)) /\
    (forall G, (forall a, brk w <= a -> G !! a = None) ->
       if nx =? 0 then True
       else nx = brk w + 2 ^ b * bucketsize t /\
            exists m, pool_at (heap w2)
                              (reg_array G (brk w) (Z.to_nat (2 ^ b))) nx m) /\
    (nx = 0 \/ brk w < nx).
Proof.
  intros HA HT Hb Hbrk Hsz Hold Hmk.
  destruct (nbucketsFor_bounds b HA HT Hb Hsz) as (Hr & Hpool & Hsmall).
  pose proof (bucketsize_min HA HT) as HS.
  pose proof (type_bucket_size HT) as Ebs.
  pose proof (pow2_pos b ltac:(lia)) as Hp.
  rewrite (makeBucketArray_new b w HA HT Hb Hbrk Hr) in Hmk.
  destruct (Z.ltb_spec (nbucketsFor b) (2 ^ (wordBits - 1))) as [Hn | Hn];
    [|discriminate].
  destruct (Z.leb_spec (brk w + nbucketsFor b * bucketsize t) maxAlloc)
    as [Hm | Hm]; [|discriminate].
  cbn [andb] in Hmk. injection Hmk as <- <- <-.
  destruct (bucketArray_world_brk b w) as [Ebrk Ehdr].
  rewrite Ebs in Ebrk.
  split; [reflexivity|]. split; [exact Ehdr|].
  exists (nbucketsFor b). split; [lia|]. split; [exact Ebrk|].
  split; [lia|]. split; [|split; [|split; [|split]]].
  - intros i Hi. rewrite bucketArray_world_lookup by lia.
    destruct (Z.eqb_spec i (nbucketsFor b - 1)) as [-> | Hne];
      [|reflexivity].
    destruct (Z.eqb_spec (2 ^ b) (nbucketsFor b)); [reflexivity | lia].
  - intros a Ha. apply bucketArray_world_other; lia.
  - intros a bm Ha.
    destruct (Z_lt_le_dec a (brk w)) as [Hlt | Hge].
    + left. split; [assumption|].
      rewrite bucketArray_world_other in Ha by lia. exact Ha.
    + right. split; [assumption|].
      assert (Hin : exists i, 0 <= i < nbucketsFor b /\
                              a = brk w + i * bucketsize t).
      { unfold bucketArray_world in Ha.
        assert (Hf : forall bm0,
                   fill_buckets (heap w) (brk w) (Z.to_nat (nbucketsFor b))
                     !! a = Some bm0 ->
                   exists i, 0 <= i < nbucketsFor b /\
                             a = brk w + i * bucketsize t).
        { intros bm0 Hf.
          apply fill_buckets_lookup in Hf as [(i & Hi & -> & _) | [_ Hw]];
            [| |lia].
          - exists (Z.of_nat i). split; [lia | reflexivity].
          - apply Hold in Hw. lia. }
        destruct (2 ^ b =? nbucketsFor b); cbn [heap set_heap set_brk] in Ha.
        - eapply Hf; exact Ha.
        - destruct (Z.eq_dec a (brk w + (nbucketsFor b - 1) * bucketsize t))
            as [-> | Hne].
          + exists (nbucketsFor b - 1). split; [lia | reflexivity].
          + rewrite lookup_insert_ne in Ha by congruence.
            eapply Hf; exact Ha. }
      destruct Hin as (i & Hi & ->).
      rewrite bucketArray_world_lookup in Ha by lia.
      injection Ha as <-. rewrite Ebrk. split; [nia|].
      destruct (_ && _); [apply occ_zero_bmap | apply (occ_zero_bmap 0)].
  - intros G HG.
    destruct (Z.eqb_spec (2 ^ b) (nbucketsFor b)) as [E | E].
    + rewrite Z.eqb_refl. exact I.
    + assert (H4 : 4 <= b) by (destruct (Z_lt_le_dec b 4); [lia | assumption]).
      destruct (Z.eqb_spec (brk w + 2 ^ b * bucketsize t) 0); [nia|].
      split; [reflexivity|].
      destruct (makeBucketArray_pool b w G HA HT ltac:(lia) Hbrk (Hsz H4) Hn Hm
                  HG) as (w' & extras & Emk & Eex & _ & _ & _ & _ & Hpl).
      rewrite (makeBucketArray_new b w HA HT Hb Hbrk Hr) in Emk.
      destruct (Z.ltb_spec (nbucketsFor b) (2 ^ (wordBits - 1))); [|lia].
      destruct (Z.leb_spec (brk w + nbucketsFor b * bucketsize t) maxAlloc);
        [|lia].
      cbn [andb] in Emk.
      assert (Ew : bucketArray_world b w = w') by congruence.
      subst w'.
      exists extras. eapply pool_at_frame; [exact Hpl|].
      intros i Hi. split; [reflexivity|].
      rewrite reg_array_out; [apply HG; nia|].
      intros k Hk. nia.
  - destruct (Z.eqb_spec (2 ^ b) (nbucketsFor b)); [left; reflexivity|].
    right. nia.
Qed.


Lemma chain_ok_unevacuated H G a l bm :
  chain_ok H G a l -> a <> 0 -> H !! a = Some bm -> evacuated bm = false.
Proof.
  intros (C & _ & _ & F) Ha Hbm.
  destruct (chain_head _ _ _ C Ha) as (bm' & l' & -> & Hbm' & _).
  assert (bm' = bm) as -> by congruence.
  assert (Hin : cell_at bm a O ∈ cells_of H (a :: l')).
  { apply cells_of_elem; [apply list_elem_of_here | assumption | lia]. }
  rewrite Forall_forall in F. destruct (F _ Hin) as [Hc _].
  unfold cell_at in Hc. cbn [fst] in Hc. unfold evacuated.
  unfold emptyOne, minTopHash in *.
  destruct Hc as [Hc | Hc].
  - destruct (Z.ltb_spec 1 (b_tophash bm O)); [lia | reflexivity].
  - destruct (Z.ltb_spec (b_tophash bm O) 5); [lia|]. apply andb_false_r.
Qed.

Lemma Inv_below w h G b :
  ArchOK -> TypeOK -> Inv w h G -> is_Some (heap w !! b) -> 0 < b < brk w.
Proof.
  intros HA HT I [bm Hbm]. destruct (inv_heap _ _ _ I _ _ Hbm).
  pose proof (bucketsize_min HA HT). lia.
Qed.


(** The table after [hashGrow]: the buckets are those of the old array
    now, every bucket of the new array is pending, and every lookup walks
    the chain it walked before. *)
Lemma hashGrow_ok w h G w' :
  ArchOK -> TypeOK -> Inv w h G -> growing h = false -> buckets h <> 0 ->
  hashGrow w = Ok tt w' ->
  exists h' G',
    hdr w' = Some h' /\ Inv w' h' G' /\ writing h' = writing h /\
    hash0 h' = hash0 h /\ growing h' = true /\
    progress w h w' h' /\ keeps w h w' h'.
Proof.
  intros HA HT I Hng Hb Hrun.
  pose proof (inv_hdr _ _ _ I) as Hh.
  destruct (hashGrow_header w h w' Hh Hrun)
    as (h' & Hh' & Eo & Ene & Eno & Ec & Eh0 & Ebk & HB).
  destruct (hashGrow_world w h w' Hh Hrun)
    as (nx & w2 & w1 & h'' & EH1 & Eb1 & Emk & EH' & Eb' & Hh'' & Ep & Ew).
  assert (h'' = h') as -> by congruence.
  set (ov := overLoadFactor (int_of (count h + 1)) (B h)) in *.
  set (b' := B h + if ov then 1 else 0).
  pose proof (Inv_B _ _ _ HA HT I) as HBr.
  pose proof (bucketsize_min HA HT) as HS.
  pose proof (inv_brk _ _ _ I) as Hbrk.
  destruct (inv_arr _ _ _ I Hb) as [Hbk0 Harr].
  pose proof (pow2_pos (B h) ltac:(lia)) as HpB.
  assert (Hwb : 32 <= wordBits <= 64)
    by (destruct (wordBits_cases HA) as [E | E]; rewrite E; lia).
  assert (Hb' : 0 <= b' < wordBits) by (unfold b'; destruct ov; lia).
  assert (Ew8 : forall x, 0 <= x < 256 -> wrap8 x = x)
    by (intros x Hx; unfold wrap8; apply Z.mod_small; change (2 ^ 8) with 256;
        lia).
  assert (EB' : B h' = b').
  { unfold b'. destruct ov; destruct HB as [-> _]; apply Ew8; lia. }
  assert (Ess : is_sameSizeGrow h' = negb ov).
  { destruct ov; destruct HB as [_ ->]; [|reflexivity].
    apply (inv_idle _ _ _ I Hng). }
  assert (Earg : wrap8 (B h + (if negb ov then 0 else 1)) = b').
  { unfold b'. destruct ov; cbn [negb]; apply Ew8; lia. }
  rewrite Earg in Emk.
  assert (H2b : 2 ^ b' <= 2 * 2 ^ B h).
  { unfold b'. destruct ov; [rewrite pow2_succ by lia | rewrite Z.add_0_r];
      lia. }
  assert (HpB' : 2 ^ B h <= 2 ^ b')
    by (apply pow2_le; unfold b'; destruct ov; lia).
  assert (Hsz : 4 <= b' -> bucketsize t * (2 ^ b' + 2 ^ (b' - 4))
                           < 2 ^ wordBits).
  { intros H4. pose proof (arch_maxAlloc HA) as [_ HM].
    assert (2 ^ (b' - 4) <= 2 ^ B h)
      by (apply pow2_le; unfold b'; destruct ov; lia).
    nia. }
  destruct (new_array_facts b' w1 (brk w) nx w2 HA HT Hb')
    as (_ & _ & n & Hn1 & Ebrk2 & Hmax & Hzero & Hsame & Hinv & Hpool & Hnx).
  { rewrite Eb1. lia. }
  { exact Hsz. }
  { intros a bm Ha. rewrite EH1 in Ha. rewrite Eb1.
    apply (inv_heap _ _ _ I _ _ Ha). }
  { exact Emk. }
  rewrite Eb1 in *. rewrite <- EH' in *. rewrite <- Eb' in *.
  assert (Hsame' : forall a, is_Some (heap w !! a) ->
                             heap w' !! a = heap w !! a).
  { intros a Ha. rewrite Hsame, EH1; [reflexivity|].
    apply (Inv_below _ _ _ a HA HT I Ha). }
  set (G' := reg_array G (brk w) (Z.to_nat (2 ^ b'))).
  assert (HGfree : forall a, brk w <= a -> G !! a = None).
  { intros a Ha. destruct (G !! a) as [g |] eqn:Eg; [|reflexivity].
    pose proof (Inv_below _ _ _ a HA HT I (inv_G _ _ _ I _ _ Eg)). lia. }
  assert (HGin : forall i, 0 <= i < 2 ^ b' ->
                   G' !! (brk w + i * bucketsize t)
                   = Some (brk w + i * bucketsize t)).
  { intros i Hi. destruct (index_nat i _ Hi) as (k & Hk & ->).
    apply reg_array_in; [lia | exact Hk]. }
  assert (HGmono : forall b g, G !! b = Some g -> G' !! b = Some g).
  { intros b g Hbg. apply reg_array_mono; [|exact Hbg].
    intros i Hi. apply HGfree. nia. }
  assert (Enew : forall i, newb h' i = brk w + i * bucketsize t)
    by (intros i; unfold newb; rewrite Ebk; reflexivity).
  assert (Eold : forall i, oldb h' i = newb h i)
    by (intros i; unfold oldb, newb; rewrite Eo; reflexivity).
  assert (Enold : noldbuckets h' = 2 ^ B h).
  { unfold noldbuckets. rewrite Ess, EB'. unfold b'.
    destruct ov; cbn [negb].
    - replace (B h + 1 - 1) with (B h) by lia. rewrite Ew8 by lia.
      apply bucketShift_pow; [assumption | lia].
    - rewrite Z.add_0_r. apply bucketShift_pow; [assumption | lia]. }
  assert (Hg' : growing h' = true).
  { unfold growing. rewrite Eo. apply negb_true_iff, Z.eqb_neq. exact Hb. }
  assert (Hold : forall j, 0 <= j < 2 ^ B h ->
            exists bm l, heap w' !! newb h j = Some bm /\
                         evacuated bm = false /\
                         chain_ok (heap w') G' (newb h j) l /\
                         chain_ok (heap w) G (newb h j) l /\
                         heap w !! newb h j = Some bm).
  { intros j Hj. destruct (inv_new _ _ _ I Hb j Hj) as (l & Cl & _).
    destruct (Inv_bucketsize_fits w h G j HA HT I Hb Hj) as (Hpos & _).
    pose proof Cl as (C & _).
    destruct (chain_head _ _ _ C ltac:(lia)) as (bm & l' & El & Hbm & _).
    exists bm, l. split; [rewrite Hsame'; eauto|].
    split; [eapply chain_ok_unevacuated; [exact Cl | lia | exact Hbm]|].
    split; [|split; assumption].
    eapply chain_ok_frame; [exact Cl | | exact HGmono].
    intros b Hbl. apply Hsame'. eapply chain_in; eassumption. }
  exists h', G'. split; [assumption|]. split; [|split; [|split; [|split;
    [|split]]]]; try assumption.
  - constructor.
    + assumption.
    + nia.
    + intros a bm Ha. destruct (Hinv a bm Ha) as [[Hlt Hw] | (Hge & Hle & _)].
      * rewrite EH1 in Hw. destruct (inv_heap _ _ _ I _ _ Hw). nia.
      * lia.
    + intros b g Hbg. apply reg_array_lookup in Hbg
        as [(i & Hi & -> & _) | [_ Hbg]]; [| |lia].
      * rewrite Hzero by lia. eauto.
      * rewrite Hsame'; apply (inv_G _ _ _ I _ _ Hbg).
    + lia.
    + rewrite Ec, (inv_count _ _ _ I). unfold G'.
      rewrite total_occ_reg_array.
      * apply total_occ_ext. intros b [g Hbg]. unfold occ_at.
        rewrite Hsame'; [reflexivity|]. apply (inv_G _ _ _ I _ _ Hbg).
      * lia.
      * intros i Hi. apply HGfree. nia.
      * intros i Hi. unfold occ_at. rewrite Hzero by lia.
        apply (occ_zero_bmap 0).
    + intros E0. rewrite Ebk in E0. lia.
    + intros _. rewrite Ebk, EB'. nia.
    + intros _ i Hi. rewrite EB' in Hi. rewrite Enew.
      destruct (fresh_chain_ok (heap w') G' (brk w + i * bucketsize t))
        as [Cl Hf]; [apply Hzero; lia | nia | apply HGin; lia |].
      exists [brk w + i * bucketsize t]. split; [exact Cl | intros _; exact Hf].
    + intros _. rewrite Enold, Ebk, Eo, Ene, EB', Ess.
      split; [lia|]. split; [lia|]. split; [lia|].
      split; [intros E; unfold b'; destruct ov; [lia | discriminate]|].
      split; [lia|]. split; [intros; lia|].
      intros j Hj. rewrite Eold.
      destruct (Hold j Hj) as (bm & l & Hbm & Ev & Cl & _).
      exists bm. split; [exact Hbm|]. split.
      * apply HGmono. eapply Inv_new_reg; eassumption.
      * intros _. exists l. exact Cl.
    + intros E. congruence.
    + destruct (Z.eqb_spec nx 0) as [E0 | E0].
      * rewrite Ep. destruct (inv_pool _ _ _ I) as (m & Hm). exists m.
        eapply pool_at_frame; [exact Hm|]. intros i Hi.
        destruct (pool_at_lookup _ _ _ _ i Hm Hi) as [HGn Hsome].
        split; [apply Hsame'; exact Hsome|].
        pose proof (Inv_below _ _ _ _ HA HT I Hsome).
        unfold G'. rewrite reg_array_out; [exact HGn|].
        intros k Hk. nia.
      * rewrite Ep. specialize (Hpool G HGfree).
        destruct (nx =? 0) eqn:En0; [apply Z.eqb_eq in En0; contradiction|].
        destruct Hpool as (_ & m & Hm). exists m. exact Hm.
  - split; [nia|]. split; [intros _; right; left; exact Eo|].
    split; [intros _; right; lia|]. intros Hg. congruence.
  - intros key v _ (x & a & l & b & c & Hx & Hl & Hc & Hf).
    pose proof (mod_index_range _ _ _ (wrap x) I) as Hi.
    destruct Hl as [[(Hg & _) _] | [_ ->]]; [congruence|].
    destruct (Hold _ Hi) as (bm & l0 & Hbm & Ev & Cl' & Cl & Hbm0).
    assert (l0 = l) as -> by (eapply chain_det; [apply Cl | exact Hc]).
    assert (Hmm : (wrap x mod 2 ^ b') mod 2 ^ B h = wrap x mod 2 ^ B h).
    { apply Z.mod_mod_divide. exists (if ov then 2 else 1). unfold b'.
      destruct ov; [rewrite pow2_succ by lia | rewrite Z.add_0_r]; lia. }
    exists x, (newb h (wrap x mod 2 ^ B h)), l, b, c.
    rewrite Eh0. split; [assumption|]. split; [|split].
    + left. rewrite EB', Enold, Eold. split; [|reflexivity].
      split; [assumption|]. exists bm. rewrite Enold, Hmm, Eold.
      split; assumption.
    + apply Cl'.
    + rewrite (cells_of_ext (heap w) (heap w') l); [exact Hf|].
      intros b0 Hb0. apply Hsame'. eapply chain_in; eassumption.
Qed.


(** ** The walk of [mapassign] *)

(** The first empty cell of a sequence of cells. *)
Fixpoint first_empty {A : Type} (cs : list (Z * K * A)) : option A :=
  match cs with
  | [] => None
  | (x, k, a) :: cs' => if isEmpty x then Some a else first_empty cs'
  end.

(** [inserti] after a scan of cells with first empty cell [fe]. *)
Definition or_ins (ins : option (Z * nat)) (fe : option (Z * nat * V))
  : option (Z * nat) :=
  match ins with
  | Some s => Some s
  | None => option_map fst fe
  end.

Lemma first_empty_app {A : Type} (l1 l2 : list (Z * K * A)) :
  first_empty (l1 ++ l2)
  = match first_empty l1 with
    | Some a => Some a
    | None => first_empty l2
    end.
Proof.
  induction l1 as [| [[x k] a] l1 IH]; [reflexivity|].
  cbn [app first_empty]. destruct (isEmpty x); [reflexivity | exact IH].
Qed.

Lemma first_empty_Some {A : Type} (cs : list (Z * K * A)) a :
  first_empty cs = Some a ->
  exists pre x k post,
    cs = pre ++ (x, k, a) :: post /\ isEmpty x = true /\
    Forall (fun c => isEmpty (fst (fst c)) = false) pre.
Proof.
  induction cs as [| [[x k] a'] cs IH]; [discriminate|].
  cbn [first_empty]. destruct (isEmpty x) eqn:Ex.
  - intros [= ->]. exists [], x, k, cs. auto.
  - intros Hm. destruct (IH Hm) as (pre & x' & k' & post & -> & Hx & HF).
    exists ((x, k, a') :: pre), x', k', post. split; [reflexivity|].
    split; [assumption|]. constructor; assumption.
Qed.

Lemma first_empty_None {A : Type} (cs : list (Z * K * A)) :
  first_empty cs = None ->
  Forall (fun c => isEmpty (fst (fst c)) = false) cs.
Proof.
  induction cs as [| [[x k] a'] cs IH]; [constructor|].
  cbn [first_empty]. destruct (isEmpty x) eqn:Ex; [discriminate|].
  intros Hm. constructor; [exact Ex | apply IH; exact Hm].
Qed.

Lemma or_ins_app ins (l1 l2 : list (Z * K * (Z * nat * V))) :
  or_ins (or_ins ins (first_empty l1)) (first_empty l2)
  = or_ins ins (first_empty (l1 ++ l2)).
Proof.
  rewrite first_empty_app. destruct ins as [s |]; [reflexivity|].
  cbn [or_ins]. destruct (first_empty l1); reflexivity.
Qed.

(** The inner loop of [mapassign] on the cells of a bucket. *)
Lemma assign_cells_spec b bm key top ins cs
      (rest : list (Z * K * (Z * nat * V))) :
  minTopHash <= top ->
  match assign_cells b bm key top ins cs with
  | AHit i =>
      first_match key top (map (cell_at bm b) cs ++ rest)
      = Some (b, i, b_elems bm i)
  | AStop ins' =>
      first_match key top (map (cell_at bm b) cs ++ rest) = None /\
      ins' = or_ins ins (first_empty (map (cell_at bm b) cs)) /\
      ins' <> None
  | ANext ins' =>
      first_match key top (map (cell_at bm b) cs ++ rest)
      = first_match key top rest /\
      ins' = or_ins ins (first_empty (map (cell_at bm b) cs))
  end.
Proof.
  intros Htop. revert ins.
  induction cs as [| c cs IH]; intros ins.
  - cbn. split; [reflexivity|]. destruct ins; reflexivity.
  - cbn [map app first_match assign_cells first_empty cell_at].
    fold (cell_at bm b).
    destruct (Z.eqb_spec (b_tophash bm c) top) as [E | E]; cbn [negb].
    + assert (Hne : isEmpty (b_tophash bm c) = false).
      { unfold isEmpty. rewrite E. apply Z.leb_gt.
        unfold emptyOne, minTopHash in *. lia. }
      rewrite Hne.
      destruct (key_equal t key (b_keys bm c)); cbn [negb]; [reflexivity|].
      apply IH.
    + destruct (Z.eqb_spec (b_tophash bm c) emptyRest) as [E0 | E0].
      * assert (He : isEmpty (b_tophash bm c) = true) by (rewrite E0; reflexivity).
        rewrite He. cbn [andb]. split; [reflexivity|].
        destruct ins as [s |]; cbn; split; (reflexivity || discriminate).
      * specialize (IH (if isEmpty (b_tophash bm c)
                           && match ins with
                              | Some _ => false
                              | None => true
                              end
                        then Some (b, c) else ins)).
        destruct (assign_cells b bm key top _ cs) as [i | ins' | ins'];
          [exact IH | |].
        -- destruct IH as (H1 & H2 & H3). split; [exact H1|].
           split; [|exact H3]. rewrite H2.
           destruct (isEmpty (b_tophash bm c)); destruct ins; reflexivity.
        -- destruct IH as (H1 & H2). split; [exact H1|]. rewrite H2.
           destruct (isEmpty (b_tophash bm c)); destruct ins; reflexivity.
Qed.

(** The outer loop: the cell of the key if the walk of a lookup finds
    it; otherwise the first empty cell of the chain, and the last bucket
    of the chain if it has none. *)
Lemma assign_chain_spec w key top :
  minTopHash <= top ->
  forall l b fuel ins0,
    chain (heap w) b l -> b <> 0 -> (length l <= fuel)%nat ->
    exists ins lastb,
      assign_chain fuel b key top ins0 w
      = Ok (option_map fst (first_match key top (cells_of (heap w) l)),
            ins, lastb) w /\
      (first_match key top (cells_of (heap w) l) = None ->
       ins = or_ins ins0 (first_empty (cells_of (heap w) l)) /\
       (ins = None -> exists l', l = l' ++ [lastb])).
Proof.
  intros Htop l. induction l as [| a l IH]; intros b fuel ins0 C Hb Hf.
  - inversion C; subst. contradiction.
  - inversion C as [| b' bm l' Hb' Hbm C']; subst.
    destruct fuel as [| fuel]; [cbn in Hf; lia|].
    cbn [assign_chain]. unfold bind at 1. unfold load. rewrite Hbm.
    cbn beta iota. rewrite (cells_of_cons _ _ _ _ Hbm), bucket_cells_eq.
    pose proof (assign_cells_spec a bm key top ins0 cellIndexes
                  (cells_of (heap w) l) Htop) as Hs.
    destruct (assign_cells a bm key top ins0 cellIndexes) as [i | ins' | ins'].
    + rewrite Hs. exists ins0, a. split; [reflexivity|]. discriminate.
    + destruct Hs as (H1 & H2 & H3). rewrite H1.
      exists ins', a. split; [reflexivity|]. intros _.
      split; [|contradiction].
      rewrite H2, first_empty_app. destruct ins0 as [s |]; [reflexivity|].
      cbn [or_ins].
      destruct (first_empty (map (cell_at bm a) cellIndexes)) eqn:Efe;
        [reflexivity|].
      exfalso. apply H3. rewrite H2. reflexivity.
    + destruct Hs as (H1 & H2). rewrite H1.
      destruct (Z.eqb_spec (b_overflow bm) 0) as [E0 | E0].
      * rewrite E0 in C'.
        assert (l = []) as -> by (inversion C'; [reflexivity | congruence]).
        cbn [cells_of flat_map first_match]. rewrite app_nil_r.
        exists ins', a. split; [reflexivity|]. intros _.
        split; [rewrite H2; reflexivity|]. intros _. exists []. reflexivity.
      * destruct (IH (b_overflow bm) fuel ins' C' E0 ltac:(cbn in Hf; lia))
          as (ins & lastb & Ha & Hn).
        rewrite Ha. exists ins, lastb. split; [reflexivity|].
        intros Hnone. destruct (Hn Hnone) as [Hi Hl].
        split.
        -- rewrite Hi, H2. apply or_ins_app.
        -- intros Ei. destruct (Hl Ei) as (l'' & ->).
           exists (a :: l''). reflexivity.
Qed.


(** ** Rewriting the chain of a bucket in use *)

Section ChainUpdate.
Variables (w w' : world K V) (h h' : hmap) (G G' : gmap Z Z) (i0 : Z)
          (l l' : list Z).
Hypothesis HA : ArchOK.
Hypothesis HT : TypeOK.
Hypothesis I : Inv w h G.
Hypothesis Hb : buckets h <> 0.
Hypothesis Hi0 : 0 <= i0 < 2 ^ B h.
Hypothesis Hnp : ~ pending (heap w) h i0.
Hypothesis HS : same_shape h h'.
Hypothesis HG : forall b g, G !! b = Some g -> G' !! b = Some g.
Hypothesis Hframe : forall a g, G !! a = Some g -> g <> newb h i0 ->
                                heap w' !! a = heap w !! a.

Lemma cu_new0 i :
  0 <= i < 2 ^ B h -> newb h i = newb h i0 -> ~ pending (heap w) h i.
Proof.
  intros Hi E. pose proof (bucketsize_min HA HT).
  apply newb_inj in E; [|lia]. subst i. exact Hnp.
Qed.

Lemma cu_old0 j :
  growing h = true -> 0 <= j < noldbuckets h -> oldb h j = newb h i0 ->
  evacuated_at (heap w) (newb h i0) /\ evacuated_at (heap w') (newb h i0).
Proof.
  intros Hg Hj E. exfalso.
  eapply (Inv_new_old w h G i0 j); try eassumption. symmetry. exact E.
Qed.

Lemma cu_Inv :
  chain_ok (heap w') G' (newb h i0) l' ->
  hdr w' = Some h' -> nevacuate h' = nevacuate h ->
  brk w <= brk w' <= maxAlloc ->
  (forall a bm, heap w' !! a = Some bm ->
                0 < a /\ a + bucketsize t <= brk w') ->
  (forall b g, G' !! b = Some g -> is_Some (heap w' !! b)) ->
  count h' = total_occ (heap w') G' ->
  (exists n, pool_at (heap w') G' (pool_cursor h') n) ->
  Inv w' h' G'.
Proof.
  intros Hc' Hh Ene Hbrk Hheap HG' Hcnt Hpool.
  pose proof cu_new0 as Hnew0. pose proof cu_old0 as Hold0.
  eapply Inv_update with (w := w) (h := h) (G := G) (g0 := newb h i0);
    try eassumption.
  intros i Hi E. exists l'. exact Hc'.
Qed.

Lemma cu_found key v :
  chain (heap w') (newb h i0) l' ->
  found w h key v ->
  (forall x b c,
     hasher t key (hash0 h) 0 = Some x -> wrap x mod 2 ^ B h = i0 ->
     first_match key (tophash (wrap x)) (cells_of (heap w) l) = Some (b, c, v) ->
     exists b' c',
       first_match key (tophash (wrap x)) (cells_of (heap w') l')
       = Some (b', c', v)) ->
  chain (heap w) (newb h i0) l ->
  found w' h' key v.
Proof.
  intros Hc' Hf Hsame Hc.
  pose proof cu_new0 as Hnew0. pose proof cu_old0 as Hold0.
  eapply found_update with (w := w) (h := h) (G := G) (g0 := newb h i0);
    try eassumption.
  intros x l0 b c Hx E Hc0 Hm.
  assert (l0 = l) as -> by (eapply chain_det; eassumption).
  pose proof (bucketsize_min HA HT).
  apply newb_inj in E; [|lia].
  destruct (Hsame x b c Hx E Hm) as (b' & c' & Hm').
  exists l', b', c'. split; assumption.
Qed.

Lemma cu_not_pending : ~ pending (heap w') h' i0.
Proof.
  pose proof cu_new0 as Hnew0. pose proof cu_old0 as Hold0.
  intros Hp. apply (pending_shape _ h h' i0 HS) in Hp. apply Hnp.
  eapply upd_pending with (w := w) (w' := w') (G := G) (g0 := newb h i0);
    eassumption.
Qed.

End ChainUpdate.

(** A lookup whose hash leads to a bucket that is not pending. *)
Lemma found_intro w h key x l b c v :
  hasher t key (hash0 h) 0 = Some x ->
  ~ pending (heap w) h (wrap x mod 2 ^ B h) ->
  chain (heap w) (newb h (wrap x mod 2 ^ B h)) l ->
  first_match key (tophash (wrap x)) (cells_of (heap w) l) = Some (b, c, v) ->
  found w h key v.
Proof.
  intros Hx Hnp Hc Hm.
  exists x, (newb h (wrap x mod 2 ^ B h)), l, b, c.
  split; [assumption|]. split; [|split; assumption].
  right. split; [assumption | reflexivity].
Qed.

(** The walk for a key equal to [key] is the walk for [key]. *)
Lemma first_match_equal {A : Type} key key' top (cs : list (Z * K * A)) :
  TypeOK -> key_equal t key' key = true ->
  first_match key' top cs = first_match key top cs.
Proof.
  intros HT E. induction cs as [| [[x k] a] cs IH]; [reflexivity|].
  cbn [first_match]. rewrite IH.
  assert (Ek : key_equal t key' k = key_equal t key k).
  { destruct (key_equal t key k) eqn:E1.
    - eapply type_equal_trans; eassumption.
    - destruct (key_equal t key' k) eqn:E2; [|reflexivity].
      rewrite <- E1. symmetry. eapply (type_equal_trans HT); [|exact E2].
      apply (type_equal_sym HT); assumption. }
  rewrite Ek. reflexivity.
Qed.

Lemma first_match_replace key top (cs : list (Z * K * (Z * nat * V)))
      b c new a :
  first_match key top cs = Some a -> fst a <> (b, c) ->
  passes key top new ->
  first_match key top (map (replace_cell b c new) cs) = Some a.
Proof.
  intros Hm Hne Hp. induction cs as [| [[x k] a'] cs IH]; [discriminate|].
  cbn [map]. unfold replace_cell at 1. unfold cell_pos. cbn [fst snd].
  destruct ((fst (fst a') =? b) && Nat.eqb (snd (fst a')) c) eqn:Epos.
  - apply andb_true_iff in Epos as [E1 E2].
    apply Z.eqb_eq in E1. apply Nat.eqb_eq in E2.
    rewrite first_match_pass by exact Hp. apply IH.
    cbn [first_match] in Hm.
    destruct (negb (x =? top)).
    + destruct (x =? emptyRest); [discriminate | exact Hm].
    + destruct (key_equal t key k); [|exact Hm].
      injection Hm as ->. exfalso. apply Hne.
      destruct a as [[pb pc] v]. cbn in *. congruence.
  - cbn [first_match] in *.
    destruct (negb (x =? top)).
    + destruct (x =? emptyRest); [discriminate | apply IH; exact Hm].
    + destruct (key_equal t key k); [exact Hm | apply IH; exact Hm].
Qed.

Lemma first_match_no_match {A : Type} key top (pre tail : list (Z * K * A)) a :
  Forall (fun c => ~ (fst (fst c) = top /\
                      key_equal t key (snd (fst c)) = true)) tail ->
  first_match key top (pre ++ tail) = Some a ->
  first_match key top pre = Some a.
Proof.
  intros Ht Hm. apply first_match_app_inv in Hm as [Hm | [_ Hm]];
    [exact Hm|].
  exfalso. apply first_match_Some in Hm as (p & k & q & -> & _ & Ek).
  rewrite Forall_app in Ht. destruct Ht as [_ Ht].
  apply Forall_cons in Ht as [Hc _]. apply Hc. cbn. auto.
Qed.


(** ** Changing one cell of a chain in use *)

Lemma tidy_cons x l :
  tidy (x :: l) <->
  (x = emptyRest -> Forall (fun y => occupied y = false) l) /\
  (x = emptyOne -> Exists (fun y => occupied y = true) l) /\ tidy l.
Proof.
  unfold tidy. cbn [shortcut trailing]. tauto.
Qed.

Lemma tidy_nil : tidy [].
Proof. split; exact I. Qed.

Lemma tidy_suffix l1 l2 : tidy (l1 ++ l2) -> tidy l2.
Proof.
  induction l1 as [| x l1 IH]; [auto|].
  cbn [app]. rewrite tidy_cons. intros (_ & _ & Ht). auto.
Qed.

Lemma tidy_app_nonempty pre l :
  Forall (fun y => isEmpty y = false) pre -> tidy l -> tidy (pre ++ l).
Proof.
  intros Hp Hl. induction Hp as [| x pre Hx Hp IH]; [exact Hl|].
  cbn [app]. apply tidy_cons.
  unfold isEmpty in Hx. apply Z.leb_gt in Hx.
  unfold emptyOne, emptyRest in *.
  split; [intros; lia|]. split; [intros; lia | exact IH].
Qed.

Lemma occupied_nonempty x : occupied x = true -> isEmpty x = false.
Proof.
  unfold occupied, isEmpty, minTopHash, emptyOne.
  intros Hx. apply Z.leb_le in Hx. apply Z.leb_gt. lia.
Qed.

Lemma occupied_tophash x : occupied (tophash x) = true.
Proof. apply Z.leb_le. apply tophash_range. Qed.

Lemma tidy_insert pre x post top :
  tidy (pre ++ x :: post) ->
  Forall (fun y => isEmpty y = false) pre -> occupied top = true ->
  tidy (pre ++ top :: post).
Proof.
  intros Ht Hp Hx. apply tidy_app_nonempty; [exact Hp|].
  apply tidy_suffix in Ht. apply tidy_cons in Ht as (_ & _ & Ht).
  apply tidy_cons. apply occupied_nonempty in Hx.
  unfold isEmpty in Hx. apply Z.leb_gt in Hx.
  unfold emptyOne, emptyRest in *.
  split; [intros; lia|]. split; [intros; lia | exact Ht].
Qed.

Lemma cells_of_split H l b bm c :
  b ∈ l -> H !! b = Some bm -> (c < 8)%nat ->
  exists pre post, cells_of H l = pre ++ cell_at bm b c :: post.
Proof.
  intros Hb Hbm Hc.
  pose proof (cells_of_elem H l b bm c Hb Hbm Hc) as Hin.
  apply list_elem_of_split in Hin as (pre & post & E). eauto.
Qed.

Lemma tops_of_cells H l :
  tops_of H l = map (fun c => fst (fst c)) (cells_of H l).
Proof. reflexivity. Qed.

Section CellUpdate.
Variables (w w' : world K V) (h h' : hmap) (G : gmap Z Z) (i0 : Z)
          (l : list Z) (b : Z) (c : nat) (bm bm' : bmap K V)
          (pre post : list (Z * K * (Z * nat * V))).
Hypothesis HA : ArchOK.
Hypothesis HT : TypeOK.
Hypothesis I : Inv w h G.
Hypothesis Hb : buckets h <> 0.
Hypothesis Hi0 : 0 <= i0 < 2 ^ B h.
Hypothesis Hnp : ~ pending (heap w) h i0.
Hypothesis HC : chain_ok (heap w) G (newb h i0) l.
Hypothesis Hbl : b ∈ l.
Hypothesis Hbm : heap w !! b = Some bm.
Hypothesis Hsame : same_but c bm bm'.
Hypothesis Hc8 : (c < 8)%nat.
Hypothesis Hcells : cells_of (heap w) l = pre ++ cell_at bm b c :: post.
Hypothesis Hheap : heap w' = <[b := bm']> (heap w).
Hypothesis Hbrk : brk w' = brk w.
Hypothesis Hh' : hdr w' = Some h'.
Hypothesis HS : same_shape h h'.

Lemma cup_cells :
  cells_of (heap w') l = pre ++ cell_at bm' b c :: post.
Proof.
  rewrite Hheap, (cells_of_replace _ _ _ _ _ _ Hbm Hsame).
  eapply replace_cell_split; [|exact Hcells | reflexivity].
  apply cells_of_NoDup. eapply chain_NoDup. apply HC.
Qed.

Lemma cup_chain : chain (heap w') (newb h i0) l.
Proof.
  destruct HC as (C & _). eapply chain_ext; [exact C|].
  intros x bmx Hx Hbmx. rewrite Hheap.
  destruct (Z.eq_dec x b) as [-> | Hne].
  - exists bm'. rewrite lookup_insert_eq. split; [reflexivity|].
    assert (bmx = bm) as -> by congruence. apply Hsame.
  - exists bmx. rewrite lookup_insert_ne by congruence. auto.
Qed.

Lemma cup_frame a g :
  G !! a = Some g -> g <> newb h i0 -> heap w' !! a = heap w !! a.
Proof.
  intros Ha Hne. rewrite Hheap. apply lookup_insert_ne. intros <-.
  destruct HC as (_ & Ho & _). rewrite (Ho _ Hbl) in Ha. congruence.
Qed.

Lemma cup_registered : G !! b = Some (newb h i0).
Proof. destruct HC as (_ & Ho & _). apply Ho. exact Hbl. Qed.

(** The invariant, when the new cell keeps the chain tidy. *)
Lemma cup_Inv :
  tidy (map (fun x => fst (fst x)) (pre ++ cell_at bm' b c :: post)) ->
  cell_ok (cell_at bm' b c) ->
  nevacuate h' = nevacuate h -> pool_cursor h' = pool_cursor h ->
  count h' = count h + (if occupied (b_tophash bm' c) then 1 else 0)
             - (if occupied (b_tophash bm c) then 1 else 0) ->
  Inv w' h' G /\ chain_ok (heap w') G (newb h i0) l /\
  ~ pending (heap w') h' i0.
Proof.
  intros Ht Hok Ene Ep Ec.
  pose proof cup_frame as Hframe.
  assert (HG : forall b0 g, G !! b0 = Some g -> G !! b0 = Some g) by auto.
  assert (HC' : chain_ok (heap w') G (newb h i0) l).
  { split; [apply cup_chain|]. split; [apply HC|].
    rewrite tops_of_cells, cup_cells. split; [exact Ht|].
    destruct HC as (_ & _ & _ & F). rewrite Hcells in F.
    rewrite Forall_app, Forall_cons in F. destruct F as (F1 & _ & F2).
    rewrite Forall_app, Forall_cons. auto. }
  split; [|split; [exact HC'|]].
  - eapply cu_Inv with (w := w) (h := h) (G := G) (i0 := i0) (l' := l);
      try eassumption.
    + pose proof (inv_brk _ _ _ I). lia.
    + intros a bma Ha. rewrite Hheap in Ha. rewrite Hbrk.
      destruct (Z.eq_dec a b) as [-> | Hne].
      * apply (inv_heap _ _ _ I _ _ Hbm).
      * rewrite lookup_insert_ne in Ha by congruence.
        apply (inv_heap _ _ _ I _ _ Ha).
    + intros b0 g Hb0. rewrite Hheap.
      destruct (Z.eq_dec b0 b) as [-> | Hne].
      * rewrite lookup_insert_eq. eauto.
      * rewrite lookup_insert_ne by congruence.
        apply (inv_G _ _ _ I _ _ Hb0).
    + rewrite Ec, (inv_count _ _ _ I).
      rewrite (total_occ_update (heap w) (heap w') G b _ cup_registered).
      * unfold occ_at. rewrite Hheap, lookup_insert_eq, Hbm.
        assert (E : occ_bmap bm'
                    = occ_bmap (set_tophash c (b_tophash bm' c) bm)).
        { apply occ_bmap_ext. intros c' Hc'. cbn [b_tophash set_tophash].
          unfold upd. destruct (Nat.eqb_spec c' c) as [-> | Hne];
            [reflexivity|]. apply Hsame. exact Hne. }
        rewrite E, occ_bmap_set_tophash by exact Hc8. lia.
      * intros b' Hne _. unfold occ_at. rewrite Hheap.
        rewrite lookup_insert_ne by congruence. reflexivity.
    + rewrite Ep. destruct (inv_pool _ _ _ I) as (n & Hn). exists n.
      eapply pool_at_registry; [exact Hn|]. intros a Ha. rewrite Hheap.
      apply lookup_insert_ne. intros <-. rewrite cup_registered in Ha.
      discriminate.
  - eapply cu_not_pending with (w := w) (h := h) (G := G) (i0 := i0);
      eassumption.
Qed.

(** A lookup keeps its result when the cell was not its match and the
    new cell does not stop it. *)
Lemma cup_found key v :
  found w h key v ->
  (forall x, hasher t key (hash0 h) 0 = Some x ->
             ~ (b_tophash bm c = tophash (wrap x) /\
                key_equal t key (b_keys bm c) = true) /\
             passes key (tophash (wrap x)) (cell_at bm' b c)) ->
  found w' h' key v.
Proof.
  intros Hf Hkey.
  pose proof cup_frame as Hframe.
  assert (HG : forall b0 g, G !! b0 = Some g -> G !! b0 = Some g) by auto.
  eapply cu_found with (w := w) (h := h) (G := G) (i0 := i0) (l := l)
                       (l' := l); try eassumption.
  - apply cup_chain.
  - intros x b1 c1 Hx Ei Hm. exists b1, c1.
    destruct (Hkey x Hx) as [Hno Hp].
    rewrite Hheap, (cells_of_replace _ _ _ _ _ _ Hbm Hsame).
    apply first_match_replace; [exact Hm | | exact Hp].
    cbn [fst]. intros E. injection E as -> ->.
    apply first_match_Some in Hm as (p & k & q & Ecs & _ & Ek).
    assert (Hin : (tophash (wrap x), k, (b, c, v)) ∈ cells_of (heap w) l).
    { rewrite Ecs. apply elem_of_app. right. apply list_elem_of_here. }
    apply cells_of_in in Hin as (_ & _ & bm0 & Hbm0 & Et & Ekk & _).
    assert (bm0 = bm) as -> by congruence.
    apply Hno. split; [symmetry; exact Et | rewrite <- Ekk; exact Ek].
  - apply HC.
Qed.

End CellUpdate.


(** ** A new overflow bucket behind a full chain *)

Lemma cells_of_same_cells H H' l :
  (forall a, a ∈ l ->
     exists bm bm', H !! a = Some bm /\ H' !! a = Some bm' /\
                    bucket_cells a bm' = bucket_cells a bm) ->
  cells_of H' l = cells_of H l.
Proof.
  induction l as [| a l IH]; intros Hl; [reflexivity|].
  unfold cells_of in *. cbn [flat_map].
  destruct (Hl a (list_elem_of_here _ _)) as (bm & bm' & -> & -> & ->).
  f_equal. apply IH. intros a' Ha'. apply Hl. apply list_elem_of_further.
  exact Ha'.
Qed.

Lemma full_chain_occupied H G a l :
  chain_ok H G a l -> first_empty (cells_of H l) = None ->
  Forall (fun x => occupied x = true) (tops_of H l).
Proof.
  intros (_ & _ & _ & F) Hfe. apply first_empty_None in Hfe.
  unfold tops_of. apply Forall_fmap. apply Forall_forall.
  intros cl Hin. rewrite Forall_forall in F, Hfe.
  destruct (F cl Hin) as [Hc _]. specialize (Hfe cl Hin). cbn in *.
  unfold isEmpty in Hfe. apply Z.leb_gt in Hfe. apply Z.leb_le.
  unfold emptyOne, minTopHash in *. lia.
Qed.

Lemma overflow_added w h G i0 l0 lastb bb ovf w1 h1 :
  ArchOK -> TypeOK -> Inv w h G -> buckets h <> 0 ->
  0 <= i0 < 2 ^ B h -> ~ pending (heap w) h i0 ->
  chain_ok (heap w) G (newb h i0) (l0 ++ [lastb]) ->
  heap w !! lastb = Some bb ->
  first_empty (cells_of (heap w) (l0 ++ [lastb])) = None ->
  hdr w1 = Some h1 -> same_table h h1 -> brk w <= brk w1 <= maxAlloc ->
  0 < ovf /\ ovf + bucketsize t <= brk w1 ->
  G !! ovf = None -> ovf <> lastb ->
  heap w1 = <[lastb := set_b_overflow ovf bb]>
              (<[ovf := zero_bmap]> (heap w)) ->
  (forall a, exists n, pool_at (heap w1) (<[ovf := a]> G) (pool_cursor h1) n) ->
  Inv w1 h1 (<[ovf := newb h i0]> G) /\
  chain_ok (heap w1) (<[ovf := newb h i0]> G) (newb h i0)
           ((l0 ++ [lastb]) ++ [ovf]) /\
  ~ pending (heap w1) h1 i0 /\
  cells_of (heap w1) ((l0 ++ [lastb]) ++ [ovf])
  = cells_of (heap w) (l0 ++ [lastb]) ++ bucket_cells ovf zero_bmap /\
  keeps w h w1 h1.
Proof.
  intros HA HT I Hb Hi0 Hnp HC Hbb Hfull Hh1 HS1 Hbrk Hovf HGo Hne EH HP.
  set (l := l0 ++ [lastb]) in *. set (g0 := newb h i0) in *.
  set (G1 := <[ovf := g0]> G).
  pose proof HC as (C & Ho & Ht & F).
  pose proof (same_table_shape _ _ HS1) as HS.
  pose proof HS1 as (_ & _ & _ & _ & Ec & _ & Ene).
  assert (Hlast : lastb ∈ l)
    by (apply elem_of_app; right; apply list_elem_of_here).
  assert (Hnin : ovf ∉ l).
  { intros Hin. rewrite (Ho _ Hin) in HGo. discriminate. }
  assert (Hother : forall a, a <> lastb -> a <> ovf ->
                             heap w1 !! a = heap w !! a).
  { intros a H1 H2. rewrite EH, !lookup_insert_ne by congruence.
    reflexivity. }
  assert (Hreg : forall a g, G !! a = Some g -> a <> ovf)
    by (intros a g Hg ->; congruence).
  assert (HG : forall b g, G !! b = Some g -> G1 !! b = Some g).
  { intros b g Hg. unfold G1. rewrite lookup_insert_ne; [assumption|].
    intros <-. congruence. }
  assert (Hframe : forall a g, G !! a = Some g -> g <> g0 ->
                               heap w1 !! a = heap w !! a).
  { intros a g Ha Hg. apply Hother; [|eapply Hreg; eassumption].
    intros ->. rewrite (Ho _ Hlast) in Ha. congruence. }
  assert (Hlb : heap w1 !! lastb = Some (set_b_overflow ovf bb))
    by (rewrite EH; apply lookup_insert_eq).
  assert (Hov : heap w1 !! ovf = Some zero_bmap).
  { rewrite EH, lookup_insert_ne by congruence. apply lookup_insert_eq. }
  assert (Ecl : cells_of (heap w1) l = cells_of (heap w) l).
  { apply cells_of_same_cells. intros a Ha.
    destruct (chain_in _ _ _ _ C Ha) as [_ [bma Hbma]].
    destruct (Z.eq_dec a lastb) as [-> | Hn1].
    - exists bb, (set_b_overflow ovf bb). rewrite Hlb. auto.
    - exists bma, bma. rewrite Hother; [auto | assumption |].
      intros ->. contradiction. }
  assert (Ecells : cells_of (heap w1) (l ++ [ovf])
                   = cells_of (heap w) l ++ bucket_cells ovf zero_bmap).
  { rewrite cells_of_app, Ecl. f_equal.
    unfold cells_of. cbn [flat_map]. rewrite Hov. apply app_nil_r. }
  assert (C1 : chain (heap w1) g0 (l ++ [ovf])).
  { eapply chain_snoc with (H := heap w) (bd := set_b_overflow ovf bb)
                           (bn := zero_bmap); try eassumption.
    - intros x Hx. apply Hother.
      + intros ->. pose proof (chain_NoDup _ _ _ C) as ND. unfold l in ND.
        apply NoDup_app in ND as (_ & ND & _). apply (ND lastb Hx).
        apply list_elem_of_here.
      + intros ->. apply Hnin. apply elem_of_app. left. exact Hx.
    - lia.
    - reflexivity.
    - reflexivity. }
  assert (HC1 : chain_ok (heap w1) G1 g0 (l ++ [ovf])).
  { split; [exact C1|]. split; [|split].
    - intros a Ha. apply elem_of_app in Ha as [Ha | Ha].
      + apply HG. apply Ho. exact Ha.
      + apply list_elem_of_singleton in Ha as ->. apply lookup_insert_eq.
    - rewrite tops_of_cells, Ecells, map_app. apply tidy_fill.
      + apply (full_chain_occupied _ _ _ _ HC Hfull).
      + unfold bucket_cells. rewrite map_map. apply Forall_fmap.
        apply Forall_forall. intros c _. reflexivity.
    - rewrite Ecells. apply Forall_app. split; [exact F|].
      destruct (cells_zero_bmap (<[ovf := zero_bmap]> (heap w)) ovf 0)
        as [_ Fz]; [apply lookup_insert_eq|].
      unfold cells_of in Fz. cbn [flat_map] in Fz.
      rewrite lookup_insert_eq, app_nil_r in Fz. exact Fz. }
  split; [|split; [exact HC1|split; [|split; [exact Ecells|]]]].
  - eapply cu_Inv with (w := w) (h := h) (G := G) (i0 := i0)
                       (l' := l ++ [ovf]); try eassumption.
    + intros a bma Ha.
      destruct (Z.eq_dec a ovf) as [-> | H1]; [assumption|].
      destruct (Z.eq_dec a lastb) as [-> | H2].
      * pose proof (inv_heap _ _ _ I _ _ Hbb). lia.
      * rewrite Hother in Ha by assumption.
        pose proof (inv_heap _ _ _ I _ _ Ha). lia.
    + intros a g Ha. destruct (Z.eq_dec a ovf) as [-> | H1]; [eauto|].
      destruct (Z.eq_dec a lastb) as [-> | H2]; [eauto|].
      rewrite Hother by assumption. unfold G1 in Ha.
      rewrite lookup_insert_ne in Ha by congruence.
      apply (inv_G _ _ _ I _ _ Ha).
    + rewrite Ec, (inv_count _ _ _ I). unfold G1.
      rewrite total_occ_insert by assumption.
      rewrite (total_occ_ext (heap w) (heap w1) G).
      * unfold occ_at. rewrite Hov.
        assert (Hz : occ_bmap zero_bmap = 0) by apply (occ_zero_bmap 0).
        rewrite Hz. lia.
      * intros b [g Hg]. unfold occ_at.
        destruct (Z.eq_dec b lastb) as [-> | H2].
        -- rewrite Hlb, Hbb. apply occ_bmap_ext. reflexivity.
        -- rewrite Hother; [reflexivity | assumption |
                            eapply Hreg; eassumption].
    + apply HP.
  - eapply cu_not_pending with (w := w) (h := h) (G := G) (i0 := i0);
      eassumption.
  - intros key v _ Hf.
    eapply cu_found with (w := w) (h := h) (G := G) (i0 := i0) (l := l)
                         (l' := l ++ [ovf]); try eassumption.
    intros x b c Hx Ei Hm. exists b, c. rewrite Ecells.
    apply first_match_app_Some. exact Hm.
Qed.


(** ** The cell [mapassign] returns *)

(** Cell [i] of bucket [b] is the cell of [key] in the chain of its hash
    [x]: the walk of a lookup of [key] ends there, if [key] equals
    itself. *)
Definition assigned (w : world K V) (h : hmap) (G : gmap Z Z) (key : K)
           (x : Z) (b : Z) (i : nat) : Prop :=
  ~ pending (heap w) h (wrap x mod 2 ^ B h) /\
  exists l bm,
    chain_ok (heap w) G (newb h (wrap x mod 2 ^ B h)) l /\
    b ∈ l /\ (i < 8)%nat /\ heap w !! b = Some bm /\
    b_tophash bm i = tophash (wrap x) /\
    (forall key', key_equal t key' (b_keys bm i) = true ->
                  key_equal t key' key = true) /\
    hashable (b_keys bm i) /\
    (key_equal t key key = true ->
     first_match key (tophash (wrap x)) (cells_of (heap w) l)
     = Some (b, i, b_elems bm i)).

(** Lookups of keys that do not equal [key] keep their result. *)
Definition keeps_others (key : K) (w : world K V) (h : hmap)
           (w' : world K V) (h' : hmap) : Prop :=
  forall key' v, key_equal t key' key' = true ->
                 key_equal t key' key = false ->
                 found w h key' v -> found w' h' key' v.

Lemma keeps_keeps_others key w h w' h' :
  keeps w h w' h' -> keeps_others key w h w' h'.
Proof. intros Hk key' v Hr _ Hf. apply Hk; assumption. Qed.

Lemma keeps_others_trans key w1 h1 w2 h2 w3 h3 :
  keeps_others key w1 h1 w2 h2 -> keeps_others key w2 h2 w3 h3 ->
  keeps_others key w1 h1 w3 h3.
Proof. intros K1 K2 key' v Hr Hn Hf. apply K2, K1; assumption. Qed.

Lemma first_match_None_passes {A : Type} key top (cs : list (Z * K * A)) :
  first_match key top cs = None ->
  Forall (fun c => fst (fst c) <> emptyRest) cs ->
  Forall (passes key top) cs.
Proof.
  induction cs as [| [[x k] a] cs IH]; [constructor|].
  cbn [first_match]. intros Hm Hne.
  apply Forall_cons in Hne as [Hx Hne]. cbn in Hx.
  destruct (Z.eqb_spec x top) as [-> | Hxt]; cbn [negb] in Hm.
  - destruct (key_equal t key k) eqn:Ek; [discriminate|].
    constructor; [left; auto | auto].
  - destruct (Z.eqb_spec x emptyRest); [contradiction|].
    constructor; [right; auto | auto].
Qed.

Lemma nonempty_not_emptyRest {A : Type} (cs : list (Z * K * A)) :
  Forall (fun c => isEmpty (fst (fst c)) = false) cs ->
  Forall (fun c => fst (fst c) <> emptyRest) cs.
Proof.
  intros H. eapply Forall_impl; [exact H|].
  intros c Hc E. cbn beta in Hc. rewrite E in Hc. discriminate.
Qed.

Lemma passes_new key' top' top key (a : Z * nat * V) :
  minTopHash <= top -> key_equal t key' key = false ->
  passes key' top' (top, key, a).
Proof.
  intros Ht Hk. unfold passes. cbn [fst snd].
  destruct (Z.eq_dec top top') as [-> | Hne]; [left; auto | right].
  split; [assumption|]. unfold emptyRest, minTopHash in *. lia.
Qed.

(** Filling the first empty cell of the chain. *)
Lemma insert_ok w h G key x ib ii e0 bm w' h' l :
  ArchOK -> TypeOK -> Inv w h G -> buckets h <> 0 ->
  ~ pending (heap w) h (wrap x mod 2 ^ B h) ->
  chain_ok (heap w) G (newb h (wrap x mod 2 ^ B h)) l ->
  hashable key ->
  first_match key (tophash (wrap x)) (cells_of (heap w) l) = None ->
  first_empty (cells_of (heap w) l) = Some (ib, ii, e0) ->
  heap w !! ib = Some bm ->
  hdr w' = Some h' ->
  heap w' = <[ib := set_tophash ii (tophash (wrap x))
                      (set_key ii key
                         (if indirectelem t
                          then set_elem ii (zero_elem t) bm else bm))]>
              (heap w) ->
  brk w' = brk w -> same_shape h h' -> nevacuate h' = nevacuate h ->
  pool_cursor h' = pool_cursor h -> count h' = count h + 1 ->
  Inv w' h' G /\ assigned w' h' G key x ib ii /\
  keeps_others key w h w' h'.
Proof.
  intros HA HT I Hb Hnp HC Hkey Hnone Hfe Hbm Hh' EH Ebrk HS Ene Ep Ec.
  set (top := tophash (wrap x)) in *.
  set (bm' := set_tophash ii top
                (set_key ii key
                   (if indirectelem t then set_elem ii (zero_elem t) bm
                    else bm))) in *.
  pose proof (mod_index_range _ _ _ (wrap x) I) as Hi0.
  pose proof (tophash_range (wrap x)) as [Htop _]. fold top in Htop.
  apply first_empty_Some in Hfe as (pre & x0 & k0 & post & Ecs & Hx0 & Hpre).
  assert (Hin : (x0, k0, (ib, ii, e0)) ∈ cells_of (heap w) l).
  { rewrite Ecs. apply elem_of_app. right. apply list_elem_of_here. }
  apply cells_of_in in Hin as (Hbl & Hc8 & bm0 & Hbm0 & Ex0 & Ek0 & Ee0).
  assert (bm0 = bm) as -> by congruence.
  assert (Ecs' : cells_of (heap w) l = pre ++ cell_at bm ib ii :: post).
  { rewrite Ecs. unfold cell_at. rewrite <- Ex0, <- Ek0, <- Ee0. reflexivity. }
  assert (Hsame : same_but ii bm bm').
  { unfold bm'. split; [destruct (indirectelem t); reflexivity|].
    intros c' Hc'. cbn [b_tophash b_keys b_elems set_tophash set_key].
    unfold upd. destruct (Nat.eqb_spec c' ii) as [-> | _]; [contradiction|].
    destruct (indirectelem t); cbn [b_tophash b_keys b_elems set_elem];
      unfold upd; try (destruct (Nat.eqb_spec c' ii) as [-> | _];
                       [contradiction|]); auto. }
  assert (Etop : b_tophash bm' ii = top).
  { unfold bm'. cbn [b_tophash set_tophash]. unfold upd.
    rewrite Nat.eqb_refl. reflexivity. }
  assert (Ekey : b_keys bm' ii = key).
  { unfold bm'. cbn [b_keys set_tophash set_key]. unfold upd.
    rewrite Nat.eqb_refl. reflexivity. }
  assert (Hocc : occupied top = true) by (apply Z.leb_le; exact Htop).
  assert (Hx0' : occupied (b_tophash bm ii) = false).
  { rewrite <- Ex0. unfold isEmpty in Hx0. apply Z.leb_le in Hx0.
    apply Z.leb_gt. unfold emptyOne, minTopHash in *. lia. }
  destruct (cup_Inv w w' h h' G (wrap x mod 2 ^ B h) l ib ii bm bm' pre post)
    as (I' & HC' & Hnp'); try assumption.
  { rewrite map_app. cbn [map cell_at fst]. rewrite Etop.
    destruct HC as (_ & _ & Ht & _). rewrite tops_of_cells, Ecs in Ht.
    rewrite map_app in Ht. cbn [map fst] in Ht.
    eapply tidy_insert; [exact Ht | | exact Hocc].
    apply Forall_fmap. exact Hpre. }
  { unfold cell_ok, cell_at. cbn [fst snd]. rewrite Etop, Ekey.
    split; [right; exact Htop | intros _; exact Hkey]. }
  { rewrite Etop, Hocc, Hx0'. lia. }
  assert (Ecells' : cells_of (heap w') l = pre ++ cell_at bm' ib ii :: post).
  { eapply cup_cells with (w := w) (G := G) (bm := bm); eassumption. }
  split; [exact I'|]. split.
  - pose proof HS as (EB & _).
    destruct (shape_fields h h' HS) as (_ & _ & Enb & _).
    unfold assigned. rewrite EB, Enb. split; [exact Hnp'|].
    exists l, bm'. split; [exact HC'|]. split; [exact Hbl|].
    split; [exact Hc8|]. split; [rewrite EH; apply lookup_insert_eq|].
    split; [exact Etop|]. split; [rewrite Ekey; auto|].
    split; [rewrite Ekey; exact Hkey|].
    intros Hr. rewrite Ecells'. rewrite first_match_app_pass.
    + unfold cell_at. rewrite Etop, Ekey. apply first_match_here. exact Hr.
    + apply first_match_None_passes.
      * destruct (first_match key top pre) eqn:E1; [|exact E1].
        exfalso. rewrite Ecs in Hnone.
        rewrite (first_match_app_Some _ _ _ _ _ E1) in Hnone. discriminate.
      * apply nonempty_not_emptyRest. exact Hpre.
  - intros key' v Hr Hne Hf.
    eapply cup_found with (w := w) (h := h) (G := G)
                          (i0 := wrap x mod 2 ^ B h) (l := l) (b := ib)
                          (c := ii) (bm := bm) (bm' := bm');
      try eassumption.
    intros x' Hx'. split.
    + intros [E _]. rewrite E in Hx0'.
      rewrite occupied_tophash in Hx0'. discriminate.
    + unfold cell_at. rewrite Etop, Ekey. apply passes_new; assumption.
Qed.


(** The cell a walk finds is the cell of the key. *)
Lemma found_assigned w h G key x b i e l :
  TypeOK ->
  ~ pending (heap w) h (wrap x mod 2 ^ B h) ->
  chain_ok (heap w) G (newb h (wrap x mod 2 ^ B h)) l ->
  first_match key (tophash (wrap x)) (cells_of (heap w) l) = Some (b, i, e) ->
  assigned w h G key x b i.
Proof.
  intros HT Hnp HC Hm. split; [exact Hnp|].
  pose proof Hm as Hm0.
  apply first_match_Some in Hm as (pre & k0 & post & Ecs & Hpre & Ek).
  assert (Hin : (tophash (wrap x), k0, (b, i, e)) ∈ cells_of (heap w) l).
  { rewrite Ecs. apply elem_of_app. right. apply list_elem_of_here. }
  pose proof Hin as Hin0.
  apply cells_of_in in Hin as (Hbl & Hc8 & bm & Hbm & Et & Ek0 & Ee).
  exists l, bm. split; [exact HC|]. split; [exact Hbl|]. split; [exact Hc8|].
  split; [exact Hbm|]. split; [symmetry; exact Et|]. rewrite <- Ek0.
  split; [|split].
  - intros key' Ek'. eapply (type_equal_trans HT); [exact Ek'|].
    apply (type_equal_sym HT). exact Ek.
  - destruct HC as (_ & _ & _ & F). rewrite Forall_forall in F.
    destruct (F _ Hin0) as [_ Hh]. cbn [fst snd] in Hh. apply Hh.
    apply tophash_range.
  - intros _. rewrite <- Ee. exact Hm0.
Qed.

(** Writing the key or the element of the cell of the key. *)
Lemma assigned_update w h G key x b i bm bm' w' h' :
  ArchOK -> TypeOK -> Inv w h G -> buckets h <> 0 ->
  assigned w h G key x b i ->
  heap w !! b = Some bm -> same_but i bm bm' ->
  b_tophash bm' i = b_tophash bm i ->
  (forall key', key_equal t key' (b_keys bm' i) = true ->
                key_equal t key' key = true) ->
  hashable (b_keys bm' i) ->
  (key_equal t key key = true -> key_equal t key (b_keys bm' i) = true) ->
  hdr w' = Some h' -> heap w' = <[b := bm']> (heap w) -> brk w' = brk w ->
  layout h h' ->
  Inv w' h' G /\ assigned w' h' G key x b i /\ keeps_others key w h w' h'.
Proof.
  intros HA HT I Hb (Hnp & l & bm0 & HC & Hbl & Hc8 & Hbm0 & Etop & Hk0 & Hh0
                     & Hm) Hbm Hsame Etop' Hk' Hh' Hr Hhd EH Ebrk
         (HS & Ec & Ene & Ep).
  assert (bm0 = bm) as -> by congruence.
  set (top := tophash (wrap x)) in *.
  pose proof (mod_index_range _ _ _ (wrap x) I) as Hi0.
  pose proof (tophash_range (wrap x)) as [Htop _]. fold top in Htop.
  destruct (cells_of_split (heap w) l b bm i Hbl Hbm Hc8)
    as (pre & post & Ecs).
  assert (Hocc : occupied top = true) by (apply Z.leb_le; exact Htop).
  destruct (cup_Inv w w' h h' G (wrap x mod 2 ^ B h) l b i bm bm' pre post)
    as (I' & HC' & Hnp'); try assumption.
  { destruct HC as (_ & _ & Ht & _). rewrite tops_of_cells, Ecs in Ht.
    rewrite map_app in *. cbn [map cell_at fst] in *.
    rewrite Etop'. exact Ht. }
  { unfold cell_ok, cell_at. cbn [fst snd]. rewrite Etop', Etop.
    split; [right; exact Htop | intros _; exact Hh']. }
  { rewrite Etop', Etop, Hocc. lia. }
  assert (Ecells' : cells_of (heap w') l = pre ++ cell_at bm' b i :: post).
  { eapply cup_cells with (w := w) (G := G) (bm := bm); eassumption. }
  split; [exact I'|]. split.
  - pose proof HS as (EB & _).
    destruct (shape_fields h h' HS) as (_ & _ & Enb & _).
    unfold assigned. rewrite EB, Enb. split; [exact Hnp'|].
    exists l, bm'. split; [exact HC'|]. split; [exact Hbl|].
    split; [exact Hc8|]. split; [rewrite EH; apply lookup_insert_eq|].
    split; [rewrite Etop'; exact Etop|]. split; [exact Hk'|].
    split; [exact Hh'|].
    intros Hrr. specialize (Hm Hrr). rewrite Ecs in Hm.
    rewrite Ecells'.
    assert (ND : NoDup (map cell_pos (pre ++ cell_at bm b i :: post))).
    { rewrite <- Ecs. apply cells_of_NoDup. eapply chain_NoDup. apply HC. }
    apply first_match_app_inv in Hm as [Hm | [Hpre Hm]].
    + exfalso. apply first_match_Some in Hm as (p & k & q & Ep' & _).
      rewrite map_app in ND. apply NoDup_app in ND as (_ & ND & _).
      apply (ND (b, i)).
      * rewrite Ep'. apply list_elem_of_fmap.
        exists (top, k, (b, i, b_elems bm i)). split; [reflexivity|].
        apply elem_of_app. right. apply list_elem_of_here.
      * cbn [map]. apply list_elem_of_here.
    + rewrite first_match_app_pass by exact Hpre.
      unfold cell_at. rewrite Etop', Etop. apply first_match_here.
      apply Hr. exact Hrr.
  - intros key' v Hrr Hne Hf.
    eapply cup_found with (w := w) (h := h) (G := G)
                          (i0 := wrap x mod 2 ^ B h) (l := l) (b := b)
                          (c := i) (bm := bm) (bm' := bm');
      try eassumption.
    intros x' Hx'. split.
    + intros [_ E]. apply Hk0 in E. congruence.
    + unfold cell_at. rewrite Etop', Etop.
      destruct (key_equal t key' (b_keys bm' i)) eqn:Ek.
      * apply Hk' in Ek. congruence.
      * unfold passes. cbn [fst snd].
        destruct (Z.eq_dec top (tophash (wrap x'))) as [E | E];
          [left; auto | right].
        split; [exact E|]. unfold emptyRest, minTopHash in *. lia.
Qed.


(** ** One pass of [mapassign] *)

Lemma chain_not_old w h G i0 l b j :
  ArchOK -> TypeOK -> Inv w h G -> 0 <= i0 < 2 ^ B h ->
  chain_ok (heap w) G (newb h i0) l -> b ∈ l ->
  growing h = true -> 0 <= j < noldbuckets h -> b <> oldb h j.
Proof.
  intros HA HT I Hi0 (_ & Ho & _) Hbl Hg Hj ->.
  specialize (Ho _ Hbl).
  rewrite (Inv_old_reg _ _ _ j I Hg Hj) in Ho. injection Ho as E.
  eapply (Inv_new_old w h G i0 j); try eassumption. symmetry. exact E.
Qed.

Lemma progress_frame w h G w' h' :
  Inv w h G -> same_shape h h' -> nevacuate h <= nevacuate h' ->
  brk w <= brk w' ->
  (forall j, growing h = true -> 0 <= j < noldbuckets h ->
             heap w' !! oldb h j = heap w !! oldb h j) ->
  progress w h w' h'.
Proof.
  intros I HS Hn Hbrk Hold. pose proof HS as (_ & Ebk & Eo & _).
  split; [exact Hbrk|]. split; [intros _; left; exact Eo|].
  split; [intros _; left; exact Ebk|]. intros Hg _.
  split; [exact HS|]. split; [exact Hn|].
  intros j Hj. unfold evacuated_at. rewrite Hold by assumption. auto.
Qed.

Lemma layout_count h n :
  same_shape h (set_count n h) /\
  nevacuate (set_count n h) = nevacuate h /\
  pool_cursor (set_count n h) = pool_cursor h /\
  writing (set_count n h) = writing h.
Proof. repeat split. Qed.

(** What a pass of [mapassign] leaves: with a cell, the cell of the key;
    without one, a table that has started to grow. *)
Definition pass_post (key : K) (x : Z) (w : world K V) (h : hmap)
           (r : option (Z * nat)) (w' : world K V) : Prop :=
  exists h' G',
    hdr w' = Some h' /\ Inv w' h' G' /\ writing h' = writing h /\
    hash0 h' = hash0 h /\ buckets h' <> 0 /\ progress w h w' h' /\
    match r with
    | None => keeps w h w' h'
    | Some (b, i) =>
        assigned w' h' G' key x b i /\ keeps_others key w h w' h'
    end.

Lemma pass_post_trans key x w h G w1 h1 r w2 :
  ArchOK -> TypeOK -> Inv w h G -> hdr w1 = Some h1 ->
  work_post w h w1 -> pass_post key x w1 h1 r w2 ->
  pass_post key x w h r w2.
Proof.
  intros HA HT I Hh1 (h1' & G1 & Hh1' & I1 & W1 & H1 & B1 & Bk1 & O1 & P1 & K1)
         (h2 & G2 & Hh2 & I2 & W2 & H2 & Bk2 & P2 & R2).
  assert (h1' = h1) as -> by congruence.
  exists h2, G2. split; [assumption|]. split; [assumption|].
  split; [congruence|]. split; [congruence|]. split; [assumption|].
  split; [eapply progress_trans; eassumption|].
  destruct r as [[b i] |].
  - destruct R2 as [A2 K2]. split; [exact A2|].
    eapply keeps_others_trans; [|exact K2].
    apply keeps_keeps_others. exact K1.
  - eapply keeps_trans; eassumption.
Qed.

(** Filling the cell and counting the entry. *)
Lemma insert_step_wp w h G key x l ib ii e0 :
  ArchOK -> TypeOK -> Inv w h G -> buckets h <> 0 ->
  ~ pending (heap w) h (wrap x mod 2 ^ B h) ->
  chain_ok (heap w) G (newb h (wrap x mod 2 ^ B h)) l ->
  hashable key ->
  first_match key (tophash (wrap x)) (cells_of (heap w) l) = None ->
  first_empty (cells_of (heap w) l) = Some (ib, ii, e0) ->
  wp (updb ib (fun bm =>
                 let bm := if indirectelem t
                           then set_elem ii (zero_elem t) bm else bm in
                 set_tophash ii (tophash (wrap x)) (set_key ii key bm));;
      updh (fun h => set_count (count h + 1) h);;
      ret (Some (ib, ii))) w
     (fun r w' => pass_post key x w h r w').
Proof.
  intros HA HT I Hb Hnp HC Hkey Hnone Hfe.
  pose proof (inv_hdr _ _ _ I) as Hh.
  pose proof (mod_index_range _ _ _ (wrap x) I) as Hi0.
  apply wp_bind, wp_updb. intros bm Hbm. cbv zeta.
  apply wp_bind, wp_updh. intros h_ Hh_. cbn [hdr set_heap] in Hh_.
  assert (h_ = h) as -> by congruence.
  apply wp_ret.
  set (h' := set_count (count h + 1) h).
  match goal with
  | |- pass_post _ _ _ _ _ ?ww => set (w' := ww)
  end.
  destruct (layout_count h (count h + 1)) as (HS & Ene & Ep & Ew).
  destruct (insert_ok w h G key x ib ii e0 bm w' h' l HA HT I Hb Hnp HC Hkey
              Hnone Hfe Hbm eq_refl eq_refl eq_refl HS Ene Ep eq_refl)
    as (I' & A' & K').
  exists h', G. split; [reflexivity|]. split; [exact I'|].
  split; [exact Ew|]. split; [reflexivity|]. split; [exact Hb|].
  split; [|split; assumption].
  apply (progress_frame w h G); [assumption | exact HS | cbn; lia | cbn; lia |].
  intros j Hg Hj. cbn [heap w' set_hdr set_heap].
  apply lookup_insert_ne.
  apply first_empty_Some in Hfe as (pre & x0 & k0 & post & Ecs & _).
  assert (Hin : (x0, k0, (ib, ii, e0)) ∈ cells_of (heap w) l).
  { rewrite Ecs. apply elem_of_app. right. apply list_elem_of_here. }
  apply cells_of_in in Hin as (Hbl & _).
  eapply chain_not_old; eassumption.
Qed.


(** ** Steps that end in no panic *)

Lemma wp_of_safe {A : Type} (m : M A) w (Q : A -> world K V -> Prop) :
  wp m w (fun _ _ => True) -> (forall a w', m w = Ok a w' -> Q a w') ->
  wp m w Q.
Proof.
  unfold wp. intros Hs HQ. destruct (m w) as [a w' | e w']; auto.
Qed.

Lemma wp_safe_bind {A B' : Type} (m : M A) (f : A -> M B') w :
  wp m w (fun _ _ => True) ->
  (forall a w', wp (f a) w' (fun _ _ => True)) ->
  wp (bind m f) w (fun _ _ => True).
Proof.
  intros Hm Hf. apply wp_bind. eapply wp_mono; [exact Hm|].
  intros a w' _. apply Hf.
Qed.

Lemma updh_safe f w : wp (updh f) w (fun _ _ => True).
Proof. apply wp_updh. auto. Qed.

Lemma updb_safe b f w : wp (updb b f) w (fun _ _ => True).
Proof. apply wp_updb. auto. Qed.

Lemma geth_safe w : wp geth w (fun _ _ => True).
Proof. apply wp_geth. auto. Qed.

Lemma makeBucketArray_safe b d w :
  wp (makeBucketArray b d) w (fun _ _ => True).
Proof.
  unfold makeBucketArray. cbv zeta. apply wp_safe_bind.
  - destruct (d =? 0).
    + apply wp_newarray. auto.
    + unfold memclr_buckets, bind, ret, wp. exact I.
  - intros bk w'. destruct (negb _).
    + apply wp_safe_bind; [apply updb_safe|]. intros _ w2. apply wp_ret. exact I.
    + apply wp_ret. exact I.
Qed.

Lemma hashGrow_safe w : wp hashGrow w (fun _ _ => True).
Proof.
  unfold hashGrow. cbv zeta.
  apply wp_safe_bind; [apply geth_safe|]. intros h w1.
  apply wp_safe_bind.
  { destruct (negb _); [apply updh_safe | apply wp_ret; exact I]. }
  intros _ w2. apply wp_safe_bind; [apply geth_safe|]. intros h2 w3.
  apply wp_safe_bind; [apply makeBucketArray_safe|].
  intros [nb nx] w4. cbn beta iota.
  apply wp_safe_bind; [apply geth_safe|]. intros h4 w5.
  apply wp_safe_bind; [apply wp_seth; exact I|]. intros _ w6.
  apply wp_safe_bind; [apply geth_safe|]. intros h6 w7.
  apply wp_safe_bind.
  { destruct (extra h6) as [e |]; [|apply wp_ret; exact I].
    destruct (overflow e); [|apply wp_ret; exact I].
    destruct (oldoverflow e); [apply wp_throw | apply wp_seth; exact I]. }
  intros _ w8. destruct (negb _); [apply updh_safe | apply wp_ret; exact I].
Qed.


Lemma first_match_zero_tail key top (cs : list (Z * K * (Z * nat * V))) ovf :
  minTopHash <= top ->
  first_match key top cs = None -> first_empty cs = None ->
  first_match key top (cs ++ bucket_cells ovf zero_bmap) = None /\
  first_empty (cs ++ bucket_cells ovf zero_bmap)
  = Some (ovf, O, zero_elem t).
Proof.
  intros Htop Hm Hfe. split.
  - rewrite first_match_app_pass.
    + rewrite bucket_cells_eq, cellIndexes_eq. cbn [map cell_at first_match].
      cbn [b_tophash zero_bmap].
      destruct (Z.eqb_spec 0 top) as [E | _]; cbn [negb].
      * unfold minTopHash in Htop. lia.
      * reflexivity.
    + apply first_match_None_passes; [exact Hm|].
      apply nonempty_not_emptyRest. apply first_empty_None. exact Hfe.
  - rewrite first_empty_app, Hfe.
    rewrite bucket_cells_eq, cellIndexes_eq. reflexivity.
Qed.

Lemma land_bucketMask w h G hash :
  ArchOK -> TypeOK -> Inv w h G ->
  Z.land hash (bucketMask (B h)) = hash mod 2 ^ B h.
Proof.
  intros HA HT I. pose proof (Inv_B _ _ _ HA HT I) as HB.
  rewrite bucketMask_pow by (auto; lia). apply land_mask. lia.
Qed.

(** One pass of [mapassign] from the label [again]. *)
Lemma mapassign_again_wp w h G key x :
  ArchOK -> TypeOK -> Inv w h G -> buckets h <> 0 -> hashable key ->
  wp (mapassign_again key (wrap x)) w
     (fun r w' => pass_post key x w h r w').
Proof.
  intros HA HT I Hb Hkey.
  pose proof (inv_hdr _ _ _ I) as Hh.
  pose proof (bucketsize_min HA HT) as HSz.
  pose proof (tophash_range (wrap x)) as [Htop _].
  unfold mapassign_again. apply wp_bind, wp_geth. intros h_ Hh_.
  assert (h_ = h) as -> by congruence. cbv zeta.
  rewrite (land_bucketMask w h G (wrap x) HA HT I).
  apply wp_bind.
  apply wp_mono
    with (Q := fun _ w1 =>
                 work_post w h w1 /\
                 forall h', hdr w1 = Some h' ->
                            ~ pending (heap w1) h' (wrap x mod 2 ^ B h)).
  { destruct (growing h) eqn:Hg.
    - apply growWork_wp with (G := G); assumption.
    - apply wp_ret. split; [apply work_post_refl with (G := G); assumption|].
      intros h' Hh' (Hg' & _). congruence. }
  intros _ w1 (Hw1 & Hnp1).
  pose proof Hw1 as (h1 & G1 & Hh1 & I1 & W1 & H1 & B1 & Bk1 & O1 & P1 & K1).
  specialize (Hnp1 h1 Hh1). rewrite <- B1 in *.
  assert (Hb1 : buckets h1 <> 0) by congruence.
  pose proof (mod_index_range _ _ _ (wrap x) I1) as Hi1.
  set (i0 := wrap x mod 2 ^ B h1) in *.
  apply wp_bind, wp_geth. intros h_ Hh_'.
  assert (h_ = h1) as -> by congruence.
  eapply wp_mono;
    [|intros r w2 Hp; eapply pass_post_trans with (w1 := w1) (h1 := h1);
      eassumption].
  destruct (Inv_bucketsize_fits w1 h1 G1 i0 HA HT I1 Hb1 Hi1)
    as (Hpos & _ & Ea).
  rewrite Ea. apply wp_bind, wp_get_world.
  destruct (inv_new _ _ _ I1 Hb1 i0 Hi1) as (l & Cl & _).
  pose proof Cl as (C & Ho & _).
  destruct (assign_chain_spec w1 key (tophash (wrap x)) Htop l (newb h1 i0)
              (walk_fuel w1) None C ltac:(lia))
    as (ins & lastb & Eas & Hn).
  { pose proof (chain_fuel w1 _ _ (proj1 (inv_brk _ _ _ I1))
                  (inv_heap _ _ _ I1) ltac:(lia) C). lia. }
  apply wp_bind. unfold wp at 1. rewrite Eas. cbn beta iota.
  destruct (first_match key (tophash (wrap x)) (cells_of (heap w1) l))
    as [[[b i] e] |] eqn:Hm; cbn [option_map fst].
  - pose proof (found_assigned w1 h1 G1 key x b i e l HT Hnp1 Cl Hm) as A1.
    apply wp_bind. destruct (needkeyupdate t).
    + apply wp_updb. intros bm Hbm. apply wp_ret.
      match goal with
      | |- pass_post _ _ _ _ _ ?ww => set (w' := ww)
      end.
      destruct (assigned_update w1 h1 G1 key x b i bm (set_key i key bm) w' h1
                  HA HT I1 Hb1 A1 Hbm) as (I' & A' & K').
      { split; [reflexivity|]. intros c' Hc'.
        cbn [b_tophash b_keys b_elems set_key]. unfold upd.
        destruct (Nat.eqb_spec c' i); [contradiction | auto]. }
      { reflexivity. }
      { cbn [b_keys set_key]. unfold upd. rewrite Nat.eqb_refl. auto. }
      { cbn [b_keys set_key]. unfold upd. rewrite Nat.eqb_refl. exact Hkey. }
      { cbn [b_keys set_key]. unfold upd. rewrite Nat.eqb_refl. auto. }
      { exact Hh1. }
      { reflexivity. }
      { reflexivity. }
      { apply layout_refl. }
      exists h1, G1. split; [exact Hh1|]. split; [exact I'|].
      split; [reflexivity|]. split; [reflexivity|]. split; [exact Hb1|].
      split; [|split; assumption].
      apply (progress_frame w1 h1 G1);
        [assumption | apply same_shape_refl | lia | cbn; lia |].
      intros j Hg Hj. cbn [heap w' set_heap]. apply lookup_insert_ne.
      destruct A1 as (_ & l1 & bm1 & Cl1 & Hbl1 & _).
      eapply chain_not_old with (w := w1) (G := G1) (l := l1); eassumption.
    + apply wp_ret. apply wp_ret.
      exists h1, G1. split; [exact Hh1|]. split; [exact I1|].
      split; [reflexivity|]. split; [reflexivity|]. split; [exact Hb1|].
      split; [apply progress_refl|]. split; [exact A1|].
      apply keeps_keeps_others, keeps_refl.
  - destruct (Hn eq_refl) as [Ei Hl].
    apply wp_bind, wp_geth. intros h_ Hh_''.
    assert (h_ = h1) as -> by congruence.
    destruct (negb (growing h1)
              && (overLoadFactor (int_of (count h1 + 1)) (B h1)
                  || tooManyOverflowBuckets (noverflow h1) (B h1)))
      eqn:Egrow.
    + apply andb_true_iff in Egrow as [Eg _]. apply negb_true_iff in Eg.
      apply wp_bind. apply wp_of_safe; [apply hashGrow_safe|].
      intros [] w2 Hrun. apply wp_ret.
      destruct (hashGrow_ok w1 h1 G1 w2 HA HT I1 Eg Hb1 Hrun)
        as (h2 & G2 & Hh2 & I2 & W2 & H2 & Hg2 & P2 & K2).
      exists h2, G2. split; [exact Hh2|]. split; [exact I2|].
      split; [exact W2|]. split; [exact H2|].
      split; [apply (inv_old _ _ _ I2 Hg2)|]. split; assumption.
    + apply wp_bind. rewrite Ei.
      destruct (first_empty (cells_of (heap w1) l)) as [[[ib ii] e0] |] eqn:Hfe;
        cbn [or_ins option_map fst].
      * apply wp_ret. cbn beta iota.
        eapply insert_step_wp with (G := G1) (l := l); eassumption.
      * cbn [or_ins option_map] in Ei.
        destruct (Hl Ei) as (l' & ->).
        assert (Hlast : lastb ∈ l' ++ [lastb])
          by (apply elem_of_app; right; apply list_elem_of_here).
        destruct (chain_in _ _ _ _ C Hlast) as [_ [bb Hbb]].
        apply wp_bind.
        eapply newoverflow_wp with (G := G1) (bb := bb); try eassumption.
        { apply (inv_brk _ _ _ I1). }
        { apply (inv_heap _ _ _ I1). }
        { rewrite (Ho _ Hlast). eauto. }
        { apply (inv_G _ _ _ I1). }
        { apply (inv_pool _ _ _ I1). }
        intros ovf w2 h2 Hh2 HS2 Hbrk2 Hovf HGo Hne EH HP.
        apply wp_ret. cbn beta iota.
        destruct (overflow_added w1 h1 G1 i0 l' lastb bb ovf w2 h2 HA HT I1 Hb1
                    Hi1 Hnp1 Cl Hbb Hfe Hh2 HS2 Hbrk2 Hovf HGo Hne EH HP)
          as (I2 & HC2 & Hnp2 & Ecells2 & K2).
        destruct (same_table_fields h1 h2 HS2) as (Eg2 & Ess2 & En2 & Enb2 & Eob2).
        pose proof HS2 as (EB2 & Ebk2 & Eo2 & Ef2 & Ec2 & Eh02 & Ene2).
        destruct (first_match_zero_tail key (tophash (wrap x))
                    (cells_of (heap w1) (l' ++ [lastb])) ovf Htop Hm Hfe)
          as [Hm2 Hfe2].
        rewrite <- Ecells2 in Hm2, Hfe2.
        assert (Hw2 : work_post w1 h1 w2).
        { exists h2, (<[ovf := newb h1 i0]> G1).
          split; [exact Hh2|]. split; [exact I2|].
          split; [apply same_table_writing; exact HS2|].
          split; [exact Eh02|]. split; [exact EB2|]. split; [exact Ebk2|].
          split; [left; exact Eo2|]. split; [|exact K2].
          apply (progress_frame w1 h1 G1);
            [assumption | apply same_table_shape; exact HS2 | lia | lia |].
          intros j Hg Hj. rewrite EH.
          assert (Hlj : lastb <> oldb h1 j)
            by (eapply chain_not_old with (w := w1) (G := G1); eassumption).
          assert (Hoj : ovf <> oldb h1 j).
          { intros E. rewrite E, (Inv_old_reg _ _ _ j I1 Hg Hj) in HGo.
            discriminate. }
          rewrite !lookup_insert_ne by assumption. reflexivity. }
        eapply wp_mono;
          [|intros r w3 Hp;
            eapply pass_post_trans with (w1 := w2) (h1 := h2); eassumption].
        eapply insert_step_wp
          with (G := <[ovf := newb h1 i0]> G1)
               (l := (l' ++ [lastb]) ++ [ovf]) (e0 := zero_elem t);
          try eassumption.
        -- congruence.
        -- rewrite EB2. exact Hnp2.
        -- rewrite EB2, Enb2. exact HC2.
Qed.


(** ** [mapassign] *)

Lemma is_sameSizeGrow_test h : is_sameSizeGrow h = Z.testbit (flags h) 3.
Proof.
  unfold is_sameSizeGrow. change sameSizeGrow with (2 ^ 3).
  destruct (Z.testbit (flags h) 3) eqn:E.
  - destruct (Z.eqb_spec (Z.land (flags h) (2 ^ 3)) 0) as [E0 | _];
      [|reflexivity].
    apply land_flag in E0; [congruence | lia].
  - apply (land_flag _ 3) in E; [|lia]. rewrite E. reflexivity.
Qed.

Lemma layout_set_flags h f :
  Z.testbit f 3 = Z.testbit (flags h) 3 -> layout h (set_flags f h).
Proof.
  intros E. split; [|split; [|split]]; try reflexivity.
  repeat (split; [reflexivity|]).
  rewrite !is_sameSizeGrow_test. exact E.
Qed.

Lemma layout_toggle_writing h :
  layout h (set_flags (Z.lxor (flags h) hashWriting) h) /\
  writing (set_flags (Z.lxor (flags h) hashWriting) h) = negb (writing h).
Proof.
  change hashWriting with (2 ^ 2). split.
  - apply layout_set_flags. rewrite testbit_lxor_pow2 by lia.
    cbn. apply xorb_false_r.
  - unfold writing. cbn [flags set_flags].
    rewrite testbit_lxor_pow2 by lia. cbn. apply xorb_true_r.
Qed.

Lemma layout_clear_writing h :
  layout h (set_flags (Z.ldiff (flags h) hashWriting) h) /\
  writing (set_flags (Z.ldiff (flags h) hashWriting) h) = false.
Proof.
  change hashWriting with (2 ^ 2). split.
  - apply layout_set_flags. rewrite testbit_ldiff_pow2 by lia.
    cbn. apply andb_true_r.
  - unfold writing. cbn [flags set_flags].
    rewrite testbit_ldiff_pow2 by lia. cbn. apply andb_false_r.
Qed.

Lemma assigned_shape w h G key x b i w' h' :
  assigned w h G key x b i -> same_shape h h' -> heap w' = heap w ->
  assigned w' h' G key x b i.
Proof.
  intros (Hnp & l & bm & HC & Hb & Hi & Hbm & Ht & Hk & Hh & Hm) HS EH.
  pose proof HS as (EB & _).
  destruct (shape_fields _ _ HS) as (_ & _ & Enb & _).
  unfold assigned. rewrite EH, EB, Enb. split.
  - intros Hp. apply Hnp. apply (pending_shape _ h h'); assumption.
  - exists l, bm. auto 10.
Qed.

Lemma keeps_none w h w' h' :
  buckets h = 0 -> B h = 0 -> oldbuckets h = 0 -> keeps w h w' h'.
Proof.
  intros Eb EB Eo key v _ (x & a & l & b & c & Hx & Ha & Hl & Hm). exfalso.
  assert (Hg : growing h = false) by (unfold growing; rewrite Eo; reflexivity).
  destruct Ha as [[[Hg' _] _] | [_ ->]]; [congruence|].
  unfold newb in Hl. rewrite Eb, EB in Hl.
  change (2 ^ 0) with 1 in Hl. rewrite Z.mod_1_r in Hl.
  inversion Hl as [| b0 bm0 l0 Hne Hbm Hc]; subst.
  - discriminate.
  - apply Hne. cbn. reflexivity.
Qed.


Lemma retry_wp {A : Type} n (body : M (option A)) (P : world K V -> Prop)
      (Q : A -> world K V -> Prop) w :
  P w ->
  (forall w1, P w1 ->
              wp body w1 (fun r w2 => match r with
                                      | Some a => Q a w2
                                      | None => P w2
                                      end)) ->
  wp (retry n body) w (fun r w2 => match r with
                                   | Some a => Q a w2
                                   | None => P w2
                                   end).
Proof.
  intros HP Hbody. revert w HP. induction n as [| n IH]; intros w HP.
  - apply Hbody. exact HP.
  - cbn [retry]. apply wp_bind. eapply wp_mono; [apply IH; exact HP|].
    intros [a |] w1 H1.
    + apply wp_ret. exact H1.
    + apply IH. exact H1.
Qed.

(** The first bucket of a table made without one. *)
Lemma first_bucket_wp w h G :
  ArchOK -> TypeOK -> Inv w h G -> buckets h = 0 ->
  wp (do nb <- newobject; updh (set_buckets nb)) w
     (fun _ w' =>
        exists h' G',
          hdr w' = Some h' /\ Inv w' h' G' /\ flags h' = flags h /\
          hash0 h' = hash0 h /\ buckets h' <> 0 /\ count h' = count h /\
          keeps w h w' h').
Proof.
  intros HA HT I Eb.
  pose proof (bucketsize_min HA HT) as HSz.
  pose proof (type_bucket_size HT) as Ebs.
  pose proof (inv_hdr _ _ _ I) as Hh.
  destruct (inv_nil _ _ _ I Eb) as (EB & Eo & ->).
  pose proof (inv_brk _ _ _ I) as Hbrk.
  apply wp_bind. unfold newobject. apply wp_newarray. intros _ Hfit.
  apply wp_updh. intros h_ Hh_. cbn [hdr set_brk set_heap] in Hh_.
  assert (h_ = h) as -> by congruence.
  rewrite Ebs in *. change (Z.to_nat 1) with 1%nat.
  set (H' := fill_buckets (heap w) (brk w) 1).
  set (h' := set_buckets (brk w) h).
  match goal with
  | |- exists _ _, hdr ?ww = _ /\ _ => set (w' := ww)
  end.
  assert (Ez : brk w + Z.of_nat 0 * bucketsize t = brk w) by lia.
  assert (Hin : H' !! brk w = Some zero_bmap).
  { pose proof (fill_buckets_in (heap w) (brk w) 1 0 ltac:(lia) ltac:(lia))
      as E. rewrite Ez in E. exact E. }
  assert (Hout : forall a, a <> brk w -> H' !! a = heap w !! a).
  { intros a Ha. apply fill_buckets_out. intros i Hi.
    assert (i = O) as -> by lia. rewrite Ez. exact Ha. }
  assert (Hold : forall a, is_Some (heap w !! a) -> a <> brk w).
  { intros a [bm Ha] ->. apply (inv_heap _ _ _ I) in Ha. lia. }
  exists h', {[brk w := brk w]}.
  split; [reflexivity|]. split; [|split; [reflexivity|]].
  - constructor.
    + reflexivity.
    + cbn [brk w' set_hdr set_brk set_heap]. lia.
    + intros a bm Ha. cbn [heap brk w' set_hdr set_brk set_heap] in *.
      destruct (Z.eq_dec a (brk w)) as [-> | Hne]; [lia|].
      rewrite Hout in Ha by assumption.
      apply (inv_heap _ _ _ I) in Ha. lia.
    + intros b a Hb. apply lookup_singleton_Some in Hb as [<- _].
      cbn [heap w' set_hdr set_brk set_heap]. eauto.
    + apply (inv_B _ _ _ I).
    + cbn [count h' set_buckets]. rewrite (inv_count _ _ _ I).
      rewrite total_occ_empty.
      symmetry. apply total_occ_zero. intros b [a Hb].
      apply lookup_singleton_Some in Hb as [<- _].
      unfold occ_at. cbn [heap w' set_hdr set_brk set_heap]. rewrite Hin.
      apply (occ_zero_bmap 0).
    + cbn [buckets h' set_buckets]. lia.
    + intros _. cbn [buckets h' set_buckets B brk w' set_hdr set_brk set_heap].
      rewrite EB. change (2 ^ 0) with 1. lia.
    + intros _ i Hi. cbn [B h' set_buckets] in Hi. rewrite EB in Hi.
      change (2 ^ 0) with 1 in Hi. assert (i = 0) as -> by lia.
      unfold newb. cbn [buckets h' set_buckets].
      replace (brk w + 0 * bucketsize t) with (brk w) by lia.
      destruct (fresh_chain_ok H' {[brk w := brk w]} (brk w) Hin
                  ltac:(lia) ltac:(apply lookup_singleton_eq))
        as [HC HF].
      exists [brk w]. split; [exact HC|]. intros _. exact HF.
    + intros Hg. unfold growing in Hg. cbn [oldbuckets h' set_buckets] in Hg.
      rewrite Eo in Hg. discriminate.
    + intros Hg. apply (inv_idle _ _ _ I).
      unfold growing. rewrite Eo. reflexivity.
    + destruct (inv_pool _ _ _ I) as [n Hn]. exists n.
      eapply pool_at_frame; [exact Hn|]. intros i Hi.
      destruct (pool_at_lookup _ _ _ _ i Hn Hi) as [_ Hs].
      pose proof (Hold _ Hs) as Hne. split.
      * apply Hout. exact Hne.
      * apply lookup_singleton_ne. intros E. apply Hne. symmetry. exact E.
  - split; [reflexivity|]. split; [cbn [buckets h' set_buckets]; lia|].
    split; [reflexivity|]. apply keeps_none; assumption.
Qed.


(** What [mapassign] leaves: a well-formed table, the flag clear, the key in
    the cell returned, and the entries of the other keys. *)
Definition assign_post (key : K) (w : world K V) (h : hmap) (b : Z) (i : nat)
           (w' : world K V) : Prop :=
  exists x h' G',
    hasher t key (hash0 h) (rand w O) = Some x /\
    hdr w' = Some h' /\ Inv w' h' G' /\ writing h' = false /\
    hash0 h' = hash0 h /\ assigned w' h' G' key x b i /\
    keeps_others key w h w' h'.

Lemma mapassign_wp w h G key :
  ArchOK -> TypeOK -> Inv w h G -> hashable key ->
  wp (mapassign key) w
     (fun p w' => exists b i, p = Slot b i /\ assign_post key w h b i w').
Proof.
  intros HA HT I Hkey.
  pose proof (inv_hdr _ _ _ I) as Hh.
  unfold mapassign. apply wp_bind, wp_get_world. rewrite Hh.
  rewrite writing_test. destruct (writing h) eqn:W; cbn [negb].
  { apply wp_throw. }
  apply wp_bind, wp_call_hasher; [exact Hkey|]. intros x Hx.
  set (w1 := set_hcalls _ _).
  apply wp_bind, wp_updh. intros h_ Hh_.
  assert (h_ = h) as -> by (cbn in Hh_; congruence).
  destruct (layout_toggle_writing h) as [L2 W2]. rewrite W in W2.
  set (h2 := set_flags (Z.lxor (flags h) hashWriting) h) in *.
  set (w2 := set_hdr (Some h2) w1).
  assert (I2 : Inv w2 h2 G)
    by (apply (Inv_layout w h G); [assumption | reflexivity.. | assumption]).
  assert (K2 : keeps w h w2 h2)
    by (apply keeps_shape; [apply L2 | reflexivity]).
  apply wp_bind, wp_geth. intros h_ Hh_'.
  assert (h_ = h2) as -> by (cbn in Hh_'; congruence).
  apply wp_bind.
  apply wp_mono
    with (Q := fun _ w3 =>
                 exists h3 G3,
                   hdr w3 = Some h3 /\ Inv w3 h3 G3 /\ writing h3 = true /\
                   hash0 h3 = hash0 h /\ buckets h3 <> 0 /\
                   keeps w h w3 h3).
  { destruct (Z.eqb_spec (buckets h2) 0) as [Eb | Eb].
    - eapply wp_mono;
        [apply (first_bucket_wp w2 h2 G HA HT I2 Eb)|].
      intros _ w3 (h3 & G3 & Hh3 & I3 & F3 & H3 & B3 & _ & K3).
      exists h3, G3. split; [assumption|]. split; [assumption|].
      split; [unfold writing in *; rewrite F3; exact W2|].
      split; [rewrite H3; reflexivity|]. split; [assumption|].
      eapply keeps_trans; eassumption.
    - apply wp_ret. exists h2, G. auto 10. }
  intros _ w3 (h3 & G3 & Hh3 & I3 & W3 & H3 & B3 & K3).
  apply wp_bind.
  eapply wp_mono.
  { apply retry_wp
      with (P := fun w4 =>
                   exists h4 G4,
                     hdr w4 = Some h4 /\ Inv w4 h4 G4 /\ writing h4 = true /\
                     hash0 h4 = hash0 h /\ buckets h4 <> 0 /\
                     keeps w h w4 h4)
           (Q := fun bi w4 =>
                   exists h4 G4,
                     hdr w4 = Some h4 /\ Inv w4 h4 G4 /\ writing h4 = true /\
                     hash0 h4 = hash0 h /\
                     assigned w4 h4 G4 key x (fst bi) (snd bi) /\
                     keeps_others key w h w4 h4).
    - exists h3, G3. auto 10.
    - intros w4 (h4 & G4 & Hh4 & I4 & W4 & H4 & B4 & K4).
      eapply wp_mono;
        [apply (mapassign_again_wp w4 h4 G4 key x HA HT I4 B4 Hkey)|].
      intros r w5 (h5 & G5 & Hh5 & I5 & W5 & H5 & B5 & _ & R5).
      destruct r as [[b i] |].
      + destruct R5 as [A5 K5]. exists h5, G5.
        split; [assumption|]. split; [assumption|].
        split; [congruence|]. split; [congruence|]. split; [exact A5|].
        eapply keeps_others_trans; [|exact K5].
        apply keeps_keeps_others. exact K4.
      + exists h5, G5.
        split; [assumption|]. split; [assumption|].
        split; [congruence|]. split; [congruence|]. split; [assumption|].
        eapply keeps_trans; eassumption. }
  intros [[b i] |] w4 Hr; [|apply wp_fail; reflexivity].
  destruct Hr as (h4 & G4 & Hh4 & I4 & W4 & H4 & A4 & K4).
  cbn [fst snd] in A4.
  apply wp_bind, wp_geth. intros h_ Hh_''.
  assert (h_ = h4) as -> by congruence.
  rewrite writing_test, W4. cbn [negb].
  apply wp_bind, wp_seth, wp_ret.
  destruct (layout_clear_writing h4) as [L5 W5].
  set (h5 := set_flags (Z.ldiff (flags h4) hashWriting) h4) in *.
  exists b, i. split; [reflexivity|].
  exists x, h5, G4. split; [exact Hx|]. split; [reflexivity|].
  split; [apply (Inv_layout w4 h4 G4);
          [assumption | reflexivity.. | assumption]|].
  split; [exact W5|]. split; [rewrite <- H4; reflexivity|].
  split; [apply (assigned_shape w4 h4); [assumption | apply L5 | reflexivity]|].
  eapply keeps_others_trans; [exact K4|].
  apply keeps_keeps_others, keeps_shape; [apply L5 | reflexivity].
Qed.


(** ** What the lookups return *)

(** [v, ok := m[key]] gives [v, true]. *)
Definition maps_to (w : world K V) (key : K) (v : V) : Prop :=
  exists p w1, mapaccess2 key w = Ok (p, true) w1 /\ load_elem p w1 = Ok v w1.

(** [_, ok := m[key]] gives [false]. *)
Definition misses (w : world K V) (key : K) : Prop :=
  exists w1, mapaccess2 key w = Ok (ZeroVal, false) w1.

Lemma found_self_equal w h key v :
  TypeOK -> found w h key v -> key_equal t key key = true.
Proof.
  intros HT (x & a & l & b & c & _ & _ & _ & Hm).
  apply first_match_Some in Hm as (pre & k & post & _ & _ & E).
  eapply (type_equal_trans HT); [exact E|]. apply (type_equal_sym HT), E.
Qed.

Lemma found_buckets w h G key v :
  Inv w h G -> found w h key v -> buckets h <> 0.
Proof.
  intros I (x & a & l & b & c & Hx & Ha & Hl & Hm) Eb.
  destruct (inv_nil _ _ _ I Eb) as (EB & Eo & _).
  assert (Hg : growing h = false) by (unfold growing; rewrite Eo; reflexivity).
  destruct Ha as [[[Hg' _] _] | [_ ->]]; [congruence|].
  unfold newb in Hl. rewrite Eb, EB in Hl.
  change (2 ^ 0) with 1 in Hl. rewrite Z.mod_1_r in Hl.
  inversion Hl as [| b0 bm0 l0 Hne Hbm Hc]; subst.
  - discriminate.
  - apply Hne. cbn. reflexivity.
Qed.

(** The walk of a lookup, on a well-formed table. *)
Lemma found_walk w h G key v :
  ArchOK -> TypeOK -> Inv w h G -> found w h key v ->
  exists x a l b c bm,
    hasher t key (hash0 h) 0 = Some x /\
    lookup_head (heap w) h (wrap x) a /\ chain_ok (heap w) G a l /\
    first_match key (tophash (wrap x)) (cells_of (heap w) l) = Some (b, c, v) /\
    b ∈ l /\ (c < 8)%nat /\ heap w !! b = Some bm /\
    b_tophash bm c = tophash (wrap x) /\ v = b_elems bm c.
Proof.
  intros HA HT I F. pose proof (found_buckets _ _ _ _ _ I F) as Hb.
  destruct F as (x & a & l & b & c & Hx & Ha & Hl & Hm).
  destruct (lookup_head_chain w h G (wrap x) HA HT I Hb)
    as (a' & l' & Ha' & Cl' & _).
  assert (a' = a) as -> by (eapply lookup_head_det; eassumption).
  assert (l' = l) as -> by (eapply chain_det; [apply Cl' | exact Hl]).
  pose proof Hm as Hm'.
  apply first_match_Some in Hm' as (pre & k & post & Ecs & _ & _).
  assert (Hin : (tophash (wrap x), k, (b, c, v)) ∈ cells_of (heap w) l).
  { rewrite Ecs. apply elem_of_app. right. apply list_elem_of_here. }
  apply cells_of_in in Hin as (Hbl & Hc & bm & Hbm & Et & _ & Ev).
  exists x, a, l, b, c, bm. auto 10.
Qed.

Lemma found_count w h G key v :
  ArchOK -> TypeOK -> Inv w h G -> found w h key v -> count h <> 0.
Proof.
  intros HA HT I F.
  destruct (found_walk w h G key v HA HT I F)
    as (x & a & l & b & c & bm & _ & _ & Cl & _ & Hbl & Hc & Hbm & Et & _).
  destruct Cl as (_ & Ho & _).
  pose proof (total_occ_ge (heap w) G b a (Ho _ Hbl)) as Hge.
  unfold occ_at in Hge. rewrite Hbm in Hge.
  pose proof (occ_bmap_pos bm c Hc) as Hpos.
  rewrite Et in Hpos. pose proof (tophash_range (wrap x)) as [Hr _].
  unfold occupied in Hpos. rewrite (proj2 (Z.leb_le _ _) Hr) in Hpos.
  specialize (Hpos eq_refl). rewrite (inv_count _ _ _ I). lia.
Qed.

Lemma found_det w h key v v' :
  found w h key v -> found w h key v' -> v = v'.
Proof.
  intros (x & a & l & b & c & Hx & Ha & Hl & Hm)
         (x' & a' & l' & b' & c' & Hx' & Ha' & Hl' & Hm').
  assert (x' = x) as -> by congruence.
  assert (a' = a) as -> by (eapply lookup_head_det; eassumption).
  assert (l' = l) as -> by (eapply chain_det; eassumption).
  congruence.
Qed.

(** On a well-formed table no write is in progress on, the lookups return
    what the walk finds. *)
Lemma found_maps_to w h G key v :
  ArchOK -> TypeOK -> Inv w h G -> writing h = false ->
  found w h key v -> maps_to w key v.
Proof.
  intros HA HT I W F.
  pose proof (found_self_equal _ _ _ _ HT F) as Ek.
  pose proof (found_count _ _ _ _ _ HA HT I F) as Hc.
  destruct (found_walk w h G key v HA HT I F)
    as (x & a & l & b & c & bm & Hx & Ha & Cl & Hm & Hbl & Hc8 & Hbm & Et & Ev).
  assert (Hx' : hasher t key (hash0 h) (rand w O) = Some x)
    by (rewrite <- Hx; apply (type_hash_equal HT); exact Ek).
  destruct (mapaccess_spec w h G key x HA HT I Hc
              (proj2 (writing_flag h) W) Hx')
    as (a' & l' & Ha' & Cl' & _ & E2).
  assert (a' = a) as -> by (eapply lookup_head_det; eassumption).
  assert (l' = l) as -> by (eapply chain_det; [apply Cl' | apply Cl]).
  rewrite Hm in E2. cbn [slot_of fst snd] in E2.
  exists (Slot b c), (after_hash key (hash0 h) w). split; [exact E2|].
  unfold load_elem, bind, load. cbn [heap after_hash set_hcalls set_rand].
  rewrite Hbm. rewrite Ev. reflexivity.
Qed.

Lemma maps_to_found w h G key v :
  ArchOK -> TypeOK -> Inv w h G -> maps_to w key v -> found w h key v.
Proof.
  intros HA HT I (p & w1 & E2 & El).
  pose proof (inv_hdr _ _ _ I) as Hh.
  destruct (Z.eqb_spec (count h) 0) as [Ec | Hc].
  { exfalso.
    destruct (mapaccess_empty w key) as [_ E].
    { right. exists h. auto. }
    rewrite E in E2. unfold lookup_empty in E2.
    destruct (hashMightPanic t).
    - unfold bind, call_hasher, ret in E2.
      destruct (hasher t key 0 (rand w O)); discriminate.
    - discriminate. }
  destruct (writing h) eqn:W.
  { exfalso. unfold mapaccess2, bind, get_world in E2. rewrite Hh in E2.
    destruct (Z.eqb_spec (count h) 0) as [|_]; [contradiction|].
    rewrite writing_test, W in E2. discriminate. }
  destruct (hasher t key (hash0 h) (rand w O)) as [x |] eqn:Hx.
  - destruct (mapaccess_spec w h G key x HA HT I Hc
                (proj2 (writing_flag h) W) Hx)
      as (a & l & Ha & Cl & _ & E2').
    rewrite E2' in E2.
    destruct (first_match key (tophash (wrap x)) (cells_of (heap w) l))
      as [[[b c] v0] |] eqn:Hm; [|discriminate].
    cbn [slot_of fst snd] in E2. injection E2 as <- <-.
    pose proof Hm as Hm'.
    apply first_match_Some in Hm' as (pre & k & post & Ecs & _ & Ek).
    assert (Ekk : key_equal t key key = true).
    { eapply (type_equal_trans HT); [exact Ek|].
      apply (type_equal_sym HT), Ek. }
    assert (Hin : (tophash (wrap x), k, (b, c, v0)) ∈ cells_of (heap w) l).
    { rewrite Ecs. apply elem_of_app. right. apply list_elem_of_here. }
    apply cells_of_in in Hin as (Hbl & Hc8 & bm & Hbm & Et & _ & Ev).
    unfold load_elem, bind, load in El.
    cbn [heap after_hash set_hcalls set_rand] in El.
    rewrite Hbm in El. injection El as <-. rewrite <- Ev.
    exists x, a, l, b, c. split.
    + rewrite <- Hx. apply (type_hash_equal HT). exact Ekk.
    + split; [exact Ha|]. split; [apply Cl | exact Hm].
  - exfalso. unfold mapaccess2, bind, get_world in E2. rewrite Hh in E2.
    destruct (Z.eqb_spec (count h) 0) as [|_]; [contradiction|].
    rewrite writing_test, W in E2. cbn [negb] in E2.
    unfold lookup, bind, call_hasher in E2. rewrite Hx in E2. discriminate.
Qed.

(** A key the walk does not find is reported missing. *)
Lemma not_found_misses w h G key :
  ArchOK -> TypeOK -> Inv w h G -> writing h = false -> hashable key ->
  (forall v, ~ found w h key v) -> misses w key.
Proof.
  intros HA HT I W Hk Hnf.
  pose proof (inv_hdr _ _ _ I) as Hh.
  destruct (Z.eqb_spec (count h) 0) as [Ec | Hc].
  { destruct (mapaccess_empty w key) as [_ E].
    { right. exists h. auto. }
    unfold misses. rewrite E. unfold lookup_empty.
    destruct (hashMightPanic t).
    - unfold bind, call_hasher, ret.
      destruct (hasher t key 0 (rand w O)) eqn:Hx; [eauto|].
      exfalso. exact (Hk _ _ Hx).
    - eexists. reflexivity. }
  destruct (hasher t key (hash0 h) (rand w O)) as [x |] eqn:Hx;
    [|exfalso; exact (Hk _ _ Hx)].
  destruct (mapaccess_spec w h G key x HA HT I Hc
              (proj2 (writing_flag h) W) Hx)
    as (a & l & Ha & Cl & _ & E2).
  destruct (first_match key (tophash (wrap x)) (cells_of (heap w) l))
    as [[[b c] v0] |] eqn:Hm.
  - exfalso. apply (Hnf v0).
    pose proof Hm as Hm'.
    apply first_match_Some in Hm' as (pre & k & post & Ecs & _ & Ek).
    assert (Ekk : key_equal t key key = true).
    { eapply (type_equal_trans HT); [exact Ek|].
      apply (type_equal_sym HT), Ek. }
    exists x, a, l, b, c. split.
    + rewrite <- Hx. apply (type_hash_equal HT). exact Ekk.
    + split; [exact Ha|]. split; [apply Cl | exact Hm].
  - exists (after_hash key (hash0 h) w). exact E2.
Qed.


(** ** [m[k] = v] *)

Lemma assigned_buckets w h G key x b i :
  Inv w h G -> assigned w h G key x b i -> buckets h <> 0.
Proof.
  intros I (_ & l & bm & (_ & Ho & _) & Hb & _) Eb.
  destruct (inv_nil _ _ _ I Eb) as (_ & _ & ->).
  specialize (Ho _ Hb). rewrite fin_maps.lookup_empty in Ho. discriminate.
Qed.

Lemma assigned_found w h G key x b i bm :
  TypeOK -> assigned w h G key x b i -> heap w !! b = Some bm ->
  hasher t key (hash0 h) 0 = Some x -> key_equal t key key = true ->
  found w h key (b_elems bm i).
Proof.
  intros HT (Hnp & l & bm' & Cl & Hb & Hi & Hbm' & _ & _ & _ & Hm) Hbm Hx Ek.
  assert (bm' = bm) as -> by congruence.
  eapply found_intro; [exact Hx | exact Hnp | apply Cl | apply Hm, Ek].
Qed.

Lemma put_wp w h G key v :
  ArchOK -> TypeOK -> Inv w h G -> hashable key ->
  wp (put key v) w
     (fun _ w' =>
        exists h' G',
          hdr w' = Some h' /\ Inv w' h' G' /\ writing h' = false /\
          hash0 h' = hash0 h /\
          (key_equal t key key = true -> found w' h' key v) /\
          keeps_others key w h w' h').
Proof.
  intros HA HT I Hkey. unfold put. apply wp_bind.
  eapply wp_mono; [apply (mapassign_wp w h G key HA HT I Hkey)|].
  intros p w1 (b & i & -> & x & h1 & G1 & Hx & Hh1 & I1 & W1 & H1 & A1 & K1).
  cbn [store_elem]. apply wp_updb. intros bm Hbm.
  match goal with
  | |- exists _ _, hdr ?ww = _ /\ _ => set (w' := ww)
  end.
  pose proof (assigned_buckets _ _ _ _ _ _ _ I1 A1) as Hb1.
  pose proof A1 as (_ & _ & bm0 & _ & _ & _ & Hbm0 & _ & Hk0 & Hh0 & _).
  assert (bm0 = bm) as -> by congruence.
  destruct (assigned_update w1 h1 G1 key x b i bm (set_elem i v bm) w' h1
              HA HT I1 Hb1 A1 Hbm) as (I' & A' & K').
  { split; [reflexivity|]. intros c' Hc'.
    cbn [b_tophash b_keys b_elems set_elem]. unfold upd.
    destruct (Nat.eqb_spec c' i); [contradiction | auto]. }
  { reflexivity. }
  { exact Hk0. }
  { exact Hh0. }
  { destruct A1 as (_ & l & bm1 & Cl & Hbl & Hi & Hbm1 & Et & _ & _ & Hm).
    assert (bm1 = bm) as -> by congruence.
    intros Ek. specialize (Hm Ek).
    apply first_match_Some in Hm as (pre & k & post & Ecs & _ & Ek').
    assert (Hin : (tophash (wrap x), k, (b, i, b_elems bm i))
                    ∈ cells_of (heap w1) l).
    { rewrite Ecs. apply elem_of_app. right. apply list_elem_of_here. }
    apply cells_of_in in Hin as (_ & _ & bm2 & Hbm2 & _ & -> & _).
    assert (bm2 = bm) as -> by congruence. exact Ek'. }
  { exact Hh1. }
  { reflexivity. }
  { reflexivity. }
  { apply layout_refl. }
  exists h1, G1. split; [exact Hh1|]. split; [exact I'|].
  split; [exact W1|]. split; [exact H1|]. split.
  - intros Ek.
    assert (Hx0 : hasher t key (hash0 h1) 0 = Some x).
    { rewrite H1, <- Hx. apply (type_hash_equal HT). exact Ek. }
    pose proof (assigned_found w' h1 G1 key x b i (set_elem i v bm) HT A'
                  ltac:(apply lookup_insert_eq) Hx0 Ek) as F.
    cbn [b_elems set_elem] in F. unfold upd in F.
    rewrite Nat.eqb_refl in F. exact F.
  - eapply keeps_others_trans; eassumption.
Qed.


Lemma found_equal w h key key' v :
  TypeOK -> key_equal t key' key = true ->
  found w h key v -> found w h key' v.
Proof.
  intros HT E (x & a & l & b & c & Hx & Ha & Hl & Hm).
  exists x, a, l, b, c. split.
  - rewrite <- Hx. apply (type_hash_equal HT). exact E.
  - split; [exact Ha|]. split; [exact Hl|].
    rewrite <- Hm. apply first_match_equal; assumption.
Qed.



(** ** The tophash bytes

    Every tophash of the bucket memory is a byte.  The operations keep it
    so: what they write is a mark, the tophash of a hash, or a byte they
    have read. *)

Definition bytes_ok (bm : bmap K V) : Prop :=
  forall c, 0 <= b_tophash bm c < 256.

Definition Bytes (w : world K V) : Prop :=
  forall a bm, heap w !! a = Some bm -> bytes_ok bm.

(** [kb m R]: run from a world whose tophashes are bytes, [m] returns in
    such a world, with a result that meets [R]. *)
Definition kb {A : Type} (m : M A) (R : A -> Prop) : Prop :=
  forall w a w', Bytes w -> m w = Ok a w' -> Bytes w' /\ R a.

Lemma kb_weaken {A : Type} (m : M A) (R R' : A -> Prop) :
  kb m R -> (forall a, R a -> R' a) -> kb m R'.
Proof. intros H HR w a w' Hw E. destruct (H w a w' Hw E). auto. Qed.

Lemma kb_ret {A : Type} (a : A) (R : A -> Prop) : R a -> kb (ret a) R.
Proof. intros HR w a' w' Hw [= <- <-]. auto. Qed.

Lemma kb_bind {A B' : Type} (m : M A) (f : A -> M B') (R : A -> Prop)
      (R' : B' -> Prop) :
  kb m R -> (forall a, R a -> kb (f a) R') -> kb (bind m f) R'.
Proof.
  intros Hm Hf w b w' Hw E. apply bind_ok in E as (a & w1 & E1 & E2).
  destruct (Hm w a w1 Hw E1) as [Hw1 Ha]. exact (Hf a Ha w1 b w' Hw1 E2).
Qed.

Lemma kb_fail {A : Type} e (R : A -> Prop) : kb (fail e) R.
Proof. intros w a w' _ E. discriminate. Qed.

Lemma kb_throw {A : Type} msg (R : A -> Prop) : kb (throw msg) R.
Proof. apply kb_fail. Qed.

Lemma kb_get_world : kb get_world Bytes.
Proof. intros w a w' Hw [= <- <-]. auto. Qed.

Lemma kb_geth : kb geth (fun _ => True).
Proof.
  intros w a w' Hw E. unfold geth in E.
  destruct (hdr w); [|discriminate]. injection E as _ <-. auto.
Qed.

Lemma kb_seth h : kb (seth h) (fun _ => True).
Proof. intros w a w' Hw [= _ <-]. auto. Qed.

Lemma kb_updh f : kb (updh f) (fun _ => True).
Proof.
  unfold updh. eapply kb_bind; [apply kb_geth|]. intros h _. apply kb_seth.
Qed.

Lemma kb_load b : kb (load b) bytes_ok.
Proof.
  intros w a w' Hw E. unfold load in E.
  destruct (heap w !! b) as [bm|] eqn:Eb; [|discriminate].
  injection E as <- <-. split; [assumption|]. exact (Hw _ _ Eb).
Qed.

Lemma Bytes_insert w b bm :
  Bytes w -> bytes_ok bm -> Bytes (set_heap (<[b := bm]> (heap w)) w).
Proof.
  intros Hw Hbm a bm' Ha. cbn [heap set_heap] in Ha.
  destruct (Z.eq_dec a b) as [-> | Hne].
  - rewrite lookup_insert_eq in Ha. injection Ha as <-. assumption.
  - rewrite lookup_insert_ne in Ha by congruence. exact (Hw _ _ Ha).
Qed.

Lemma kb_store b bm : bytes_ok bm -> kb (store b bm) (fun _ => True).
Proof.
  intros Hbm w a w' Hw E. unfold store in E.
  destruct (heap w !! b); [|discriminate]. injection E as _ <-.
  split; [|exact I]. apply Bytes_insert; assumption.
Qed.

Lemma kb_updb b f :
  (forall bm, bytes_ok bm -> bytes_ok (f bm)) -> kb (updb b f) (fun _ => True).
Proof.
  intros Hf. unfold updb. eapply kb_bind; [apply kb_load|].
  intros bm Hbm. apply kb_store. auto.
Qed.

Lemma kb_bmap_overflow b : kb (bmap_overflow b) (fun _ => True).
Proof.
  unfold bmap_overflow. eapply kb_bind; [apply kb_load|].
  intros bm _. apply kb_ret. exact I.
Qed.

Lemma kb_fastrand : kb fastrand (fun _ => True).
Proof. intros w a w' Hw [= _ <-]. auto. Qed.

Lemma kb_call_hasher key seed : kb (call_hasher key seed) (fun _ => True).
Proof.
  intros w a w' Hw E. unfold call_hasher in E.
  destruct (hasher t key seed (rand w O)); [|discriminate].
  injection E as _ <-. auto.
Qed.

Lemma bytes_ok_zero : bytes_ok zero_bmap.
Proof. intros c. cbn. lia. Qed.

Lemma bytes_ok_set_tophash i x bm :
  0 <= x < 256 -> bytes_ok bm -> bytes_ok (set_tophash i x bm).
Proof.
  intros Hx Hbm c. cbn [b_tophash set_tophash]. unfold upd.
  destruct (Nat.eqb c i); [assumption | apply Hbm].
Qed.

Lemma bytes_ok_same bm bm' :
  (forall c, b_tophash bm' c = b_tophash bm c) -> bytes_ok bm -> bytes_ok bm'.
Proof. intros E Hbm c. rewrite E. apply Hbm. Qed.

Lemma fill_buckets_bytes H base n :
  (forall a bm, H !! a = Some bm -> bytes_ok bm) ->
  forall a bm, fill_buckets H base n !! a = Some bm -> bytes_ok bm.
Proof.
  intros HH. induction n as [| n IH]; intros a bm Ha; cbn [fill_buckets] in Ha.
  - exact (HH _ _ Ha).
  - destruct (Z.eq_dec a (base + Z.of_nat n * bucketsize t)) as [-> | Hne].
    + rewrite lookup_insert_eq in Ha. injection Ha as <-. apply bytes_ok_zero.
    + rewrite lookup_insert_ne in Ha by congruence. exact (IH _ _ Ha).
Qed.

Lemma kb_newarray n : kb (newarray n) (fun _ => True).
Proof.
  intros w a w' Hw E. unfold newarray in E.
  destruct (_ || _); [discriminate|]. injection E as _ <-.
  split; [|exact I]. intros x bm Hx. cbn [heap set_brk set_heap] in Hx.
  eapply fill_buckets_bytes; [exact Hw | exact Hx].
Qed.

Lemma kb_memclr_buckets base n : kb (memclr_buckets base n) (fun _ => True).
Proof.
  intros w a w' Hw [= _ <-]. split; [|exact I].
  intros x bm Hx. cbn [heap set_heap] in Hx.
  eapply fill_buckets_bytes; [exact Hw | exact Hx].
Qed.

Lemma kb_setoverflow b o : kb (setoverflow b o) (fun _ => True).
Proof.
  apply kb_updb. intros bm Hbm. eapply bytes_ok_same; [|exact Hbm].
  reflexivity.
Qed.

(** One step through a sequence whose parts need no result. *)
Ltac kb_step :=
  lazymatch goal with
  | |- kb (bind geth _) _ => eapply kb_bind; [apply kb_geth|intros ? _]
  | |- kb (bind get_world _) _ => eapply kb_bind; [apply kb_get_world|intros ? ?]
  | |- kb (bind (load _) _) _ => eapply kb_bind; [apply kb_load|intros ? ?]
  | |- kb (bind (seth _) _) _ => eapply kb_bind; [apply kb_seth|intros _ _]
  | |- kb (bind (updh _) _) _ => eapply kb_bind; [apply kb_updh|intros _ _]
  | |- kb (bind fastrand _) _ => eapply kb_bind; [apply kb_fastrand|intros ? _]
  | |- kb (bind (call_hasher _ _) _) _ =>
      eapply kb_bind; [apply kb_call_hasher|intros ? _]
  | |- kb (bind (bmap_overflow _) _) _ =>
      eapply kb_bind; [apply kb_bmap_overflow|intros ? _]
  | |- kb (bind (setoverflow _ _) _) _ =>
      eapply kb_bind; [apply kb_setoverflow|intros _ _]
  | |- kb (bind (newarray _) _) _ =>
      eapply kb_bind; [apply kb_newarray|intros ? _]
  | |- kb (bind newobject _) _ =>
      eapply kb_bind; [apply kb_newarray|intros ? _]
  | |- kb (ret _) (fun _ => True) => apply kb_ret; exact I
  | |- kb (fail _) _ => apply kb_fail
  | |- kb (throw _) _ => apply kb_throw
  | |- kb (seth _) (fun _ => True) => apply kb_seth
  | |- kb (updh _) (fun _ => True) => apply kb_updh
  | |- kb (setoverflow _ _) (fun _ => True) => apply kb_setoverflow
  | |- kb newobject (fun _ => True) => apply kb_newarray
  | |- kb (newarray _) (fun _ => True) => apply kb_newarray
  | |- kb fastrand (fun _ => True) => apply kb_fastrand
  | |- kb (if ?c then _ else _) _ => destruct c
  | |- kb (match ?x with Some _ => _ | None => _ end) _ => destruct x
  | |- kb (let '(_, _) := ?x in _) _ => destruct x
  end.

Lemma kb_incrnoverflow : kb incrnoverflow (fun _ => True).
Proof. unfold incrnoverflow. cbv zeta. repeat kb_step. Qed.

Lemma kb_newoverflow b : kb (newoverflow b) (fun _ => True).
Proof.
  unfold newoverflow. kb_step.
  eapply kb_bind with (R := fun _ => True).
  { repeat kb_step. }
  intros ovf _.
  eapply kb_bind; [apply kb_incrnoverflow|]. intros _ _.
  eapply kb_bind with (R := fun _ => True).
  { repeat kb_step. }
  intros _ _. repeat kb_step.
Qed.


Lemma kb_evacuate_cell newbit b xy i :
  kb (evacuate_cell newbit b xy i) (fun _ => True).
Proof.
  unfold evacuate_cell.
  eapply kb_bind; [apply kb_load|]. intros bm Hbm. cbv zeta.
  destruct (isEmpty (b_tophash bm i)).
  { eapply kb_bind; [apply kb_store|intros _ _; kb_step].
    apply bytes_ok_set_tophash; [unfold evacuatedEmpty; lia | assumption]. }
  destruct (b_tophash bm i <? minTopHash); [apply kb_throw|].
  eapply kb_bind; [apply kb_geth|]. intros h _.
  eapply kb_bind
    with (R := fun p => 0 <= fst p <= 1 /\ 0 <= snd p < 256).
  { destruct (negb (is_sameSizeGrow h)).
    - eapply kb_bind; [apply kb_call_hasher|]. intros hash _.
      apply kb_ret. unfold evacuate_decide.
      destruct (_ && _); cbn [fst snd].
      + split.
        * assert (E : Z.land (b_tophash bm i) 1 = b_tophash bm i mod 2)
            by (apply (Z.land_ones _ 1); lia).
          pose proof (Z.mod_pos_bound (b_tophash bm i) 2 ltac:(lia)). lia.
        * pose proof (tophash_range hash). unfold minTopHash in *. lia.
      + destruct (negb _); cbn [fst snd]; (split; [lia | apply Hbm]).
    - apply kb_ret. cbn [fst snd]. split; [lia | apply Hbm]. }
  intros [useY top] [HuseY Htop]. cbn [fst snd] in HuseY, Htop.
  destruct (_ || _); [apply kb_throw|].
  eapply kb_bind.
  { apply kb_updb. intros bm' Hbm'. apply bytes_ok_set_tophash; [|assumption].
    unfold evacuatedX. lia. }
  intros _ _.
  eapply kb_bind with (R := fun _ => True).
  { kb_step.
    - eapply kb_bind; [apply kb_newoverflow|]. intros nb _. kb_step.
    - kb_step. }
  intros dst _.
  eapply kb_bind.
  { apply kb_updb. intros d Hd c. cbn [b_tophash set_elem set_key].
    apply bytes_ok_set_tophash; assumption. }
  intros _ _. kb_step.
Qed.

Lemma kb_evacuate_cells newbit b cells :
  forall xy, kb (evacuate_cells newbit b xy cells) (fun _ => True).
Proof.
  induction cells as [| i cells IH]; intros xy; cbn [evacuate_cells].
  - kb_step.
  - eapply kb_bind; [apply kb_evacuate_cell|]. intros xy' _. apply IH.
Qed.

Lemma kb_evacuate_chain fuel newbit :
  forall b xy, kb (evacuate_chain fuel newbit b xy) (fun _ => True).
Proof.
  induction fuel as [| fuel IH]; intros b xy; cbn [evacuate_chain].
  - kb_step.
  - kb_step; [kb_step|].
    eapply kb_bind; [apply kb_evacuate_cells|]. intros xy' _.
    kb_step. apply IH.
Qed.

Lemma kb_advance_loop n stop : kb (advance_loop n stop) (fun _ => True).
Proof.
  induction n as [| n IH]; cbn [advance_loop].
  - kb_step.
  - kb_step. kb_step; [|kb_step].
    eapply kb_bind with (R := fun _ => True).
    { unfold bucketEvacuated. repeat kb_step. }
    intros ev _. kb_step; [|kb_step]. kb_step. apply IH.
Qed.

Lemma kb_advanceEvacuationMark newbit :
  kb (advanceEvacuationMark newbit) (fun _ => True).
Proof.
  unfold advanceEvacuationMark. kb_step. kb_step. cbv zeta.
  eapply kb_bind; [apply kb_advance_loop|]. intros _ _.
  repeat kb_step.
Qed.

Lemma kb_evacuate j : kb (evacuate j) (fun _ => True).
Proof.
  unfold evacuate. kb_step. cbv zeta. kb_step.
  eapply kb_bind with (R := fun _ => True).
  { kb_step; [|kb_step]. cbv zeta. kb_step.
    eapply kb_bind; [apply kb_evacuate_chain|]. intros _ _.
    kb_step. kb_step; [|kb_step].
    apply kb_updb. intros bm Hbm. eapply bytes_ok_same; [|exact Hbm].
    reflexivity. }
  intros _ _. kb_step. kb_step; [|kb_step].
  apply kb_advanceEvacuationMark.
Qed.

Lemma kb_growWork bucket : kb (growWork bucket) (fun _ => True).
Proof.
  unfold growWork. kb_step.
  eapply kb_bind; [apply kb_evacuate|]. intros _ _.
  kb_step. kb_step; [|kb_step]. apply kb_evacuate.
Qed.

Lemma kb_makeBucketArray b d : kb (makeBucketArray b d) (fun _ => True).
Proof.
  unfold makeBucketArray. cbv zeta.
  eapply kb_bind with (R := fun _ => True).
  { kb_step; [apply kb_newarray|].
    eapply kb_bind; [apply kb_memclr_buckets|]. intros _ _. kb_step. }
  intros bkts _. repeat kb_step.
Qed.

Lemma kb_hashGrow : kb hashGrow (fun _ => True).
Proof.
  unfold hashGrow. kb_step. cbv zeta.
  eapply kb_bind with (R := fun _ => True).
  { repeat kb_step. }
  intros _ _. kb_step.
  eapply kb_bind; [apply kb_makeBucketArray|]. intros [nb nx] _.
  kb_step. cbv zeta. kb_step. kb_step.
  eapply kb_bind with (R := fun _ => True).
  { repeat kb_step. }
  intros _ _. repeat kb_step.
Qed.

Lemma kb_assign_chain fuel key top :
  forall b ins, kb (assign_chain fuel b key top ins) (fun _ => True).
Proof.
  induction fuel as [| fuel IH]; intros b ins; cbn [assign_chain].
  - kb_step.
  - kb_step.
    destruct (assign_cells _ _ _ _ _ _) as [i | ins' | ins'].
    + kb_step.
    + kb_step.
    + cbv zeta. destruct (_ =? 0); [kb_step | apply IH].
Qed.

Lemma kb_mapassign_again key hash :
  kb (mapassign_again key hash) (fun _ => True).
Proof.
  unfold mapassign_again. kb_step. cbv zeta.
  eapply kb_bind with (R := fun _ => True).
  { kb_step; [apply kb_growWork | kb_step]. }
  intros _ _. kb_step. kb_step.
  eapply kb_bind; [apply kb_assign_chain|]. intros [[found ins] lastb] _.
  destruct found as [[b i] |].
  - eapply kb_bind with (R := fun _ => True).
    + kb_step; [|kb_step]. apply kb_updb. intros bm Hbm.
      eapply bytes_ok_same; [|exact Hbm]. reflexivity.
    + intros _ _. apply kb_ret. exact I.
  - kb_step. kb_step.
    + eapply kb_bind; [apply kb_hashGrow|]. intros _ _. apply kb_ret. exact I.
    + eapply kb_bind with (R := fun _ => True).
      * destruct ins as [s |]; [apply kb_ret; exact I|].
        eapply kb_bind; [apply kb_newoverflow|]. intros nb _.
        apply kb_ret. exact I.
      * intros [ib ii] _.
        eapply kb_bind.
        { apply kb_updb. intros bm Hbm. cbv zeta.
          apply bytes_ok_set_tophash.
          - pose proof (tophash_range hash). unfold minTopHash in *. lia.
          - eapply bytes_ok_same; [|exact Hbm]. intros c.
            destruct (indirectelem t); reflexivity. }
        intros _ _. kb_step. apply kb_ret. exact I.
Qed.

Lemma kb_retry {A : Type} n (body : M (option A)) :
  kb body (fun _ => True) -> kb (retry n body) (fun _ => True).
Proof.
  intros Hb. induction n as [| n IH]; cbn [retry]; [exact Hb|].
  eapply kb_bind; [exact IH|]. intros [a |] _; [apply kb_ret; exact I|].
  exact IH.
Qed.

Lemma kb_mapassign key : kb (mapassign key) (fun _ => True).
Proof.
  unfold mapassign. kb_step. kb_step; [|kb_step].
  kb_step; [kb_step|]. kb_step. kb_step. kb_step.
  eapply kb_bind with (R := fun _ => True).
  { kb_step; [|kb_step]. kb_step. apply kb_updh. }
  intros _ _.
  eapply kb_bind; [apply kb_retry, kb_mapassign_again|].
  intros [[b i] |] _; [|kb_step].
  kb_step. kb_step; [kb_step|]. kb_step. apply kb_ret. exact I.
Qed.

Lemma kb_put key v : kb (put key v) (fun _ => True).
Proof.
  unfold put. eapply kb_bind; [apply kb_mapassign|].
  intros [| | b i] _; cbn [store_elem]; try kb_step.
  apply kb_updb. intros bm Hbm. eapply bytes_ok_same; [|exact Hbm].
  reflexivity.
Qed.


(** ** Deletion: the cells of the chain *)

Definition cell_top (c : Z * K * (Z * nat * V)) : Z := fst (fst c).

(** The cell [c] with its tophash replaced by [x]. *)
Definition retop (x : Z) (c : Z * K * (Z * nat * V))
  : Z * K * (Z * nat * V) :=
  (x, snd (fst c), snd c).

Definition all_emptyOne (cs : list (Z * K * (Z * nat * V))) : bool :=
  forallb (fun c => cell_top c =? emptyOne) cs.

(** What the backward loop of [mapdelete] makes of the cells in front of
    the emptied one: the [emptyOne] cells they end in become [emptyRest]. *)
Fixpoint wipe (pre : list (Z * K * (Z * nat * V)))
  : list (Z * K * (Z * nat * V)) :=
  match pre with
  | [] => []
  | c :: pre' =>
      (if all_emptyOne (c :: pre') then retop emptyRest c else c) :: wipe pre'
  end.

Lemma all_emptyOne_app l1 l2 :
  all_emptyOne (l1 ++ l2) = all_emptyOne l1 && all_emptyOne l2.
Proof. unfold all_emptyOne. apply forallb_app. Qed.

Lemma wipe_snoc_one pre c :
  cell_top c = emptyOne -> wipe (pre ++ [c]) = wipe pre ++ [retop emptyRest c].
Proof.
  intros Hc. induction pre as [| p pre IH].
  - cbn. rewrite Hc. reflexivity.
  - cbn [app wipe]. rewrite IH. f_equal.
    change (p :: pre ++ [c]) with ((p :: pre) ++ [c]).
    rewrite all_emptyOne_app.
    assert (E : all_emptyOne [c] = true)
      by (cbn; rewrite Hc; reflexivity).
    rewrite E, andb_true_r. reflexivity.
Qed.

Lemma wipe_snoc_other pre c :
  cell_top c <> emptyOne -> wipe (pre ++ [c]) = pre ++ [c].
Proof.
  intros Hc. apply Z.eqb_neq in Hc. induction pre as [| p pre IH].
  - cbn. rewrite Hc. reflexivity.
  - cbn [app wipe]. rewrite IH. f_equal.
    change (p :: pre ++ [c]) with ((p :: pre) ++ [c]).
    rewrite all_emptyOne_app.
    assert (E : all_emptyOne [c] = false)
      by (cbn; rewrite Hc; reflexivity).
    rewrite E, andb_false_r. reflexivity.
Qed.

Lemma wipe_length pre : length (wipe pre) = length pre.
Proof. induction pre as [| p pre IH]; cbn; congruence. Qed.

Lemma wipe_all pre :
  all_emptyOne pre = true ->
  Forall (fun y => y = emptyRest) (map cell_top (wipe pre)).
Proof.
  induction pre as [| p pre IH]; intros Ha; [constructor|].
  cbn [wipe map]. rewrite Ha. constructor; [reflexivity|].
  apply IH. cbn [all_emptyOne forallb] in Ha.
  apply andb_true_iff in Ha as [_ Ha]. exact Ha.
Qed.

(** The same on the tophash bytes: every [emptyOne] that only [emptyOne]
    cells follow becomes [emptyRest]. *)
Fixpoint wipe_tops (tops : list Z) : list Z :=
  match tops with
  | [] => []
  | y :: tops' =>
      (if forallb (fun z => z =? emptyOne) (y :: tops') then emptyRest
       else y) :: wipe_tops tops'
  end.

Lemma map_wipe pre : map cell_top (wipe pre) = wipe_tops (map cell_top pre).
Proof.
  assert (E : forall cs, all_emptyOne cs
                         = forallb (fun z => z =? emptyOne) (map cell_top cs)).
  { induction cs as [| c cs IH]; [reflexivity|].
    cbn [all_emptyOne forallb map] in *. unfold all_emptyOne in IH.
    rewrite IH. reflexivity. }
  induction pre as [| c pre IH]; [reflexivity|].
  cbn [wipe map wipe_tops]. rewrite IH. f_equal.
  change (cell_top c :: map cell_top pre) with (map cell_top (c :: pre)).
  rewrite <- E. destruct (all_emptyOne (c :: pre)); reflexivity.
Qed.

(** Whether the cell in front of the cells [post] of a chain is followed
    by a cell that is not [emptyRest]. *)
Definition not_last (post : list (Z * K * (Z * nat * V))) : bool :=
  match post with
  | [] => false
  | c' :: _ => negb (cell_top c' =? emptyRest)
  end.

(** A tophash is one of the two empty marks or that of a key. *)
Definition top3 (y : Z) : Prop :=
  y = emptyRest \/ y = emptyOne \/ occupied y = true.

Lemma cell_ok_top3 c : cell_ok c -> 0 <= cell_top c -> top3 (cell_top c).
Proof.
  intros [[H | H] _] H0; unfold top3, cell_top, emptyRest, emptyOne in *.
  - destruct (Z.eq_dec (fst (fst c)) 0); [auto|]. right. left. lia.
  - right. right. apply Z.leb_le. exact H.
Qed.

Lemma wipe_occupied pre :
  all_emptyOne pre = false ->
  Forall (fun c => top3 (cell_top c)) pre ->
  Forall (fun c => cell_top c <> emptyRest) pre ->
  Exists (fun y => occupied y = true) (map cell_top (wipe pre)).
Proof.
  induction pre as [| p pre IH]; intros Ha H3 Hn; [discriminate|].
  inversion H3 as [| ? ? Hp H3']; subst.
  inversion Hn as [| ? ? Hp0 Hn']; subst.
  cbn [wipe map]. rewrite Ha.
  destruct Hp as [Hp | [Hp | Hp]].
  - contradiction.
  - apply Exists_cons_tl. apply IH; try assumption.
    cbn [all_emptyOne forallb] in Ha. rewrite Hp, Z.eqb_refl in Ha.
    exact Ha.
  - apply Exists_cons_hd. exact Hp.
Qed.

Lemma tidy_no_rest pre x post :
  tidy (map cell_top (pre ++ x :: post)) -> occupied (cell_top x) = true ->
  Forall (fun c => cell_top c <> emptyRest) pre.
Proof.
  intros Ht Hx. induction pre as [| p pre IH]; [constructor|].
  cbn [app map] in Ht. apply tidy_cons in Ht as (HA & _ & Ht).
  constructor; [|apply IH; exact Ht].
  intros E. specialize (HA E). rewrite map_app in HA.
  apply Forall_app in HA as [_ HA]. cbn [map] in HA.
  inversion HA; subst. congruence.
Qed.

Lemma tidy_delete_end pre x x' post :
  tidy (map cell_top (pre ++ x :: post)) -> occupied (cell_top x) = true ->
  cell_top x' = emptyRest ->
  Forall (fun c => top3 (cell_top c)) pre ->
  Forall (fun y => occupied y = false) (map cell_top post) ->
  tidy (map cell_top (wipe pre ++ x' :: post)).
Proof.
  intros Ht Hx Hx' H3 Hpost.
  pose proof (tidy_no_rest pre x post Ht Hx) as Hn.
  induction pre as [| p pre IH].
  - cbn [wipe app map] in *. apply tidy_cons in Ht as (_ & _ & Ht).
    apply tidy_cons. rewrite Hx'. split; [intros _; exact Hpost|].
    split; [intros E; discriminate | exact Ht].
  - cbn [app map] in Ht. apply tidy_cons in Ht as (HA & HB & Ht).
    inversion H3 as [| ? ? Hp H3']; subst.
    inversion Hn as [| ? ? Hp0 Hn']; subst.
    specialize (IH Ht H3' Hn').
    cbn [wipe app map]. apply tidy_cons.
    destruct (all_emptyOne (p :: pre)) eqn:Ha.
    + split; [|split; [intros E; discriminate | exact IH]].
      intros _. rewrite map_app. apply Forall_app. split.
      * cbn [all_emptyOne forallb] in Ha.
        apply andb_true_iff in Ha as [_ Ha].
        eapply Forall_impl; [apply wipe_all; exact Ha|].
        intros y ->. reflexivity.
      * cbn [map]. constructor; [rewrite Hx'; reflexivity | exact Hpost].
    + split; [intros E; contradiction|]. split; [|exact IH].
      intros E. rewrite map_app. apply Exists_app. left.
      apply wipe_occupied; try assumption.
      cbn [all_emptyOne forallb] in Ha. rewrite E, Z.eqb_refl in Ha.
      exact Ha.
Qed.

Lemma tidy_delete_mid pre x x' y post :
  tidy (map cell_top (pre ++ x :: y :: post)) ->
  occupied (cell_top x) = true -> cell_top x' = emptyOne ->
  cell_top y <> emptyRest -> top3 (cell_top y) ->
  tidy (map cell_top (pre ++ x' :: y :: post)).
Proof.
  intros Ht Hx Hx' Hy H3.
  assert (Hex : Exists (fun z => occupied z = true)
                       (map cell_top (y :: post))).
  { rewrite map_app in Ht. apply tidy_suffix in Ht.
    cbn [map] in Ht. apply tidy_cons in Ht as (_ & _ & Ht).
    apply tidy_cons in Ht as (_ & HB & _). cbn [map].
    destruct H3 as [E | [E | E]]; [contradiction | |].
    - apply Exists_cons_tl. exact (HB E).
    - apply Exists_cons_hd. exact E. }
  pose proof (tidy_no_rest pre x (y :: post) Ht Hx) as Hn.
  induction pre as [| p pre IH].
  - cbn [app map] in *. apply tidy_cons in Ht as (_ & _ & Ht).
    apply tidy_cons. rewrite Hx'.
    split; [intros E; discriminate|]. split; [intros _; exact Hex | exact Ht].
  - cbn [app map] in Ht. apply tidy_cons in Ht as (HA & HB & Ht).
    inversion Hn as [| ? ? Hp0 Hn']; subst.
    specialize (IH Ht Hn').
    cbn [app map]. apply tidy_cons.
    split; [intros E; contradiction|]. split; [|exact IH].
    intros _. rewrite map_app. apply Exists_app. right.
    cbn [map]. apply Exists_cons_tl. exact Hex.
Qed.

Lemma cell_ok_retop c : cell_ok (retop emptyRest c).
Proof.
  unfold cell_ok, retop. cbn [fst snd].
  split; [left; unfold emptyRest, emptyOne; lia|].
  unfold minTopHash, emptyRest. lia.
Qed.

Lemma cell_ok_wipe pre : Forall cell_ok pre -> Forall cell_ok (wipe pre).
Proof.
  induction 1 as [| p pre Hp _ IH]; [constructor|].
  cbn [wipe]. constructor; [|exact IH].
  destruct (all_emptyOne (p :: pre)); [apply cell_ok_retop | exact Hp].
Qed.

Lemma first_match_unoccupied {A : Type} key top (cs : list (Z * K * A)) :
  minTopHash <= top ->
  Forall (fun y => occupied y = false) (map (fun c => fst (fst c)) cs) ->
  first_match key top cs = None.
Proof.
  intros Htop. induction cs as [| [[x k] a] cs IH]; intros Hcs; [reflexivity|].
  cbn [map fst] in Hcs. inversion Hcs as [| ? ? Hx Hcs']; subst.
  cbn [first_match].
  destruct (Z.eqb_spec x top) as [-> | _]; cbn [negb].
  - unfold occupied in Hx. apply Z.leb_gt in Hx. lia.
  - destruct (x =? emptyRest); [reflexivity | apply IH; exact Hcs'].
Qed.

Lemma first_match_wipe key top pre a :
  minTopHash <= top ->
  first_match key top pre = Some a -> first_match key top (wipe pre) = Some a.
Proof.
  intros Htop. induction pre as [| p pre IH]; intros Hm; [discriminate|].
  cbn [wipe]. destruct (all_emptyOne (p :: pre)) eqn:Ha.
  - exfalso. rewrite first_match_unoccupied in Hm; [discriminate | exact Htop|].
    clear - Ha. induction (p :: pre) as [| q l IHl]; [constructor|].
    cbn [all_emptyOne forallb] in Ha.
    apply andb_true_iff in Ha as [Hq Ha]. apply Z.eqb_eq in Hq.
    cbn [map]. constructor; [|apply IHl; exact Ha].
    unfold cell_top in Hq. rewrite Hq. reflexivity.
  - destruct p as [[x k] e]. cbn [first_match] in *.
    destruct (negb (x =? top)).
    + destruct (x =? emptyRest); [discriminate | apply IH; exact Hm].
    + destruct (key_equal t key k); [exact Hm | apply IH; exact Hm].
Qed.


Lemma NoDup_split_eq {A B : Type} (f : A -> B) (p1 p2 : list A) x1 x2 s1 s2 :
  NoDup (map f (p1 ++ x1 :: s1)) ->
  p1 ++ x1 :: s1 = p2 ++ x2 :: s2 -> f x1 = f x2 ->
  p1 = p2 /\ x1 = x2 /\ s1 = s2.
Proof.
  revert p2. induction p1 as [| a p1 IH]; intros p2 ND E Hf.
  - destruct p2 as [| y p2]; cbn [app] in *.
    + injection E as <- <-. auto.
    + exfalso. injection E as -> ->. cbn [map] in ND.
      apply NoDup_cons in ND as [Hn _]. apply Hn. rewrite Hf.
      rewrite map_app. apply elem_of_app. right. apply list_elem_of_here.
  - destruct p2 as [| y p2]; cbn [app] in *.
    + exfalso. injection E as -> <-. cbn [map] in ND.
      apply NoDup_cons in ND as [Hn _]. apply Hn. rewrite <- Hf.
      rewrite map_app. apply elem_of_app. right. apply list_elem_of_here.
    + injection E as -> E. cbn [map] in ND.
      apply NoDup_cons in ND as [_ ND].
      destruct (IH p2 ND E Hf) as (-> & -> & ->). auto.
Qed.

Lemma seq_split8 i :
  (i < 8)%nat -> seq 0 8 = seq 0 i ++ i :: seq (S i) (7 - i).
Proof.
  intros Hi. do 8 (destruct i as [| i]; [reflexivity|]). lia.
Qed.

Lemma cells_of_at H l1 b l2 bm i :
  H !! b = Some bm -> (i < 8)%nat ->
  cells_of H (l1 ++ b :: l2)
  = (cells_of H l1 ++ map (cell_at bm b) (seq 0 i))
      ++ cell_at bm b i
      :: (map (cell_at bm b) (seq (S i) (7 - i)) ++ cells_of H l2).
Proof.
  intros Hbm Hi. rewrite cells_of_app, (cells_of_cons _ _ _ _ Hbm).
  rewrite bucket_cells_eq, cellIndexes_eq_seq, (seq_split8 i Hi).
  rewrite map_app. cbn [map]. rewrite <- !app_assoc. reflexivity.
Qed.

(** Where a cell lies among the cells of its chain. *)
Lemma cells_where H a l b bm i pre post :
  chain H a l -> b ∈ l -> H !! b = Some bm -> (i < 8)%nat ->
  cells_of H l = pre ++ cell_at bm b i :: post ->
  exists l1 l2,
    l = l1 ++ b :: l2 /\
    pre = cells_of H l1 ++ map (cell_at bm b) (seq 0 i) /\
    post = map (cell_at bm b) (seq (S i) (7 - i)) ++ cells_of H l2.
Proof.
  intros C Hb Hbm Hi E.
  apply list_elem_of_split in Hb as (l1 & l2 & ->).
  exists l1, l2. split; [reflexivity|].
  rewrite (cells_of_at H l1 b l2 bm i Hbm Hi) in E.
  pose proof (cells_of_NoDup H _ (chain_NoDup _ _ _ C)) as ND.
  rewrite (cells_of_at H l1 b l2 bm i Hbm Hi) in ND.
  destruct (NoDup_split_eq cell_pos _ _ _ _ _ _ ND E eq_refl)
    as (E1 & _ & E2).
  auto.
Qed.

Lemma chain_first H a x l : chain H a (x :: l) -> a = x.
Proof. intros C. inversion C; subst. reflexivity. Qed.

(** The cell before cell [i] of [b]. *)
Lemma cells_pred H a l b bm i pre post :
  chain H a l -> b ∈ l -> H !! b = Some bm -> (i < 8)%nat ->
  cells_of H l = pre ++ cell_at bm b i :: post ->
  match i with
  | S i' => exists pre', pre = pre' ++ [cell_at bm b i']
  | O =>
      (b = a /\ pre = []) \/
      (b <> a /\
       exists l1 c l2 bmc pre',
         l = l1 ++ c :: b :: l2 /\ H !! c = Some bmc /\
         pre = pre' ++ [cell_at bmc c 7])
  end.
Proof.
  intros C Hb Hbm Hi E.
  destruct (cells_where H a l b bm i pre post C Hb Hbm Hi E)
    as (l1 & l2 & -> & -> & _).
  destruct i as [| i'].
  - cbn [seq map]. rewrite app_nil_r.
    destruct l1 as [| x l1'] using rev_ind.
    + left. split; [|reflexivity]. symmetry.
      apply (chain_first _ _ _ _ C).
    + right. clear IHl1'. split.
      * pose proof (chain_NoDup _ _ _ C) as ND.
        rewrite <- app_assoc in C, ND. cbn [app] in C, ND.
        intros ->. destruct l1' as [| y l1'']; cbn [app] in C, ND.
        -- apply chain_first in C. subst x.
           apply NoDup_cons in ND as [Hn _]. apply Hn, list_elem_of_here.
        -- apply chain_first in C. subst y.
           apply NoDup_cons in ND as [Hn _]. apply Hn.
           apply elem_of_app. right. apply list_elem_of_further.
           apply list_elem_of_here.
      * assert (Hx : x ∈ (l1' ++ [x]) ++ b :: l2).
        { apply elem_of_app. left. apply elem_of_app. right.
          apply list_elem_of_here. }
        destruct (chain_in _ _ _ _ C Hx) as [_ [bmc Hbmc]].
        exists l1', x, l2, bmc.
        exists (cells_of H l1' ++ map (cell_at bmc x) (seq 0 7)).
        split; [rewrite <- app_assoc; reflexivity|].
        split; [exact Hbmc|].
        rewrite cells_of_app, (cells_of_cons _ _ _ _ Hbmc).
        change (cells_of H []) with (@nil (Z * K * (Z * nat * V))).
        rewrite app_nil_r, bucket_cells_eq, cellIndexes_eq_seq.
        change (seq 0 8) with (seq 0 7 ++ [7%nat]).
        rewrite map_app, app_assoc. reflexivity.
  - exists (cells_of H l1 ++ map (cell_at bm b) (seq 0 i')).
    rewrite seq_S, map_app, app_assoc. reflexivity.
Qed.

(** The cell after cell [i] of [b]. *)
Lemma cells_succ H a l b bm i pre post :
  chain H a l -> b ∈ l -> H !! b = Some bm -> (i < 8)%nat ->
  cells_of H l = pre ++ cell_at bm b i :: post ->
  match post with
  | [] => i = 7%nat /\ b_overflow bm = 0
  | c' :: _ =>
      ((i < 7)%nat /\ c' = cell_at bm b (S i)) \/
      (i = 7%nat /\ b_overflow bm <> 0 /\
       exists bmo, H !! b_overflow bm = Some bmo /\
                   c' = cell_at bmo (b_overflow bm) 0)
  end.
Proof.
  intros C Hb Hbm Hi E.
  destruct (cells_where H a l b bm i pre post C Hb Hbm Hi E)
    as (l1 & l2 & -> & _ & ->).
  pose proof (chain_suffix _ _ _ _ _ _ C eq_refl) as Cb.
  inversion Cb as [| b0 bm0 l0 Hne Hbm0 Co]; subst.
  assert (bm0 = bm) as -> by congruence.
  assert (Hi7 : (i < 7)%nat \/ i = 7%nat) by lia.
  destruct Hi7 as [Hi7 | ->].
  - assert (Es : seq (S i) (7 - i) = S i :: seq (S (S i)) (6 - i)).
    { replace (7 - i)%nat with (S (6 - i)) by lia. reflexivity. }
    rewrite Es. cbn [map app]. left. auto.
  - cbn [seq map app Nat.sub].
    inversion Co as [Ez | o bmo l2' Hno Hbmo Co']; subst.
    + change (cells_of H []) with (@nil (Z * K * (Z * nat * V))).
      split; [reflexivity | congruence].
    + rewrite (cells_of_cons _ _ _ _ Hbmo), bucket_cells_eq, cellIndexes_eq.
      cbn [map app]. right. split; [reflexivity|]. split; [assumption|].
      exists bmo. auto.
Qed.

(** [find_prev] returns the bucket in front of [b]. *)
Lemma find_prev_spec w l1 : forall a c b l2 fuel,
  chain (heap w) a (l1 ++ c :: b :: l2) -> (length l1 < fuel)%nat ->
  find_prev fuel a b w = Ok c w.
Proof.
  induction l1 as [| x l1 IH]; intros a c b l2 fuel C Hf.
  - destruct fuel as [| fuel]; [cbn in Hf; lia|].
    cbn [app] in C. inversion C as [| b0 bm0 l0 Hne Hbm Co]; subst.
    apply chain_first in Co.
    cbn [find_prev]. unfold bind, bmap_overflow, bind, load, ret.
    rewrite Hbm. cbn beta iota. rewrite Co, Z.eqb_refl. reflexivity.
  - destruct fuel as [| fuel]; [cbn in Hf; lia|].
    pose proof (chain_NoDup _ _ _ C) as ND.
    cbn [app] in C, ND. inversion C as [| b0 bm0 l0 Hne Hbm Co]; subst.
    cbn [find_prev]. unfold bind at 1. unfold bmap_overflow, bind, load, ret.
    rewrite Hbm. cbn beta iota.
    assert (Hob : b_overflow bm0 <> b).
    { intros Eo. apply NoDup_cons in ND as [_ ND].
      destruct l1 as [| y l1']; cbn [app] in Co, ND.
      - apply chain_first in Co.
        apply NoDup_cons in ND as [Hn _]. apply Hn.
        rewrite <- Co, Eo. apply list_elem_of_here.
      - apply chain_first in Co.
        apply NoDup_cons in ND as [Hn _]. apply Hn.
        rewrite <- Co, Eo. apply elem_of_app. right.
        apply list_elem_of_further, list_elem_of_here. }
    destruct (Z.eqb_spec (b_overflow bm0) b) as [|_]; [contradiction|].
    cbn [negb]. apply (IH _ c b l2); [exact Co | cbn in Hf; lia].
Qed.


Lemma cell_at_retop (bm : bmap K V) b i x :
  cell_at (set_tophash i x bm) b i = retop x (cell_at bm b i).
Proof.
  unfold cell_at, retop. cbn [b_tophash b_keys b_elems set_tophash fst snd].
  unfold upd. rewrite Nat.eqb_refl. reflexivity.
Qed.

Lemma same_but_set_tophash (bm : bmap K V) i x :
  same_but i bm (set_tophash i x bm).
Proof.
  split; [reflexivity|]. intros c' Hc'.
  cbn [b_tophash b_keys b_elems set_tophash]. unfold upd.
  destruct (Nat.eqb_spec c' i); [contradiction | auto].
Qed.

(** The backward loop of [mapdelete], from a cell that holds no entry. *)
Lemma mark_emptyRest_wp (G : gmap Z Z) fuel : forall w a l b i bm pre post,
  chain (heap w) a l -> owned G a l -> b ∈ l ->
  heap w !! b = Some bm -> (i < 8)%nat ->
  occupied (b_tophash bm i) = false ->
  cells_of (heap w) l = pre ++ cell_at bm b i :: post ->
  (length l < walk_fuel w)%nat ->
  (length pre < fuel)%nat ->
  wp (mark_emptyRest fuel a b i) w
     (fun _ w' =>
        hdr w' = hdr w /\ brk w' = brk w /\
        (forall x, x ∉ l -> heap w' !! x = heap w !! x) /\
        chain (heap w') a l /\
        cells_of (heap w') l
        = wipe pre ++ retop emptyRest (cell_at bm b i) :: post /\
        total_occ (heap w') G = total_occ (heap w) G).
Proof.
  induction fuel as [| fuel IH];
    intros w a l b i bm pre post C Ho Hb Hbm Hi Hocc Ecells Hwalk Hfuel;
    [lia|].
  cbn [mark_emptyRest]. apply wp_bind, wp_updb. intros bm0 Hbm0.
  assert (bm0 = bm) as -> by congruence.
  set (bm1 := set_tophash i emptyRest bm).
  set (w1 := set_heap (<[b := bm1]> (heap w)) w).
  pose proof (same_but_set_tophash bm i emptyRest) as Hsame. fold bm1 in Hsame.
  assert (Hb1 : heap w1 !! b = Some bm1) by apply lookup_insert_eq.
  assert (Hfr1 : forall x, x <> b -> heap w1 !! x = heap w !! x)
    by (intros x Hx; apply lookup_insert_ne; congruence).
  assert (C1 : chain (heap w1) a l).
  { eapply chain_ext; [exact C|]. intros x bmx Hx Hbmx.
    destruct (Z.eq_dec x b) as [-> | Hne].
    - exists bm1. split; [exact Hb1|].
      assert (bmx = bm) as -> by congruence. reflexivity.
    - exists bmx. rewrite Hfr1 by assumption. auto. }
  assert (Ecells1 : cells_of (heap w1) l
                    = pre ++ retop emptyRest (cell_at bm b i) :: post).
  { cbn [heap w1 set_heap].
    rewrite (cells_of_replace _ _ _ _ _ _ Hbm Hsame).
    unfold bm1 at 1. rewrite cell_at_retop.
    eapply replace_cell_split; [|exact Ecells | reflexivity].
    apply cells_of_NoDup. eapply chain_NoDup. exact C. }
  assert (Hocc1 : total_occ (heap w1) G = total_occ (heap w) G).
  { rewrite (total_occ_update (heap w) (heap w1) G b a (Ho _ Hb)).
    - unfold occ_at. rewrite Hb1, Hbm. unfold bm1.
      rewrite occ_bmap_set_tophash by assumption. rewrite Hocc.
      change (occupied emptyRest) with false. cbv iota. lia.
    - intros b' Hb' _. unfold occ_at. rewrite Hfr1 by assumption.
      reflexivity. }
  assert (Hstep : forall c j bmc pre',
    c ∈ l -> heap w1 !! c = Some bmc -> (j < 8)%nat ->
    pre = pre' ++ [cell_at bmc c j] ->
    wp (do bm <- load c;
        if negb (b_tophash bm j =? emptyOne) then ret tt
        else mark_emptyRest fuel a c j) w1
       (fun _ w' =>
          hdr w' = hdr w /\ brk w' = brk w /\
          (forall x, x ∉ l -> heap w' !! x = heap w !! x) /\
          chain (heap w') a l /\
          cells_of (heap w') l
          = wipe pre ++ retop emptyRest (cell_at bm b i) :: post /\
          total_occ (heap w') G = total_occ (heap w) G)).
  { intros c j bmc pre' Hc Hbmc Hj ->.
    apply wp_bind, wp_load. intros bmc' Hbmc'.
    assert (bmc' = bmc) as -> by congruence.
    destruct (Z.eqb_spec (b_tophash bmc j) emptyOne) as [E1 | E1];
      cbn [negb].
    - eapply wp_mono.
      + apply (IH w1 a l c j bmc pre'
                  (retop emptyRest (cell_at bm b i) :: post));
          try assumption.
        * rewrite E1. reflexivity.
        * rewrite Ecells1, <- app_assoc. reflexivity.
        * rewrite length_app in Hfuel. cbn [length] in Hfuel. lia.
      + intros _ w' (Eh & Eb & Hfr & C' & Ecs' & Eocc).
        split; [exact Eh|]. split; [exact Eb|]. split; [|split; [exact C'|]].
        * intros x Hx. rewrite Hfr by assumption. apply Hfr1.
          intros ->. contradiction.
        * split; [|congruence].
          rewrite Ecs', wipe_snoc_one by exact E1.
          rewrite <- app_assoc. reflexivity.
    - apply wp_ret.
      split; [reflexivity|]. split; [reflexivity|]. split; [|split; [exact C1|]].
      + intros x Hx. apply Hfr1. intros ->. contradiction.
      + split; [|exact Hocc1].
        rewrite wipe_snoc_other by exact E1. exact Ecells1. }
  apply wp_bind, wp_get_world. apply wp_bind.
  assert (Ecells1' : cells_of (heap w1) l = pre ++ cell_at bm1 b i :: post).
  { rewrite Ecells1. unfold bm1. rewrite cell_at_retop. reflexivity. }
  destruct i as [| i']; cbn [Nat.eqb].
  - destruct (cells_pred (heap w1) a l b bm1 0 pre post C1 Hb Hb1 Hi Ecells1')
      as [[-> ->] | (Hne & l1 & c & l2 & bmc & pre' & El & Hbmc & Epre)].
    + rewrite Z.eqb_refl. apply wp_ret. apply wp_ret.
      split; [reflexivity|]. split; [reflexivity|]. split; [|split; [exact C1|]].
      * intros x Hx. apply Hfr1. intros ->. contradiction.
      * split; [exact Ecells1 | exact Hocc1].
    + destruct (Z.eqb_spec b a) as [|_]; [contradiction|].
      apply wp_bind. unfold wp at 1.
      rewrite (find_prev_spec w1 l1 a c b l2 (walk_fuel w1)).
      * apply wp_ret. change (Z.to_nat (bucketCnt - 1)) with 7%nat.
        apply (Hstep c 7%nat bmc pre'); [|exact Hbmc | lia | exact Epre].
        rewrite El. apply elem_of_app. right. apply list_elem_of_here.
      * rewrite <- El. exact C1.
      * change (walk_fuel w1) with (walk_fuel w).
        rewrite El, length_app in Hwalk. lia.
  - destruct (cells_pred (heap w1) a l b bm1 (S i') pre post C1 Hb Hb1 Hi
                Ecells1') as (pre' & Epre).
    apply wp_ret. cbn [Nat.pred].
    apply (Hstep b i' bm1 pre'); [exact Hb | exact Hb1 | lia | exact Epre].
Qed.


Lemma cells_of_length H a l :
  chain H a l -> length (cells_of H l) = (8 * length l)%nat.
Proof.
  induction 1 as [| b bm l Hne Hbm C IH]; [reflexivity|].
  rewrite (cells_of_cons _ _ _ _ Hbm), length_app, IH.
  rewrite bucket_cells_eq, length_map, cellIndexes_eq. cbn [length]. lia.
Qed.

Lemma Bytes_cells w l :
  Bytes w -> Forall (fun c => 0 <= cell_top c) (cells_of (heap w) l).
Proof.
  intros Hw. apply Forall_forall. intros [[x k] [[b c] v]] Hin.
  apply cells_of_in in Hin as (_ & _ & bm & Hbm & -> & _).
  unfold cell_top. cbn [fst]. apply (Hw _ _ Hbm).
Qed.

Lemma cells_top3 w l :
  Bytes w -> Forall cell_ok (cells_of (heap w) l) ->
  Forall (fun c => top3 (cell_top c)) (cells_of (heap w) l).
Proof.
  intros Hw Hok. pose proof (Bytes_cells w l Hw) as Hb.
  rewrite Forall_forall in *. intros c Hc.
  apply cell_ok_top3; auto.
Qed.

(** The test [notLast] of [mapdelete]: whether the cell after the emptied
    one is something else than [emptyRest]. *)
Lemma notLast_spec w a l b bm i pre post :
  chain (heap w) a l -> b ∈ l -> heap w !! b = Some bm -> (i < 8)%nat ->
  cells_of (heap w) l = pre ++ cell_at bm b i :: post ->
  (if Z.of_nat i =? bucketCnt - 1 then
     if negb (b_overflow bm =? 0) then
       do obm <- load (b_overflow bm);
       ret (negb (b_tophash obm O =? emptyRest))
     else ret false
   else ret (negb (b_tophash bm (S i) =? emptyRest))) w
  = Ok (match post with
        | [] => false
        | c' :: _ => negb (cell_top c' =? emptyRest)
        end) w.
Proof.
  intros C Hb Hbm Hi E.
  pose proof (cells_succ (heap w) a l b bm i pre post C Hb Hbm Hi E) as Hs.
  destruct post as [| c' post'].
  - destruct Hs as [-> Eo]. cbn [Z.of_nat].
    change (Z.pos (Pos.of_succ_nat 6) =? bucketCnt - 1) with true.
    cbv iota. rewrite Eo. reflexivity.
  - destruct Hs as [[Hi7 ->] | (-> & Hno & bmo & Hbmo & ->)].
    + destruct (Z.eqb_spec (Z.of_nat i) (bucketCnt - 1)) as [E7 | _].
      * change (bucketCnt - 1) with 7 in E7. lia.
      * reflexivity.
    + change (Z.of_nat 7 =? bucketCnt - 1) with true. cbv iota.
      destruct (Z.eqb_spec (b_overflow bm) 0) as [|_]; [contradiction|].
      cbn [negb]. unfold bind, load. rewrite Hbmo. reflexivity.
Qed.


(** [mapdelete] once the search has found the key: the cell is emptied,
    the chain stays tidy, the entry is no longer counted and the entries
    of the other keys are found as before.  The cell becomes [emptyOne]
    when a cell that is not [emptyRest] follows it; otherwise it becomes
    [emptyRest] together with the [emptyOne] cells it follows. *)
Lemma delete_cell_wp w h G key x l b i e :
  ArchOK -> TypeOK -> Inv w h G -> Bytes w -> buckets h <> 0 ->
  ~ pending (heap w) h (wrap x mod 2 ^ B h) ->
  chain_ok (heap w) G (newb h (wrap x mod 2 ^ B h)) l ->
  first_match key (tophash (wrap x)) (cells_of (heap w) l) = Some (b, i, e) ->
  wp (delete_cell (newb h (wrap x mod 2 ^ B h)) b i) w
     (fun _ w' =>
        hdr w' = Some (set_count (count h - 1) h) /\
        Inv w' (set_count (count h - 1) h) G /\
        brk w' = brk w /\
        (forall a g, G !! a = Some g -> g <> newb h (wrap x mod 2 ^ B h) ->
                     heap w' !! a = heap w !! a) /\
        keeps_others key w h w' (set_count (count h - 1) h) /\
        exists pre post bm,
          heap w !! b = Some bm /\
          cells_of (heap w) l = pre ++ cell_at bm b i :: post /\
          tops_of (heap w') l
          = if not_last post
            then map cell_top pre ++ emptyOne :: map cell_top post
            else wipe_tops (map cell_top pre)
                 ++ emptyRest :: map cell_top post).
Proof.
  intros HA HT I HB Hb Hnp HC Hm.
  pose proof (inv_hdr _ _ _ I) as Hh.
  pose proof (mod_index_range _ _ _ (wrap x) I) as Hi0.
  pose proof (tophash_range (wrap x)) as [Htop _].
  set (i0 := wrap x mod 2 ^ B h) in *.
  set (a := newb h i0) in *.
  set (top := tophash (wrap x)) in *.
  pose proof HC as (C & Ho & Ht & Hok).
  pose proof Hm as Hm'.
  apply first_match_Some in Hm' as (pre & k & post & Ecs & Hpass & Ek).
  assert (Hin : (top, k, (b, i, e)) ∈ cells_of (heap w) l).
  { rewrite Ecs. apply elem_of_app. right. apply list_elem_of_here. }
  apply cells_of_in in Hin as (Hbl & Hi8 & bm & Hbm & Et & Ekk & Ee).
  assert (Ecs' : cells_of (heap w) l = pre ++ cell_at bm b i :: post).
  { rewrite Ecs. unfold cell_at. rewrite <- Et, <- Ekk, <- Ee. reflexivity. }
  set (h' := set_count (count h - 1) h).
  destruct (layout_count h (count h - 1)) as (HS & Ene & Epc & _).
  fold h' in HS, Ene, Epc.
  set (bmk := if indirectkey t || negb (key_ptrdata t =? 0)
              then set_key i (zero_key t) bm else bm).
  set (bm1 := set_tophash i emptyOne (set_elem i (zero_elem t) bmk)).
  assert (Hsame : same_but i bm bm1).
  { unfold bm1, bmk. split; [destruct (_ || _); reflexivity|].
    intros c' Hc'. cbn [b_tophash b_keys b_elems set_tophash set_elem].
    unfold upd. destruct (Nat.eqb_spec c' i) as [-> | _]; [contradiction|].
    destruct (_ || _); cbn [b_tophash b_keys b_elems set_key];
      unfold upd; try (destruct (Nat.eqb_spec c' i) as [-> | _];
                       [contradiction|]); auto. }
  assert (Etop1 : b_tophash bm1 i = emptyOne).
  { unfold bm1. cbn [b_tophash set_tophash]. unfold upd.
    rewrite Nat.eqb_refl. reflexivity. }
  assert (Hocc : occupied (b_tophash bm i) = true)
    by (rewrite <- Et; apply Z.leb_le; exact Htop).
  pose proof (cells_top3 w l HB Hok) as H3.
  assert (Ht' : tidy (map cell_top (pre ++ cell_at bm b i :: post))).
  { rewrite tops_of_cells, Ecs' in Ht. exact Ht. }
  assert (Hnomatch : forall key', key_equal t key' key = false ->
                                  key_equal t key' (b_keys bm i) = false).
  { intros key' Hne. destruct (key_equal t key' (b_keys bm i)) eqn:E1;
      [|reflexivity].
    exfalso. rewrite <- Ekk in E1.
    pose proof (type_equal_trans HT _ _ _ E1 (type_equal_sym HT _ _ Ek)).
    congruence. }
  unfold delete_cell. apply wp_bind, wp_updb. intros bm0 Hbm0.
  assert (bm0 = bm) as -> by congruence. cbv zeta. fold bmk. fold bm1.
  set (w1 := set_heap (<[b := bm1]> (heap w)) w).
  assert (Hb1 : heap w1 !! b = Some bm1) by apply lookup_insert_eq.
  assert (Hfr1 : forall y, y <> b -> heap w1 !! y = heap w !! y)
    by (intros y Hy; apply lookup_insert_ne; congruence).
  assert (C1 : chain (heap w1) a l).
  { eapply chain_ext; [exact C|]. intros y bmy Hy Hbmy.
    destruct (Z.eq_dec y b) as [-> | Hne].
    - exists bm1. split; [exact Hb1|].
      assert (bmy = bm) as -> by congruence. apply Hsame.
    - exists bmy. rewrite Hfr1 by assumption. auto. }
  assert (Ecells1 : cells_of (heap w1) l = pre ++ cell_at bm1 b i :: post).
  { cbn [heap w1 set_heap].
    rewrite (cells_of_replace _ _ _ _ _ _ Hbm Hsame).
    eapply replace_cell_split; [|exact Ecs' | reflexivity].
    apply cells_of_NoDup. eapply chain_NoDup. exact C. }
  assert (Hocc1 : total_occ (heap w1) G = total_occ (heap w) G - 1).
  { rewrite (total_occ_update (heap w) (heap w1) G b a (Ho _ Hbl)).
    - unfold occ_at. rewrite Hb1, Hbm. unfold bm1.
      rewrite occ_bmap_set_tophash by assumption.
      assert (E1 : occ_bmap (set_elem i (zero_elem t) bmk) = occ_bmap bm).
      { apply occ_bmap_ext. intros c _. unfold bmk.
        destruct (_ || _); reflexivity. }
      assert (E2 : b_tophash (set_elem i (zero_elem t) bmk) i
                   = b_tophash bm i)
        by (unfold bmk; destruct (_ || _); reflexivity).
      rewrite E1, E2, Hocc. change (occupied emptyOne) with false.
      cbv iota. lia.
    - intros b' Hb' _. unfold occ_at. rewrite Hfr1 by assumption.
      reflexivity. }
  apply wp_bind, wp_load. intros bm' Hbm'.
  assert (bm' = bm1) as -> by congruence.
  apply wp_bind. unfold wp at 1.
  rewrite (notLast_spec w1 a l b bm1 i pre post C1 Hbl Hb1 Hi8 Ecells1).
  destruct (match post with
            | [] => false
            | c' :: _ => negb (cell_top c' =? emptyRest)
            end) eqn:Enl.
  - (* another cell follows *)
    destruct post as [| c' post']; [discriminate|].
    apply negb_true_iff, Z.eqb_neq in Enl.
    apply wp_bind, wp_ret. apply wp_updh. intros h_ Hh_.
    assert (h_ = h) as -> by (cbn in Hh_; congruence). fold h'.
    set (w' := set_hdr (Some h') w1).
    assert (H3c : top3 (cell_top c')).
    { rewrite Forall_forall in H3. apply H3. rewrite Ecs'.
      apply elem_of_app. right. apply list_elem_of_further.
      apply list_elem_of_here. }
    destruct (cup_Inv w w' h h' G i0 l b i bm bm1 pre (c' :: post'))
      as (I' & HC' & Hnp'); try assumption; try reflexivity.
    { change (fun x0 : Z * K * (Z * nat * V) => fst (fst x0)) with cell_top.
      eapply tidy_delete_mid; [exact Ht' | exact Hocc | exact Etop1 | |];
        assumption. }
    { unfold cell_ok, cell_at. cbn [fst snd]. rewrite Etop1.
      split; [left; lia|]. unfold emptyOne, minTopHash. lia. }
    { rewrite Etop1, Hocc. change (occupied emptyOne) with false.
      cbn [count h' set_count]. lia. }
    split; [reflexivity|]. split; [exact I'|]. split; [reflexivity|].
    split.
    { intros y g Hy Hg. cbn [heap w' set_hdr]. apply Hfr1.
      intros ->. rewrite (Ho _ Hbl) in Hy. congruence. }
    split.
    2:{ exists pre, (c' :: post'), bm. split; [exact Hbm|].
        split; [exact Ecs'|]. cbn [not_last].
        destruct (Z.eqb_spec (cell_top c') emptyRest) as [|_];
          [contradiction|].
        cbn [negb]. rewrite tops_of_cells. cbn [heap w' set_hdr].
        rewrite Ecells1, map_app. cbn [map].
        change (fst (fst (cell_at bm1 b i))) with (b_tophash bm1 i).
        rewrite Etop1. reflexivity. }
    intros key' v Hr Hne F.
    eapply cup_found
      with (w := w) (h := h) (G := G) (i0 := i0) (l := l) (b := b) (c := i)
           (bm := bm) (bm' := bm1); try eassumption; try reflexivity.
    intros x' Hx'. split.
    + intros [_ E2]. rewrite (Hnomatch key' Hne) in E2. discriminate.
    + right. unfold cell_at. cbn [fst snd]. rewrite Etop1.
      pose proof (tophash_range (wrap x')). unfold minTopHash in *.
      unfold emptyOne, emptyRest. lia.
  - (* the chain ends here: the backward loop *)
    assert (Hpost : Forall (fun y => occupied y = false) (map cell_top post)).
    { destruct post as [| c' post']; [constructor|].
      apply negb_false_iff, Z.eqb_eq in Enl.
      rewrite map_app in Ht'. apply tidy_suffix in Ht'.
      cbn [map] in Ht'. apply tidy_cons in Ht' as (_ & _ & Ht').
      apply tidy_cons in Ht' as (Hrest & _ & _).
      cbn [map]. constructor; [rewrite Enl; reflexivity | exact (Hrest Enl)]. }
    pose proof (inv_brk _ _ _ I) as Hbrk.
    pose proof (bucketsize_min HA HT) as HSz.
    pose proof (chain_fuel w a l (proj1 Hbrk) (inv_heap _ _ _ I)
                  ltac:(lia) C) as Hwalk.
    apply wp_bind. apply wp_bind, wp_get_world.
    eapply wp_mono.
    { apply (mark_emptyRest_wp G _ w1 a l b i bm1 pre post C1 Ho Hbl Hb1 Hi8).
      - rewrite Etop1. reflexivity.
      - exact Ecells1.
      - exact Hwalk.
      - pose proof (cells_of_length _ _ _ C) as El.
        rewrite Ecs', length_app in El. cbn [length] in El.
        change (walk_fuel w1) with (walk_fuel w).
        change (Z.to_nat bucketCnt) with 8%nat. lia. }
    intros _ w2 (Eh2 & Eb2 & Hfr2 & C2 & Ecs2 & Eocc2).
    apply wp_updh. intros h_ Hh_.
    assert (h_ = h) as -> by (rewrite Eh2 in Hh_; cbn in Hh_; congruence).
    fold h'. set (w' := set_hdr (Some h') w2).
    assert (Hfr : forall y, y ∉ l -> heap w2 !! y = heap w !! y).
    { intros y Hy. rewrite Hfr2 by assumption. apply Hfr1.
      intros ->. contradiction. }
    assert (Hown : forall y g, G !! y = Some g -> g <> a -> y ∉ l).
    { intros y g Hy Hg Hyl. rewrite (Ho _ Hyl) in Hy. congruence. }
    assert (Hframe : forall y g, G !! y = Some g -> g <> a ->
                                 heap w' !! y = heap w !! y).
    { intros y g Hy Hg. apply Hfr. eapply Hown; eassumption. }
    assert (Hpre3 : Forall (fun c => top3 (cell_top c)) pre).
    { rewrite Ecs' in H3. apply Forall_app in H3 as [H3 _]. exact H3. }
    assert (Hokp : Forall cell_ok pre /\ Forall cell_ok post).
    { rewrite Ecs' in Hok. apply Forall_app in Hok as [H1 H2].
      inversion H2; subst. auto. }
    assert (HC' : chain_ok (heap w') G a l).
    { split; [exact C2|]. split; [exact Ho|]. split.
      - rewrite tops_of_cells.
        change (fun c : Z * K * (Z * nat * V) => fst (fst c)) with cell_top.
        cbn [heap w' set_hdr]. rewrite Ecs2.
        eapply tidy_delete_end; [exact Ht' | exact Hocc | reflexivity | |];
          assumption.
      - cbn [heap w' set_hdr]. rewrite Ecs2. apply Forall_app. split.
        + apply cell_ok_wipe, Hokp.
        + constructor; [apply cell_ok_retop | apply Hokp]. }
    assert (I' : Inv w' h' G).
    { eapply cu_Inv
        with (w := w) (h := h) (G := G) (i0 := i0) (l' := l);
        try eassumption; try reflexivity.
      - auto.
      - cbn [brk w' set_hdr]. rewrite Eb2. cbn [brk w1 set_heap]. lia.
      - intros y bmy Hy. cbn [heap brk w' set_hdr] in *. rewrite Eb2.
        cbn [brk w1 set_heap].
        destruct (decide (y ∈ l)) as [Hyl | Hyl].
        + destruct (chain_in _ _ _ _ C Hyl) as [_ [bmy' Hy']].
          apply (inv_heap _ _ _ I _ _ Hy').
        + rewrite Hfr in Hy by assumption. apply (inv_heap _ _ _ I _ _ Hy).
      - intros y g Hy. cbn [heap w' set_hdr].
        destruct (decide (y ∈ l)) as [Hyl | Hyl].
        + apply (chain_in _ _ _ _ C2 Hyl).
        + rewrite Hfr by assumption. apply (inv_G _ _ _ I _ _ Hy).
      - cbn [count h' set_count heap w' set_hdr].
        rewrite Eocc2, Hocc1, (inv_count _ _ _ I). reflexivity.
      - destruct (inv_pool _ _ _ I) as [n Hn]. exists n.
        rewrite Epc. eapply pool_at_registry; [exact Hn|].
        intros y Hy. cbn [heap w' set_hdr]. apply Hfr.
        intros Hyl. rewrite (Ho _ Hyl) in Hy. discriminate. }
    split; [reflexivity|]. split; [exact I'|].
    split; [cbn [brk w' set_hdr]; rewrite Eb2; reflexivity|].
    split; [exact Hframe|].
    split.
    2:{ exists pre, post, bm. split; [exact Hbm|]. split; [exact Ecs'|].
        unfold not_last. rewrite Enl. rewrite tops_of_cells.
        cbn [heap w' set_hdr]. rewrite Ecs2, map_app.
        change (fun c : Z * K * (Z * nat * V) => fst (fst c)) with cell_top.
        rewrite map_wipe. reflexivity. }
    intros key' v Hr Hne F.
    eapply cu_found
      with (w := w) (h := h) (G := G) (i0 := i0) (l := l) (l' := l);
      try eassumption; try reflexivity.
    intros x' b' c' Hx' Ei' Hm'.
    + exists b', c'.
      cbn [heap w' set_hdr]. rewrite Ecs2. rewrite Ecs' in Hm'.
      pose proof (tophash_range (wrap x')) as [Htop' _].
      apply first_match_app_inv in Hm' as [Hm' | [_ Hm']].
      * apply first_match_app_Some. apply first_match_wipe; assumption.
      * exfalso. rewrite first_match_pass in Hm'.
        -- rewrite first_match_unoccupied in Hm'; [discriminate | exact Htop'|].
           exact Hpost.
        -- unfold passes, cell_at. cbn [fst snd].
           destruct (Z.eq_dec (b_tophash bm i) (tophash (wrap x')))
             as [E1 | E1].
           ++ left. split; [exact E1 | apply Hnomatch; exact Hne].
           ++ right. split; [exact E1|].
              unfold occupied in Hocc. apply Z.leb_le in Hocc.
              unfold minTopHash, emptyRest in *. lia.
Qed.


Lemma wp_and_kb {A : Type} (m : M A) w (Q : A -> world K V -> Prop)
      (R : A -> Prop) :
  wp m w Q -> kb m R -> Bytes w ->
  wp m w (fun a w' => Q a w' /\ Bytes w' /\ R a).
Proof.
  unfold wp. intros Hwp Hkb Hw. destruct (m w) as [a w' | e w'] eqn:E.
  - split; [exact Hwp|]. exact (Hkb w a w' Hw E).
  - exact Hwp.
Qed.

Lemma kb_find_prev fuel c : forall b, kb (find_prev fuel b c) (fun _ => True).
Proof.
  induction fuel as [| fuel IH]; intros b; cbn [find_prev].
  - kb_step.
  - kb_step. destruct (negb _); [apply IH | kb_step].
Qed.

Lemma kb_mark_emptyRest fuel bOrig :
  forall b i, kb (mark_emptyRest fuel bOrig b i) (fun _ => True).
Proof.
  induction fuel as [| fuel IH]; intros b i; cbn [mark_emptyRest].
  - kb_step.
  - eapply kb_bind.
    { apply kb_updb. intros bm Hbm. apply bytes_ok_set_tophash; [|exact Hbm].
      unfold emptyRest. lia. }
    intros _ _. kb_step.
    eapply kb_bind with (R := fun _ => True).
    { destruct (Nat.eqb i 0); [|kb_step].
      destruct (b =? bOrig); [kb_step|].
      eapply kb_bind; [apply kb_find_prev|]. intros c _. kb_step. }
    intros [[b' i'] |] _; [|kb_step].
    kb_step. destruct (negb _); [kb_step | apply IH].
Qed.

Lemma kb_delete_cell bOrig b i : kb (delete_cell bOrig b i) (fun _ => True).
Proof.
  unfold delete_cell.
  eapply kb_bind.
  { apply kb_updb. intros bm Hbm. cbv zeta.
    apply bytes_ok_set_tophash; [unfold emptyOne; lia|].
    eapply bytes_ok_same; [|exact Hbm]. intros c.
    destruct (_ || _); reflexivity. }
  intros _ _. kb_step.
  eapply kb_bind with (R := fun _ => True).
  { destruct (_ =? _); [|kb_step].
    destruct (negb _); [|kb_step]. kb_step. kb_step. }
  intros nl _.
  eapply kb_bind with (R := fun _ => True).
  { destruct nl; [kb_step|]. kb_step. apply kb_mark_emptyRest. }
  intros _ _. kb_step.
Qed.

Lemma kb_bucketloop fuel key top :
  forall b, kb (bucketloop fuel b key top) (fun _ => True).
Proof.
  induction fuel as [| fuel IH]; intros b; cbn [bucketloop].
  - kb_step.
  - destruct (b =? 0); [kb_step|]. kb_step.
    destruct (probe_cells _ _ _ _); [kb_step | kb_step | apply IH].
Qed.

Lemma kb_lookup_empty key : kb (lookup_empty key) (fun _ => True).
Proof. unfold lookup_empty. repeat kb_step. Qed.

Lemma kb_mapdelete key : kb (mapdelete key) (fun _ => True).
Proof.
  unfold mapdelete. kb_step.
  destruct (hdr _); [|apply kb_lookup_empty].
  destruct (count _ =? 0); [apply kb_lookup_empty|].
  destruct (negb _); [kb_step|].
  kb_step. kb_step. kb_step. cbv zeta.
  eapply kb_bind with (R := fun _ => True).
  { destruct (growing _); [apply kb_growWork | kb_step]. }
  intros _ _. kb_step. kb_step.
  eapply kb_bind; [apply kb_bucketloop|]. intros r _.
  eapply kb_bind with (R := fun _ => True).
  { destruct r as [[b i] |]; [apply kb_delete_cell | kb_step]. }
  intros _ _. kb_step. destruct (_ =? 0); [kb_step | apply kb_seth].
Qed.


(** ** [mapdelete] *)

Lemma Inv_after_hash w h G key seed :
  Inv w h G -> Inv (after_hash key seed w) h G.
Proof.
  intros I. apply (Inv_layout w h G); try reflexivity; [exact I | |].
  - apply (inv_hdr _ _ _ I).
  - apply layout_refl.
Qed.

Lemma lookup_empty_wp w key (Q : unit -> world K V -> Prop) :
  hashable key ->
  Q tt w -> (forall seed, Q tt (after_hash key seed w)) ->
  wp (lookup_empty key) w Q.
Proof.
  intros Hk H1 H2. unfold lookup_empty. destruct (hashMightPanic t).
  - apply wp_bind, wp_call_hasher; [exact Hk|]. intros x Hx.
    apply wp_ret. apply (H2 0).
  - apply wp_ret. exact H1.
Qed.

Lemma mapdelete_wp w h G key :
  ArchOK -> TypeOK -> Inv w h G -> Bytes w -> hashable key ->
  wp (mapdelete key) w
     (fun _ w' =>
        exists h' G',
          hdr w' = Some h' /\ Inv w' h' G' /\ writing h' = writing h /\
          hash0 h' = hash0 h /\ keeps_others key w h w' h').
Proof.
  intros HA HT I HB Hkey.
  pose proof (inv_hdr _ _ _ I) as Hh.
  unfold mapdelete. apply wp_bind, wp_get_world. rewrite Hh.
  rewrite writing_test.
  destruct (Z.eqb_spec (count h) 0) as [Ec | Hc].
  { apply lookup_empty_wp; [exact Hkey | |].
    - exists h, G. split; [exact Hh|]. split; [exact I|].
      split; [reflexivity|]. split; [reflexivity|].
      apply keeps_keeps_others, keeps_refl.
    - intros seed. exists h, G. split; [exact Hh|].
      split; [apply Inv_after_hash; exact I|].
      split; [reflexivity|]. split; [reflexivity|].
      apply keeps_keeps_others, keeps_shape;
        [apply same_shape_refl | reflexivity]. }
  destruct (writing h) eqn:W; cbn [negb]; [apply wp_throw|].
  pose proof (Inv_count_buckets _ _ _ I Hc) as Hb.
  apply wp_bind, wp_call_hasher; [exact Hkey|]. intros x Hx.
  set (w1 := set_hcalls _ _).
  apply wp_bind, wp_updh. intros h_ Hh_.
  assert (h_ = h) as -> by (cbn in Hh_; congruence).
  destruct (layout_toggle_writing h) as [L2 W2]. rewrite W in W2.
  set (h2 := set_flags (Z.lxor (flags h) hashWriting) h) in *.
  set (w2 := set_hdr (Some h2) w1).
  assert (I2 : Inv w2 h2 G)
    by (apply (Inv_layout w h G); [assumption | reflexivity.. | assumption]).
  assert (K2 : keeps w h w2 h2)
    by (apply keeps_shape; [apply L2 | reflexivity]).
  assert (HB2 : Bytes w2) by exact HB.
  apply wp_bind, wp_geth. intros h_ Hh_'.
  assert (h_ = h2) as -> by (cbn in Hh_'; congruence). cbv zeta.
  rewrite (land_bucketMask w2 h2 G (wrap x) HA HT I2).
  apply wp_bind.
  apply wp_mono
    with (Q := fun _ w3 =>
                 (work_post w2 h2 w3 /\
                  forall h', hdr w3 = Some h' ->
                             ~ pending (heap w3) h' (wrap x mod 2 ^ B h2)) /\
                 Bytes w3 /\ True).
  { destruct (growing h2) eqn:Hg.
    - apply wp_and_kb; [|apply kb_growWork | exact HB2].
      apply growWork_wp with (G := G); assumption.
    - apply wp_ret. split; [|split; [exact HB2 | exact Logic.I]].
      split; [apply work_post_refl with (G := G); assumption|].
      intros h' Hh' (Hg' & _). cbn in Hh'. congruence. }
  intros _ w3 ((Hw3 & Hnp3) & HB3 & _).
  pose proof Hw3 as (h3 & G3 & Hh3 & I3 & W3 & H3 & B3 & Bk3 & O3 & P3 & K3).
  specialize (Hnp3 h3 Hh3). rewrite <- B3 in *.
  assert (Hb3 : buckets h3 <> 0) by (rewrite Bk3; exact Hb).
  pose proof (mod_index_range _ _ _ (wrap x) I3) as Hi3.
  set (i0 := wrap x mod 2 ^ B h3) in *.
  apply wp_bind, wp_geth. intros h_ Hh_''.
  assert (h_ = h3) as -> by congruence. cbv zeta.
  destruct (Inv_bucketsize_fits w3 h3 G3 i0 HA HT I3 Hb3 Hi3)
    as (Hpos & _ & Ea).
  rewrite Ea. apply wp_bind, wp_get_world.
  destruct (inv_new _ _ _ I3 Hb3 i0 Hi3) as (l & Cl & _).
  pose proof Cl as (C & _).
  pose proof (bucketsize_min HA HT) as HSz.
  pose proof (chain_fuel w3 _ _ (proj1 (inv_brk _ _ _ I3))
                (inv_heap _ _ _ I3) ltac:(lia) C) as Hfuel.
  apply wp_bind. unfold wp at 1.
  rewrite (bucketloop_first_match w3 _ l key _ _ C Hfuel).
  assert (Hend : forall w4 h4 G4,
    hdr w4 = Some h4 -> Inv w4 h4 G4 -> flags h4 = flags h3 ->
    hash0 h4 = hash0 h3 -> keeps_others key w3 h3 w4 h4 ->
    wp (do h <- geth;
        if Z.land (flags h) hashWriting =? 0 then
          throw "concurrent map writes"
        else seth (set_flags (Z.ldiff (flags h) hashWriting) h)) w4
       (fun _ w' =>
          exists h' G',
            hdr w' = Some h' /\ Inv w' h' G' /\ writing h' = false /\
            hash0 h' = hash0 h /\ keeps_others key w h w' h')).
  { intros w4 h4 G4 Hh4 I4 F4 H4 K4.
    apply wp_bind, wp_geth. intros h_ Hh_4.
    assert (h_ = h4) as -> by congruence.
    assert (W4 : writing h4 = true)
      by (unfold writing in *; rewrite F4, W3; exact W2).
    rewrite writing_test, W4. cbn [negb]. apply wp_seth.
    destruct (layout_clear_writing h4) as [L5 W5].
    set (h5 := set_flags (Z.ldiff (flags h4) hashWriting) h4) in *.
    exists h5, G4. split; [reflexivity|].
    split; [apply (Inv_layout w4 h4 G4);
            [assumption | reflexivity.. | assumption]|].
    split; [exact W5|].
    split; [cbn [hash0 h5 set_flags]; rewrite H4, H3; reflexivity|].
    eapply keeps_others_trans; [apply keeps_keeps_others; exact K2|].
    eapply keeps_others_trans; [apply keeps_keeps_others; exact K3|].
    eapply keeps_others_trans; [exact K4|].
    apply keeps_keeps_others, keeps_shape; [apply L5 | reflexivity]. }
  destruct (first_match key (tophash (wrap x)) (cells_of (heap w3) l))
    as [[[b i] e] |] eqn:Hm; cbn [option_map fst snd].
  - apply wp_bind.
    eapply wp_mono;
      [apply (delete_cell_wp w3 h3 G3 key x l b i e HA HT I3 HB3 Hb3 Hnp3
                Cl Hm)|].
    intros _ w4 (Hh4 & I4 & _ & _ & K4 & _). cbv beta.
    apply (Hend w4 _ G3 Hh4 I4); [reflexivity | reflexivity | exact K4].
  - apply wp_bind, wp_ret. cbv beta.
    apply (Hend w3 h3 G3 Hh3 I3); [reflexivity | reflexivity|].
    apply keeps_keeps_others, keeps_refl.
Qed.


(** ** Creation *)

(** The bucket memory is in order: what has been handed out lies below the
    allocation frontier, which is within [maxAlloc]. *)
Definition Mem (w : world K V) : Prop :=
  0 < brk w <= maxAlloc /\
  forall a bm, heap w !! a = Some bm -> 0 < a /\ a + bucketsize t <= brk w.

Lemma Inv_Mem w h G : Inv w h G -> Mem w.
Proof. intros I. split; [apply (inv_brk _ _ _ I) | apply (inv_heap _ _ _ I)]. Qed.

(** [makemap] up to the allocation of the bucket array. *)
Lemma makemap_steps hint w :
  ArchOK -> TypeOK -> - 2 ^ (wordBits - 1) <= hint < 2 ^ (wordBits - 1) ->
  hdr w = None ->
  exists b,
    0 <= b <= wordBits - 3 /\
    (4 <= b -> bucketsize t * (2 ^ b + 2 ^ (b - 4)) < 2 ^ wordBits) /\
    makemap hint w =
    (if negb (b =? 0) then
       do '(bkts, nextOverflow) <- makeBucketArray b 0;
       updh (set_buckets bkts);;
       if negb (nextOverflow =? 0) then
         updh (set_extra
                 (Some (set_nextOverflow nextOverflow new_mapextra)))
       else ret tt
     else ret tt)
      (World (Some (Hmap 0 0 b 0 (wrap32 (rand w O)) 0 0 0 None))
             (heap w) (brk w) (fun n => rand w (S n)) (hcalls w)).
Proof.
  intros HA HT H1 Hnil.
  pose proof (pow2_wordBits_pos HA) as Hwp.
  assert (Ew : 2 ^ wordBits = 8 * 2 ^ (wordBits - 3)).
  { destruct (wordBits_cases HA) as [-> | ->]; reflexivity. }
  assert (Ew1 : 2 ^ (wordBits - 1) = 4 * 2 ^ (wordBits - 3)).
  { destruct (wordBits_cases HA) as [-> | ->]; reflexivity. }
  assert (Hw3 : 3 <= wordBits - 3 < 256).
  { destruct (wordBits_cases HA) as [-> | ->]; lia. }
  set (eh := if (2 ^ wordBits <=? wrap hint * bucket_size t)
                || (maxAlloc <? wrap (wrap hint * bucket_size t))
             then 0 else hint).
  assert (Heh : eh < 2 ^ (wordBits - 1)).
  { unfold eh. destruct (_ || _); lia. }
  assert (Hlast : overLoadFactor eh (wordBits - 3) = false).
  { destruct (Z.le_gt_cases eh 8) as [Hs | Hs];
      [apply overLoadFactor_small; assumption|].
    destruct (overLoadFactor eh (wordBits - 3)) eqn:E; [|reflexivity].
    apply overLoadFactor_spec in E; [lia | assumption | lia | lia]. }
  destruct (findB_least 256 eh 0 (wordBits - 3)) as (b & Hfb & Hbr & Hnb & Hlb);
    [lia | lia | lia | assumption |].
  exists b. split; [lia|]. split.
  - intros H4.
    assert (Hov : overLoadFactor eh (b - 1) = true) by (apply Hlb; lia).
    apply overLoadFactor_spec in Hov; [| assumption | lia | lia].
    destruct Hov as [Hov1 Hov2].
    assert (Heh1 : eh = hint /\ wrap hint * bucket_size t < 2 ^ wordBits /\
                   wrap (wrap hint * bucket_size t) <= maxAlloc).
    { unfold eh in *.
      destruct (Z.leb_spec (2 ^ wordBits) (wrap hint * bucket_size t));
        cbn [orb] in *; [lia|].
      destruct (Z.ltb_spec maxAlloc (wrap (wrap hint * bucket_size t)));
        [lia | auto]. }
    destruct Heh1 as (Eeh & Hnov & Hmem).
    pose proof (bucketsize_min HA HT) as HSp.
    rewrite (type_bucket_size HT) in *.
    rewrite (wrap_small hint) in * by lia.
    rewrite (wrap_small (hint * bucketsize t)) in Hmem by nia.
    destruct (arch_maxAlloc HA) as [HM1 HM2].
    assert (Hb1 : 2 ^ b = 2 * 2 ^ (b - 1)).
    { replace b with (b - 1 + 1) at 1 by lia. apply pow2_succ. lia. }
    pose proof (pow2_pos (b - 1) ltac:(lia)) as Hpb.
    assert (2 ^ b = 16 * 2 ^ (b - 4)).
    { replace b with (b - 4 + 4) at 1 by lia.
      rewrite Z.pow_add_r by lia. lia. }
    pose proof (pow2_pos (b - 4) ltac:(lia)). nia.
  - unfold makemap, MulUintptr. fold eh. cbv zeta.
    unfold bind at 1. unfold get_world. rewrite Hnil.
    unfold bind at 1. unfold seth at 1.
    unfold bind at 1. unfold fastrand at 1.
    unfold bind at 1. unfold updh at 1, bind at 1, geth at 1, seth at 1.
    wsimpl. rewrite Hfb.
    unfold bind at 1. unfold updh at 1, bind at 1, geth at 1, seth at 1.
    wsimpl. reflexivity.
Qed.


(** A table over a fresh bucket array: [2^b] empty buckets at [base],
    registered each as its own chain, and possibly a pool behind them. *)
Lemma fresh_table_Inv w h b base :
  ArchOK -> TypeOK -> hdr w = Some h -> Mem w ->
  0 <= b -> B h = b -> buckets h = base -> oldbuckets h = 0 ->
  count h = 0 -> is_sameSizeGrow h = false ->
  0 < base -> base + 2 ^ b * bucketsize t <= brk w ->
  (forall i, 0 <= i < 2 ^ b ->
             heap w !! (base + i * bucketsize t) = Some zero_bmap) ->
  (exists m, pool_at (heap w) (reg_array ∅ base (Z.to_nat (2 ^ b)))
                     (pool_cursor h) m) ->
  Inv w h (reg_array ∅ base (Z.to_nat (2 ^ b))).
Proof.
  intros HA HT Hh [Hbrk Hheap] Hb EB Ebk Eo Ec Ess Hbase Harr Hzero Hpool.
  pose proof (bucketsize_min HA HT) as HS.
  pose proof (pow2_pos b ltac:(lia)) as Hp.
  set (G' := reg_array ∅ base (Z.to_nat (2 ^ b))) in *.
  assert (HGin : forall i, 0 <= i < 2 ^ b ->
                   G' !! (base + i * bucketsize t)
                   = Some (base + i * bucketsize t)).
  { intros i Hi. destruct (index_nat i _ Hi) as (k & Hk & ->).
    apply reg_array_in; [lia | exact Hk]. }
  assert (Hg : growing h = false)
    by (unfold growing; rewrite Eo; reflexivity).
  constructor.
  - exact Hh.
  - exact Hbrk.
  - exact Hheap.
  - intros x g Hx. apply reg_array_lookup in Hx
      as [(i & Hi & -> & _) | [_ Hx]]; [| |lia].
    + rewrite Hzero by lia. eauto.
    + rewrite fin_maps.lookup_empty in Hx. discriminate.
  - lia.
  - rewrite Ec. unfold G'. rewrite total_occ_reg_array.
    + symmetry. apply total_occ_empty.
    + lia.
    + intros i Hi. apply fin_maps.lookup_empty.
    + intros i Hi. unfold occ_at. rewrite Hzero by lia.
      apply (occ_zero_bmap 0).
  - intros E0. lia.
  - intros _. rewrite Ebk, EB. lia.
  - intros _ i Hi. rewrite EB in Hi. unfold newb. rewrite Ebk.
    destruct (fresh_chain_ok (heap w) G' (base + i * bucketsize t))
      as [Cl Hf]; [apply Hzero; lia | nia | apply HGin; lia |].
    exists [base + i * bucketsize t]. split; [exact Cl | intros _; exact Hf].
  - intros E. congruence.
  - intros _. exact Ess.
  - exact Hpool.
Qed.

(** [makemap] on a map variable that holds no table leaves a well-formed,
    empty table. *)
Lemma makemap_ok hint w w' :
  ArchOK -> TypeOK -> Mem w -> hdr w = None ->
  - 2 ^ (wordBits - 1) <= hint < 2 ^ (wordBits - 1) ->
  makemap hint w = Ok tt w' ->
  exists h' G',
    hdr w' = Some h' /\ Inv w' h' G' /\ count h' = 0 /\ flags h' = 0 /\
    oldbuckets h' = 0 /\ hash0 h' = wrap32 (rand w O) /\
    brk w <= brk w' /\
    (forall a, a < brk w -> heap w' !! a = heap w !! a) /\
    (B h' = 0 -> buckets h' = 0 /\ heap w' = heap w /\ brk w' = brk w) /\
    (B h' <> 0 -> buckets h' = brk w).
Proof.
  intros HA HT HM Hnil H1 E.
  destruct (makemap_steps hint w HA HT H1 Hnil) as (b & Hb & Hsz & Hrun).
  rewrite Hrun in E. clear Hrun.
  set (h0 := Hmap 0 0 b 0 (wrap32 (rand w O)) 0 0 0 None) in *.
  set (w0 := World (Some h0) (heap w) (brk w) (fun n => rand w (S n))
                   (hcalls w)) in *.
  pose proof HM as [Hbrk Hheap].
  pose proof (bucketsize_min HA HT) as HS.
  destruct (Z.eqb_spec b 0) as [-> | Hne]; cbn [negb] in E.
  - apply ret_ok in E as [_ ->]. exists h0, ∅.
    split; [reflexivity|]. split.
    + constructor.
      * reflexivity.
      * exact Hbrk.
      * exact Hheap.
      * intros x g Hx. rewrite fin_maps.lookup_empty in Hx. discriminate.
      * cbn. lia.
      * symmetry. apply total_occ_empty.
      * intros _. repeat split; reflexivity.
      * intros Hx. exfalso. apply Hx. reflexivity.
      * intros Hx. exfalso. apply Hx. reflexivity.
      * intros Hg. discriminate.
      * intros _. reflexivity.
      * exists O. reflexivity.
    + do 4 (split; [reflexivity|]). split; [cbn; lia|].
      split; [reflexivity|]. split; [intros _; repeat split; reflexivity|].
      intros Hx. exfalso. apply Hx. reflexivity.
  - apply bind_ok in E as ([bk nx] & w2 & Emk & E).
    assert (Hwb : 32 <= wordBits <= 64)
      by (destruct (wordBits_cases HA) as [Ew | Ew]; rewrite Ew; lia).
    destruct (new_array_facts b w0 bk nx w2 HA HT ltac:(lia))
      as (-> & Hh2 & n & Hn1 & Ebrk2 & Hmax & Hzero & Hsame & Hinv & Hpool
          & Hnx).
    { cbn. lia. }
    { exact Hsz. }
    { intros a bm Ha. apply Hheap in Ha. cbn. lia. }
    { exact Emk. }
    change (brk w0) with (brk w) in *. change (heap w0) with (heap w) in *.
    change (hdr w0) with (Some h0) in Hh2.
    apply bind_ok in E as ([] & w3 & E3 & E).
    apply updh_ok in E3 as (hh & Hhh & ->).
    assert (hh = h0) as -> by congruence.
    set (h1 := set_buckets (brk w) h0) in *.
    pose proof (pow2_pos b ltac:(lia)) as Hp.
    assert (HM3 : Mem (set_hdr (Some h1) w2)).
    { split; [cbn [brk set_hdr]; nia|]. intros a bm Ha.
      cbn [heap brk set_hdr] in *.
      destruct (Hinv a bm Ha) as [[Hlt Hw] | (Hge & Hle & _)].
      - apply Hheap in Hw. nia.
      - lia. }
    assert (Hfree : forall a, brk w <= a -> (∅ : gmap Z Z) !! a = None)
      by (intros; apply fin_maps.lookup_empty).
    specialize (Hpool ∅ Hfree).
    assert (Hfinal : forall h' w',
      hdr w' = Some h' -> heap w' = heap w2 -> brk w' = brk w2 ->
      h' = set_extra (extra h') h1 ->
      pool_cursor h' = nx ->
      exists h'' G',
        hdr w' = Some h'' /\ Inv w' h'' G' /\ count h'' = 0 /\
        flags h'' = 0 /\ oldbuckets h'' = 0 /\
        hash0 h'' = wrap32 (rand w O) /\ brk w <= brk w' /\
        (forall a, a < brk w -> heap w' !! a = heap w !! a) /\
        (B h'' = 0 -> buckets h'' = 0 /\ heap w' = heap w /\ brk w' = brk w) /\
        (B h'' <> 0 -> buckets h'' = brk w)).
    { intros h' w4 Hh4 EH4 Eb4 Eh' Ep4.
      exists h', (reg_array ∅ (brk w) (Z.to_nat (2 ^ b))).
      split; [exact Hh4|]. rewrite Eh'. split.
      - rewrite <- Eh'.
        apply (fresh_table_Inv w4 h' b (brk w) HA HT Hh4);
          try (rewrite Eh'; reflexivity).
        + destruct HM3 as [M1 M2]. split.
          * rewrite Eb4. exact M1.
          * intros a bm Ha. rewrite EH4 in Ha. rewrite Eb4.
            exact (M2 a bm Ha).
        + lia.
        + lia.
        + rewrite Eb4, Ebrk2. nia.
        + intros i Hi. rewrite EH4. apply Hzero. exact Hi.
        + rewrite Ep4, EH4. destruct (Z.eqb_spec nx 0) as [-> | Hn0].
          * exists O. reflexivity.
          * destruct Hpool as [_ Hm]. exact Hm.
      - do 4 (split; [reflexivity|]). split; [rewrite Eb4, Ebrk2; nia|].
        split; [intros a Ha; rewrite EH4; apply Hsame; exact Ha|].
        split; [intros E0; cbn in E0; contradiction|].
        intros _. reflexivity. }
    destruct (Z.eqb_spec nx 0) as [-> | Hn0]; cbn [negb] in E.
    + apply ret_ok in E as [_ ->].
      apply (Hfinal h1); reflexivity.
    + apply updh_ok in E as (hh & Hhh' & ->).
      cbn [hdr set_hdr] in Hhh'. injection Hhh' as <-.
      eapply Hfinal; reflexivity.
Qed.


(** ** Clearing *)

(** The bucket memory after [makeBucketArray(t, b, h.buckets)]: the array
    at [d] is zeroed, and the last of its buckets points back to the array
    if there are more than [2^b]. *)
Definition cleared_heap (b d : Z) (H : gmap Z (bmap K V))
  : gmap Z (bmap K V) :=
  let n := nbucketsFor b in
  let H1 := fill_buckets H d (Z.to_nat n) in
  if 2 ^ b =? n then H1
  else <[d + (n - 1) * bucketsize t := set_b_overflow d zero_bmap]> H1.

Lemma makeBucketArray_clear b d w :
  ArchOK -> TypeOK -> 0 <= b < wordBits -> 0 < d ->
  2 ^ b <= nbucketsFor b -> d + nbucketsFor b * bucketsize t < 2 ^ wordBits ->
  makeBucketArray b d w
  = Ok (d, if 2 ^ b =? nbucketsFor b then 0 else d + 2 ^ b * bucketsize t)
       (set_heap (cleared_heap b d (heap w)) w).
Proof.
  intros HA HT Hb Hd Hn Hfit. unfold makeBucketArray, cleared_heap.
  rewrite bucketShift_pow by (auto; lia).
  set (n := nbucketsFor b) in *.
  pose proof (pow2_pos b ltac:(lia)) as Hp.
  pose proof (bucketsize_min HA HT) as HS.
  destruct (Z.eqb_spec d 0) as [|_]; [lia|].
  unfold bind at 1. unfold bind at 1. unfold memclr_buckets. unfold ret at 1.
  destruct (Z.eqb_spec (2 ^ b) n) as [E | E]; cbn [negb].
  - reflexivity.
  - unfold setoverflow, updb, bind, load, store, ret. cbn [heap set_heap].
    assert (Hlast : add d (wrap (wrap (n - 1) * bucketsize t))
                    = d + (n - 1) * bucketsize t).
    { rewrite (wrap_small (n - 1)) by nia.
      rewrite (wrap_small ((n - 1) * bucketsize t)) by nia.
      apply add_small. nia. }
    assert (Hfill : fill_buckets (heap w) d (Z.to_nat n)
                      !! (d + (n - 1) * bucketsize t)
                    = Some zero_bmap).
    { replace (d + (n - 1) * bucketsize t)
        with (d + Z.of_nat (Z.to_nat (n - 1)) * bucketsize t)
        by (rewrite Z2Nat.id by lia; reflexivity).
      apply fill_buckets_in; lia. }
    rewrite Hlast. rewrite !Hfill. cbn [heap set_heap]. rewrite ?Hfill.
    rewrite (wrap_small (2 ^ b * bucketsize t)) by nia.
    rewrite add_small by nia.
    reflexivity.
Qed.

Lemma cleared_heap_in b d H i :
  0 < bucketsize t -> 0 <= i < nbucketsFor b ->
  cleared_heap b d H !! (d + i * bucketsize t)
  = Some (if (i =? nbucketsFor b - 1) && negb (2 ^ b =? nbucketsFor b)
          then set_b_overflow d zero_bmap else zero_bmap).
Proof.
  intros HS Hi. unfold cleared_heap.
  set (n := nbucketsFor b) in *.
  assert (Hfill : fill_buckets H d (Z.to_nat n) !! (d + i * bucketsize t)
                  = Some zero_bmap).
  { replace (d + i * bucketsize t)
      with (d + Z.of_nat (Z.to_nat i) * bucketsize t)
      by (rewrite Z2Nat.id by lia; reflexivity).
    apply fill_buckets_in; lia. }
  destruct (Z.eqb_spec (2 ^ b) n) as [E | E]; cbn [negb].
  - rewrite andb_false_r. exact Hfill.
  - rewrite andb_true_r.
    destruct (Z.eqb_spec i (n - 1)) as [-> | Hne].
    + apply lookup_insert_eq.
    + rewrite lookup_insert_ne by nia. exact Hfill.
Qed.

Lemma cleared_heap_lookup b d H a bm :
  0 < bucketsize t -> 2 ^ b <= nbucketsFor b ->
  cleared_heap b d H !! a = Some bm ->
  (exists i, 0 <= i < nbucketsFor b /\ a = d + i * bucketsize t) \/
  H !! a = Some bm.
Proof.
  intros HS Hn Ha. unfold cleared_heap in Ha.
  set (n := nbucketsFor b) in *.
  assert (Hfill : forall bm', fill_buckets H d (Z.to_nat n) !! a = Some bm' ->
            (exists i, 0 <= i < n /\ a = d + i * bucketsize t) \/
            H !! a = Some bm').
  { intros bm' Hf. apply fill_buckets_lookup in Hf
      as [(i & Hi & -> & _) | [_ Hf]]; [| |lia].
    - left. exists (Z.of_nat i). split; [lia | reflexivity].
    - right. exact Hf. }
  destruct (2 ^ b =? n) eqn:E.
  - apply Hfill. exact Ha.
  - apply Z.eqb_neq in E.
    destruct (Z.eq_dec a (d + (n - 1) * bucketsize t)) as [-> | Hne].
    + left. exists (n - 1). pose proof (pow2_pos b). split; [|reflexivity].
      assert (0 <= 2 ^ b) by (apply Z.pow_nonneg; lia). lia.
    + rewrite lookup_insert_ne in Ha by congruence. apply Hfill. exact Ha.
Qed.


(** ** The extent of the bucket array *)

(** The header [h] fits a memory that ends at [b]: the array at
    [h.buckets] has the [nbucketsFor h.B] buckets [makeBucketArray]
    allocates for [h.B], among them the [2^B] main buckets, and [h.extra]
    is there when some of them are preallocated overflow buckets. *)
Definition ext_ok (h : hmap) (b : Z) : Prop :=
  0 <= B h /\ 0 < b <= maxAlloc /\
  (buckets h = 0 -> B h = 0) /\
  (buckets h <> 0 ->
   0 < buckets h /\
   buckets h + 2 ^ B h * bucketsize t <= b /\
   buckets h + nbucketsFor (B h) * bucketsize t <= b /\
   (nbucketsFor (B h) <> 2 ^ B h -> extra h <> None)).

Definition Ext (w : world K V) : Prop :=
  forall h, hdr w = Some h -> ext_ok h (brk w).

(** A step that keeps the array: [B] and [buckets] stay, [extra] is not
    dropped, and memory is only added, below [maxAlloc]. *)
Definition hstep (h h' : hmap) : Prop :=
  B h' = B h /\ buckets h' = buckets h /\
  (extra h <> None -> extra h' <> None).

Definition xstep (w w' : world K V) : Prop :=
  brk w <= brk w' /\ (brk w <= maxAlloc -> brk w' <= maxAlloc) /\
  match hdr w with
  | Some h => exists h', hdr w' = Some h' /\ hstep h h'
  | None => hdr w' = None
  end.

Lemma hstep_refl h : hstep h h.
Proof. repeat split. auto. Qed.

Lemma hstep_trans h1 h2 h3 : hstep h1 h2 -> hstep h2 h3 -> hstep h1 h3.
Proof.
  intros (A1 & A2 & A3) (B1 & B2 & B3). repeat split; try congruence. auto.
Qed.

Lemma xstep_refl w : xstep w w.
Proof.
  split; [lia|]. split; [auto|].
  destruct (hdr w) as [h|]; [|reflexivity]. exists h. split; [reflexivity|].
  apply hstep_refl.
Qed.

Lemma xstep_trans w1 w2 w3 : xstep w1 w2 -> xstep w2 w3 -> xstep w1 w3.
Proof.
  intros (A1 & A2 & A3) (B1 & B2 & B3). split; [lia|]. split; [auto|].
  destruct (hdr w1) as [h1|].
  - destruct A3 as (h2 & E2 & S2). rewrite E2 in B3.
    destruct B3 as (h3 & E3 & S3). exists h3. split; [exact E3|].
    eapply hstep_trans; eassumption.
  - rewrite A3 in B3. exact B3.
Qed.

Lemma xstep_same w w' :
  hdr w' = hdr w -> brk w' = brk w -> xstep w w'.
Proof.
  intros Eh Eb. split; [lia|]. split; [rewrite Eb; auto|]. rewrite Eh.
  destruct (hdr w) as [h|]; [|reflexivity]. exists h. split; [reflexivity|].
  apply hstep_refl.
Qed.

Lemma ext_ok_step h b h' b' :
  ext_ok h b -> hstep h h' -> b <= b' -> b' <= maxAlloc -> ext_ok h' b'.
Proof.
  intros (H1 & H2 & H3 & H4) (EB & Ebk & Ex) Hb Hm.
  unfold ext_ok. rewrite EB, Ebk. split; [exact H1|]. split; [lia|].
  split; [exact H3|]. intros Hne. destruct (H4 Hne) as (A1 & A2 & A3 & A4).
  split; [exact A1|]. split; [lia|]. split; [lia|]. auto.
Qed.

Lemma xstep_Ext w w' : Ext w -> xstep w w' -> Ext w'.
Proof.
  intros HE (Hb & Hm & Hh) h' Hh'. destruct (hdr w) as [h|] eqn:Eh.
  - destruct Hh as (h'' & Hh'' & Hs). assert (h'' = h') as -> by congruence.
    pose proof (HE h Eh) as Hok.
    eapply ext_ok_step; [exact Hok | exact Hs | exact Hb |].
    apply Hm. destruct Hok as (_ & ? & _). lia.
  - congruence.
Qed.

(** [quiet m]: [m] leaves the header and the end of memory alone. *)
Definition quiet {A : Type} (m : M A) : Prop :=
  forall w a w', m w = Ok a w' -> hdr w' = hdr w /\ brk w' = brk w.

(** [kx m]: what [m] does is a step that keeps the array. *)
Definition kx {A : Type} (m : M A) : Prop :=
  forall w a w', m w = Ok a w' -> xstep w w'.

(** [kxh h m]: the same, for a run of [m] that starts with header [h]. *)
Definition kxh {A : Type} (h : hmap) (m : M A) : Prop :=
  forall w a w', hdr w = Some h -> m w = Ok a w' -> xstep w w'.

Lemma quiet_ret {A : Type} (a : A) : quiet (ret a).
Proof. intros w a' w' [= _ <-]. auto. Qed.

Lemma quiet_bind {A B' : Type} (m : M A) (f : A -> M B') :
  quiet m -> (forall a, quiet (f a)) -> quiet (bind m f).
Proof.
  intros Hm Hf w b w' E. apply bind_ok in E as (a & w1 & E1 & E2).
  destruct (Hm _ _ _ E1) as [A1 A2]. destruct (Hf a _ _ _ E2) as [B1 B2].
  split; congruence.
Qed.

Lemma quiet_fail {A : Type} e : quiet (fail e : M A).
Proof. intros w a w' E. discriminate. Qed.

Lemma quiet_get_world : quiet get_world.
Proof. intros w a w' [= _ <-]. auto. Qed.

Lemma quiet_geth : quiet geth.
Proof.
  intros w a w' E. apply geth_ok in E as [_ ->]. auto.
Qed.

Lemma quiet_load b : quiet (load b).
Proof.
  intros w a w' E. unfold load in E. destruct (heap w !! b); [|discriminate].
  injection E as _ <-. auto.
Qed.

Lemma quiet_store b bm : quiet (store b bm).
Proof.
  intros w a w' E. unfold store in E. destruct (heap w !! b); [|discriminate].
  injection E as _ <-. auto.
Qed.

Lemma quiet_updb b f : quiet (updb b f).
Proof.
  unfold updb. apply quiet_bind; [apply quiet_load|]. intros bm.
  apply quiet_store.
Qed.

Lemma quiet_bmap_overflow b : quiet (bmap_overflow b).
Proof.
  unfold bmap_overflow. apply quiet_bind; [apply quiet_load|]. intros bm.
  apply quiet_ret.
Qed.

Lemma quiet_setoverflow b o : quiet (setoverflow b o).
Proof. apply quiet_updb. Qed.

Lemma quiet_fastrand : quiet fastrand.
Proof. intros w a w' [= _ <-]. auto. Qed.

Lemma quiet_call_hasher key seed : quiet (call_hasher key seed).
Proof.
  intros w a w' E. unfold call_hasher in E.
  destruct (hasher t key seed (rand w O)); [|discriminate].
  injection E as _ <-. auto.
Qed.

Lemma quiet_memclr_buckets base n : quiet (memclr_buckets base n).
Proof. intros w a w' [= _ <-]. auto. Qed.

Lemma kx_quiet {A : Type} (m : M A) : quiet m -> kx m.
Proof. intros Hq w a w' E. destruct (Hq _ _ _ E). apply xstep_same; auto. Qed.

Lemma kx_ret {A : Type} (a : A) : kx (ret a).
Proof. apply kx_quiet, quiet_ret. Qed.

Lemma kx_fail {A : Type} e : kx (fail e : M A).
Proof. intros w a w' E. discriminate. Qed.

Lemma kx_bind {A B' : Type} (m : M A) (f : A -> M B') :
  kx m -> (forall a, kx (f a)) -> kx (bind m f).
Proof.
  intros Hm Hf w b w' E. apply bind_ok in E as (a & w1 & E1 & E2).
  eapply xstep_trans; [exact (Hm _ _ _ E1) | exact (Hf a _ _ _ E2)].
Qed.

Lemma kxh_kx {A : Type} h (m : M A) : kx m -> kxh h m.
Proof. intros Hm w a w' _ E. exact (Hm _ _ _ E). Qed.

Lemma kx_geth_bind {A : Type} (f : hmap -> M A) :
  (forall h, kxh h (f h)) -> kx (bind geth f).
Proof.
  intros Hf w a w' E. apply bind_ok in E as (h & w1 & E1 & E2).
  apply geth_ok in E1 as [Eh ->]. exact (Hf h _ _ _ Eh E2).
Qed.

Lemma kxh_seth h h' : hstep h h' -> kxh h (seth h').
Proof.
  intros Hs w a w' Eh E. apply seth_ok in E as ->.
  split; [cbn; lia|]. split; [cbn; auto|].
  rewrite Eh. exists h'. split; [reflexivity | exact Hs].
Qed.

Lemma kxh_bind_quiet {A B' : Type} h (m : M A) (f : A -> M B') :
  quiet m -> (forall a, kxh h (f a)) -> kxh h (bind m f).
Proof.
  intros Hm Hf w b w' Eh E. apply bind_ok in E as (a & w1 & E1 & E2).
  destruct (Hm _ _ _ E1) as [A1 A2].
  eapply xstep_trans; [apply xstep_same; eassumption|].
  apply (Hf a w1 b w'); [rewrite A1; exact Eh | exact E2].
Qed.

Lemma kxh_bind {A B' : Type} h (m : M A) (f : A -> M B') :
  kxh h m -> (forall a, kx (f a)) -> kxh h (bind m f).
Proof.
  intros Hm Hf w b w' Eh E. apply bind_ok in E as (a & w1 & E1 & E2).
  eapply xstep_trans; [exact (Hm _ _ _ Eh E1) | exact (Hf a _ _ _ E2)].
Qed.

Lemma kx_updh f : (forall h, hstep h (f h)) -> kx (updh f).
Proof.
  intros Hf. unfold updh. apply kx_geth_bind. intros h. apply kxh_seth.
  apply Hf.
Qed.

Lemma kx_newarray n : TypeOK -> ArchOK -> kx (newarray n).
Proof.
  intros HT HA w a w' E. unfold newarray in E.
  destruct (n <? 1) eqn:En; [discriminate|]. cbn [orb] in E.
  destruct (maxAlloc <? brk w + n * bucket_size t) eqn:Em; [discriminate|].
  injection E as _ <-. apply Z.ltb_ge in En, Em.
  pose proof (bucketsize_min HA HT) as HS.
  rewrite (type_bucket_size HT) in *.
  split; [cbn; nia|]. split; [cbn; lia|]. cbn [hdr set_brk set_heap].
  destruct (hdr w) as [h|]; [|reflexivity]. exists h. split; [reflexivity|].
  apply hstep_refl.
Qed.

(** The setters that keep the array. *)
Lemma hstep_set_flags v h : hstep h (set_flags v h).
Proof. repeat split. auto. Qed.
Lemma hstep_set_count v h : hstep h (set_count v h).
Proof. repeat split. auto. Qed.
Lemma hstep_set_noverflow v h : hstep h (set_noverflow v h).
Proof. repeat split. auto. Qed.
Lemma hstep_set_nevacuate v h : hstep h (set_nevacuate v h).
Proof. repeat split. auto. Qed.
Lemma hstep_set_oldbuckets v h : hstep h (set_oldbuckets v h).
Proof. repeat split. auto. Qed.
Lemma hstep_set_extra e h : hstep h (set_extra (Some e) h).
Proof. repeat split. intros _. discriminate. Qed.

Lemma hstep_createOverflow h : hstep h (createOverflow h).
Proof.
  unfold createOverflow. destruct (extra h) as [e|] eqn:Ee; cbv zeta.
  - rewrite Ee. destruct (overflow e); [apply hstep_refl|].
    repeat split. intros _. discriminate.
  - cbn. repeat split. intros _. discriminate.
Qed.

Ltac hstep_solve :=
  first [ apply hstep_refl | apply hstep_set_flags | apply hstep_set_count
        | apply hstep_set_noverflow | apply hstep_set_nevacuate
        | apply hstep_set_oldbuckets | apply hstep_set_extra
        | apply hstep_createOverflow ].

Ltac quiet_solve :=
  first [ apply quiet_get_world | apply quiet_geth | apply quiet_load
        | apply quiet_store | apply quiet_updb | apply quiet_bmap_overflow
        | apply quiet_setoverflow | apply quiet_fastrand
        | apply quiet_call_hasher | apply quiet_memclr_buckets
        | apply quiet_ret | apply quiet_fail ].

(** One step through a sequence. *)
Ltac kx_step :=
  lazymatch goal with
  | |- kx (let _ := _ in _) => cbv zeta
  | |- kxh _ (let _ := _ in _) => cbv zeta
  | |- kx (bind geth _) => apply kx_geth_bind; intros ?
  | |- kx (bind (updh _) _) =>
      apply kx_bind; [apply kx_updh; intros ?; hstep_solve | intros _]
  | |- kx (bind (newarray _) _) =>
      apply kx_bind; [apply kx_newarray; assumption | intros ?]
  | |- kx (bind newobject _) =>
      apply kx_bind; [apply kx_newarray; assumption | intros ?]
  | |- kx (bind _ _) =>
      apply kx_bind; [apply kx_quiet; quiet_solve | intros ?]
  | |- kx (updh _) => apply kx_updh; intros ?; hstep_solve
  | |- kx (newarray _) => apply kx_newarray; assumption
  | |- kx newobject => apply kx_newarray; assumption
  | |- kx (ret _) => apply kx_ret
  | |- kx (fail _) => apply kx_fail
  | |- kx (throw _) => apply kx_fail
  | |- kx (if ?c then _ else _) => destruct c
  | |- kx (match ?x with Some _ => _ | None => _ end) => destruct x
  | |- kx (let '(_, _) := ?x in _) => destruct x
  | |- kxh _ (seth _) => apply kxh_seth; hstep_solve
  | |- kxh _ (bind (seth _) _) =>
      apply kxh_bind; [apply kxh_seth; hstep_solve | intros _]
  | |- kxh _ (if ?c then _ else _) => destruct c
  | |- kxh _ (match ?x with Some _ => _ | None => _ end) => destruct x
  | |- kxh _ (bind geth _) => apply kxh_kx
  | |- kxh _ (bind (updh _) _) => apply kxh_kx
  | |- kxh _ (bind (newarray _) _) => apply kxh_kx
  | |- kxh _ (bind newobject _) => apply kxh_kx
  | |- kxh _ (bind _ _) =>
      first [ apply kxh_bind_quiet; [quiet_solve | intros ?] | apply kxh_kx ]
  | |- kxh _ _ => apply kxh_kx
  | |- kx _ => apply kx_quiet; quiet_solve
  end.

Lemma kx_incrnoverflow : kx incrnoverflow.
Proof. unfold incrnoverflow. repeat kx_step. Qed.

Lemma kx_newoverflow b : TypeOK -> ArchOK -> kx (newoverflow b).
Proof.
  intros HT HA. unfold newoverflow. kx_step. apply kxh_bind.
  { destruct (extra h) as [e|]; [|repeat kx_step].
    destruct (negb _); [|repeat kx_step]. cbv zeta.
    apply kxh_bind_quiet; [quiet_solve|]. intros o.
    destruct (o =? 0).
    - repeat kx_step.
    - apply kxh_bind_quiet; [quiet_solve|]. intros _. repeat kx_step. }
  intros ovf. apply kx_bind; [apply kx_incrnoverflow|]. intros _.
  apply kx_bind.
  { destruct (_ =? 0); [|repeat kx_step]. kx_step.
    apply kx_updh. intros h'. destruct (extra h'); hstep_solve. }
  intros _. repeat kx_step.
Qed.

Lemma kx_evacuate_cell newbit b xy i :
  TypeOK -> ArchOK -> kx (evacuate_cell newbit b xy i).
Proof.
  intros HT HA. unfold evacuate_cell. kx_step. rename a into bm. cbv zeta.
  destruct (isEmpty _); [repeat kx_step|].
  destruct (_ <? minTopHash); [repeat kx_step|].
  kx_step. apply kxh_kx. apply kx_bind.
  { destruct (negb _); repeat kx_step. }
  intros [useY top]. destruct (_ || _); [repeat kx_step|].
  kx_step. apply kx_bind.
  { destruct (_ =? bucketCnt); [|repeat kx_step].
    apply kx_bind; [apply kx_newoverflow; assumption|]. intros nb. kx_step. }
  intros dst. repeat kx_step.
Qed.

Lemma kx_evacuate_cells newbit b cells :
  TypeOK -> ArchOK -> forall xy, kx (evacuate_cells newbit b xy cells).
Proof.
  intros HT HA. induction cells as [| i cells IH]; intros xy;
    cbn [evacuate_cells].
  - kx_step.
  - apply kx_bind; [apply kx_evacuate_cell; assumption|]. intros xy'.
    apply IH.
Qed.

Lemma kx_evacuate_chain fuel newbit :
  TypeOK -> ArchOK -> forall b xy, kx (evacuate_chain fuel newbit b xy).
Proof.
  intros HT HA. induction fuel as [| fuel IH]; intros b xy;
    cbn [evacuate_chain].
  - kx_step.
  - kx_step; [repeat kx_step|].
    apply kx_bind; [apply kx_evacuate_cells; assumption|]. intros xy'.
    kx_step. apply IH.
Qed.

Lemma kx_advance_loop n stop : kx (advance_loop n stop).
Proof.
  induction n as [| n IH]; cbn [advance_loop].
  - kx_step.
  - kx_step. kx_step; [|repeat kx_step].
    apply kxh_bind_quiet.
    { unfold bucketEvacuated. apply quiet_bind; [quiet_solve|]. intros h'.
      apply quiet_bind; [quiet_solve|]. intros bm. quiet_solve. }
    intros ev. kx_step; [|repeat kx_step]. kx_step. apply IH.
Qed.

Lemma kx_advanceEvacuationMark newbit : kx (advanceEvacuationMark newbit).
Proof.
  unfold advanceEvacuationMark. kx_step. kx_step. cbv zeta.
  apply kxh_kx. apply kx_bind; [apply kx_advance_loop|]. intros _.
  kx_step. kx_step; [|repeat kx_step]. kx_step.
  apply kx_bind; [|intros _; kx_step].
  apply kx_updh. intros h'. destruct (extra h'); hstep_solve.
Qed.

Lemma kx_evacuate j : TypeOK -> ArchOK -> kx (evacuate j).
Proof.
  intros HT HA. unfold evacuate. kx_step. cbv zeta.
  apply kxh_kx. kx_step. apply kx_bind.
  { kx_step; [|repeat kx_step]. cbv zeta. kx_step.
    apply kx_bind; [apply kx_evacuate_chain; assumption|]. intros _.
    repeat kx_step. }
  intros _. kx_step. kx_step; [|repeat kx_step]. apply kxh_kx.
  apply kx_advanceEvacuationMark.
Qed.

Lemma kx_growWork bucket : TypeOK -> ArchOK -> kx (growWork bucket).
Proof.
  intros HT HA. unfold growWork. kx_step. apply kxh_kx.
  apply kx_bind; [apply kx_evacuate; assumption|]. intros _.
  kx_step. kx_step; [|repeat kx_step]. apply kxh_kx. apply kx_evacuate; assumption.
Qed.


Lemma ext_ok_B h b :
  ArchOK -> TypeOK -> ext_ok h b -> 0 <= B h <= wordBits - 6.
Proof.
  intros HA HT (HB & Hb & Hnil & Harr).
  pose proof (wordBits_cases HA) as HW.
  destruct (Z.eq_dec (buckets h) 0) as [E | E].
  - rewrite (Hnil E). lia.
  - destruct (Harr E) as (H0 & H1 & _).
    pose proof (bucketsize_min HA HT) as HS.
    pose proof (maxAlloc_small HA) as HM.
    destruct (Z_le_gt_dec (B h) (wordBits - 6)) as [|Hgt]; [lia|].
    exfalso.
    assert (2 ^ (wordBits - 5) <= 2 ^ B h) by (apply pow2_le; lia).
    assert (0 < 2 ^ (wordBits - 5)) by (apply pow2_pos; lia).
    nia.
Qed.

(** The size of the array for [b], when the [2^b'] buckets of a smaller
    [b'] fit the memory. *)
Lemma ext_ok_size h b b' :
  ArchOK -> TypeOK -> ext_ok h b -> B h <= b' <= B h + 1 ->
  0 <= b' < wordBits /\
  (4 <= b' -> bucketsize t * (2 ^ b' + 2 ^ (b' - 4)) < 2 ^ wordBits).
Proof.
  intros HA HT Hok Hb'.
  pose proof (ext_ok_B h b HA HT Hok) as HBr.
  destruct Hok as (HB & Hb & Hnil & Harr).
  assert (Hwb : 32 <= wordBits <= 64)
    by (destruct (wordBits_cases HA) as [E | E]; rewrite E; lia).
  split; [lia|]. intros H4.
  destruct (Z.eq_dec (buckets h) 0) as [E | E]; [rewrite (Hnil E) in *; lia|].
  destruct (Harr E) as (H0 & H1 & _).
  pose proof (bucketsize_min HA HT) as HS.
  pose proof (arch_maxAlloc HA) as [_ HM].
  pose proof (pow2_pos (B h) ltac:(lia)) as HpB.
  assert (2 ^ b' <= 2 * 2 ^ B h).
  { rewrite <- pow2_succ by lia. apply pow2_le. lia. }
  assert (2 ^ (b' - 4) <= 2 ^ B h) by (apply pow2_le; lia).
  nia.
Qed.

Lemma Ext_hashGrow w w' :
  ArchOK -> TypeOK -> Ext w -> hashGrow w = Ok tt w' -> Ext w'.
Proof.
  intros HA HT HE Hrun.
  destruct (hdr w) as [h|] eqn:Hh.
  2: { unfold hashGrow, bind, geth in Hrun. rewrite Hh in Hrun.
       discriminate. }
  destruct (hashGrow_header w h w' Hh Hrun)
    as (h' & Hh' & Eo & Ene & Eno & Ec & Eh0 & Ebk & HB).
  destruct (hashGrow_world w h w' Hh Hrun)
    as (nx & w2 & w1 & h'' & EH1 & Eb1 & Emk & EH' & Eb' & Hh'' & Ep & Ew).
  assert (h'' = h') as -> by congruence.
  pose proof (HE h Hh) as Hok.
  pose proof (ext_ok_B h _ HA HT Hok) as HBr.
  set (ov := overLoadFactor (int_of (count h + 1)) (B h)) in *.
  set (b' := B h + if ov then 1 else 0).
  assert (Hwb : 32 <= wordBits <= 64)
    by (destruct (wordBits_cases HA) as [E | E]; rewrite E; lia).
  assert (Ew8 : forall x, 0 <= x < 256 -> wrap8 x = x)
    by (intros x Hx; unfold wrap8; apply Z.mod_small; change (2 ^ 8) with 256;
        lia).
  assert (EB' : B h' = b').
  { unfold b'. destruct ov; destruct HB as [-> _]; apply Ew8; lia. }
  assert (Earg : wrap8 (B h + (if negb ov then 0 else 1)) = b').
  { unfold b'. destruct ov; cbn [negb]; apply Ew8; lia. }
  rewrite Earg in Emk.
  destruct (ext_ok_size h _ b' HA HT Hok) as [Hb' Hsz].
  { unfold b'. destruct ov; lia. }
  destruct (nbucketsFor_bounds b' HA HT Hb' Hsz) as (Hn & _ & _).
  pose proof Hok as (_ & Hbrk & _).
  rewrite (makeBucketArray_new b' w1 HA HT Hb') in Emk;
    [|rewrite Eb1; lia | exact Hn].
  destruct (_ && _) eqn:Efit; [|discriminate].
  apply andb_true_iff in Efit as [_ Efit]. apply Z.leb_le in Efit.
  injection Emk as _ Enx Ew2. subst w2.
  destruct (bucketArray_world_brk b' w1) as [Ebrk2 _].
  rewrite (type_bucket_size HT) in Ebrk2.
  pose proof (bucketsize_min HA HT) as HS.
  pose proof (pow2_pos b' ltac:(lia)) as Hp.
  intros hx Hhx. assert (hx = h') as -> by congruence.
  unfold ext_ok. rewrite EB', Ebk, Eb', Ebrk2, Eb1.
  split; [lia|]. split; [nia|]. split; [lia|]. intros _.
  split; [lia|]. split; [nia|]. split; [lia|].
  intros Hne Hx. unfold pool_cursor in Ep. rewrite Hx in Ep.
  destruct (Z.eqb_spec (2 ^ b') (nbucketsFor b')) as [E | _]; [lia|].
  rewrite Eb1 in Enx. subst nx.
  destruct (Z.eqb_spec (brk w + 2 ^ b' * bucketsize t) 0) as [E0 | _]; nia.
Qed.


(** [ke m]: [m] keeps the extent of the array right, also when it
    replaces the array. *)
Definition ke {A : Type} (m : M A) : Prop :=
  forall w a w', Ext w -> m w = Ok a w' -> Ext w'.

Definition keh {A : Type} (h : hmap) (m : M A) : Prop :=
  forall w a w', Ext w -> hdr w = Some h -> m w = Ok a w' -> Ext w'.

Lemma ke_kx {A : Type} (m : M A) : kx m -> ke m.
Proof. intros Hm w a w' HE E. exact (xstep_Ext _ _ HE (Hm _ _ _ E)). Qed.

Lemma ke_bind {A B' : Type} (m : M A) (f : A -> M B') :
  ke m -> (forall a, ke (f a)) -> ke (bind m f).
Proof.
  intros Hm Hf w b w' HE E. apply bind_ok in E as (a & w1 & E1 & E2).
  exact (Hf a _ _ _ (Hm _ _ _ HE E1) E2).
Qed.

Lemma ke_geth_bind {A : Type} (f : hmap -> M A) :
  (forall h, keh h (f h)) -> ke (bind geth f).
Proof.
  intros Hf w a w' HE E. apply bind_ok in E as (h & w1 & E1 & E2).
  apply geth_ok in E1 as [Eh ->]. exact (Hf h _ _ _ HE Eh E2).
Qed.

Lemma keh_ke {A : Type} h (m : M A) : ke m -> keh h m.
Proof. intros Hm w a w' HE _ E. exact (Hm _ _ _ HE E). Qed.

Lemma keh_bind {A B' : Type} h (m : M A) (f : A -> M B') :
  keh h m -> (forall a, ke (f a)) -> keh h (bind m f).
Proof.
  intros Hm Hf w b w' HE Eh E. apply bind_ok in E as (a & w1 & E1 & E2).
  exact (Hf a _ _ _ (Hm _ _ _ HE Eh E1) E2).
Qed.

Lemma ke_hashGrow : ArchOK -> TypeOK -> ke hashGrow.
Proof. intros HA HT w [] w' HE E. exact (Ext_hashGrow w w' HA HT HE E). Qed.

(** The first bucket of a map made without one. *)
Lemma keh_first_bucket h :
  ArchOK -> TypeOK -> buckets h = 0 ->
  keh h (do nb <- newobject; updh (set_buckets nb)).
Proof.
  intros HA HT Hb0 w [] w' HE Hh E.
  apply bind_ok in E as (nb & w1 & E1 & E2).
  unfold newobject, newarray in E1.
  destruct (1 <? 1) eqn:E11; [discriminate|]. cbn [orb] in E1.
  destruct (maxAlloc <? brk w + 1 * bucket_size t) eqn:Em; [discriminate|].
  injection E1 as <- <-. apply Z.ltb_ge in Em.
  apply updh_ok in E2 as (h1 & Hh1 & ->).
  cbn [hdr set_brk set_heap] in Hh1. assert (h1 = h) as -> by congruence.
  pose proof (HE h Hh) as (HB & Hbrk & Hnil & _).
  pose proof (bucketsize_min HA HT) as HS.
  rewrite (type_bucket_size HT) in Em.
  assert (Hwb : 32 <= wordBits <= 64)
    by (destruct (wordBits_cases HA) as [E | E]; rewrite E; lia).
  destruct (nbucketsFor_bounds 0 HA HT ltac:(lia) ltac:(lia))
    as (_ & _ & Hn).
  specialize (Hn ltac:(lia)). change (2 ^ 0) with 1 in Hn.
  intros hx Hhx. cbn [hdr set_hdr] in Hhx. injection Hhx as <-.
  unfold ext_ok. cbn [B buckets set_buckets brk set_hdr set_brk set_heap].
  rewrite (Hnil Hb0), Hn, (type_bucket_size HT). change (2 ^ 0) with 1.
  split; [lia|]. split; [lia|]. split; [reflexivity|]. intros _.
  split; [lia|]. split; [lia|]. split; [lia|]. intros Hne. exfalso.
  apply Hne. reflexivity.
Qed.

Ltac quiet_step :=
  lazymatch goal with
  | |- quiet (let _ := _ in _) => cbv zeta
  | |- quiet (bind _ _) => apply quiet_bind; [quiet_solve | intros ?]
  | |- quiet (if ?c then _ else _) => destruct c
  | |- quiet (match ?x with Some _ => _ | None => _ end) => destruct x
  | |- quiet _ => quiet_solve
  end.

Lemma quiet_assign_chain fuel b key top ins :
  quiet (assign_chain fuel b key top ins).
Proof.
  intros w x w' E. apply assign_chain_readonly in E as ->. auto.
Qed.

Lemma quiet_bucketloop fuel key top :
  forall b, quiet (bucketloop fuel b key top).
Proof.
  induction fuel as [| fuel IH]; intros b; cbn [bucketloop].
  - quiet_step.
  - quiet_step; [quiet_step|]. quiet_step.
    destruct (probe_cells _ _ _ _); [quiet_step | quiet_step | apply IH].
Qed.

Lemma quiet_find_prev fuel c : forall b, quiet (find_prev fuel b c).
Proof.
  induction fuel as [| fuel IH]; intros b; cbn [find_prev].
  - quiet_step.
  - quiet_step. quiet_step; [apply IH | quiet_step].
Qed.

Lemma quiet_mark_emptyRest fuel bOrig :
  forall b i, quiet (mark_emptyRest fuel bOrig b i).
Proof.
  induction fuel as [| fuel IH]; intros b i; cbn [mark_emptyRest].
  - quiet_step.
  - quiet_step. quiet_step. apply quiet_bind.
    { quiet_step; [|quiet_step]. quiet_step; [quiet_step|].
      apply quiet_bind; [apply quiet_find_prev|]. intros c. quiet_step. }
    intros [[b' i'] |]; [|quiet_step].
    quiet_step. quiet_step; [quiet_step | apply IH].
Qed.

Lemma quiet_lookup_empty key : quiet (lookup_empty key).
Proof. unfold lookup_empty. repeat quiet_step. Qed.

Lemma kx_delete_cell bOrig b i : kx (delete_cell bOrig b i).
Proof.
  unfold delete_cell. kx_step. kx_step. apply kx_bind.
  { apply kx_quiet. repeat quiet_step. }
  intros notLast. apply kx_bind.
  { destruct notLast; [kx_step|]. kx_step.
    apply kx_quiet, quiet_mark_emptyRest. }
  intros _. kx_step.
Qed.

Lemma kx_mapdelete key : ArchOK -> TypeOK -> kx (mapdelete key).
Proof.
  intros HA HT. unfold mapdelete. kx_step. rename a into w0.
  destruct (hdr w0) as [h0|]; [|apply kx_quiet, quiet_lookup_empty].
  destruct (count h0 =? 0); [apply kx_quiet, quiet_lookup_empty|].
  destruct (negb _); [kx_step|]. kx_step. kx_step. kx_step. cbv zeta.
  apply kxh_kx. apply kx_bind.
  { destruct (growing h); [apply kx_growWork; assumption | kx_step]. }
  intros _. kx_step. cbv zeta. apply kxh_kx. kx_step.
  apply kx_bind; [apply kx_quiet, quiet_bucketloop|]. intros r.
  apply kx_bind.
  { destruct r as [[b i] |]; [apply kx_delete_cell | kx_step]. }
  intros _. repeat kx_step.
Qed.

Lemma ke_mapassign_again key hash :
  ArchOK -> TypeOK -> ke (mapassign_again key hash).
Proof.
  intros HA HT. unfold mapassign_again. apply ke_geth_bind. intros h.
  cbv zeta. apply keh_ke. apply ke_bind.
  { apply ke_kx. destruct (growing h); [apply kx_growWork; assumption|].
    kx_step. }
  intros _. apply ke_geth_bind. intros h1. apply keh_ke.
  apply ke_bind; [apply ke_kx, kx_quiet, quiet_get_world|]. intros w0.
  apply ke_bind; [apply ke_kx, kx_quiet, quiet_assign_chain|].
  intros [[found ins] lastb].
  destruct found as [[b i] |].
  - apply ke_kx. apply kx_bind; [|intros _; kx_step].
    destruct (needkeyupdate t); kx_step.
  - apply ke_geth_bind. intros h2. apply keh_ke.
    destruct (_ && _).
    + apply ke_bind; [apply ke_hashGrow; assumption|]. intros _.
      apply ke_kx. kx_step.
    + apply ke_kx. apply kx_bind.
      * destruct ins as [s |]; [kx_step|].
        apply kx_bind; [apply kx_newoverflow; assumption|]. intros nb.
        kx_step.
      * intros [ib ii]. repeat kx_step.
Qed.

Lemma ke_retry {A : Type} n (body : M (option A)) :
  ke body -> ke (retry n body).
Proof.
  intros Hb. induction n as [| n IH]; cbn [retry]; [exact Hb|].
  apply ke_bind; [exact IH|]. intros [a |]; [apply ke_kx, kx_ret|].
  exact IH.
Qed.

Lemma ke_mapassign key : ArchOK -> TypeOK -> ke (mapassign key).
Proof.
  intros HA HT. unfold mapassign.
  apply ke_bind; [apply ke_kx, kx_quiet, quiet_get_world|]. intros w0.
  destruct (hdr w0) as [h0|]; [|apply ke_kx, kx_fail].
  destruct (negb _); [apply ke_kx, kx_fail|].
  apply ke_bind; [apply ke_kx, kx_quiet, quiet_call_hasher|]. intros hash.
  apply ke_bind; [apply ke_kx, kx_updh; intros ?; hstep_solve|]. intros _.
  apply ke_geth_bind. intros h. apply keh_bind.
  { destruct (Z.eqb_spec (buckets h) 0) as [E0 | _].
    - apply keh_first_bucket; assumption.
    - apply keh_ke, ke_kx, kx_ret. }
  intros _. apply ke_bind.
  { apply ke_retry, ke_mapassign_again; assumption. }
  intros [[b i] |]; [|apply ke_kx, kx_fail].
  apply ke_kx. repeat kx_step.
Qed.

Lemma kx_store_elem p v : kx (store_elem p v).
Proof. destruct p; cbn [store_elem]; kx_step. Qed.

Lemma ke_put key v : ArchOK -> TypeOK -> ke (put key v).
Proof.
  intros HA HT. unfold put. apply ke_bind; [apply ke_mapassign; assumption|].
  intros p. apply ke_kx, kx_store_elem.
Qed.


Lemma ext_ok_nbuckets h b :
  ArchOK -> TypeOK -> ext_ok h b ->
  0 <= B h < wordBits /\ 2 ^ B h <= nbucketsFor (B h) < 2 ^ wordBits.
Proof.
  intros HA HT Hok.
  destruct (ext_ok_size h b (B h) HA HT Hok ltac:(lia)) as [Hb Hsz].
  destruct (nbucketsFor_bounds (B h) HA HT Hb Hsz) as (Hn & _ & _).
  auto.
Qed.

(** [mapclear] on a map with entries: it returns, with the array cleared
    in place and the header reset. *)
Lemma mapclear_tot w h :
  ArchOK -> TypeOK -> hdr w = Some h -> ext_ok h (brk w) ->
  count h <> 0 -> writing h = false -> buckets h <> 0 ->
  tot mapclear w
      (fun _ w' =>
         exists h',
           hdr w' = Some h' /\
           heap w' = cleared_heap (B h) (buckets h) (heap w) /\
           brk w' = brk w /\
           B h' = B h /\ buckets h' = buckets h /\ hash0 h' = hash0 h /\
           count h' = 0 /\ oldbuckets h' = 0 /\
           writing h' = false /\ is_sameSizeGrow h' = false /\
           pool_cursor h' = (if 2 ^ B h =? nbucketsFor (B h) then 0
                             else buckets h + 2 ^ B h * bucketsize t) /\
           (extra h <> None -> extra h' <> None)).
Proof.
  intros HA HT Hh Hok Hc Hw Hbk.
  destruct (ext_ok_nbuckets h _ HA HT Hok) as [HB Hn].
  pose proof Hok as (_ & Hbrk & _ & Harr).
  destruct (Harr Hbk) as (Hb0 & Harr1 & Harr2 & Hex).
  pose proof (arch_maxAlloc HA) as [_ HM].
  assert (Hp : 0 < 2 ^ wordBits) by (apply pow2_pos; lia).
  unfold mapclear. apply tot_bind. exists w, w. split; [reflexivity|].
  rewrite Hh. destruct (Z.eqb_spec (count h) 0) as [|_]; [contradiction|].
  rewrite writing_test, Hw. cbn [negb].
  set (h1 := set_flags (Z.lxor (flags h) hashWriting) h).
  set (h2 := set_flags (Z.ldiff (flags h1) sameSizeGrow) h1).
  set (h3 := set_count 0 (set_noverflow 0 (set_nevacuate 0
               (set_oldbuckets 0 h2)))).
  set (h4 := match extra h3 with
             | Some _ => set_extra (Some new_mapextra) h3
             | None => h3
             end).
  apply tot_bind. apply (tot_updh _ h); [exact Hh|].
  apply tot_bind. apply (tot_updh _ h1); [reflexivity|].
  apply tot_bind. apply (tot_updh _ h2); [reflexivity|].
  apply tot_bind. eapply tot_updh; [reflexivity|].
  apply tot_bind. eapply tot_updh; [reflexivity|].
  apply tot_bind. eapply tot_updh; [reflexivity|].
  apply tot_bind. apply (tot_updh _ h3); [reflexivity|].
  fold h4. cbn [set_hdr hdr heap brk rand hcalls].
  set (w4 := World (Some h4) (heap w) (brk w) (rand w) (hcalls w)).
  assert (E4 : B h4 = B h /\ buckets h4 = buckets h /\ hash0 h4 = hash0 h /\
               count h4 = 0 /\ oldbuckets h4 = 0 /\
               flags h4 = Z.ldiff (Z.lxor (flags h) hashWriting) sameSizeGrow /\
               (extra h <> None -> extra h4 = Some new_mapextra) /\
               (extra h = None -> extra h4 = None)).
  { unfold h4. destruct (extra h3) as [e|] eqn:Ee; cbn in Ee |- *;
      repeat split; try congruence; intros Hx; congruence. }
  destruct E4 as (EB & Ebk & Eh0 & Ec & Eo & Ef & Ex1 & Ex2).
  apply tot_bind. apply (tot_geth h4); [reflexivity|].
  rewrite EB, Ebk. apply tot_bind.
  eexists _, _. split.
  { apply makeBucketArray_clear; try assumption; lia. }
  cbn [set_heap hdr heap brk rand hcalls]. unfold w4.
  cbn [set_heap hdr heap brk rand hcalls].
  assert (Hfl : Z.testbit (flags h4) 2 = true /\
                Z.testbit (Z.ldiff (flags h4) hashWriting) 2 = false /\
                Z.testbit (Z.ldiff (flags h4) hashWriting) 3 = false).
  { rewrite Ef.
    change hashWriting with (2 ^ 2). change sameSizeGrow with (2 ^ 3).
    rewrite !testbit_ldiff_pow2, !testbit_lxor_pow2 by lia.
    unfold writing in Hw. rewrite Hw. cbn.
    rewrite ?andb_false_r. repeat split; reflexivity. }
  assert (Hend : forall h5,
            hdr (World (Some h5) (cleared_heap (B h) (buckets h) (heap w))
                       (brk w) (rand w) (hcalls w)) = Some h5 ->
            h5 = set_extra (extra h5) h4 ->
            pool_cursor h5 = (if 2 ^ B h =? nbucketsFor (B h) then 0
                              else buckets h + 2 ^ B h * bucketsize t) ->
            (extra h <> None -> extra h5 <> None) ->
            tot (do h <- geth;
                 if Z.land (flags h) hashWriting =? 0
                 then throw "concurrent map writes"
                 else seth (set_flags (Z.ldiff (flags h) hashWriting) h))
                (World (Some h5) (cleared_heap (B h) (buckets h) (heap w))
                       (brk w) (rand w) (hcalls w))
                (fun _ w' =>
                   exists h',
                     hdr w' = Some h' /\
                     heap w' = cleared_heap (B h) (buckets h) (heap w) /\
                     brk w' = brk w /\
                     B h' = B h /\ buckets h' = buckets h /\
                     hash0 h' = hash0 h /\
                     count h' = 0 /\ oldbuckets h' = 0 /\
                     writing h' = false /\ is_sameSizeGrow h' = false /\
                     pool_cursor h' =
                       (if 2 ^ B h =? nbucketsFor (B h) then 0
                        else buckets h + 2 ^ B h * bucketsize t) /\
                     (extra h <> None -> extra h' <> None))).
  { intros h5 _ E5 Ep5 Hx5.
    destruct Hfl as (F2 & F3 & F4).
    assert (F5 : flags h5 = flags h4 /\ B h5 = B h4 /\
                 buckets h5 = buckets h4 /\ hash0 h5 = hash0 h4 /\
                 count h5 = count h4 /\ oldbuckets h5 = oldbuckets h4)
      by (rewrite E5; repeat split; reflexivity).
    destruct F5 as (F1 & G1 & G2 & G3 & G4 & G5).
    apply tot_bind. apply (tot_geth h5); [reflexivity|].
    rewrite writing_test. unfold writing. rewrite F1, F2. cbn [negb].
    apply tot_seth. eexists. split; [reflexivity|].
    cbn [heap brk set_hdr]. split; [reflexivity|]. split; [reflexivity|].
    cbn [B buckets hash0 count oldbuckets set_flags].
    split; [congruence|]. split; [congruence|]. split; [congruence|].
    split; [congruence|]. split; [congruence|].
    split; [unfold writing; cbn [flags set_flags]; exact F3|].
    split; [rewrite is_sameSizeGrow_test; cbn [flags set_flags]; exact F4|].
    split; [exact Ep5 | exact Hx5]. }
  destruct (Z.eqb_spec (2 ^ B h) (nbucketsFor (B h))) as [En | En].
  - cbn [negb Z.eqb]. apply tot_bind. apply tot_ret.
    apply Hend; [reflexivity | destruct h4; reflexivity | |].
    + unfold pool_cursor. destruct (extra h) as [e|] eqn:Ee.
      * rewrite Ex1 by discriminate. reflexivity.
      * rewrite Ex2 by reflexivity. reflexivity.
    + intros Hx. rewrite (Ex1 Hx). discriminate.
  - assert (Hnx : buckets h + 2 ^ B h * bucketsize t <> 0).
    { pose proof (bucketsize_min HA HT). pose proof (pow2_pos (B h)). nia. }
    destruct (Z.eqb_spec (buckets h + 2 ^ B h * bucketsize t) 0)
      as [|_]; [contradiction|]. cbn [negb].
    assert (Hsome : extra h <> None) by (apply Hex; congruence).
    apply tot_bind. apply tot_bind. apply (tot_geth h4); [reflexivity|].
    rewrite (Ex1 Hsome). apply tot_seth. cbn [set_hdr hdr heap brk rand hcalls].
    apply Hend; [reflexivity | reflexivity | reflexivity |].
    intros _. discriminate.
Qed.


Lemma mapclear_ok w h G :
  ArchOK -> TypeOK -> Inv w h G -> Ext w -> count h <> 0 ->
  writing h = false ->
  exists w' h',
    mapclear w = Ok tt w' /\ hdr w' = Some h' /\
    Inv w' h' (reg_array ∅ (buckets h) (Z.to_nat (2 ^ B h))) /\
    Ext w' /\ count h' = 0 /\ writing h' = false /\ hash0 h' = hash0 h /\
    B h' = B h /\ buckets h' = buckets h /\ brk w' = brk w /\
    heap w' = cleared_heap (B h) (buckets h) (heap w).
Proof.
  intros HA HT I HE Hc Hw.
  pose proof (inv_hdr _ _ _ I) as Hh.
  pose proof (HE h Hh) as Hok.
  pose proof (Inv_count_buckets _ _ _ I Hc) as Hbk.
  destruct (mapclear_tot w h HA HT Hh Hok Hc Hw Hbk)
    as ([] & w' & E & h' & Hh' & EH & Eb & EB & Ebk & Eh0 & Ec & Eo & Ew
        & Ess & Ep & Ex).
  destruct (ext_ok_nbuckets h _ HA HT Hok) as [HB Hn].
  pose proof Hok as (_ & Hbrk & _ & Harr).
  destruct (Harr Hbk) as (Hb0 & Harr1 & Harr2 & Hex).
  pose proof (bucketsize_min HA HT) as HS.
  pose proof (pow2_pos (B h) ltac:(lia)) as Hp.
  set (d := buckets h) in *. set (n := nbucketsFor (B h)) in *.
  exists w', h'. split; [exact E|]. split; [exact Hh'|].
  split; [|split; [|tauto]].
  - apply (fresh_table_Inv w' h' (B h) d HA HT Hh'); try assumption;
      try lia.
    + split; [rewrite Eb; exact Hbrk|]. intros a bm Ha. rewrite EH in Ha.
      rewrite Eb.
      apply cleared_heap_lookup in Ha as [(i & Hi & ->) | Ha]; [| |lia|lia].
      * fold n in Hi. nia.
      * exact (inv_heap _ _ _ I _ _ Ha).
    + intros i Hi. rewrite EH, cleared_heap_in by (fold n; lia). fold n.
      destruct (Z.eqb_spec (2 ^ B h) n) as [En | En]; cbn [negb].
      * rewrite andb_false_r. reflexivity.
      * destruct (Z.eqb_spec i (n - 1)) as [-> | _]; [lia | reflexivity].
    + rewrite Ep, EH. fold n.
      destruct (Z.eqb_spec (2 ^ B h) n) as [En | En].
      * exists O. reflexivity.
      * exists (S (Z.to_nat (n - 2 ^ B h - 1))).
        apply (pool_at_intro _ _ _ d); [nia | lia | lia|].
        intros i Hi. split.
        -- rewrite reg_array_out; [apply fin_maps.lookup_empty|].
           intros j Hj. nia.
        -- replace (d + 2 ^ B h * bucketsize t + Z.of_nat i * bucketsize t)
             with (d + (2 ^ B h + Z.of_nat i) * bucketsize t) by lia.
           rewrite cleared_heap_in by (fold n; lia). fold n.
           destruct (Z.eqb_spec (2 ^ B h) n) as [|_]; [contradiction|].
           cbn [negb]. rewrite andb_true_r.
           destruct (Nat.eqb_spec i (Z.to_nat (n - 2 ^ B h - 1)))
             as [Ei | Ei];
             destruct (Z.eqb_spec (2 ^ B h + Z.of_nat i) (n - 1));
             try reflexivity; lia.
  - intros hx Hhx. assert (hx = h') as -> by congruence. rewrite Eb.
    apply (ext_ok_step h (brk w)); [exact Hok | | lia | lia].
    repeat split; assumption.
Qed.

(** A lookup of a key the hash function accepts in a map without entries
    misses. *)
Lemma empty_misses w key :
  hdr w = None \/ (exists h, hdr w = Some h /\ count h = 0) ->
  hashable key -> misses w key.
Proof.
  intros Hw Hk. unfold misses.
  destruct (mapaccess_empty w key Hw) as [_ E2].
  rewrite E2. unfold lookup_empty, bind, ret.
  destruct (hashMightPanic t); [|eexists; reflexivity].
  unfold call_hasher.
  destruct (hasher t key 0 (rand w O)) as [x|] eqn:Ex.
  - eexists. reflexivity.
  - exfalso. exact (Hk _ _ Ex).
Qed.


Lemma kb_mapclear : kb mapclear (fun _ => True).
Proof.
  unfold mapclear. eapply kb_bind; [apply kb_get_world|]. intros w0 _.
  destruct (hdr w0) as [h0|]; [|kb_step].
  destruct (count h0 =? 0); [kb_step|].
  destruct (negb _); [kb_step|].
  do 7 kb_step. kb_step.
  eapply kb_bind; [apply kb_makeBucketArray|]. intros [bk nx] _.
  eapply kb_bind with (R := fun _ => True).
  { kb_step; [|kb_step]. kb_step. kb_step; kb_step. }
  intros _ _. repeat kb_step.
Qed.

Lemma kb_makemap hint : kb (makemap hint) (fun _ => True).
Proof.
  unfold makemap. destruct (MulUintptr _ _) as [mem ovf]. cbv zeta.
  kb_step. kb_step. kb_step. kb_step.
  destruct (findB _ _ _) as [b|]; [|kb_step].
  kb_step. kb_step; [|kb_step].
  eapply kb_bind; [apply kb_makeBucketArray|]. intros [bk nx] _.
  repeat kb_step.
Qed.


Lemma kx_makeBucketArray b d : TypeOK -> ArchOK -> kx (makeBucketArray b d).
Proof.
  intros HT HA. unfold makeBucketArray. cbv zeta. apply kx_bind.
  { kx_step; [kx_step|]. repeat kx_step. }
  intros bkts. repeat kx_step.
Qed.

Lemma kx_mapclear : TypeOK -> ArchOK -> kx mapclear.
Proof.
  intros HT HA. unfold mapclear. kx_step. rename a into w0.
  destruct (hdr w0) as [h0|]; [|kx_step].
  destruct (count h0 =? 0); [kx_step|].
  destruct (negb _); [kx_step|].
  do 6 kx_step. apply kx_bind.
  { apply kx_updh. intros h1. destruct (extra h1); hstep_solve. }
  intros _. kx_step. apply kxh_kx.
  apply kx_bind; [apply kx_makeBucketArray; assumption|]. intros [bk nx].
  apply kx_bind; [|intros _; repeat kx_step].
  destruct (negb _); [|kx_step]. repeat kx_step.
Qed.

Lemma makemap_Ext hint w w' :
  ArchOK -> TypeOK -> 0 < brk w <= maxAlloc -> hdr w = None ->
  - 2 ^ (wordBits - 1) <= hint < 2 ^ (wordBits - 1) ->
  makemap hint w = Ok tt w' -> Ext w'.
Proof.
  intros HA HT Hbrk Hnil H1 E.
  destruct (makemap_steps hint w HA HT H1 Hnil) as (b & Hb & Hsz & Hrun).
  rewrite Hrun in E. clear Hrun.
  set (h0 := Hmap 0 0 b 0 (wrap32 (rand w O)) 0 0 0 None) in *.
  set (w0 := World (Some h0) (heap w) (brk w) (fun n => rand w (S n))
                   (hcalls w)) in *.
  destruct (Z.eqb_spec b 0) as [-> | Hne]; cbn [negb] in E.
  - apply ret_ok in E as [_ ->]. intros hx [= <-]. unfold ext_ok. cbn.
    split; [lia|]. split; [exact Hbrk|]. split; [reflexivity|].
    intros Hx. contradiction Hx. reflexivity.
  - apply bind_ok in E as ([bk nx] & w2 & Emk & E).
    assert (Hwb : 32 <= wordBits <= 64)
      by (destruct (wordBits_cases HA) as [Ew | Ew]; rewrite Ew; lia).
    destruct (nbucketsFor_bounds b HA HT ltac:(lia) Hsz) as (Hn & _ & _).
    rewrite (makeBucketArray_new b w0 HA HT) in Emk;
      [|lia | cbn; lia | exact Hn].
    destruct (_ && _) eqn:Efit; [|discriminate].
    apply andb_true_iff in Efit as [_ Efit]. apply Z.leb_le in Efit.
    change (brk w0) with (brk w) in *.
    injection Emk as Ebk Enx Ew2. subst bk w2.
    destruct (bucketArray_world_brk b w0) as [Ebrk2 Ehdr2].
    rewrite (type_bucket_size HT) in Ebrk2.
    change (brk w0) with (brk w) in Ebrk2. change (hdr w0) with (Some h0) in Ehdr2.
    pose proof (bucketsize_min HA HT) as HS.
    pose proof (pow2_pos b ltac:(lia)) as Hp.
    apply bind_ok in E as ([] & w3 & E3 & E).
    apply updh_ok in E3 as (hh & Hhh & ->).
    assert (hh = h0) as -> by congruence.
    assert (Hfinal : forall e,
              (nbucketsFor b <> 2 ^ b -> e <> None) ->
              ext_ok (set_extra e (set_buckets (brk w) h0))
                     (brk (bucketArray_world b w0))).
    { intros e He. unfold ext_ok. cbn [B buckets extra set_extra set_buckets h0].
      rewrite Ebrk2. split; [lia|]. split; [nia|]. split; [lia|]. intros _.
      split; [lia|]. split; [nia|]. split; [lia|]. exact He. }
    destruct (Z.eqb_spec nx 0) as [En0 | En0]; cbn [negb] in E.
    + apply ret_ok in E as [_ ->]. intros hx [= <-].
      cbn [brk set_hdr]. apply (Hfinal None). intros Hne2. exfalso.
      subst nx.
      destruct (Z.eqb_spec (2 ^ b) (nbucketsFor b)) as [|_]; [lia|]. nia.
    + apply updh_ok in E as (hh & Hhh' & ->).
      cbn [hdr set_hdr] in Hhh'. injection Hhh' as <-.
      intros hx [= <-]. cbn [brk set_hdr].
      apply (Hfinal (Some _)). intros _. discriminate.
Qed.

(** * Properties of the operations *)

(** X1.  [tophash] never returns one of the values reserved for the cell
    marks ([emptyRest], [emptyOne], the evacuation marks): its result is at
    least [minTopHash], fits a byte, and [isEmpty] is false on it. *)
Theorem tophash_never_reserved hash :
  minTopHash <= tophash hash < 256 /\ isEmpty (tophash hash) = false /\
  tophash hash <> emptyRest /\ tophash hash <> emptyOne /\
  tophash hash <> evacuatedX /\ tophash hash <> evacuatedY /\
  tophash hash <> evacuatedEmpty.
Proof.
  pose proof (tophash_range hash) as H. split; [exact H|].
  unfold isEmpty, minTopHash, emptyRest, emptyOne, evacuatedX, evacuatedY,
    evacuatedEmpty in *.
  split; [apply Z.leb_gt; lia|]. lia.
Qed.

(** X2.  [overLoadFactor count B] is true exactly when [count] exceeds the
    eight cells of a bucket and 6.5 entries for each of the [2^B] buckets,
    for a [B] and a [count] that fit the machine word. *)
Theorem overLoadFactor_arith c b :
  ArchOK -> 0 <= b <= wordBits - 3 -> c < 2 ^ wordBits ->
  overLoadFactor c b = true <-> bucketCnt < c /\ 13 * 2 ^ b < 2 * c.
Proof. apply overLoadFactor_spec. Qed.

(** X3.  For a shift count below the word size, [bucketShift b] is [2^b],
    [bucketMask b] is [2^b - 1], and masking a hash with it is the hash
    modulo [2^b]: the index of one of the [2^b] buckets. *)
Theorem bucketMask_selects_bucket b hash :
  ArchOK -> 0 <= b < wordBits ->
  bucketShift b = 2 ^ b /\ bucketMask b = 2 ^ b - 1 /\
  Z.land hash (bucketMask b) = hash mod 2 ^ b /\
  0 <= Z.land hash (bucketMask b) < bucketShift b.
Proof.
  intros HA Hb. rewrite bucketShift_pow, bucketMask_pow by assumption.
  rewrite land_mask by lia. split; [reflexivity|]. split; [reflexivity|].
  split; [reflexivity|]. apply Z.mod_pos_bound, pow2_pos. lia.
Qed.

(** X4.  [hashGrow] on a well-formed table that is not growing: if it
    returns, the table is well formed and growing, its old array is the
    array it had, no old bucket is counted as evacuated, the write flag and
    the hash seed are as before, and every key a lookup found is still found
    with the same element (no entry is moved or lost). *)
Theorem hashGrow_keeps_entries w h G w' :
  ArchOK -> TypeOK -> Inv w h G -> growing h = false -> buckets h <> 0 ->
  hashGrow w = Ok tt w' ->
  exists h' G',
    hdr w' = Some h' /\ Inv w' h' G' /\ growing h' = true /\
    oldbuckets h' = buckets h /\ nevacuate h' = 0 /\
    writing h' = writing h /\ hash0 h' = hash0 h /\ count h' = count h /\
    forall key v, found w h key v -> found w' h' key v.
Proof.
  intros HA HT I Hg Hb E.
  destruct (hashGrow_ok w h G w' HA HT I Hg Hb E)
    as (h' & G' & Hh' & I' & W' & H0 & Hg' & P' & K').
  destruct (hashGrow_header w h w' (inv_hdr _ _ _ I) E)
    as (h'' & Hh'' & Ho & Hn & _ & Hc & _).
  assert (h'' = h') as -> by congruence.
  exists h', G'. split; [assumption|]. split; [assumption|].
  split; [assumption|]. split; [exact Ho|]. split; [exact Hn|].
  split; [assumption|]. split; [assumption|]. split; [exact Hc|].
  intros key v F. apply K'; [|exact F].
  apply (found_self_equal _ _ _ _ HT F).
Qed.


(** X5.  [evacuate] of an old bucket of a well-formed growing table never
    ends in a panic that can be recovered from.  If it returns, the table is
    well formed, [B], the bucket array, the write flag and the seed are as
    before, the old array is as before or released, the old bucket bears an
    evacuation mark, and every key a lookup found is still found with the
    same element. *)
Theorem evacuate_keeps_entries w h G j :
  ArchOK -> TypeOK -> Inv w h G -> growing h = true ->
  0 <= j < noldbuckets h ->
  (forall e w', evacuate j w = Err e w' -> recoverable e = false) /\
  (forall w', evacuate j w = Ok tt w' ->
     exists h' G',
       hdr w' = Some h' /\ Inv w' h' G' /\ B h' = B h /\
       buckets h' = buckets h /\
       (oldbuckets h' = oldbuckets h \/ oldbuckets h' = 0) /\
       writing h' = writing h /\ hash0 h' = hash0 h /\
       (growing h' = true -> evacuated_at (heap w') (oldb h j)) /\
       forall key v, found w h key v -> found w' h' key v).
Proof.
  intros HA HT I Hg Hj.
  pose proof (evacuate_wp w h G j HA HT I Hg Hj) as Hwp. split.
  - intros e w' E. exact (wp_err _ _ _ _ _ Hwp E).
  - intros w' E.
    destruct (wp_ok _ _ _ _ _ Hwp E)
      as ((h' & G' & Hh' & I' & W' & H0 & EB & Ebk & Eo & _ & K') & Hev).
    exists h', G'. split; [assumption|]. split; [assumption|].
    split; [assumption|]. split; [assumption|]. split; [assumption|].
    split; [assumption|]. split; [assumption|].
    split; [apply Hev; assumption|].
    intros key v F. apply K'; [|exact F].
    apply (found_self_equal _ _ _ _ HT F).
Qed.

(** X6.  [growWork] on a well-formed growing table never ends in a panic
    that can be recovered from.  If it returns, the table is well formed,
    the bucket about to be used no longer waits for its old bucket to be
    evacuated, and every key a lookup found is still found with the same
    element. *)
Theorem growWork_clears_pending w h G bucket :
  ArchOK -> TypeOK -> Inv w h G -> growing h = true ->
  (forall e w', growWork bucket w = Err e w' -> recoverable e = false) /\
  (forall w', growWork bucket w = Ok tt w' ->
     exists h' G',
       hdr w' = Some h' /\ Inv w' h' G' /\ B h' = B h /\
       buckets h' = buckets h /\ writing h' = writing h /\
       hash0 h' = hash0 h /\
       ~ pending (heap w') h' bucket /\
       forall key v, found w h key v -> found w' h' key v).
Proof.
  intros HA HT I Hg.
  pose proof (growWork_wp w h G bucket HA HT I Hg) as Hwp. split.
  - intros e w' E. exact (wp_err _ _ _ _ _ Hwp E).
  - intros w' E.
    destruct (wp_ok _ _ _ _ _ Hwp E)
      as ((h' & G' & Hh' & I' & W' & H0 & EB & Ebk & Eo & _ & K') & Hnp).
    exists h', G'. split; [assumption|]. split; [assumption|].
    split; [assumption|]. split; [assumption|]. split; [assumption|].
    split; [assumption|]. split; [apply Hnp; assumption|].
    intros key v F. apply K'; [|exact F].
    apply (found_self_equal _ _ _ _ HT F).
Qed.

(** X7.  [advanceEvacuationMark] on a well-formed growing table returns and
    leaves the buckets untouched.  The mark [nevacuate] moves forward by at
    least one and at most 1025, not beyond the number of old buckets; every
    old bucket it passes after the first bears an evacuation mark, and it
    stops in front of a bucket that bears none, at the end, or after 1024
    buckets.  At the end the grow is over: [oldbuckets] is nil and the
    [sameSizeGrow] flag is clear; before the end only [nevacuate] changes. *)
Theorem advanceEvacuationMark_advances w h G :
  ArchOK -> TypeOK -> Inv w h G -> growing h = true ->
  exists w' h',
    advanceEvacuationMark (noldbuckets h) w = Ok tt w' /\
    hdr w' = Some h' /\ heap w' = heap w /\ brk w' = brk w /\
    nevacuate h < nevacuate h' <= noldbuckets h /\
    nevacuate h' <= nevacuate h + 1025 /\
    (forall j, nevacuate h < j < nevacuate h' ->
               evacuated_at (heap w) (oldb h j)) /\
    (nevacuate h' < noldbuckets h -> nevacuate h' < nevacuate h + 1025 ->
     ~ evacuated_at (heap w) (oldb h (nevacuate h'))) /\
    (if nevacuate h' =? noldbuckets h
     then oldbuckets h' = 0 /\ is_sameSizeGrow h' = false /\
          buckets h' = buckets h /\ B h' = B h /\ count h' = count h
     else h' = set_nevacuate (nevacuate h') h).
Proof.
  intros HA HT I Hg.
  destruct (advanceEvacuationMark_spec w h G HA HT I Hg)
    as (k & E & Hk & Hk' & Hev & Hstop).
  assert (En : nevacuate (advanced h k) = k).
  { unfold advanced. destruct (k =? noldbuckets h); [|reflexivity].
    destruct (end_grow_fields (set_nevacuate k h))
      as (_ & _ & _ & _ & _ & Ene & _). exact Ene. }
  exists (set_hdr (Some (advanced h k)) w), (advanced h k).
  split; [exact E|]. split; [reflexivity|]. split; [reflexivity|].
  split; [reflexivity|]. rewrite En.
  split; [lia|]. split; [lia|].
  split; [intros j Hj; apply Hev; lia|].
  split; [intros H1 H2; apply Hstop; lia|].
  unfold advanced. destruct (k =? noldbuckets h) eqn:Ek; [|reflexivity].
  destruct (end_grow_fields (set_nevacuate k h))
    as (EB & Ebk & Eo & Ec & _ & _ & _ & Ef).
  split; [exact Eo|]. split; [|auto].
  rewrite is_sameSizeGrow_test, Ef.
  apply (sameSizeGrow_ldiff (flags (set_nevacuate k h))).
Qed.

Lemma put_ok_hashable w h key v w' :
  TypeOK -> hdr w = Some h -> put key v w = Ok tt w' -> hashable key.
Proof.
  intros HT Hh E s r Hn.
  pose proof (type_hash_panic HT key s r (hash0 h) (rand w O) Hn) as Hn'.
  unfold put, mapassign in E. unfold bind at 1 2 in E.
  unfold get_world in E. rewrite Hh in E.
  destruct (negb (Z.land (flags h) hashWriting =? 0)); [discriminate|].
  unfold bind at 1 in E. unfold call_hasher in E. rewrite Hn' in E.
  discriminate.
Qed.

(** X8.  [m[k] = v] then [m[k']] for a key [k'] equal to [k]: after
    [mapassign] and the store through the pointer it returns, on a
    well-formed table, [mapaccess2] finds [k'] and the element read through
    its pointer is [v]. *)
Theorem put_then_get w h G key v w' key' :
  ArchOK -> TypeOK -> Inv w h G -> put key v w = Ok tt w' ->
  key_equal t key' key = true -> maps_to w' key' v.
Proof.
  intros HA HT I E Ek.
  pose proof (put_ok_hashable w h key v w' HT (inv_hdr _ _ _ I) E) as Hk.
  destruct (wp_ok _ _ _ _ _ (put_wp w h G key v HA HT I Hk) E)
    as (h' & G' & Hh' & I' & W' & _ & F & _).
  apply (found_maps_to w' h' G'); try assumption.
  apply (found_equal w' h' key key'); try assumption.
  apply F. eapply (type_equal_trans HT); [|exact Ek].
  apply (type_equal_sym HT), Ek.
Qed.

(** X9.  [m[k] = v] keeps the entries of the other keys: a key not equal to
    [k] that [mapaccess2] found before the assignment is found after it,
    with the same element, also when the assignment grows the table or
    moves entries. *)
Theorem put_keeps_others w h G key v w' key' v' :
  ArchOK -> TypeOK -> Inv w h G -> put key v w = Ok tt w' ->
  key_equal t key' key = false -> maps_to w key' v' -> maps_to w' key' v'.
Proof.
  intros HA HT I E Ek F.
  pose proof (put_ok_hashable w h key v w' HT (inv_hdr _ _ _ I) E) as Hk.
  destruct (wp_ok _ _ _ _ _ (put_wp w h G key v HA HT I Hk) E)
    as (h' & G' & Hh' & I' & W' & _ & _ & K').
  apply (maps_to_found w h G) in F; try assumption.
  apply (found_maps_to w' h' G'); try assumption.
  apply K'; [|exact Ek | exact F].
  apply (found_self_equal _ _ _ _ HT F).
Qed.

(** X10.  [m[k] = v] on a well-formed table, for a key the hash function
    accepts, ends in no panic that can be recovered from; if it returns, the
    table is well formed again, the [hashWriting] flag is clear and the hash
    seed is the one the table had. *)
Theorem put_keeps_table w h G key v :
  ArchOK -> TypeOK -> Inv w h G -> hashable key ->
  (forall e w', put key v w = Err e w' -> recoverable e = false) /\
  (forall w', put key v w = Ok tt w' ->
     exists h' G',
       hdr w' = Some h' /\ Inv w' h' G' /\
       Z.land (flags h') hashWriting = 0 /\ hash0 h' = hash0 h).
Proof.
  intros HA HT I Hk.
  pose proof (put_wp w h G key v HA HT I Hk) as Hwp. split.
  - intros e w' E. exact (wp_err _ _ _ _ _ Hwp E).
  - intros w' E.
    destruct (wp_ok _ _ _ _ _ Hwp E)
      as (h' & G' & Hh' & I' & W' & H0 & _).
    exists h', G'. split; [assumption|]. split; [assumption|].
    split; [apply writing_flag; assumption | assumption].
Qed.



(** X12.  [delete(m, k)] keeps the entries of the other keys: on a
    well-formed table whose tophashes are bytes, a key not equal to [k] that
    [mapaccess2] found before [mapdelete] is found after it, with the same
    element, also when the deletion evacuates buckets of a growing table or
    turns the emptied cells at the end of the chain into [emptyRest]. *)
Theorem delete_keeps_others w h G key w' key' v' :
  ArchOK -> TypeOK -> Inv w h G -> Bytes w -> hashable key ->
  mapdelete key w = Ok tt w' ->
  key_equal t key' key = false -> maps_to w key' v' -> maps_to w' key' v'.
Proof.
  intros HA HT I HB Hk E Ek F.
  assert (W : writing h = false).
  { pose proof (found_count w h G key' v' HA HT I
                  (maps_to_found w h G key' v' HA HT I F)) as Hc.
    destruct F as (p & w1 & E2 & _).
    unfold mapaccess2, bind, get_world in E2. rewrite (inv_hdr _ _ _ I) in E2.
    destruct (Z.eqb_spec (count h) 0) as [|_]; [contradiction|].
    rewrite writing_test in E2. destruct (writing h); [discriminate|].
    reflexivity. }
  destruct (wp_ok _ _ _ _ _ (mapdelete_wp w h G key HA HT I HB Hk) E)
    as (h' & G' & Hh' & I' & W' & _ & K').
  apply (maps_to_found w h G) in F; try assumption.
  apply (found_maps_to w' h' G'); try assumption; [congruence|].
  apply K'; [|exact Ek | exact F].
  apply (found_self_equal _ _ _ _ HT F).
Qed.

(** X13.  [delete(m, k)] on a well-formed table whose tophashes are bytes,
    for a key the hash function accepts, ends in no panic that can be
    recovered from; if it returns, the table is well formed again, its
    tophashes are bytes, the hash seed is unchanged and the [hashWriting]
    flag is as it was (clear, since a set flag makes a non-empty table
    throw). *)
Theorem delete_keeps_table w h G key :
  ArchOK -> TypeOK -> Inv w h G -> Bytes w -> hashable key ->
  (forall e w', mapdelete key w = Err e w' -> recoverable e = false) /\
  (forall w', mapdelete key w = Ok tt w' ->
     exists h' G',
       hdr w' = Some h' /\ Inv w' h' G' /\ Bytes w' /\
       writing h' = writing h /\ hash0 h' = hash0 h /\
       (count h <> 0 -> writing h' = false)).
Proof.
  intros HA HT I HB Hk.
  pose proof (mapdelete_wp w h G key HA HT I HB Hk) as Hwp. split.
  - intros e w' E. exact (wp_err _ _ _ _ _ Hwp E).
  - intros w' E.
    destruct (wp_ok _ _ _ _ _ Hwp E) as (h' & G' & Hh' & I' & W' & H0 & _).
    exists h', G'. split; [assumption|]. split; [assumption|].
    split; [apply (kb_mapdelete key w tt w' HB E)|].
    split; [assumption|]. split; [assumption|].
    intros Hc. rewrite W'.
    unfold mapdelete, bind, get_world in E. rewrite (inv_hdr _ _ _ I) in E.
    destruct (Z.eqb_spec (count h) 0) as [|_]; [contradiction|].
    rewrite writing_test in E. destruct (writing h); [discriminate|].
    reflexivity.
Qed.


(** C5.  [mapdelete] keeps the short-circuit invariant of a well-formed
    table, in which no chain in use has an occupied cell after an
    [emptyRest] cell: when it returns, this holds of the chain of every
    bucket of the current array and of every old bucket that is not yet
    evacuated, where the chain is the bucket followed by its overflow
    buckets.  Once the search has found the key in cell [i] of bucket [b]
    of the chain [l], with the cells [pre] in front of it and the cells
    [post] after it, [mapdelete] ([delete_cell]) restores the invariant in
    this way: when a cell that is not [emptyRest] follows, the cell becomes
    [emptyOne] and no other tophash changes; otherwise the cell becomes
    [emptyRest], and so do the [emptyOne] cells right in front of it, back
    through the earlier buckets of the chain, up to the last cell that is
    not [emptyOne]. *)
Theorem delete_restores_shortcut :
  ArchOK -> TypeOK ->
  (forall w h G key w',
     Inv w h G -> Bytes w -> hashable key ->
     mapdelete key w = Ok tt w' ->
     exists h',
       hdr w' = Some h' /\
       (forall i l,
          buckets h' <> 0 -> 0 <= i < 2 ^ B h' ->
          chain (heap w') (newb h' i) l ->
          shortcut (tops_of (heap w') l)) /\
       (forall j bm l,
          growing h' = true -> 0 <= j < noldbuckets h' ->
          heap w' !! oldb h' j = Some bm -> evacuated bm = false ->
          chain (heap w') (oldb h' j) l ->
          shortcut (tops_of (heap w') l))) /\
  (forall w h G key x l b i e w',
     Inv w h G -> Bytes w -> buckets h <> 0 ->
     ~ pending (heap w) h (wrap x mod 2 ^ B h) ->
     chain (heap w) (newb h (wrap x mod 2 ^ B h)) l ->
     first_match key (tophash (wrap x)) (cells_of (heap w) l)
     = Some (b, i, e) ->
     delete_cell (newb h (wrap x mod 2 ^ B h)) b i w = Ok tt w' ->
     exists pre post bm,
       heap w !! b = Some bm /\
       cells_of (heap w) l = pre ++ cell_at bm b i :: post /\
       tops_of (heap w') l
       = if not_last post
         then map cell_top pre ++ emptyOne :: map cell_top post
         else wipe_tops (map cell_top pre)
              ++ emptyRest :: map cell_top post).
Proof.
  intros HA HT. split.
  - intros w h G key w' I HB Hk E.
    destruct (wp_ok _ _ _ _ _ (mapdelete_wp w h G key HA HT I HB Hk) E)
      as (h' & G' & Hh' & I' & _).
    exists h'. split; [exact Hh'|]. split.
    + intros i l Hb Hi C.
      destruct (inv_new _ _ _ I' Hb i Hi) as (l' & (C' & _ & [Hs _] & _) & _).
      rewrite <- (chain_det _ _ _ _ C' C). exact Hs.
    + intros j bm l Hg Hj Hbm Ev C.
      destruct (inv_old _ _ _ I' Hg) as (_ & _ & _ & _ & _ & _ & O7).
      destruct (O7 j Hj) as (bm' & Hbm' & _ & Hch).
      assert (bm' = bm) as -> by congruence.
      destruct (Hch Ev) as (l' & (C' & _ & [Hs _] & _)).
      rewrite <- (chain_det _ _ _ _ C' C). exact Hs.
  - intros w h G key x l b i e w' I HB Hb Hnp C Hm E.
    pose proof (mod_index_range _ _ _ (wrap x) I) as Hi.
    destruct (inv_new _ _ _ I Hb _ Hi) as (l' & Cl & _).
    assert (l' = l) as -> by (eapply chain_det; [apply Cl | exact C]).
    destruct (wp_ok _ _ _ _ _
                (delete_cell_wp w h G key x l b i e HA HT I HB Hb Hnp Cl Hm)
                E)
      as (_ & _ & _ & _ & _ & Hmech).
    exact Hmech.
Qed.

(** X14. [makemap] on a fresh header, with a hint of type [int]: when it
    returns, the map is well formed, no write is in progress, it has no
    entry ([len] is 0 and the lookup of every key the hash function accepts
    misses), and the memory that was in use before is untouched. *)
Theorem makemap_empty hint w w' :
  ArchOK -> TypeOK -> Mem w -> hdr w = None ->
  - 2 ^ (wordBits - 1) <= hint < 2 ^ (wordBits - 1) ->
  makemap hint w = Ok tt w' ->
  (exists h' G', hdr w' = Some h' /\ Inv w' h' G' /\ flags h' = 0 /\
                 oldbuckets h' = 0) /\
  maplen w' = 0 /\
  (forall key, hashable key -> misses w' key) /\
  (forall a, a < brk w -> heap w' !! a = heap w !! a).
Proof.
  intros HA HT HM Hnil Hhint E.
  destruct (makemap_ok hint w w' HA HT HM Hnil Hhint E)
    as (h' & G' & Hh' & I' & Hc & Hf & Ho & _ & _ & Hsame & _).
  split; [exists h', G'; auto|].
  split; [unfold maplen; rewrite Hh'; exact Hc|].
  split; [|exact Hsame].
  intros key Hk. unfold misses.
  destruct (mapaccess_empty w' key) as [_ E2].
  { right. exists h'. auto. }
  rewrite E2. unfold lookup_empty, bind, ret.
  destruct (hashMightPanic t); [|eexists; reflexivity].
  unfold call_hasher.
  destruct (hasher t key 0 (rand w' O)) as [x|] eqn:Ex.
  - eexists. reflexivity.
  - exfalso. exact (Hk _ _ Ex).
Qed.


(** X15. [mapclear] on a well-formed table whose array has the extent
    [makeBucketArray] gave it, with no write in progress: it returns, and
    then the table is well formed, [len] is 0, the lookup of every key the
    hash function accepts misses, and the array ([B], [buckets]), the hash
    seed and the end of memory are what they were: the array is reused, not
    reallocated. *)
Theorem mapclear_empties w h G :
  ArchOK -> TypeOK -> Inv w h G -> Ext w -> writing h = false ->
  exists w' h' G',
    mapclear w = Ok tt w' /\ hdr w' = Some h' /\ Inv w' h' G' /\ Ext w' /\
    maplen w' = 0 /\ (forall key, hashable key -> misses w' key) /\
    writing h' = false /\ B h' = B h /\ buckets h' = buckets h /\
    hash0 h' = hash0 h /\ brk w' = brk w.
Proof.
  intros HA HT I HE Hw. pose proof (inv_hdr _ _ _ I) as Hh.
  destruct (Z.eq_dec (count h) 0) as [Hc | Hc].
  - exists w, h, G. split.
    { unfold mapclear, bind, get_world. rewrite Hh, Hc. reflexivity. }
    split; [exact Hh|]. split; [exact I|]. split; [exact HE|].
    split; [unfold maplen; rewrite Hh; exact Hc|].
    split; [|auto]. intros key Hk. apply empty_misses; [|exact Hk].
    right. exists h. auto.
  - destruct (mapclear_ok w h G HA HT I HE Hc Hw)
      as (w' & h' & E & Hh' & I' & HE' & Hc' & Hw' & Eh0 & EB & Ebk & Eb & _).
    exists w', h', (reg_array ∅ (buckets h) (Z.to_nat (2 ^ B h))).
    split; [exact E|]. split; [exact Hh'|]. split; [exact I'|].
    split; [exact HE'|].
    split; [unfold maplen; rewrite Hh'; exact Hc'|].
    split; [|auto]. intros key Hk. apply empty_misses; [|exact Hk].
    right. exists h'. auto.
Qed.

End Runtime.

(** * Creation on any platform (C10) *)

Section Creation.
Context {K V : Type}.
Variables (PtrSize maxAlloc : Z) (roundupsize : Z -> Z) (t : maptype K V).

(** What creation needs of the platform: pointers of 32 or 64 bits, a
    [maxAlloc] that fits a [uintptr] (on a 32-bit platform it is one less
    than [2^32]), and a [roundupsize] that rounds up within a [uintptr]. *)
Record PlatformOK : Prop := {
  plat_PtrSize : PtrSize = 4 \/ PtrSize = 8;
  plat_maxAlloc : 0 < maxAlloc < 2 ^ wordBits PtrSize;
  plat_roundupsize : forall sz,
      0 <= sz < 2 ^ wordBits PtrSize ->
      sz <= roundupsize sz < 2 ^ wordBits PtrSize
}.

(** What does not depend on [maxAlloc] holds as on a platform with less
    memory. *)
Lemma platform_arch : PlatformOK -> ArchOK PtrSize 1 roundupsize.
Proof.
  intros [HP HM HR]. constructor; [exact HP | | exact HR].
  split; [lia|]. unfold wordBits. destruct HP as [-> | ->]; vm_compute;
    discriminate.
Qed.

(** [makeBucketArray(t, b, nil)] on any platform: it fails only for lack
    of memory; otherwise the array lies at the allocation frontier. *)
Lemma makeBucketArray_new_any b (w : world K V) :
  PlatformOK -> TypeOK PtrSize t -> 0 <= b < wordBits PtrSize -> 0 < brk w ->
  2 ^ b <= nbucketsFor PtrSize roundupsize t b < 2 ^ wordBits PtrSize ->
  makeBucketArray PtrSize maxAlloc roundupsize t b 0 w =
  if (nbucketsFor PtrSize roundupsize t b <? 2 ^ (wordBits PtrSize - 1))
     && (brk w + nbucketsFor PtrSize roundupsize t b * bucketsize t
         <=? maxAlloc)
  then Ok (brk w, if 2 ^ b =? nbucketsFor PtrSize roundupsize t b then 0
                  else brk w + 2 ^ b * bucketsize t)
          (bucketArray_world PtrSize roundupsize t b w)
  else Err OutOfMemory w.
Proof.
  intros HP HT Hb Hbrk Hn. pose proof (platform_arch HP) as HA.
  unfold makeBucketArray, bucketArray_world.
  rewrite (bucketShift_pow PtrSize 1 roundupsize b HA Hb).
  set (n := nbucketsFor PtrSize roundupsize t b) in *.
  pose proof (pow2_pos b ltac:(lia)) as Hp.
  pose proof (bucketsize_min PtrSize 1 roundupsize t HA HT) as HSp.
  pose proof (type_bucket_size _ _ HT) as E1.
  assert (Ew : 2 ^ wordBits PtrSize = 2 * 2 ^ (wordBits PtrSize - 1)).
  { destruct (wordBits_cases PtrSize 1 roundupsize HA) as [-> | ->];
      reflexivity. }
  destruct HP as [HP HM HR].
  rewrite Z.eqb_refl. unfold bind at 1. unfold newarray.
  destruct (Z.ltb_spec n (2 ^ (wordBits PtrSize - 1))) as [Hs | Hl];
    cbn [andb].
  - rewrite (int_of_small PtrSize 1 roundupsize n HA) by lia. rewrite E1.
    destruct (Z.ltb_spec n 1); [lia|]. cbn [orb].
    destruct (Z.leb_spec (brk w + n * bucketsize t) maxAlloc) as [Hr | Hr].
    + destruct (Z.ltb_spec maxAlloc (brk w + n * bucketsize t)); [lia|].
      destruct (Z.eqb_spec (2 ^ b) n) as [E | E]; cbn [negb].
      * reflexivity.
      * unfold setoverflow, updb, bind, load, store, ret.
        cbn [heap set_brk set_heap].
        assert (Hlast : add PtrSize (brk w)
                          (wrap PtrSize (wrap PtrSize (n - 1) * bucketsize t))
                        = brk w + (n - 1) * bucketsize t).
        { rewrite (wrap_small PtrSize (n - 1)) by lia.
          rewrite (wrap_small PtrSize ((n - 1) * bucketsize t)) by nia.
          apply add_small. nia. }
        assert (Hfill : fill_buckets t (heap w) (brk w) (Z.to_nat n)
                          !! (brk w + (n - 1) * bucketsize t)
                        = Some (zero_bmap t)).
        { replace (brk w + (n - 1) * bucketsize t)
            with (brk w + Z.of_nat (Z.to_nat (n - 1)) * bucketsize t)
            by (rewrite Z2Nat.id by lia; reflexivity).
          apply fill_buckets_in; lia. }
        rewrite Hlast. cbn [heap set_brk set_heap]. rewrite !Hfill.
        cbn [heap set_brk set_heap]. rewrite ?Hfill.
        rewrite (wrap_small PtrSize (2 ^ b * bucketsize t)) by nia.
        rewrite add_small by nia.
        reflexivity.
    + destruct (Z.ltb_spec maxAlloc (brk w + n * bucketsize t)); [|lia].
      reflexivity.
  - pose proof (int_of_large PtrSize 1 roundupsize n HA ltac:(lia)).
    destruct (Z.ltb_spec (int_of PtrSize n) 1); [|lia]. reflexivity.
Qed.

(** [makemap] is given a nil header or a zeroed one. *)
Lemma makemap_start hint (w : world K V) b :
  hdr w = None \/ hdr w = Some new_hmap ->
  findB PtrSize 256
        (if (2 ^ wordBits PtrSize <=? wrap PtrSize hint * bucket_size t)
            || (maxAlloc <? wrap PtrSize (wrap PtrSize hint * bucket_size t))
         then 0 else hint) 0 = Some b ->
  makemap PtrSize maxAlloc roundupsize t hint w =
  (if negb (b =? 0) then
     bind (makeBucketArray PtrSize maxAlloc roundupsize t b 0)
          (fun '(bkts, nextOverflow) =>
             bind (updh (set_buckets bkts))
                  (fun _ =>
                     if negb (nextOverflow =? 0) then
                       updh (set_extra
                               (Some (set_nextOverflow nextOverflow
                                        new_mapextra)))
                     else ret tt))
   else ret tt)
    (World (Some (Hmap 0 0 b 0 (wrap32 (rand w O)) 0 0 0 None))
           (heap w) (brk w) (fun n => rand w (S n)) (hcalls w)).
Proof.
  intros Hnil Hfb. unfold makemap, MulUintptr. cbv zeta.
  unfold bind at 1. unfold get_world.
  assert (E : match hdr w with None => new_hmap | Some h => h end = new_hmap)
    by (destruct Hnil as [-> | ->]; reflexivity).
  rewrite E.
  unfold bind at 1. unfold seth at 1.
  unfold bind at 1. unfold fastrand at 1.
  unfold bind at 1. unfold updh at 1, bind at 1, geth at 1, seth at 1.
  cbn [hdr set_hdr set_rand rand heap brk hcalls set_hash0 new_hmap
       count flags B noverflow hash0 buckets oldbuckets nevacuate extra].
  rewrite Hfb.
  unfold bind at 1. unfold updh at 1, bind at 1, geth at 1, seth at 1.
  cbn [hdr set_hdr set_rand rand heap brk hcalls set_B
       count flags B noverflow hash0 buckets oldbuckets nevacuate extra].
  reflexivity.
Qed.

(** C10, amended.  [makemap64] never fails on account of its hint.  The
    hint is replaced by 0 when it does not fit an [int], and when as many
    buckets would overflow a [uintptr] or exceed [maxAlloc]
    ([effective_hint]); [B] is the least value the hint so replaced does
    not overload.  For [B = 0], as for every replaced hint and every hint
    of 8 or less, nothing is allocated and the empty header is returned in
    all cases.  For [B > 0] the header is returned with its array of zeroed
    buckets if the allocator has room for the array; if not, creation ends
    in the allocator's out-of-memory error, and in no other way. *)
Theorem makemap64_never_fails hint (w : world K V) :
  PlatformOK -> TypeOK PtrSize t -> - 2 ^ 63 <= hint < 2 ^ 63 ->
  hdr w = None \/ hdr w = Some new_hmap -> 0 < brk w ->
  let eh := effective_hint PtrSize maxAlloc t hint in
  let n := nbucketsFor PtrSize roundupsize t in
  exists b,
    0 <= b <= wordBits PtrSize - 3 /\
    overLoadFactor PtrSize eh b = false /\
    (forall b', 0 <= b' < b -> overLoadFactor PtrSize eh b' = true) /\
    (eh <= 8 -> b = 0) /\
    if (b =? 0) || (brk w + n b * bucketsize t <=? maxAlloc) then
      exists w' bkts nextOverflow,
        makemap64 PtrSize maxAlloc roundupsize t hint w = Ok tt w' /\
        hdr w' = Some (made_hmap b (wrap32 (rand w O)) bkts nextOverflow) /\
        (b = 0 -> bkts = 0 /\ nextOverflow = 0 /\
                  heap w' = heap w /\ brk w' = brk w) /\
        (b <> 0 ->
         bkts = brk w /\
         nextOverflow = (if 2 ^ b =? n b then 0
                         else brk w + 2 ^ b * bucketsize t) /\
         brk w' = brk w + n b * bucketsize t /\
         (forall i, 0 <= i < 2 ^ b ->
                    heap w' !! (brk w + i * bucketsize t)
                    = Some (zero_bmap t)) /\
         (forall a, a < brk w -> heap w' !! a = heap w !! a))
    else exists w',
        makemap64 PtrSize maxAlloc roundupsize t hint w = Err OutOfMemory w'.
Proof.
  intros HP HT Hh Hnil Hbrk eh n. pose proof (platform_arch HP) as HA.
  rewrite (makemap64_makemap PtrSize maxAlloc roundupsize t hint
             (plat_PtrSize HP) Hh).
  pose proof (pow2_wordBits_pos PtrSize 1 roundupsize HA) as Hwp.
  set (wb := wordBits PtrSize) in *.
  assert (Ew : 2 ^ wb = 8 * 2 ^ (wb - 3)).
  { destruct (wordBits_cases PtrSize 1 roundupsize HA) as [E | E];
      unfold wb; rewrite E; reflexivity. }
  assert (Ew1 : 2 ^ (wb - 1) = 4 * 2 ^ (wb - 3)).
  { destruct (wordBits_cases PtrSize 1 roundupsize HA) as [E | E];
      unfold wb; rewrite E; reflexivity. }
  assert (Hw3 : 3 <= wb - 3 < 256).
  { destruct (wordBits_cases PtrSize 1 roundupsize HA) as [E | E];
      unfold wb; rewrite E; lia. }
  unfold effective_hint in eh. fold wb in eh.
  set (hint1 := if (- 2 ^ (wb - 1) <=? hint) && (hint <? 2 ^ (wb - 1))
                then hint else 0) in *.
  assert (H1 : - 2 ^ (wb - 1) <= hint1 < 2 ^ (wb - 1)).
  { unfold hint1.
    destruct ((- 2 ^ (wb - 1) <=? hint) && (hint <? 2 ^ (wb - 1))) eqn:Hfit.
    - apply andb_true_iff in Hfit as [?%Z.leb_le ?%Z.ltb_lt]. lia.
    - lia. }
  assert (Heh : eh < 2 ^ (wb - 1)).
  { unfold eh. destruct (_ || _); lia. }
  assert (Hlast : overLoadFactor PtrSize eh (wb - 3) = false).
  { destruct (Z.le_gt_cases eh 8) as [Hs | Hs];
      [apply overLoadFactor_small; assumption|].
    destruct (overLoadFactor PtrSize eh (wb - 3)) eqn:E; [|reflexivity].
    apply (overLoadFactor_spec PtrSize 1 roundupsize) in E;
      [lia | assumption | fold wb; lia | fold wb; lia]. }
  destruct (findB_least PtrSize 256 eh 0 (wb - 3))
    as (b & Hfb & Hbr & Hnb & Hlb);
    [lia | lia | lia | assumption |].
  exists b. split; [lia|]. split; [assumption|]. split; [exact Hlb|].
  assert (Hb0 : eh <= 8 -> b = 0).
  { intros Hs. destruct (Z.eq_dec b 0) as [|Hne]; [assumption|].
    specialize (Hlb 0 ltac:(lia)).
    rewrite overLoadFactor_small in Hlb by assumption. discriminate. }
  split; [exact Hb0|].
  rewrite (makemap_start hint1 w b Hnil Hfb).
  set (w0 := World (Some (Hmap 0 0 b 0 (wrap32 (rand w O)) 0 0 0 None))
                   (heap w) (brk w) (fun n => rand w (S n)) (hcalls w)).
  destruct (Z.eqb_spec b 0) as [-> | Hne]; cbn [negb orb].
  - exists w0, 0, 0. split; [reflexivity|].
    split; [reflexivity|]. split; [auto | congruence].
  - assert (Hov : overLoadFactor PtrSize eh (b - 1) = true)
      by (apply Hlb; lia).
    apply (overLoadFactor_spec PtrSize 1 roundupsize) in Hov;
      [| assumption | fold wb; lia | fold wb; lia].
    destruct Hov as [Hov1 Hov2].
    assert (Heh1 : eh = hint1 /\
                   wrap PtrSize hint1 * bucket_size t < 2 ^ wb /\
                   wrap PtrSize (wrap PtrSize hint1 * bucket_size t)
                   <= maxAlloc).
    { unfold eh in *.
      destruct (Z.leb_spec (2 ^ wb) (wrap PtrSize hint1 * bucket_size t));
        cbn [orb] in *; [lia|].
      destruct (Z.ltb_spec maxAlloc
                  (wrap PtrSize (wrap PtrSize hint1 * bucket_size t)));
        [lia | auto]. }
    destruct Heh1 as (Eeh & Hnov & Hmem).
    pose proof (bucketsize_min PtrSize 1 roundupsize t HA HT) as HSp.
    pose proof (type_bucket_size _ _ HT) as E1.
    rewrite E1 in *.
    rewrite (wrap_small PtrSize hint1) in * by (fold wb; lia).
    rewrite (wrap_small PtrSize (hint1 * bucketsize t)) in Hmem
      by (fold wb; nia).
    destruct (plat_maxAlloc HP) as [HM1 HM2]. fold wb in HM2.
    assert (Hb1 : 2 ^ b = 2 * 2 ^ (b - 1)).
    { replace b with (b - 1 + 1) at 1 by lia. apply pow2_succ. lia. }
    pose proof (pow2_pos (b - 1) ltac:(lia)) as Hpb.
    assert (Hsz : 4 <= b -> bucketsize t * (2 ^ b + 2 ^ (b - 4)) < 2 ^ wb).
    { intros H4.
      assert (2 ^ b = 16 * 2 ^ (b - 4)).
      { replace b with (b - 4 + 4) at 1 by lia.
        rewrite Z.pow_add_r by lia. lia. }
      pose proof (pow2_pos (b - 4) ltac:(lia)).
      assert (bucketsize t * (17 * 2 ^ (b - 4)) <= hint1 * bucketsize t)
        by nia.
      nia. }
    destruct (nbucketsFor_bounds PtrSize 1 roundupsize t b HA HT
                ltac:(fold wb; lia) Hsz) as (Hn1 & _ & _).
    fold (n b) in Hn1. fold wb in Hn1.
    assert (Hmk := makeBucketArray_new_any b w0 HP HT ltac:(fold wb; lia)
                     Hbrk Hn1).
    change (brk w0) with (brk w) in Hmk. fold (n b) in Hmk. fold wb in Hmk.
    pose proof (pow2_pos b ltac:(lia)) as Hp.
    destruct (Z.leb_spec (brk w + n b * bucketsize t) maxAlloc)
      as [Hroom | Hroom].
    + assert (Hs : n b < 2 ^ (wb - 1)) by nia.
      apply Z.ltb_lt in Hs. rewrite Hs in Hmk. cbn [andb] in Hmk.
      unfold bind at 1. rewrite Hmk. clear Hmk.
      destruct (bucketArray_world_brk PtrSize roundupsize t b w0)
        as [Ebrk _].
      rewrite E1 in Ebrk. change (brk w0) with (brk w) in Ebrk.
      fold (n b) in Ebrk.
      assert (Hzero : forall i, 0 <= i < 2 ^ b ->
                heap (bucketArray_world PtrSize roundupsize t b w0)
                  !! (brk w + i * bucketsize t) = Some (zero_bmap t)).
      { intros i Hi.
        pose proof (bucketArray_world_lookup PtrSize roundupsize t b w0 i
                      ltac:(lia) ltac:(fold (n b); lia)) as L.
        change (brk w0) with (brk w) in L. rewrite L. clear L.
        fold (n b).
        destruct (Z.eqb_spec (2 ^ b) (n b)) as [En | En]; cbn [negb].
        - rewrite andb_false_r. reflexivity.
        - destruct (Z.eqb_spec i (n b - 1)) as [-> | _];
            [lia | reflexivity]. }
      assert (Hsame : forall a, a < brk w ->
                heap (bucketArray_world PtrSize roundupsize t b w0) !! a
                = heap w !! a).
      { intros a Ha. apply (bucketArray_world_other PtrSize roundupsize t b w0);
          [lia | fold (n b); lia | exact Ha]. }
      set (h0 := Hmap 0 0 b 0 (wrap32 (rand w O)) 0 0 0 None) in *.
      set (w2 := bucketArray_world PtrSize roundupsize t b w0) in *.
      assert (Ehdr2 : hdr w2 = Some h0)
        by apply (bucketArray_world_brk PtrSize roundupsize t b w0).
      assert (Eupd : forall f (w3 : world K V) h3,
                hdr w3 = Some h3 ->
                updh f w3 = Ok tt (set_hdr (Some (f h3)) w3)).
      { intros f w3 h3 E3. unfold updh, bind, geth, seth. rewrite E3.
        reflexivity. }
      cbv beta iota. unfold bind at 1.
      rewrite (Eupd _ w2 h0 Ehdr2).
      destruct (Z.eqb_spec (2 ^ b) (n b)) as [En | En].
      * eexists _, (brk w), 0. cbn [negb Z.eqb].
        split; [reflexivity|].
        split; [reflexivity|]. split; [intros; lia|]. intros _.
        split; [reflexivity|]. split; [reflexivity|].
        split; [exact Ebrk|]. split; [exact Hzero | exact Hsame].
      * eexists _, (brk w), (brk w + 2 ^ b * bucketsize t).
        assert (Hnx : (brk w + 2 ^ b * bucketsize t =? 0) = false)
          by (apply Z.eqb_neq; nia).
        rewrite Hnx. cbn [negb].
        rewrite (Eupd _ (set_hdr (Some (set_buckets (brk w) h0)) w2)
                   (set_buckets (brk w) h0) eq_refl).
        split; [reflexivity|].
        unfold made_hmap. rewrite Hnx.
        split; [reflexivity|]. split; [intros; lia|]. intros _.
        split; [reflexivity|]. split; [reflexivity|].
        split; [exact Ebrk|]. split; [exact Hzero | exact Hsame].
    + rewrite andb_false_r in Hmk. unfold bind at 1. rewrite Hmk.
      eexists. reflexivity.
Qed.

End Creation.

(** * The properties at the sample instantiation *)

(** C2 as stated fails for [mapaccessK]: on a non-empty table whose
    [hashWriting] flag is set it raises no error and returns the entry. *)
Lemma mapaccessK_ignores_hashWriting :
  exists h,
    hdr demo_world_writing = Some h /\ count h <> 0 /\
    Z.land (flags h) hashWriting <> 0 /\
    exists w',
      mapaccessK 8 demoT 1 demo_world_writing
      = Ok (Slot 4096 0, Slot 4096 0) w'.
Proof.
  eexists. split; [reflexivity|]. split; [simpl; lia|].
  split; [vm_compute; discriminate|].
  eexists. vm_compute. reflexivity.
Qed.

Lemma hashWriting_detected_witness :
  let h := Hmap 1 hashWriting 0 0 13 4096 0 0 None in
  let it := Hiter NilSlot NilSlot true 4096 0 None None 0 0 false 0 0 0 0 in
  (hdr demo_world_writing = Some h /\ count h <> 0 /\
   Z.land (flags h) hashWriting <> 0 /\ it_h it = true) /\
  mapaccess1 8 demoT 1 demo_world_writing
  = Err (Throw "concurrent map read and map write") demo_world_writing /\
  mapassign 8 demo_maxAlloc roundup_page demoT 1 demo_world_writing
  = Err (Throw "concurrent map writes") demo_world_writing /\
  mapiternext 8 demoT it demo_world_writing
  = Err (Throw "concurrent map iteration and map write") demo_world_writing.
Proof.
  intros h it.
  assert (H1 : hdr demo_world_writing = Some h) by reflexivity.
  assert (H2 : count h <> 0) by (simpl; lia).
  assert (H3 : Z.land (flags h) hashWriting <> 0)
    by (vm_compute; discriminate).
  assert (H4 : it_h it = true) by reflexivity.
  split; [auto|].
  destruct (hashWriting_detected 8 demo_maxAlloc roundup_page demoT
              demo_world_writing h 1 it H1 H2 H3 H4)
    as (A & _ & C & _ & _ & F & _).
  auto.
Defined.

(** The sample platform and type meet the assumptions. *)
Lemma demo_ArchOK : ArchOK 8 demo_maxAlloc roundup_page.
Proof.
  constructor.
  - right. reflexivity.
  - unfold demo_maxAlloc, wordBits. split; [reflexivity|]. vm_compute. discriminate.
  - intros sz Hsz. unfold wordBits in *. change (2 ^ (8 * 8)) with (2 ^ 64) in *.
    unfold roundup_page.
    destruct (Z.leb_spec (2 ^ 64) (sz + 8192)); [lia|].
    pose proof (Z.div_mod (sz + 8191) 8192 ltac:(lia)).
    pose proof (Z.mod_pos_bound (sz + 8191) 8192 ltac:(lia)).
    lia.
Qed.

Lemma demo_TypeOK : TypeOK 8 demoT.
Proof.
  constructor.
  - reflexivity.
  - vm_compute. split; [discriminate | reflexivity].
  - intros a b. cbn. unfold demo_equal. intros H.
    apply andb_true_iff in H as [H1%Z.eqb_eq H2%Z.leb_le]. subst.
    apply andb_true_iff. split; [apply Z.eqb_refl | apply Z.leb_le; lia].
  - intros a b c. cbn. unfold demo_equal. intros H H'.
    apply andb_true_iff in H as [H1%Z.eqb_eq H2]. subst. exact H'.
  - intros a b s r r'. cbn. unfold demo_equal, demo_hasher. intros H.
    apply andb_true_iff in H as [H1%Z.eqb_eq H2]. subst. rewrite H2.
    reflexivity.
  - intros k s r s' r'. cbn. unfold demo_hasher.
    destruct (k =? 666); [reflexivity|]. destruct (0 <=? k); discriminate.
  - cbn. discriminate.
Qed.

Lemma hash_panic_before_hashWriting_witness :
  mapassign 8 demo_maxAlloc roundup_page demoT 666 demo_world_idle
  = Err Trap (after_hash_panic 666 13 demo_world_idle) /\
  mapdelete 8 demo_maxAlloc demoT 666 demo_world_idle
  = Err Trap (after_hash_panic 666 13 demo_world_idle).
Proof.
  assert (H1 : hdr demo_world_idle = Some (Hmap 1 0 0 0 13 4096 0 0 None))
    by reflexivity.
  assert (H2 : Z.land (flags (Hmap 1 0 0 0 13 4096 0 0 None)) hashWriting = 0)
    by reflexivity.
  assert (H3 : forall seed, hasher demoT 666 seed (rand demo_world_idle O) = None)
    by (intros seed; reflexivity).
  assert (H4 : hashMightPanic demoT = true) by reflexivity.
  destruct (hash_panic_before_hashWriting 8 demo_maxAlloc roundup_page demoT
              demo_world_idle _ 666 H1 H2 H3 H4) as (A & D & _).
  split; assumption.
Defined.

Lemma demo_PlatformOK32 : PlatformOK 4 demo_maxAlloc32 roundup_page32.
Proof.
  constructor.
  - left. reflexivity.
  - unfold demo_maxAlloc32, wordBits. lia.
  - intros sz Hsz. unfold wordBits in *. change (2 ^ (4 * 8)) with (2 ^ 32) in *.
    unfold roundup_page32.
    destruct (Z.leb_spec (2 ^ 32) (sz + 8192)); [lia|].
    pose proof (Z.div_mod (sz + 8191) 8192 ltac:(lia)).
    pose proof (Z.mod_pos_bound (sz + 8191) 8192 ltac:(lia)).
    lia.
Qed.

Lemma demo_PlatformOK : PlatformOK 8 demo_maxAlloc roundup_page.
Proof.
  destruct demo_ArchOK as [HP [HM1 HM2] HR].
  constructor; [exact HP | | exact HR].
  split; [exact HM1|]. pose proof (pow2_pos (wordBits 8) ltac:(vm_compute; discriminate)).
  lia.
Qed.

Lemma demo_TypeOK32 : TypeOK 4 demoT32.
Proof.
  destruct demo_TypeOK as [_ _ H3 H4 H5 H6 H7].
  constructor; [reflexivity | vm_compute; split; [discriminate | reflexivity]
               | exact H3 | exact H4 | exact H5 | exact H6 | exact H7].
Qed.

(** C10 as stated fails when memory is short: a hint of 100 asks for an
    array of 16 buckets and more, and with 100 bytes left below [maxAlloc]
    the allocator refuses it. *)
Lemma makemap64_out_of_memory :
  effective_hint 8 demo_maxAlloc demoT 100 = 100 /\
  exists w',
    makemap64 8 demo_maxAlloc roundup_page demoT 100
              (init_world (demo_maxAlloc - 100) demo_rand)
    = Err OutOfMemory w'.
Proof.
  split; [vm_compute; reflexivity|]. eexists. vm_compute. reflexivity.
Qed.

Lemma makemap64_never_fails_witness :
  (exists w',
     makemap64 4 demo_maxAlloc32 roundup_page32 demoT32 (2 ^ 40)
               (init_world 4096 demo_rand) = Ok tt w' /\
     hdr w' = Some (made_hmap 0 (wrap32 (demo_rand O)) 0 0)) /\
  (exists w',
     makemap64 4 demo_maxAlloc32 roundup_page32 demoT32 (2 ^ 30)
               (init_world 4096 demo_rand) = Ok tt w' /\
     hdr w' = Some (made_hmap 0 (wrap32 (demo_rand O)) 0 0)) /\
  (exists w',
     makemap64 8 demo_maxAlloc roundup_page demoT (2 ^ 45)
               (init_world (demo_maxAlloc - 100) demo_rand) = Ok tt w' /\
     hdr w' = Some (made_hmap 0 (wrap32 (demo_rand O)) 0 0)) /\
  (exists w' h',
     makemap64 8 demo_maxAlloc roundup_page demoT 100
               (init_world 4096 demo_rand) = Ok tt w' /\
     hdr w' = Some h' /\ count h' = 0 /\ B h' = 4 /\ buckets h' = 4096).
Proof.
  assert (Hreplaced :
    forall PtrSize maxAlloc roundupsize (t : maptype Z Z) hint brk0,
      PlatformOK PtrSize maxAlloc roundupsize -> TypeOK PtrSize t ->
      - 2 ^ 63 <= hint < 2 ^ 63 -> 0 < brk0 ->
      effective_hint PtrSize maxAlloc t hint <= 8 ->
      exists w',
        makemap64 PtrSize maxAlloc roundupsize t hint
                  (init_world brk0 demo_rand) = Ok tt w' /\
        hdr w' = Some (made_hmap 0 (wrap32 (demo_rand O)) 0 0)).
  { intros PtrSize maxAlloc roundupsize t hint brk0 HP HT Hh Hb He.
    destruct (makemap64_never_fails PtrSize maxAlloc roundupsize t hint
                (init_world brk0 demo_rand) HP HT Hh (or_introl eq_refl) Hb)
      as (b & _ & _ & _ & Hb0 & Hrun).
    rewrite (Hb0 He) in Hrun. cbn [Z.eqb orb] in Hrun.
    destruct Hrun as (w' & bk & nx & Hrun & Hh' & H0 & _).
    destruct (H0 eq_refl) as (-> & -> & _).
    exists w'. split; [exact Hrun | exact Hh']. }
  split; [|split; [|split]].
  - apply Hreplaced; [exact demo_PlatformOK32 | exact demo_TypeOK32 | lia
                      | lia | vm_compute; discriminate].
  - apply Hreplaced; [exact demo_PlatformOK32 | exact demo_TypeOK32 | lia
                      | lia | vm_compute; discriminate].
  - apply Hreplaced; [exact demo_PlatformOK | exact demo_TypeOK | lia
                      | unfold demo_maxAlloc; lia | vm_compute; discriminate].
  - assert (Hh : - 2 ^ 63 <= 100 < 2 ^ 63) by lia.
    destruct (makemap64_never_fails 8 demo_maxAlloc roundup_page demoT 100
                (init_world 4096 demo_rand) demo_PlatformOK demo_TypeOK Hh
                (or_introl eq_refl) ltac:(cbn; lia))
      as (b & Hb1 & Hb2 & Hb3 & Hb4 & Hrun).
    assert (Eb : b = 4).
    { destruct (Z.lt_trichotomy b 4) as [L | [E | G]]; [| exact E |].
      - assert (b = 0 \/ b = 1 \/ b = 2 \/ b = 3)
          as [-> | [-> | [-> | ->]]] by lia;
          vm_compute in Hb2; discriminate.
      - specialize (Hb3 4 ltac:(lia)). vm_compute in Hb3. discriminate. }
    subst b.
    change ((4 =? 0)
            || (brk (init_world (K:=Z) (V:=Z) 4096 demo_rand)
                + nbucketsFor 8 roundup_page demoT 4 * bucketsize demoT
                <=? demo_maxAlloc)) with true in Hrun.
    destruct Hrun as (w' & bk & nx & Hrun & Hh' & _ & H4).
    destruct (H4 ltac:(lia)) as (-> & _).
    exists w'. eexists. split; [exact Hrun|]. split; [exact Hh'|].
    split; [reflexivity|]. split; reflexivity.
Defined.

Lemma grow_started_iff_witness :
  (exists w' h',
     mapassign_again 8 demo_maxAlloc roundup_page demoT 8 demo_hash8
                     demo_world_full = Ok None w' /\
     hdr w' = Some h' /\ growing h' = true /\ B h' = 1) /\
  (exists w' h',
     mapassign_again 8 demo_maxAlloc roundup_page demoT 7 demo_hash7
                     demo_world_crowded = Ok None w' /\
     hdr w' = Some h' /\ growing h' = true /\ B h' = 0 /\
     is_sameSizeGrow h' = true).
Proof.
  split.
  - set (h := Hmap 8 0 0 0 13 4096 0 0 None).
    destruct (mapassign_again 8 demo_maxAlloc roundup_page demoT 8 demo_hash8
                              demo_world_full) as [r w' | e w'] eqn:E;
      [| vm_compute in E; discriminate].
    assert (Er : r = None) by (vm_compute in E; congruence).
    subst r.
    assert (H1 : hdr demo_world_full = Some h) by reflexivity.
    assert (H2 : growing h = false) by reflexivity.
    assert (H3 : buckets h <> 0) by (cbn; lia).
    assert (H4 : 0 <= B h <= wordBits 8 - 4)
      by (vm_compute; split; discriminate).
    assert (H5 : 0 <= count h) by (cbn; lia).
    assert (H5' : count h + 1 < 2 ^ (wordBits 8 - 1))
      by (vm_compute; reflexivity).
    assert (H6 : assign_chain demoT (walk_fuel demo_world_full)
                   (bucketAt 8 demoT (buckets h)
                             (Z.land demo_hash8 (bucketMask 8 (B h))))
                   8 (tophash 8 demo_hash8) None demo_world_full
                 = Ok (None, None, 4096) demo_world_full)
      by (vm_compute; reflexivity).
    destruct (grow_started_iff 8 demo_maxAlloc roundup_page demoT
                demo_world_full h 8 demo_hash8 None 4096 None w'
                demo_ArchOK H1 H2 H3 H4 H5 H5' H6 E)
      as (h' & Hh' & _ & Hlf & _).
    destruct Hlf as (G & _ & EB & _); [cbn; lia|].
    exists w', h'. auto.
  - set (h := Hmap 1 0 0 1 13 4096 0 0 None).
    destruct (mapassign_again 8 demo_maxAlloc roundup_page demoT 7 demo_hash7
                              demo_world_crowded) as [r w' | e w'] eqn:E;
      [| vm_compute in E; discriminate].
    assert (Er : r = None) by (vm_compute in E; congruence).
    subst r.
    assert (H1 : hdr demo_world_crowded = Some h) by reflexivity.
    assert (H2 : growing h = false) by reflexivity.
    assert (H3 : buckets h <> 0) by (cbn; lia).
    assert (H4 : 0 <= B h <= wordBits 8 - 4)
      by (vm_compute; split; discriminate).
    assert (H5 : 0 <= count h) by (cbn; lia).
    assert (H5' : count h + 1 < 2 ^ (wordBits 8 - 1))
      by (vm_compute; reflexivity).
    assert (H6 : assign_chain demoT (walk_fuel demo_world_crowded)
                   (bucketAt 8 demoT (buckets h)
                             (Z.land demo_hash7 (bucketMask 8 (B h))))
                   7 (tophash 8 demo_hash7) None demo_world_crowded
                 = Ok (None, Some (4096, 1%nat), 4096) demo_world_crowded)
      by (vm_compute; reflexivity).
    destruct (grow_started_iff 8 demo_maxAlloc roundup_page demoT
                demo_world_crowded h 7 demo_hash7 (Some (4096, 1%nat)) 4096
                None w' demo_ArchOK H1 H2 H3 H4 H5 H5' H6 E)
      as (h' & Hh' & _ & _ & Htm & _).
    destruct Htm as (G & _ & EB & Es);
      [cbn; lia | apply Z.leb_le; vm_compute; reflexivity |].
    exists w', h'. auto.
Defined.

(** C9 as stated fails where the allocator rounds the request up: for
    [B = 8] and 144-byte buckets the [2^8 + 2^4] buckets asked for take
    39168 bytes, the allocator hands out 40960, and the array has 284
    buckets: 28 overflow buckets, not [2^(8-4) = 16].  The end-of-pool mark
    is on the last of the 28; the 16th has a nil overflow pointer. *)
Lemma makeBucketArray_rounds_pool :
  exists w',
    makeBucketArray 8 demo_maxAlloc roundup_page demoT 8 0
                    (init_world 4096 demo_rand)
    = Ok (4096, 4096 + 2 ^ 8 * 144) w' /\
    (brk w' - 4096) / 144 - 2 ^ 8 = 28 /\
    2 ^ (8 - 4) = 16 /\
    (exists bm, heap w' !! (4096 + (2 ^ 8 + 16 - 1) * 144) = Some bm /\
                b_overflow bm = 0) /\
    (exists bm, heap w' !! (4096 + (2 ^ 8 + 28 - 1) * 144) = Some bm /\
                b_overflow bm = 4096).
Proof.
  destruct (makeBucketArray 8 demo_maxAlloc roundup_page demoT 8 0
                    (init_world 4096 demo_rand)) as [[bk nx] w' | e w'] eqn:E.
  - exists w'.
    assert (E1 : match makeBucketArray 8 demo_maxAlloc roundup_page demoT 8 0
                    (init_world 4096 demo_rand) with
                 | Ok (bk, nx) w' =>
                     (bk, nx, (brk w' - 4096) / 144 - 2 ^ 8,
                      option_map b_overflow (heap w' !! (4096 + (2 ^ 8 + 16 - 1) * 144)),
                      option_map b_overflow (heap w' !! (4096 + (2 ^ 8 + 28 - 1) * 144)))
                     = (4096, 4096 + 2 ^ 8 * 144, 28, Some 0, Some 4096)
                 | Err _ _ => False
                 end) by (vm_compute; reflexivity).
    rewrite E in E1. injection E1 as -> -> E1 E2 E3.
    split; [reflexivity|]. split; [assumption|]. split; [reflexivity|].
    destruct (heap w' !! (4096 + (2 ^ 8 + 16 - 1) * 144)) as [b1|]; [|discriminate].
    destruct (heap w' !! (4096 + (2 ^ 8 + 28 - 1) * 144)) as [b2|]; [|discriminate].
    cbn in E2, E3. split; eexists; (split; [reflexivity | congruence]).
  - exfalso.
    assert (E1 : match makeBucketArray 8 demo_maxAlloc roundup_page demoT 8 0
                    (init_world 4096 demo_rand) with
                 | Ok _ _ => True
                 | Err _ _ => False
                 end) by (vm_compute; exact I).
    rewrite E in E1. exact E1.
Qed.

Lemma overflow_pool_witness :
  let w0 := init_world (K:=Z) (V:=Z) 4096 demo_rand in
  let heap1 : gmap Z (bmap Z Z) :=
    <[4240 := set_b_overflow 4096 (zero_bmap demoT)]>
      {[4096 := zero_bmap demoT]} in
  let h1 := set_extra (Some (Mapextra None None 4240))
              (set_buckets 4096 new_hmap) in
  let w1 := World (Some h1) heap1 4384 demo_rand [] in
  let w2 := World (Some (set_buckets 4096 new_hmap))
              {[4096 := zero_bmap demoT]} 4240 demo_rand [] in
  (exists w', makeBucketArray 8 demo_maxAlloc roundup_page demoT 4 0 w0
              = Ok (4096, 4096 + 2 ^ 4 * 144) w' /\
              brk w' = 4096 + 56 * 144) /\
  (exists w', newoverflow 8 demo_maxAlloc demoT 4096 w1 = Ok 4240 w' /\
              brk w' = 4384) /\
  (exists w', newoverflow 8 demo_maxAlloc demoT 4096 w2 = Ok 4240 w' /\
              brk w' = 4240 + 144).
Proof.
  intros w0 heap1 h1 w1 w2.
  destruct (overflow_pool 8 demo_maxAlloc roundup_page demoT
              demo_ArchOK demo_TypeOK) as (A & P & F).
  split; [|split].
  - destruct (A 4 w0 ∅) as (w' & extras & E & _ & _ & EB & _).
    + vm_compute. split; [discriminate | reflexivity].
    + reflexivity.
    + vm_compute. reflexivity.
    + vm_compute. reflexivity.
    + vm_compute. discriminate.
    + intros a _. apply fin_maps.lookup_empty.
    + exists w'. split; [exact E|]. rewrite EB. reflexivity.
  - destruct (P w1 h1 {[4096 := 4096]} 4096 (zero_bmap demoT) O)
      as (w' & h' & E & EB & _).
    + reflexivity.
    + vm_compute. discriminate.
    + intros a bm Ha. unfold w1, heap1 in Ha. cbn [heap] in Ha.
      apply lookup_insert_Some in Ha as [[<- _] | [_ Ha]]; [cbn; lia|].
      apply lookup_singleton_Some in Ha as [<- _]. cbn. lia.
    + reflexivity.
    + eexists. apply lookup_singleton_eq.
    + cbn [pool_at]. split; [discriminate|]. split; [reflexivity|].
      exists 4096. split; [reflexivity | discriminate].
    + exists w'. split; [exact E | exact EB].
  - destruct (F w2 (set_buckets 4096 new_hmap) 4096 (zero_bmap demoT))
      as (w' & h' & E & EB & _).
    + reflexivity.
    + reflexivity.
    + intros a bm Ha. cbn [heap w2] in Ha.
      apply lookup_singleton_Some in Ha as [<- _]. cbn. lia.
    + reflexivity.
    + vm_compute. discriminate.
    + exists w'. split; [exact E | exact EB].
Defined.







(** The one-bucket sample map is well formed. *)
Lemma demo_Inv_idle :
  Inv 8 demo_maxAlloc demoT demo_world_idle (Hmap 1 0 0 0 13 4096 0 0 None)
      {[4096 := 4096]}.
Proof.
  assert (Hch : chain (heap demo_world_idle) 4096 [4096]).
  { econstructor; [discriminate | reflexivity | constructor]. }
  constructor.
  - reflexivity.
  - vm_compute. split; [reflexivity | discriminate].
  - intros a bm Ha. cbn [heap demo_world_idle] in Ha.
    apply lookup_singleton_Some in Ha as [<- _].
    vm_compute. split; [reflexivity | discriminate].
  - intros b a Hb. apply lookup_singleton_Some in Hb as [<- _].
    eexists. reflexivity.
  - vm_compute. discriminate.
  - vm_compute. reflexivity.
  - intros E. discriminate.
  - intros _. vm_compute. split; [reflexivity | discriminate].
  - intros _ i Hi. assert (i = 0) as -> by (cbn in Hi; lia).
    exists [4096]. split.
    + split; [exact Hch|]. split.
      * intros b Hb. apply list_elem_of_singleton in Hb as ->. reflexivity.
      * split.
        -- change (tops_of (heap demo_world_idle) [4096])
             with [158; 0; 0; 0; 0; 0; 0; 0].
           apply (tidy_fill [158] [0; 0; 0; 0; 0; 0; 0]);
             repeat constructor.
        -- apply Forall_forall. intros [[x k] [[b c] v]] Hin.
           apply cells_of_in in Hin as (_ & Hc & bm & Hbm & -> & -> & _).
           cbn [heap demo_world_idle] in Hbm.
           apply lookup_singleton_Some in Hbm as [_ <-].
           unfold cell_ok. cbn [fst snd].
           destruct c as [| c].
           ++ split; [right; vm_compute; discriminate|].
              intros _ s r. cbn. discriminate.
           ++ split; [left; cbn; unfold emptyOne; lia|].
              cbn. unfold minTopHash. lia.
    + intros [Hg _]. discriminate.
  - intros Hg. discriminate.
  - reflexivity.
  - exists O. reflexivity.
Qed.


(** The sample map right after [hashGrow]: a same-size grow, with the old
    bucket still to be evacuated. *)
Definition demo_world_growing : world Z Z :=
  World (Some (Hmap 1 sameSizeGrow 0 0 13 4240 4096 0 None))
        (<[4240 := zero_bmap demoT]> {[ 4096 := demo_bucket ]})
        4384 demo_rand [].

Lemma demo_hashGrow :
  hashGrow 8 demo_maxAlloc roundup_page demoT demo_world_idle
  = Ok tt demo_world_growing.
Proof. vm_compute. reflexivity. Qed.

Lemma demo_Inv_growing :
  exists G,
    Inv 8 demo_maxAlloc demoT demo_world_growing
        (Hmap 1 sameSizeGrow 0 0 13 4240 4096 0 None) G.
Proof.
  destruct (hashGrow_ok 8 demo_maxAlloc roundup_page demoT demo_world_idle
              _ _ demo_world_growing demo_ArchOK demo_TypeOK demo_Inv_idle
              eq_refl ltac:(discriminate) demo_hashGrow)
    as (h' & G' & Hh' & I' & _).
  injection Hh' as <-. exists G'. exact I'.
Qed.

Lemma demo_hashable k : k <> 666 -> hashable demoT k.
Proof.
  intros Hk s r. cbn. unfold demo_hasher.
  destruct (Z.eqb_spec k 666); [contradiction|].
  destruct (0 <=? k); discriminate.
Qed.

Lemma overLoadFactor_arith_witness :
  overLoadFactor 8 14 1 = true <-> bucketCnt < 14 /\ 13 * 2 ^ 1 < 2 * 14.
Proof.
  apply (overLoadFactor_arith 8 demo_maxAlloc roundup_page 14 1 demo_ArchOK).
  - vm_compute. split; discriminate.
  - vm_compute. reflexivity.
Defined.

Lemma bucketMask_selects_bucket_witness :
  bucketShift 8 3 = 2 ^ 3 /\ bucketMask 8 3 = 2 ^ 3 - 1 /\
  Z.land 29 (bucketMask 8 3) = 29 mod 2 ^ 3 /\
  0 <= Z.land 29 (bucketMask 8 3) < bucketShift 8 3.
Proof.
  apply (bucketMask_selects_bucket 8 demo_maxAlloc roundup_page 3 29
           demo_ArchOK).
  vm_compute. split; [discriminate | reflexivity].
Defined.

Lemma hashGrow_keeps_entries_witness :
  exists h' G',
    hdr demo_world_growing = Some h' /\
    Inv 8 demo_maxAlloc demoT demo_world_growing h' G' /\
    growing h' = true /\ oldbuckets h' = 4096 /\ nevacuate h' = 0 /\
    writing h' = false /\ hash0 h' = 13 /\ count h' = 1 /\
    forall key v,
      found 8 demoT demo_world_idle (Hmap 1 0 0 0 13 4096 0 0 None) key v ->
      found 8 demoT demo_world_growing h' key v.
Proof.
  exact (hashGrow_keeps_entries 8 demo_maxAlloc roundup_page demoT
           demo_world_idle _ _ demo_world_growing demo_ArchOK demo_TypeOK
           demo_Inv_idle eq_refl ltac:(discriminate) demo_hashGrow).
Defined.

Lemma evacuate_keeps_entries_witness :
  exists w',
    evacuate 8 demo_maxAlloc demoT 0 demo_world_growing = Ok tt w' /\
    exists h' G',
      hdr w' = Some h' /\ Inv 8 demo_maxAlloc demoT w' h' G' /\
      forall key v,
        found 8 demoT demo_world_growing
              (Hmap 1 sameSizeGrow 0 0 13 4240 4096 0 None) key v ->
        found 8 demoT w' h' key v.
Proof.
  destruct demo_Inv_growing as [G I].
  destruct (evacuate_keeps_entries 8 demo_maxAlloc roundup_page demoT
              demo_world_growing _ G 0 demo_ArchOK demo_TypeOK I eq_refl)
    as [_ Hok].
  { vm_compute. split; [discriminate | reflexivity]. }
  assert (E : exists w', evacuate 8 demo_maxAlloc demoT 0 demo_world_growing
                         = Ok tt w')
    by (vm_compute; eexists; reflexivity).
  destruct E as [w' E]. exists w'. split; [exact E|].
  destruct (Hok w' E) as (h' & G' & Hh' & I' & _ & _ & _ & _ & _ & _ & K).
  exists h', G'. auto.
Defined.

Lemma growWork_clears_pending_witness :
  exists w',
    growWork 8 demo_maxAlloc demoT 0 demo_world_growing = Ok tt w' /\
    exists h' G',
      hdr w' = Some h' /\ Inv 8 demo_maxAlloc demoT w' h' G' /\
      ~ pending 8 demoT (heap w') h' 0.
Proof.
  destruct demo_Inv_growing as [G I].
  destruct (growWork_clears_pending 8 demo_maxAlloc roundup_page demoT
              demo_world_growing _ G 0 demo_ArchOK demo_TypeOK I eq_refl)
    as [_ Hok].
  assert (E : exists w', growWork 8 demo_maxAlloc demoT 0 demo_world_growing
                         = Ok tt w')
    by (vm_compute; eexists; reflexivity).
  destruct E as [w' E]. exists w'. split; [exact E|].
  destruct (Hok w' E) as (h' & G' & Hh' & I' & _ & _ & _ & _ & Hnp & _).
  exists h', G'. auto.
Defined.

Lemma advanceEvacuationMark_advances_witness :
  exists w' h',
    advanceEvacuationMark 8 demoT 1 demo_world_growing = Ok tt w' /\
    hdr w' = Some h' /\ nevacuate h' = 1 /\ oldbuckets h' = 0.
Proof.
  destruct demo_Inv_growing as [G I].
  destruct (advanceEvacuationMark_advances 8 demo_maxAlloc roundup_page demoT
              demo_world_growing _ G demo_ArchOK demo_TypeOK I eq_refl)
    as (w' & h' & E & Hh' & _ & _ & Hn & _ & _ & _ & Hend).
  change (noldbuckets 8 (Hmap 1 sameSizeGrow 0 0 13 4240 4096 0 None))
    with 1 in *.
  cbn [nevacuate] in Hn.
  assert (En : nevacuate h' = 1) by lia.
  rewrite En in Hend. cbn in Hend.
  exists w', h'. split; [exact E|]. split; [exact Hh'|].
  split; [exact En | apply Hend].
Defined.

Lemma put_then_get_witness :
  exists w',
    put 8 demo_maxAlloc roundup_page demoT 7 42 demo_world_idle = Ok tt w' /\
    maps_to 8 demoT w' 7 42.
Proof.
  assert (E : exists w', put 8 demo_maxAlloc roundup_page demoT 7 42
                             demo_world_idle = Ok tt w')
    by (vm_compute; eexists; reflexivity).
  destruct E as [w' E]. exists w'. split; [exact E|].
  apply (put_then_get 8 demo_maxAlloc roundup_page demoT demo_world_idle
           _ _ 7 42 w' 7 demo_ArchOK demo_TypeOK demo_Inv_idle E).
  reflexivity.
Defined.

Lemma demo_maps_to_1 : maps_to 8 demoT demo_world_idle 1 100.
Proof.
  eexists _, _. split; vm_compute; reflexivity.
Qed.

Lemma put_keeps_others_witness :
  exists w',
    put 8 demo_maxAlloc roundup_page demoT 7 42 demo_world_idle = Ok tt w' /\
    maps_to 8 demoT w' 1 100.
Proof.
  assert (E : exists w', put 8 demo_maxAlloc roundup_page demoT 7 42
                             demo_world_idle = Ok tt w')
    by (vm_compute; eexists; reflexivity).
  destruct E as [w' E]. exists w'. split; [exact E|].
  apply (put_keeps_others 8 demo_maxAlloc roundup_page demoT demo_world_idle
           _ _ 7 42 w' 1 100 demo_ArchOK demo_TypeOK demo_Inv_idle E).
  - reflexivity.
  - exact demo_maps_to_1.
Defined.

Lemma put_keeps_table_witness :
  exists w' h' G',
    put 8 demo_maxAlloc roundup_page demoT 7 42 demo_world_idle = Ok tt w' /\
    hdr w' = Some h' /\ Inv 8 demo_maxAlloc demoT w' h' G' /\
    Z.land (flags h') hashWriting = 0 /\ hash0 h' = 13.
Proof.
  destruct (put_keeps_table 8 demo_maxAlloc roundup_page demoT
              demo_world_idle _ _ 7 42 demo_ArchOK demo_TypeOK demo_Inv_idle)
    as [_ Hok].
  { apply demo_hashable. discriminate. }
  assert (E : exists w', put 8 demo_maxAlloc roundup_page demoT 7 42
                             demo_world_idle = Ok tt w')
    by (vm_compute; eexists; reflexivity).
  destruct E as [w' E].
  destruct (Hok w' E) as (h' & G' & H).
  exists w', h', G'. split; [exact E | exact H].
Defined.

Lemma demo_Bytes_idle : Bytes demo_world_idle.
Proof.
  intros a bm Ha. unfold demo_world_idle in Ha. cbn [heap] in Ha.
  apply lookup_singleton_Some in Ha as [_ <-].
  intros c. cbn. destruct (Nat.eqb c 0); lia.
Qed.

(** The map after [m[7] = 42] still holds key [1]. *)
Lemma demo_two_keys w1 :
  put 8 demo_maxAlloc roundup_page demoT 7 42 demo_world_idle = Ok tt w1 ->
  exists h G, Inv 8 demo_maxAlloc demoT w1 h G /\ Bytes w1 /\
              maps_to 8 demoT w1 1 100.
Proof.
  intros E.
  pose proof (put_wp 8 demo_maxAlloc roundup_page demoT demo_world_idle
                _ _ 7 42 demo_ArchOK demo_TypeOK demo_Inv_idle
                (demo_hashable 7 ltac:(lia))) as Hwp.
  destruct (wp_ok _ _ _ _ _ Hwp E)
    as (h' & G' & Hh' & I' & W' & _ & _ & K').
  exists h', G'. split; [exact I'|]. split.
  - exact (proj1 (kb_put 8 demo_maxAlloc roundup_page demoT 7 42
                    demo_world_idle tt w1 demo_Bytes_idle E)).
  - pose proof (maps_to_found 8 demo_maxAlloc roundup_page demoT
                  demo_world_idle _ _ 1 100 demo_ArchOK demo_TypeOK
                  demo_Inv_idle demo_maps_to_1) as F.
    apply (found_maps_to 8 demo_maxAlloc roundup_page demoT w1 h' G');
      try assumption; try apply demo_ArchOK; try apply demo_TypeOK.
    apply K'; [reflexivity | reflexivity | exact F].
Qed.

Lemma delete_keeps_others_witness :
  exists w1 w2,
    put 8 demo_maxAlloc roundup_page demoT 7 42 demo_world_idle = Ok tt w1 /\
    mapdelete 8 demo_maxAlloc demoT 7 w1 = Ok tt w2 /\
    maps_to 8 demoT w2 1 100.
Proof.
  assert (E : exists w2,
             bind (put 8 demo_maxAlloc roundup_page demoT 7 42)
                  (fun _ => mapdelete 8 demo_maxAlloc demoT 7) demo_world_idle
             = Ok tt w2)
    by (vm_compute; eexists; reflexivity).
  destruct E as (w2 & E).
  apply bind_ok in E as ([] & w1 & E1 & E2). exists w1, w2.
  split; [exact E1|]. split; [exact E2|].
  destruct (demo_two_keys w1 E1) as (h & G & I & HB & F).
  apply (delete_keeps_others 8 demo_maxAlloc roundup_page demoT w1 h G 7 w2
           1 100 demo_ArchOK demo_TypeOK I HB (demo_hashable 7 ltac:(lia))
           E2).
  - reflexivity.
  - exact F.
Defined.

Lemma delete_keeps_table_witness :
  (forall e w', mapdelete 8 demo_maxAlloc demoT 1 demo_world_idle = Err e w' ->
                recoverable e = false) /\
  (forall w', mapdelete 8 demo_maxAlloc demoT 1 demo_world_idle = Ok tt w' ->
     exists h' G',
       hdr w' = Some h' /\ Inv 8 demo_maxAlloc demoT w' h' G' /\ Bytes w' /\
       writing h' = false /\ hash0 h' = 13 /\
       (1 <> 0 -> writing h' = false)).
Proof.
  exact (delete_keeps_table 8 demo_maxAlloc roundup_page demoT demo_world_idle _ _ 1
           demo_ArchOK demo_TypeOK demo_Inv_idle demo_Bytes_idle
           (demo_hashable 1 ltac:(lia))).
Defined.

Lemma demo_Mem_init : Mem demo_maxAlloc demoT (init_world 4096 demo_rand).
Proof.
  split; [unfold demo_maxAlloc; cbn; lia|].
  intros a bm Ha. cbn in Ha. rewrite fin_maps.lookup_empty in Ha.
  discriminate.
Qed.

Lemma makemap_empty_witness :
  exists w',
    makemap 8 demo_maxAlloc roundup_page demoT 20 (init_world 4096 demo_rand)
    = Ok tt w' /\
    maplen w' = 0 /\ misses 8 demoT w' 5.
Proof.
  assert (E : exists w', makemap 8 demo_maxAlloc roundup_page demoT 20
                           (init_world 4096 demo_rand) = Ok tt w')
    by (vm_compute; eexists; reflexivity).
  destruct E as [w' E]. exists w'. split; [exact E|].
  destruct (makemap_empty 8 demo_maxAlloc roundup_page demoT 20
              (init_world 4096 demo_rand) w' demo_ArchOK demo_TypeOK
              demo_Mem_init eq_refl ltac:(change (wordBits 8) with 64; lia) E)
    as (_ & Hlen & Hmiss & _).
  split; [exact Hlen|]. apply Hmiss. apply demo_hashable. lia.
Defined.

Lemma demo_Ext_idle : Ext 8 demo_maxAlloc roundup_page demoT demo_world_idle.
Proof.
  intros h [= <-]. unfold ext_ok. cbn [B buckets extra brk demo_world_idle].
  split; [lia|]. split; [unfold demo_maxAlloc; lia|].
  split; [intros; discriminate|]. intros _.
  split; [lia|]. split; [vm_compute; discriminate|].
  split; [vm_compute; discriminate|]. intros Hx. exfalso. apply Hx.
  vm_compute. reflexivity.
Qed.

Lemma mapclear_empties_witness :
  exists w',
    mapclear 8 demo_maxAlloc roundup_page demoT demo_world_idle = Ok tt w' /\
    maplen w' = 0 /\ misses 8 demoT w' 1.
Proof.
  destruct (mapclear_empties 8 demo_maxAlloc roundup_page demoT
              demo_world_idle _ _ demo_ArchOK demo_TypeOK demo_Inv_idle
              demo_Ext_idle eq_refl)
    as (w' & h' & G' & E & _ & _ & _ & Hlen & Hmiss & _).
  exists w'. split; [exact E|]. split; [exact Hlen|].
  apply Hmiss. apply demo_hashable. lia.
Defined.
Lemma delete_restores_shortcut_witness :
  (exists w' h',
     mapdelete 8 demo_maxAlloc demoT 1 demo_world_idle = Ok tt w' /\
     hdr w' = Some h' /\
     forall l, chain (heap w') 4096 l -> shortcut (tops_of (heap w') l)) /\
  (exists w',
     delete_cell demoT 4096 4096 0 demo_world_idle = Ok tt w' /\
     (exists pre post bm,
        heap demo_world_idle !! 4096 = Some bm /\
        cells_of (heap demo_world_idle) [4096]
        = pre ++ cell_at bm 4096 0 :: post /\
        tops_of (heap w') [4096]
        = if not_last post
          then map cell_top pre ++ emptyOne :: map cell_top post
          else wipe_tops (map cell_top pre)
               ++ emptyRest :: map cell_top post) /\
     tops_of (heap w') [4096] = [0; 0; 0; 0; 0; 0; 0; 0]).
Proof.
  destruct (delete_restores_shortcut 8 demo_maxAlloc roundup_page demoT
              demo_ArchOK demo_TypeOK) as [PA PB].
  split.
  - destruct (mapdelete 8 demo_maxAlloc demoT 1 demo_world_idle)
      as [[] w' | e w'] eqn:E.
    2:{ exfalso.
        assert (X : match mapdelete 8 demo_maxAlloc demoT 1
                            demo_world_idle with
                    | Ok _ _ => True
                    | Err _ _ => False
                    end) by (vm_compute; exact Logic.I).
        rewrite E in X. exact X. }
    assert (X : match mapdelete 8 demo_maxAlloc demoT 1 demo_world_idle with
                | Ok _ w' =>
                    option_map (fun h => (B h, buckets h)) (hdr w')
                    = Some (0, 4096)
                | Err _ _ => False
                end) by (vm_compute; reflexivity).
    rewrite E in X.
    destruct (PA demo_world_idle _ _ 1 w' demo_Inv_idle demo_Bytes_idle
                (demo_hashable 1 ltac:(discriminate)) E)
      as (h' & Hh' & Hnew & _).
    rewrite Hh' in X. injection X as XB Xb.
    exists w', h'. split; [reflexivity|]. split; [exact Hh'|].
    intros l C. apply (Hnew 0 l).
    + rewrite Xb. discriminate.
    + rewrite XB. vm_compute. split; [discriminate | reflexivity].
    + unfold newb. rewrite Xb. exact C.
  - destruct (delete_cell demoT 4096 4096 0 demo_world_idle)
      as [[] w' | e w'] eqn:E.
    2:{ exfalso.
        assert (X : match delete_cell demoT 4096 4096 0 demo_world_idle with
                    | Ok _ _ => True
                    | Err _ _ => False
                    end) by (vm_compute; exact Logic.I).
        rewrite E in X. exact X. }
    assert (X : match delete_cell demoT 4096 4096 0 demo_world_idle with
                | Ok _ w' =>
                    tops_of (heap w') [4096] = [0; 0; 0; 0; 0; 0; 0; 0]
                | Err _ _ => False
                end) by (vm_compute; reflexivity).
    rewrite E in X. exists w'. split; [reflexivity|]. split; [|exact X].
    apply (PB demo_world_idle _ _ 1 (1 * 11400714819323198485 + 13) [4096]
             4096 O 100 w' demo_Inv_idle demo_Bytes_idle).
    + discriminate.
    + intros [Hg _]. discriminate.
    + econstructor; [discriminate | reflexivity | constructor].
    + vm_compute. reflexivity.
    + exact E.
Defined.
